(* ===== verification/_CoqProject ===== *)
-Q . S2P
Prelude.v
CppStd.v
Worklist.v
SccDag.v
Noelle.v
Planner.v
TimeSaved.v
RuntimeCores.v
RuntimePool.v
RuntimeDoall.v
RuntimeHelix.v
RuntimeDswp.v
Parallelizer.v
TechniqueGuards.v
DswpStages.v
DswpQueues.v
DswpApply.v
Heuristics.v
DoallGuard.v
DoallChunking.v
