(* ===== verification/Prelude.v ===== *)
(** * Gino: a verification library of the parallelizing compiler

    Gino parallelizes the loops of a program in LLVM's IR.  A planner selects
    the loops worth parallelizing and orders them; the parallelizer applies to
    each the first of three techniques that fits (DOALL: the iterations are
    independent; HELIX: they overlap, but for sequential segments executed in
    iteration order; DSWP: a pipeline of stages); the code they generate calls a
    runtime that dispatches the tasks on threads.  This library models the
    decisions of the compiler, the structure of the code it generates and the
    runtime, and proves what makes them correct.  The paths below are relative
    to [src/src/core].

    ** The parts, and where they are

    Shared by all:
    - [Prelude] (this file): C++ integers at their width as [Z] with [u32],
      [u64], [s32], [s64], the congruence [eqm] they respect, the outcomes of a
      call ([Ok], or [abort], a failed [assert], an exception, undefined
      behaviour), reachability of a step relation, and the automation;
    - [CppStd]: decimal text, [std::sort], the iteration order of [std::map],
      IEEE [double] and [float];
    - [Worklist]: the two traversals with a [std::queue] and a set of visited
      nodes the sources write again and again, with the fuel they need, what
      they visit and the edges they look at;
    - [SccDag], [Noelle]: what the sources ask of NOELLE, the framework Gino is
      built on (not part of the repository): dependence graphs, loop nesting
      trees, metadata, profiles, induction variables.  They are records of
      answers, and type classes with the laws the code relies on; each class has
      an instance the concrete inputs use.

    The compiler:
    - [Planner] ([parallelization_planner/src]): time saved by a loop, the best
      combination over the loop nesting tree, the order, the attached indices;
    - [TimeSaved] ([src/src/tools/time_saved]): the stand-alone estimate;
    - [Parallelizer] ([parallelizer/src]): the queue functions of the runtime,
      the choice of a technique, the loops in the planned order;
    - [DoallGuard], [DoallChunking] ([doall/src]): when DOALL applies, and the
      iterations its generated task runs;
    - [TechniqueGuards] ([helix/src/HELIX_applicabilityGuard.cpp],
      [dswp/src/DSWP.cpp], [DSWP_clonableSCCs.cpp], and the parent class in
      [parallelization_technique/src]): when HELIX and DSWP apply;
    - [Heuristics] ([heuristics/src]): the cost model with its memo tables, and
      the merging of SCCs until there are no more sets than cores;
    - [DswpStages], [DswpQueues], [DswpApply] ([dswp/src]): the stages, the
      queues between them, and [DSWP::apply] up to the code generation.

    The runtime ([runtime/Parallelizer_utils.cpp]):
    - [RuntimeCores]: how many cores a dispatcher is granted;
    - [RuntimePool]: the recycled blocks of task arguments;
    - [RuntimeDoall], [RuntimeHelix], [RuntimeDswp]: the dispatchers with the
      trampolines, locks and queues, as transition systems of a dispatching
      thread and workers that run at any speed.  DOALL tasks do not wait for each
      other and DSWP stages are taken in the order of their submission, so any
      number of workers will do; the instances of HELIX wait for each other, and
      [RuntimeHelix] has a pool with a given number of threads, each of which
      keeps an instance until its function returns.

    ** How a definition corresponds to the code

    A definition has the name of the function it models, its parameters are the
    fields and globals the function reads, its result those it writes.  Loops
    over containers are structural; a loop that is not takes fuel and returns
    [None] when it runs out, and a theorem gives fuel that is always enough:
    one round more than there are sets for the merging ([merging_terminates]),
    twice the nodes or one more than the edges of the dependence graph for the
    traversals of DSWP ([enough_fuel], [control_fuel]), a bound computed from
    the iteration count for the generated loops.  A thread blocked on a lock or
    an empty queue has no step.  A [for] loop of the runtime counts with an
    [int] whatever the type of its bound: passing [INT_MAX] is undefined
    behaviour, as is the use of a pointer that [posix_memalign] left null
    without a check.  Iteration over a [std::set] of pointers is in
    the order of the addresses, over an unordered container in a given order.

    ** What the theorems show

    - Functional correctness of the whole execution: DOALL runs every iteration
      of the loop exactly once with the values of the sequential loop, composing
      the generated code with the dispatcher ([DoallChunking]); HELIX executes
      every sequential segment in iteration order when there is an array of
      locks per core, however the segments of an iteration overlap
      ([RuntimeHelix]); a DSWP pipeline computes the same
      under every schedule ([RuntimeDswp]).
    - Absence of deadlock and termination of the three dispatchers, by a measure
      every step decreases and a step from every state that is not final; for
      HELIX this needs a thread of the pool for every instance submitted, which
      the counter of idle cores ensures while it is not negative.
    - Exclusive use of shared memory: the blocks of arguments held by different
      dispatchers are distinct; critical sections exclude each other.
    - Compiler and runtime agree: every queue of a compiled pipeline has a size
      the dispatcher can allocate, wide enough for its values, and the
      parallelizer has functions for; every value and every decision a stage needs is sent to it.
    - Invariants and totality of the analyses: the tables of a pipeline agree,
      its stage structure passes the assertion of the code, the partition
      heuristic terminates with the cheapest merges.
    - Optimality and order of the plan: the savings computed are those of the
      best combination, the indices attached are those of the selected loops,
      and the loops are parallelized in that order, none sharing a block.
    - Where the code does not do what it says, a theorem states what it does:
      the cores granted are oversubscribed under contention, a HELIX loop with
      more instances than threads never returns, the sequential fraction DSWP's
      guard tests is always zero, [abort] counts as a loop exit, a DOALL loop
      nested in one that is not DOALL is not counted, by the planner or by the
      estimate.

    ** What is not modelled, and why

    - The construction of LLVM's IR through NOELLE (cloning of loop bodies,
      environments, linking): the values the generated instructions compute are
      modelled where they decide correctness ([DoallChunking]), the mutation of
      the IR is not, its semantics being LLVM's and NOELLE's.
    - The analyses of NOELLE (dependences, SCCs, dominators, profiles): answers.
      The pool of threads (VIRGIL): that it runs what is submitted, in any order
      where the order does not matter.
    - The compile-time side of HELIX (sequential segments, spilling, stepper),
      the inliner, the enablers and the autotuner tools; pass registration,
      options, printing, scripts and tests.

    ** Plan of the next extensions

    - HELIX at compile time: which SCCs need a sequential segment and where its
      entries and exits are ([HELIX_sequentialSegments.cpp],
      [HELIX_sequentialSegment.cpp]: every path of an iteration through a
      segment meets a wait before and a signal after it), the stepper
      ([HELIX_stepper.cpp]) composed with the dispatcher as for DOALL;
    - the inliner ([inliner/src]): the call graph it explores, its depth order,
      and the indices of the loops after inlining;
    - the enablers' worklist and the autotuner's search space. *)

From Stdlib Require Export Lia ZArith.
From stdpp Require Export sorting.
From stdpp Require Export base option strings numbers gmap sets list.

Declare Scope gino_scope.
Delimit Scope gino_scope with gino.
#[global] Open Scope Z_scope.
#[global] Open Scope gino_scope.

(** ** Machine integers

    A C++ integer of width [w] is a [Z] in its range; every conversion and
    every wrapping operation of the source is written out with the functions
    below. *)

Definition wrap (w z : Z) : Z := z `mod` 2 ^ w.

Definition swrap (w z : Z) : Z :=
  let u := wrap w z in if u <? 2 ^ (w - 1) then u else u - 2 ^ w.

Definition u32 (z : Z) : Z := wrap 32 z.
Definition u64 (z : Z) : Z := wrap 64 z.
Definition s32 (z : Z) : Z := swrap 32 z.
Definition s64 (z : Z) : Z := swrap 64 z.

Definition is_u (w z : Z) : Prop := 0 ≤ z < 2 ^ w.
Definition is_s (w z : Z) : Prop := - 2 ^ (w - 1) ≤ z < 2 ^ (w - 1).

(** Congruence modulo [2 ^ w]: the equivalence wrapping arithmetic respects. *)
Definition eqm (w a b : Z) : Prop := wrap w a = wrap w b.

#[export] Instance eqm_equivalence w : Equivalence (eqm w).
Proof. split; unfold eqm; congruence. Qed.

#[export] Instance eqm_add w : Proper (eqm w ==> eqm w ==> eqm w) Z.add.
Proof.
  unfold eqm, wrap. intros a b H c d K.
  by rewrite (Zplus_mod a), (Zplus_mod b), H, K.
Qed.

#[export] Instance eqm_sub w : Proper (eqm w ==> eqm w ==> eqm w) Z.sub.
Proof.
  unfold eqm, wrap. intros a b H c d K.
  by rewrite (Zminus_mod a), (Zminus_mod b), H, K.
Qed.

#[export] Instance eqm_mul w : Proper (eqm w ==> eqm w ==> eqm w) Z.mul.
Proof.
  unfold eqm, wrap. intros a b H c d K.
  by rewrite (Zmult_mod a), (Zmult_mod b), H, K.
Qed.

Lemma pow2_pos w : 0 ≤ w → 0 < 2 ^ w.
Proof. intros. by apply Z.pow_pos_nonneg. Qed.

Lemma wrap_small w z : is_u w z → wrap w z = z.
Proof. apply Z.mod_small. Qed.

Lemma wrap_range w z : 0 ≤ w → is_u w (wrap w z).
Proof. intros. apply Z.mod_pos_bound, pow2_pos; done. Qed.

Lemma wrap_eqm w z : eqm w (wrap w z) z.
Proof. unfold eqm, wrap. by rewrite Zmod_mod. Qed.

Lemma swrap_eqm w z : eqm w (swrap w z) z.
Proof.
  unfold swrap. destruct (_ <? _); [apply wrap_eqm |].
  unfold eqm, wrap. rewrite Zminus_mod, Z_mod_same_full, Z.sub_0_r.
  by rewrite !Zmod_mod.
Qed.

Lemma swrap_range w z : 1 ≤ w → is_s w (swrap w z).
Proof.
  intros Hw. unfold swrap, is_s.
  destruct (wrap_range w z) as [H1 H2]; [lia |].
  assert (2 ^ w = 2 * 2 ^ (w - 1)) as E.
  { rewrite <- Z.pow_succ_r by lia. f_equal. lia. }
  destruct (Z.ltb_spec (wrap w z) (2 ^ (w - 1))); lia.
Qed.

(** Two values of the signed range that are congruent are equal. *)
Lemma eqm_signed_eq w a b : 1 ≤ w → is_s w a → is_s w b → eqm w a b → a = b.
Proof.
  unfold is_s, eqm, wrap. intros Hw Ha Hb H.
  assert (2 ^ w = 2 * 2 ^ (w - 1)) as E.
  { rewrite <- Z.pow_succ_r by lia. f_equal. lia. }
  assert (2 ^ w ≠ 0) as N by (pose proof (pow2_pos w); lia).
  pose proof (Z.div_mod a _ N). pose proof (Z.div_mod b _ N).
  assert (a - b = 2 ^ w * (a / 2 ^ w - b / 2 ^ w)) by lia.
  assert (a / 2 ^ w - b / 2 ^ w = 0) by nia. lia.
Qed.

Lemma eqm_unsigned_eq w a b : is_u w a → is_u w b → eqm w a b → a = b.
Proof. unfold eqm. intros Ha Hb. by rewrite !wrap_small. Qed.

Lemma swrap_small w z : 1 ≤ w → is_s w z → swrap w z = z.
Proof.
  intros. apply (eqm_signed_eq w); [done | by apply swrap_range | done |].
  apply swrap_eqm.
Qed.

(** Concrete powers, so that [lia] sees numerals. *)
Lemma is_u32_iff z : is_u 32 z ↔ 0 ≤ z < 4294967296.
Proof. done. Qed.
Lemma is_u64_iff z : is_u 64 z ↔ 0 ≤ z < 18446744073709551616.
Proof. done. Qed.
Lemma is_s32_iff z : is_s 32 z ↔ - 2147483648 ≤ z < 2147483648.
Proof. done. Qed.
Lemma is_s64_iff z :
  is_s 64 z ↔ - 9223372036854775808 ≤ z < 9223372036854775808.
Proof. done. Qed.

Lemma u32_small z : 0 ≤ z < 4294967296 → u32 z = z.
Proof. intros. by apply wrap_small. Qed.
Lemma u64_small z : 0 ≤ z < 18446744073709551616 → u64 z = z.
Proof. intros. by apply wrap_small. Qed.
Lemma s32_small z : - 2147483648 ≤ z < 2147483648 → s32 z = z.
Proof. intros. by apply swrap_small. Qed.

Lemma u32_range z : 0 ≤ u32 z < 4294967296.
Proof. by apply wrap_range. Qed.
Lemma u64_range z : 0 ≤ u64 z < 18446744073709551616.
Proof. by apply wrap_range. Qed.
Lemma s32_range z : - 2147483648 ≤ s32 z < 2147483648.
Proof. exact (swrap_range 32 z ltac:(lia)). Qed.

Lemma u32_neg z : - 4294967296 ≤ z < 0 → u32 z = z + 4294967296.
Proof.
  intros. unfold u32, wrap. change (2 ^ 32) with 4294967296.
  symmetry. apply (Z.mod_unique_pos _ _ (-1)); lia.
Qed.

(** [sum]: the exact sum of a list of integers. *)
Fixpoint zsum (l : list Z) : Z :=
  match l with [] => 0 | x :: l => x + zsum l end.

Lemma zsum_app l k : zsum (l ++ k) = zsum l + zsum k.
Proof. induction l; simpl; lia. Qed.

Lemma zsum_perm l k : l ≡ₚ k → zsum l = zsum k.
Proof. induction 1; simpl; lia. Qed.

#[export] Instance zsum_proper : Proper ((≡ₚ) ==> eq) zsum.
Proof. intros l k. apply zsum_perm. Qed.

(** ** Outcomes

    A call returns a value, or ends the process: [abort()], a failed
    [assert], an exception nobody catches, or undefined behaviour. *)

Inductive failure := Aborted | AssertionFailed | Thrown | UndefinedBehaviour.

Inductive outcome (A : Type) := Ok (a : A) | Fail (why : failure).
Arguments Ok {A} a.
Arguments Fail {A} why.

#[export] Instance outcome_ret : MRet outcome := λ A a, Ok a.
#[export] Instance outcome_bind : MBind outcome := λ A B f o,
  match o with Ok a => f a | Fail e => Fail e end.
#[export] Instance outcome_fmap : FMap outcome := λ A B f o,
  match o with Ok a => Ok (f a) | Fail e => Fail e end.

#[export] Instance failure_eq_dec : EqDecision failure.
Proof. solve_decision. Defined.
#[export] Instance outcome_eq_dec `{EqDecision A} : EqDecision (outcome A).
Proof. solve_decision. Defined.

Definition assert_that (b : bool) : outcome unit :=
  if b then Ok tt else Fail AssertionFailed.

(** A loop [for (auto i = 0; i < bound; i++)] runs with an [int] index, whatever
    the type of its bound: incrementing it past [INT_MAX] is undefined. *)
Definition INT_MAX : Z := 2147483647.

Definition int_loop (bound : Z) : outcome unit :=
  if bound <=? INT_MAX then Ok tt else Fail UndefinedBehaviour.

Lemma int_loop_ok bound : bound ≤ INT_MAX → int_loop bound = Ok tt.
Proof. unfold int_loop. intros. by destruct (Z.leb_spec bound INT_MAX); [| lia]. Qed.

Lemma bind_Ok_inv {A B} (f : A → outcome B) (o : outcome A) b :
  o ≫= f = Ok b → ∃ a, o = Ok a ∧ f a = Ok b.
Proof. destruct o; cbn; [eauto | done]. Qed.

(** ** Reachability of a transition relation *)

Section star.
Context {S : Type} (step : S → S → Prop).

Definition steps : S → S → Prop := rtc step.

(** An invariant of every step holds in every reachable state. *)
Lemma steps_invariant (I : S → Prop) :
  (∀ s s', I s → step s s' → I s') →
  ∀ s s', steps s s' → I s → I s'.
Proof. intros HI s s' H. induction H; eauto. Qed.

(** A measure that every step from an invariant state decreases bounds the
    length of every run. *)
Lemma steps_bounded (I : S → Prop) (m : S → nat) :
  (∀ s s', I s → step s s' → I s' ∧ (m s' < m s)%nat) →
  ∀ n s s', I s → nsteps step n s s' → (n + m s' ≤ m s)%nat.
Proof.
  intros HI n s s' Hs H. induction H as [| n x y z Hxy Hyz IH]; [lia |].
  destruct (HI x y Hs Hxy) as [Hy Hm]. specialize (IH Hy). lia.
Qed.

(** If moreover every non-final invariant state has a step, every state can
    be run to a final one. *)
Lemma steps_reach_final (I final : S → Prop) (m : S → nat) :
  (∀ s s', I s → step s s' → I s' ∧ (m s' < m s)%nat) →
  (∀ s, I s → final s ∨ ∃ s', step s s') →
  ∀ s, I s → ∃ s', steps s s' ∧ final s'.
Proof.
  intros HI HP s. remember (m s) as k eqn:Ek. revert s Ek.
  induction k as [k IH] using lt_wf_ind. intros s -> Hs.
  destruct (HP s Hs) as [Hf | [s' Hss']]; [by exists s; split; [constructor |] |].
  destruct (HI s s' Hs Hss') as [Hs' Hm].
  destruct (IH (m s') Hm s' eq_refl Hs') as (s'' & Hr & Hf).
  exists s''. split; [by eapply rtc_l | done].
Qed.

(** Random descent: if any two different steps from an invariant state can be
    joined by one step each, then every run makes progress towards the normal
    form that some run reaches, in the same number of steps. *)
Lemma random_descent (I : S → Prop) :
  (∀ s s', I s → step s s' → I s') →
  (∀ s a b, I s → step s a → step s b → a = b ∨ ∃ c, step a c ∧ step b c) →
  ∀ k s z, I s → nsteps step k s z → (∀ z', ¬ step z z') →
  ∀ b, step s b → ∃ j, k = Datatypes.S j ∧ nsteps step j b z.
Proof.
  intros HI HD k. induction k as [| k IH]; intros s z Hs Hz Hnf b Hb.
  - inversion Hz; subst. by destruct (Hnf b).
  - inversion Hz as [| ? ? a ? Ha Haz]; subst. exists k. split; [done |].
    destruct (HD s a b Hs Ha Hb) as [-> | (c & Hac & Hbc)]; [done |].
    destruct (IH a z (HI _ _ Hs Ha) Haz Hnf c Hac) as (j & -> & Hcz). by econstructor.
Qed.

Lemma unique_normal_form (I : S → Prop) :
  (∀ s s', I s → step s s' → I s') →
  (∀ s a b, I s → step s a → step s b → a = b ∨ ∃ c, step a c ∧ step b c) →
  ∀ s y z, I s → steps s y → steps s z →
  (∀ z', ¬ step y z') → (∀ z', ¬ step z z') → y = z.
Proof.
  intros HI HD s y z Hs Hy [k Hz]%rtc_nsteps Hny Hnz. revert k Hs Hz.
  induction Hy as [s | s b y Hsb Hby IH]; intros k Hs Hz.
  - destruct Hz as [| k s a z Ha Haz]; [done | by destruct (Hny a)].
  - destruct (random_descent I HI HD k s z Hs Hz Hnz b Hsb) as (j & -> & Hj). eauto.
Qed.
End star.

(** What an updated list holds at a position. *)
Lemma lookup_update {A} (l : list A) c x x' d y :
  l !! c = Some x → <[c:=x']> l !! d = Some y →
  (d = c ∧ y = x') ∨ (d ≠ c ∧ l !! d = Some y).
Proof.
  intros Hc Hd. destruct (decide (d = c)) as [-> | Hne].
  - left. rewrite list_lookup_insert_eq in Hd by (by eapply lookup_lt_Some). by injection Hd.
  - right. by rewrite list_lookup_insert_ne in Hd.
Qed.

(** ** Automation shared by the development *)

Create HintDb gino.
Create Rewrite HintDb gino_rw.
#[export] Hint Resolve u32_range u64_range s32_range : gino.
#[export] Hint Rewrite zsum_app : gino_rw.

(** Split the conjunctions and the boolean tests of the context. *)
Ltac simplify_tests :=
  repeat match goal with
  | H : (_ <? _) = true |- _ => apply Z.ltb_lt in H
  | H : (_ <? _) = false |- _ => apply Z.ltb_ge in H
  | H : (_ <=? _) = true |- _ => apply Z.leb_le in H
  | H : (_ <=? _) = false |- _ => apply Z.leb_gt in H
  | H : (_ =? _) = true |- _ => apply Z.eqb_eq in H
  | H : (_ =? _) = false |- _ => apply Z.eqb_neq in H
  | H : (_ && _) = true |- _ => apply andb_true_iff in H; destruct H
  | H : (_ || _) = false |- _ => apply orb_false_iff in H; destruct H
  | H : negb _ = true |- _ => apply negb_true_iff in H
  | H : negb _ = false |- _ => apply negb_false_iff in H
  end.

(** Case analysis on the tests of the goal, as the source branches on them. *)
Ltac case_tests :=
  repeat match goal with
  | |- context [if ?b then _ else _] =>
      lazymatch b with
      | context [if _ then _ else _] => fail
      | _ => lazymatch type of b with bool => destruct b eqn:? end
      end
  end; simplify_tests.
