(* ===== verification/CppStd.v ===== *)
(** * The C++ standard library, as far as the sources use it

    Decimal conversions ([std::to_string], [std::stoi], [atoi]), iteration over
    a [std::map] in key order, and [std::sort] with its requirement that the
    comparator is a strict weak order. *)

From Stdlib Require Import Ascii SpecFloat.
From S2P Require Import Prelude.

(** ** Decimal conversions on lists of characters *)
Module Dec.

Definition text := list ascii.

Definition digit_char (d : Z) : ascii := ascii_of_nat (Z.to_nat (48 + d)).

Definition char_digit (c : ascii) : option Z :=
  let n := Z.of_nat (nat_of_ascii c) in
  if (48 <=? n) && (n <=? 57) then Some (n - 48) else None.

Definition is_space (c : ascii) : bool :=
  let n := Z.of_nat (nat_of_ascii c) in (n =? 32) || ((9 <=? n) && (n <=? 13)).

(** The decimal digits of a non-negative [n]; [fuel] is at least their number. *)
Fixpoint digits (fuel : nat) (n : Z) (acc : text) : text :=
  match fuel with
  | O => acc
  | S f => if n <? 10 then digit_char n :: acc
           else digits f (n / 10) (digit_char (n mod 10) :: acc)
  end.

(** 20 digits are enough for every 64-bit integer. *)
Definition to_string (n : Z) : text :=
  if n <? 0 then "-"%char :: digits 20 (- n) [] else digits 20 n [].

(** The value of the longest prefix of digits, with the number of them. *)
Fixpoint parse_digits (v : Z) (seen : nat) (s : text) : Z * nat :=
  match s with
  | [] => (v, seen)
  | c :: s' => match char_digit c with
               | Some d => parse_digits (v * 10 + d) (S seen) s'
               | None => (v, seen)
               end
  end.

Fixpoint skip_spaces (s : text) : text :=
  match s with
  | c :: s' => if is_space c then skip_spaces s' else s
  | [] => []
  end.

(** [strtol] in base 10: value, and whether a conversion was made. *)
Definition strtol (s : text) : Z * bool :=
  match skip_spaces s with
  | c :: s' =>
      if ascii_dec c "-" then let '(v, k) := parse_digits 0 0 s' in (- v, negb (Nat.eqb k 0))
      else if ascii_dec c "+" then let '(v, k) := parse_digits 0 0 s' in (v, negb (Nat.eqb k 0))
      else let '(v, k) := parse_digits 0 0 (c :: s') in (v, negb (Nat.eqb k 0))
  | [] => (0, false)
  end.

(** [std::stoi] throws [invalid_argument] without a conversion and
    [out_of_range] when the value is not an [int]. *)
Definition stoi (s : text) : outcome Z :=
  let '(v, ok) := strtol s in
  if ok then
    if (- 2147483648 <=? v) && (v <=? 2147483647) then Ok v else Fail Thrown
  else Fail Thrown.

(** [atoi] is 0 without a conversion; out of range it is the wrapped value of
    glibc's [(int)strtol(...)]. *)
Definition atoi (s : text) : Z := s32 (strtol s).1.

Lemma char_digit_of d : 0 ≤ d < 10 → char_digit (digit_char d) = Some d.
Proof.
  intros H. assert (d = 0 ∨ d = 1 ∨ d = 2 ∨ d = 3 ∨ d = 4 ∨ d = 5 ∨ d = 6 ∨
                    d = 7 ∨ d = 8 ∨ d = 9) as K by lia.
  by repeat destruct K as [-> | K]; [..| subst d].
Qed.

Lemma parse_digits_acc fuel : ∀ n k acc,
  0 ≤ n < 10 ^ Z.of_nat fuel → (0 < fuel)%nat →
  ∃ j, (k < j)%nat ∧ parse_digits 0 k (digits fuel n acc) = parse_digits n j acc.
Proof.
  induction fuel as [| f IH]; intros n k acc Hn Hf; [lia |].
  cbn [digits]. destruct (Z.ltb_spec n 10).
  - exists (S k). split; [lia |]. cbn. by rewrite char_digit_of by lia.
  - rewrite Nat2Z.inj_succ, Z.pow_succ_r in Hn by lia.
    assert (0 < f)%nat. { destruct f; [cbn in Hn; lia | lia]. }
    destruct (IH (n / 10) k (digit_char (n mod 10) :: acc)) as (j & Hj & ->); [| lia |].
    { split; [by apply Z.div_pos; lia |]. apply Z.div_lt_upper_bound; lia. }
    exists (S j). split; [lia |]. cbn.
    rewrite char_digit_of by (apply Z.mod_pos_bound; lia).
    f_equal. pose proof (Z.div_mod n 10). lia.
Qed.

Lemma digit_char_not_special d :
  0 ≤ d < 10 → is_space (digit_char d) = false ∧
               digit_char d ≠ "-"%char ∧ digit_char d ≠ "+"%char.
Proof.
  intros H. assert (d = 0 ∨ d = 1 ∨ d = 2 ∨ d = 3 ∨ d = 4 ∨ d = 5 ∨ d = 6 ∨
                    d = 7 ∨ d = 8 ∨ d = 9) as K by lia.
  by repeat destruct K as [-> | K]; [..| subst d].
Qed.

Lemma digits_head fuel : ∀ n acc, 0 ≤ n → (0 < fuel)%nat →
  ∃ d s, 0 ≤ d < 10 ∧ digits fuel n acc = digit_char d :: s.
Proof.
  induction fuel as [| f IH]; intros n acc Hn Hf; [lia |].
  cbn [digits]. destruct (Z.ltb_spec n 10); [by exists n, acc |].
  pose proof (Z.mod_pos_bound n 10).
  destruct f as [| f].
  - exists (n mod 10), acc. split; [lia | done].
  - apply IH; [apply Z.div_pos; lia | lia].
Qed.

(** Reading back a printed [int] gives the same value. *)
Lemma stoi_to_string n : 0 ≤ n < 2147483648 → stoi (to_string n) = Ok n.
Proof.
  intros Hn. unfold stoi, strtol, to_string.
  destruct (Z.ltb_spec n 0); [lia |].
  destruct (digits_head 20 n []) as (d & s & Hd & E); [lia | lia |].
  destruct (parse_digits_acc 20 n 0 []) as (j & Hj & Ep); [cbn; lia | lia |].
  rewrite E in Ep |- *. destruct (digit_char_not_special d Hd) as (Hs & Hm & Hp).
  cbn [skip_spaces]. rewrite Hs.
  destruct (ascii_dec _ _) as [?|_]; [done |].
  destruct (ascii_dec _ _) as [?|_]; [done |].
  rewrite Ep. cbn. destruct j; [lia |]. cbn [Nat.eqb negb].
  destruct (Z.leb_spec (-2147483648) n); [| lia].
  by destruct (Z.leb_spec n 2147483647); [| lia].
Qed.

End Dec.

(** ** [std::sort]

    The comparator must be a strict weak order, otherwise the call is
    undefined behaviour.  The order of equivalent elements is unspecified; the
    executable model uses a merge sort. *)
Class StrictWeakOrder {A} (cmp : A → A → bool) : Prop := {
  swo_irrefl a : cmp a a = false;
  swo_trans a b c : cmp a b = true → cmp b c = true → cmp a c = true;
  swo_incomp_trans a b c :
    cmp a b = false → cmp b a = false → cmp b c = false → cmp c b = false →
    cmp a c = false ∧ cmp c a = false;
}.

Section std_sort.
Context {A : Type} (cmp : A → A → bool).

(** [a] may stand before [b]. *)
Definition not_after (a b : A) : Prop := cmp b a = false.

#[local] Instance not_after_dec : RelDecision not_after.
Proof. unfold not_after. intros a b. apply _. Defined.

Definition std_sort (l : list A) : list A := merge_sort not_after l.

Lemma std_sort_perm l : std_sort l ≡ₚ l.
Proof. apply merge_sort_Permutation. Qed.

Context `{!StrictWeakOrder cmp}.

Lemma not_after_total a b : not_after a b ∨ not_after b a.
Proof.
  unfold not_after. destruct (cmp b a) eqn:E; [| auto].
  destruct (cmp a b) eqn:E'; [| auto].
  pose proof (swo_trans _ _ _ E E'). pose proof (swo_irrefl b). congruence.
Qed.

Lemma not_after_trans a b c : not_after a b → not_after b c → not_after a c.
Proof.
  unfold not_after. intros Hab Hbc.
  destruct (cmp c a) eqn:E; [exfalso | done].
  destruct (cmp a b) eqn:E1.
  { pose proof (swo_trans _ _ _ E E1). congruence. }
  destruct (cmp b c) eqn:E2.
  { pose proof (swo_trans _ _ _ E2 E). congruence. }
  destruct (swo_incomp_trans a b c) as [_ ?]; congruence.
Qed.

#[local] Instance not_after_Total : Total not_after := not_after_total.
#[local] Instance not_after_Trans : Transitive not_after := not_after_trans.

(** No element stands before one that must precede it. *)
Lemma std_sort_sorted l : StronglySorted not_after (std_sort l).
Proof. apply StronglySorted_merge_sort; apply _. Qed.
End std_sort.

(** ** [std::map] with integer keys: iteration is in increasing key order *)
Section std_map.
Context {V : Type}.

Definition key_lt (a b : Z * V) : bool := a.1 <? b.1.

Definition in_key_order (m : gmap Z V) : list (Z * V) :=
  std_sort key_lt (map_to_list m).

#[export] Instance key_lt_swo : StrictWeakOrder key_lt.
Proof.
  split; unfold key_lt; intros;
    rewrite ?Z.ltb_lt, ?Z.ltb_ge in *; try lia.
Qed.

Lemma in_key_order_perm m : in_key_order m ≡ₚ map_to_list m.
Proof. apply std_sort_perm. Qed.

Lemma elem_of_in_key_order m k v : (k, v) ∈ in_key_order m ↔ m !! k = Some v.
Proof. by rewrite in_key_order_perm, elem_of_map_to_list. Qed.

Lemma in_key_order_NoDup m : NoDup (in_key_order m).*1.
Proof. rewrite in_key_order_perm. apply NoDup_fst_map_to_list. Qed.

(** The keys come out strictly increasing. *)
Lemma in_key_order_sorted m : StronglySorted Z.lt (in_key_order m).*1.
Proof.
  pose proof (std_sort_sorted key_lt (map_to_list m)) as Hs.
  pose proof (in_key_order_NoDup m) as Hn. unfold in_key_order in *.
  induction Hs as [| [k v] l Hs IH Hf]; [constructor |].
  cbn in *. apply NoDup_cons in Hn as [Hk Hn]. constructor; [by apply IH |].
  apply Forall_fmap. rewrite Forall_forall in Hf |- *. intros [k' v'] Hin.
  specialize (Hf _ Hin). unfold not_after, key_lt in Hf. cbn in *.
  apply Z.ltb_ge in Hf.
  assert (k ≠ k'). { intros ->. apply Hk. apply list_elem_of_fmap. by exists (k', v'). }
  lia.
Qed.

(** Two strictly increasing lists with the same elements are equal. *)
Lemma sorted_lt_unique (l k : list Z) :
  StronglySorted Z.lt l → StronglySorted Z.lt k →
  (∀ x, x ∈ l ↔ x ∈ k) → l = k.
Proof.
  intros Hl. revert k. induction Hl as [| x l Hl IH Hx]; intros k Hk He.
  - destruct k as [| y k]; [done |].
    assert (y ∈ []) as K by (apply He; left). by apply not_elem_of_nil in K.
  - destruct Hk as [| y k Hk Hy].
    { assert (x ∈ []) as K by (apply He; left). by apply not_elem_of_nil in K. }
    rewrite Forall_forall in Hx, Hy.
    assert (x = y) as ->.
    { assert (x ∈ y :: k) as H1 by (apply He; left).
      assert (y ∈ x :: l) as H2 by (apply He; left).
      apply elem_of_cons in H1 as [|H1]; [done |].
      apply elem_of_cons in H2 as [|H2]; [done |].
      pose proof (Hx _ H2). pose proof (Hy _ H1). lia. }
    f_equal. apply IH; [done |]. intros z. specialize (He z).
    rewrite !elem_of_cons in He. split; intros Hz.
    + destruct (proj1 He (or_intror Hz)) as [-> |]; [| done].
      pose proof (Hx _ Hz). lia.
    + destruct (proj2 He (or_intror Hz)) as [-> |]; [| done].
      pose proof (Hy _ Hz). lia.
Qed.
End std_map.

(** ** [double]

    IEEE binary64 with round to nearest even, as a computable type. *)
Module F64.
Definition double := SpecFloat.spec_float.
Definition prec : Z := 53.
Definition emax : Z := 1024.

(** Conversion of an integer. *)
Definition of_Z (z : Z) : double := SpecFloat.binary_normalize prec emax z 0 false.

Definition add : double → double → double := SpecFloat.SFadd prec emax.
Definition sub : double → double → double := SpecFloat.SFsub prec emax.
Definition mul : double → double → double := SpecFloat.SFmul prec emax.
Definition div : double → double → double := SpecFloat.SFdiv prec emax.
Definition ltb : double → double → bool := SpecFloat.SFltb.
Definition leb : double → double → bool := SpecFloat.SFleb.
Definition eqb : double → double → bool := SpecFloat.SFeqb.

(** Conversion to [uint64_t]: truncation; undefined when the result is out of
    range. *)
Definition to_u64 (x : double) : outcome Z :=
  match x with
  | SpecFloat.S754_zero _ => Ok 0
  | SpecFloat.S754_finite s m e =>
      let v := if 0 <=? e then Zpos m * 2 ^ e else Zpos m / 2 ^ (- e) in
      let z := if s then - v else v in
      if (0 <=? z) && (z <? 2 ^ 64) then Ok z else Fail UndefinedBehaviour
  | _ => Fail UndefinedBehaviour
  end.
End F64.

(** ** [float]: binary32 *)

Module F32.
Definition float := SpecFloat.spec_float.
Definition prec : Z := 24.
Definition emax : Z := 128.

Definition of_Z (z : Z) : float := SpecFloat.binary_normalize prec emax z 0 false.
Definition add : float → float → float := SpecFloat.SFadd prec emax.
Definition div : float → float → float := SpecFloat.SFdiv prec emax.

(** The promotion of a [float] to a [double]; it is exact. *)
Definition to_double (x : float) : F64.double :=
  match x with
  | SpecFloat.S754_finite s m e =>
      SpecFloat.binary_normalize F64.prec F64.emax (if s then Zneg m else Zpos m) e s
  | _ => x
  end.

Definition is_zero (x : float) : bool :=
  match x with SpecFloat.S754_zero _ => true | _ => false end.
Definition is_nan (x : float) : bool :=
  match x with SpecFloat.S754_nan => true | _ => false end.

(** Nothing divided by anything but nothing: a zero of some sign. *)
Lemma zero_div x :
  div (SpecFloat.S754_zero false) x =
  if is_zero x || is_nan x then SpecFloat.S754_nan
  else SpecFloat.S754_zero (match x with
                            | SpecFloat.S754_infinity s | SpecFloat.S754_finite s _ _ => s
                            | _ => false end).
Proof. by destruct x as [[] | [] | | []]. Qed.
End F32.
