(* ===== verification/Worklist.v ===== *)
(** * Worklist traversals

    Several components walk a graph with a [std::queue] and a set of visited
    nodes.  Two shapes occur: a node is marked when it is pushed ([discover]:
    [DSWP::addClonableSCCsToStages], [traverseAllPartitionSubsets]), or when it
    is popped ([expand]: [collectTransitivelyControlledTasks]).  Both run the
    caller's code on every edge they look at.  The lemmas give, once, the fuel
    that is always enough, the nodes that are visited, and the edges looked at. *)

From S2P Require Import Prelude.

Module Worklist.
Section worklist.
Context {A : Type} `{Countable A} {St : Type}.

(** ** Marking at the push *)

(** The loop over the edges of the node [n]: the caller's code [visit] is told
    whether the target is new. *)
Fixpoint push_targets (visit : A → A → bool → St → St) (n : A) (targets : list A)
    (queue : list A) (visited : gset A) (st : St) : list A * gset A * St :=
  match targets with
  | [] => (queue, visited, st)
  | m :: rest =>
      let fresh := bool_decide (m ∉ visited) in
      let st := visit n m fresh st in
      if fresh then push_targets visit n rest (queue ++ [m]) ({[m]} ∪ visited) st
      else push_targets visit n rest queue visited st
  end.

Lemma push_targets_spec visit n targets queue visited st queue' visited' st' :
  push_targets visit n targets queue visited st = (queue', visited', st') →
  ∃ new, queue' = queue ++ new ∧ visited' = list_to_set new ∪ visited ∧ NoDup new ∧
    (∀ m, m ∈ new ↔ m ∈ targets ∧ m ∉ visited).
Proof.
  revert queue visited st. induction targets as [| m rest IH]; intros queue visited st E; simpl in E.
  - injection E as <- <- <-. exists []. rewrite app_nil_r. split_and!; [done | set_solver | constructor |].
    intros m. set_solver.
  - case_bool_decide as Hm.
    + apply IH in E as (new & -> & -> & Hnd & Hin). exists (m :: new). split_and!.
      * by rewrite <- app_assoc.
      * set_solver.
      * constructor; [| done]. rewrite Hin. set_solver.
      * intros x. rewrite elem_of_cons, Hin. set_unfold. destruct (decide (x = m)) as [-> |]; tauto.
    + apply IH in E as (new & -> & -> & Hnd & Hin). exists new. split_and!; [done | done | done |].
      intros x. rewrite Hin. set_unfold. split; [tauto |]. by intros [[-> | ?] ?].
Qed.

Context (succ : A → list A).

(** [m] is reached from [n] by one edge. *)
Definition edge (n m : A) : Prop := m ∈ succ n.

Fixpoint discover (visit : A → A → bool → St → St) (fuel : nat) (queue : list A)
    (visited : gset A) (st : St) : option (gset A * St) :=
  match fuel, queue with
  | _, [] => Some (visited, st)
  | O, _ => None
  | S fuel, n :: queue =>
      let '(queue, visited, st) := push_targets visit n (succ n) queue visited st in
      discover visit fuel queue visited st
  end.

(** ** Marking at the pop *)

Fixpoint expand (visit : A → A → St → St) (fuel : nat) (queue : list A)
    (visited : gset A) (st : St) : option (gset A * St) :=
  match fuel, queue with
  | _, [] => Some (visited, st)
  | O, _ => None
  | S fuel, n :: queue =>
      if decide (n ∈ visited) then expand visit fuel queue visited st
      else expand visit fuel (queue ++ succ n) ({[n]} ∪ visited)
             (foldl (λ st m, visit n m st) st (succ n))
  end.

(** The marked nodes are closed under the edges, up to what still is queued. *)
Definition closed (queue : list A) (visited : gset A) : Prop :=
  ∀ n, n ∈ visited → n ∈ queue ∨ ∀ m, edge n m → m ∈ visited.

Lemma closed_push visit n queue visited st queue' visited' st' :
  push_targets visit n (succ n) queue visited st = (queue', visited', st') →
  closed (n :: queue) visited → closed queue' visited'.
Proof.
  intros E%push_targets_spec Hc. destruct E as (new & -> & -> & _ & Hin). intros x Hx.
  assert (∀ m, edge n m → m ∈ (list_to_set new ∪ visited : gset A)) as Hn.
  { intros m Hm. destruct (decide (m ∈ visited)); [set_solver |].
    apply elem_of_union_l, elem_of_list_to_set. by apply Hin. }
  apply elem_of_union in Hx as [Hx%elem_of_list_to_set | Hx]; [set_solver |].
  destruct (Hc x Hx) as [[-> | Hq]%elem_of_cons | Hs]; [by right | set_solver |].
  right. intros m Hm. apply elem_of_union_r. by apply Hs.
Qed.

Context (U : gset A).
Hypothesis U_closed : ∀ n m, n ∈ U → edge n m → m ∈ U.

(** Every node of the universe is pushed at most once after the seeds. *)
Lemma discover_total visit fuel queue visited st :
  list_to_set queue ⊆ U →
  (length queue + size (U ∖ visited) ≤ fuel)%nat →
  ∃ visited' st', discover visit fuel queue visited st = Some (visited', st').
Proof.
  revert queue visited st. induction fuel as [| fuel IH]; intros queue visited st HU Hf.
  - destruct queue; [eauto | simpl in Hf; lia].
  - destruct queue as [| n queue]; [eauto |]. simpl.
    destruct (push_targets visit n (succ n) queue visited st) as [[queue' visited'] st'] eqn:E.
    apply push_targets_spec in E as (new & -> & -> & Hnd & Hin).
    assert (list_to_set new ⊆ U) as Hnew.
    { intros m Hm%elem_of_list_to_set. apply Hin in Hm as [Hm _].
      apply (U_closed n m); [apply HU; set_solver | done]. }
    assert (list_to_set new ## visited) as Hdisj.
    { intros m Hm%elem_of_list_to_set. apply Hin in Hm as [_ Hm]. done. }
    apply IH; [set_solver |].
    assert (size (U ∖ visited) = length new + size (U ∖ (list_to_set new ∪ visited)))%nat as Hs.
    { rewrite <- (size_list_to_set (C := gset A) new Hnd).
      rewrite <- size_union by set_solver. f_equal.
      apply leibniz_equiv. intros x. set_unfold.
      destruct (decide (x ∈ new)) as [Hx |]; [| tauto].
      assert (x ∈ U) by (apply Hnew; set_solver). assert (x ∉ visited) by set_solver. tauto. }
    rewrite length_app. simpl in Hf. lia.
Qed.

(** The same for the marking at the pop: a node is expanded at most once, and
    every edge out of it is pushed once. *)
Definition out_degree (V : gset A) : nat := sum_list ((λ n, length (succ n)) <$> elements V).

Lemma out_degree_take (V : gset A) n :
  n ∈ V → out_degree V = (length (succ n) + out_degree (V ∖ {[n]}))%nat.
Proof.
  intros Hn. unfold out_degree.
  assert (elements V ≡ₚ n :: elements (V ∖ {[n]})) as ->; [| done].
  rewrite <- elements_union_singleton by set_solver.
  by rewrite <- union_difference_singleton_L.
Qed.

Lemma expand_total visit fuel queue visited st :
  list_to_set queue ⊆ U →
  (length queue + out_degree (U ∖ visited) ≤ fuel)%nat →
  ∃ visited' st', expand visit fuel queue visited st = Some (visited', st').
Proof.
  revert queue visited st. induction fuel as [| fuel IH]; intros queue visited st HU Hf;
    (destruct queue as [| n queue]; simpl in *; [eauto |]); [lia |].
  destruct (decide (n ∈ visited)) as [Hn | Hn].
  - apply IH; [set_solver | lia].
  - apply IH.
    + intros m. set_unfold. intros [Hm | Hm]; [apply HU; by right |].
      apply (U_closed n); [apply HU; by left | done].
    + rewrite (out_degree_take _ n) in Hf by set_solver.
      replace (U ∖ ({[n]} ∪ visited)) with (U ∖ visited ∖ {[n]}) by set_solver.
      rewrite length_app. lia.
Qed.
End worklist.

(** ** The nodes and edges [discover] goes through *)

Section discover.
Context {A : Type} `{Countable A} {St : Type} (succ : A → list A).

Lemma tc_last (R : A → A → Prop) x z : tc R x z → ∃ y, rtc R x y ∧ R y z.
Proof.
  induction 1 as [x z Hr | x y z Hr Ht (w & Hy & Hw)]; [by exists x; split; [constructor |] |].
  exists w. split; [by apply rtc_l with y | done].
Qed.

(** No mark is ever removed. *)
Lemma discover_grows (visit : A → A → bool → St → St) fuel queue visited st visited' st' :
  discover succ visit fuel queue visited st = Some (visited', st') → visited ⊆ visited'.
Proof.
  revert queue visited st. induction fuel as [| fuel IH]; intros queue visited st E;
    destruct queue as [| y queue]; simplify_eq/=; try done.
  destruct (push_targets _ y (succ y) queue visited st) as [[queue1 visited1] st1] eqn:Ep.
  apply IH in E. apply push_targets_spec in Ep as (? & -> & -> & _). set_solver.
Qed.

Lemma tc_first (R : A → A → Prop) x z : tc R x z → ∃ y, R x y ∧ rtc R y z.
Proof. intros [? Hr | ? y ? Hr Ht]; eauto using tc_rtc, rtc_refl. Qed.

(** It marks what is reached from the queue by at least one edge. *)
Lemma discover_visited (visit : A → A → bool → St → St) fuel queue visited st visited' st' :
  closed succ queue visited →
  discover succ visit fuel queue visited st = Some (visited', st') →
  ∀ m, m ∈ visited' ↔ m ∈ visited ∨ ∃ s, s ∈ queue ∧ tc (edge succ) s m.
Proof.
  revert queue visited st. induction fuel as [| fuel IH]; intros queue visited st Hc E m.
  { destruct queue; simplify_eq/=. set_solver. }
  destruct queue as [| n queue]; simplify_eq/=; [set_solver |].
  destruct (push_targets visit n (succ n) queue visited st) as [[queue1 visited1] st1] eqn:Ep.
  pose proof (closed_push _ _ _ _ _ _ _ _ _ Ep Hc) as Hc1.
  apply push_targets_spec in Ep as (new & -> & -> & _ & Hin).
  rewrite (IH _ _ _ Hc1 E), elem_of_union, elem_of_list_to_set.
  split.
  - intros [[Hm | Hm] | (s & Hs & Ht)]; [| by left |].
    + right. exists n. split; [left |]. apply tc_once. by apply Hin.
    + right. apply elem_of_app in Hs as [Hs | Hs]; [exists s; split; [by right | done] |].
      exists n. split; [left |]. apply tc_l with s; [by apply Hin | done].
  - intros [Hm | (s & [-> | Hs]%elem_of_cons & Ht)]; [tauto | | right; exists s; set_solver].
    (* a path out of [n] starts in a new node, or in a node marked before *)
    apply tc_first in Ht as (x & Hnx & Hxm).
    destruct (decide (x ∈ visited)) as [Hv | Hv].
    + (* the first marked node of the path is behind the queue already *)
      assert (x ∈ (list_to_set new ∪ visited : gset A)) as Hx by set_solver. clear Hv Hnx.
      induction Hxm as [x | x y m Hxy Hym IHp].
      * set_solver.
      * destruct (Hc1 x Hx) as [Hq | Hs]; [| by apply IHp, Hs].
        right. exists x. split; [done |]. apply tc_rtc_r with y; [by apply tc_once | done].
    + assert (x ∈ new) as Hnew by by apply Hin.
      apply rtc_tc in Hxm as [-> | Hxm]; [tauto |].
      right. exists x. split; [set_solver | done].
Qed.

(** The edges whose source is expanded, in the order they are looked at. *)
Definition record_edge (n m : A) (_ : bool) (l : list (A * A)) : list (A * A) := l ++ [(n, m)].

Lemma push_targets_trace (visit : A → A → St → St) n targets queue visited st tr queue' visited' st' :
  push_targets (λ n m _, visit n m) n targets queue visited st = (queue', visited', st') →
  push_targets record_edge n targets queue visited tr
    = (queue', visited', tr ++ ((n,.) <$> targets)) ∧
  st' = foldl (λ st e, visit e.1 e.2 st) st ((n,.) <$> targets).
Proof.
  revert queue visited st tr. induction targets as [| m rest IH]; intros queue visited st tr E; simpl in *.
  - injection E as <- <- <-. by rewrite app_nil_r.
  - case_bool_decide; eapply IH in E as [E ->]; (split; [rewrite E | done]);
      unfold record_edge; by rewrite <- app_assoc.
Qed.

(** The caller's code is run on these edges one after the other. *)
Lemma discover_trace (visit : A → A → St → St) fuel queue visited st tr visited' st' :
  discover succ (λ n m _, visit n m) fuel queue visited st = Some (visited', st') →
  ∃ es, discover succ record_edge fuel queue visited tr = Some (visited', tr ++ es) ∧
    st' = foldl (λ st e, visit e.1 e.2 st) st es ∧
    ∀ n m, (n, m) ∈ es ↔ n ∈ queue ++ elements (visited' ∖ visited) ∧ m ∈ succ n.
Proof.
  revert queue visited st tr. induction fuel as [| fuel IH]; intros queue visited st tr E.
  { destruct queue; simplify_eq/=. exists []. rewrite app_nil_r. split_and!; [done | done |]. set_solver. }
  destruct queue as [| x queue]; simplify_eq/=.
  { exists []. rewrite app_nil_r. split_and!; [done | done |]. set_solver. }
  destruct (push_targets (λ n m _, visit n m) x (succ x) queue visited st)
    as [[queue1 visited1] st1] eqn:Ep.
  destruct (push_targets_trace visit x (succ x) queue visited st tr _ _ _ Ep) as [-> Hst1].
  apply push_targets_spec in Ep as (new & -> & -> & _ & Hin).
  destruct (IH _ _ _ (tr ++ ((x,.) <$> succ x)) E) as (es & -> & -> & Hes).
  exists (((x,.) <$> succ x) ++ es). split_and!.
  - by rewrite app_assoc.
  - by rewrite foldl_app, Hst1.
  - intros n m.
    rewrite elem_of_app, Hes, list_elem_of_fmap. clear Hes IH.
    assert (list_to_set new ∪ visited ⊆ visited') as Hsub.
    { by eapply discover_grows. }
    set_unfold. split.
    + intros [(y & [= -> ->] & Hy) | [[[Hq | Hn] | [Hv Hnv]] Hm]]; [tauto | tauto | | tauto].
      split; [| done]. right. right. split; [apply Hsub; tauto |]. by apply Hin.
    + intros [[-> | [Hq | [Hv Hnv]]] Hm]; [left; eauto | right; tauto |].
      right. split; [| done]. destruct (decide (n ∈ new)); tauto.
Qed.

(** [expand] marks everything reachable from the queue. *)
Definition covered (queue : list A) (visited : gset A) : Prop :=
  ∀ n m, n ∈ visited → edge succ n m → m ∈ visited ∨ m ∈ queue.

Lemma covered_rtc queue visited n m :
  covered queue visited → n ∈ visited → rtc (edge succ) n m →
  m ∈ visited ∨ ∃ s, s ∈ queue ∧ rtc (edge succ) s m.
Proof.
  intros Hc Hn Hr. induction Hr as [n | n y m Hny Hym IH]; [by left |].
  destruct (Hc n y Hn Hny) as [Hy | Hy]; [by apply IH | right; eauto].
Qed.

Lemma expand_visited (visit : A → A → St → St) fuel queue visited st visited' st' :
  covered queue visited →
  expand succ visit fuel queue visited st = Some (visited', st') →
  ∀ m, m ∈ visited' ↔ m ∈ visited ∨ ∃ s, s ∈ queue ∧ rtc (edge succ) s m.
Proof.
  revert queue visited st. induction fuel as [| fuel IH]; intros queue visited st Hc E m;
    destruct queue as [| n queue]; simplify_eq/=; try set_solver.
  destruct (decide (n ∈ visited)) as [Hn | Hn].
  - assert (covered queue visited) as Hc'.
    { intros x y Hx Hxy. destruct (Hc x y Hx Hxy) as [| [-> |]%elem_of_cons]; auto. }
    rewrite (IH _ _ _ Hc' E). split; [set_solver |].
    intros [Hm | (s & [-> | Hs]%elem_of_cons & Hr)]; [by left | | eauto].
    by eapply covered_rtc.
  - assert (covered (queue ++ succ n) ({[n]} ∪ visited)) as Hc'.
    { intros x y Hx Hxy. rewrite elem_of_app.
      apply elem_of_union in Hx as [->%elem_of_singleton | Hx]; [by right; right |].
      destruct (Hc x y Hx Hxy) as [| [-> |]%elem_of_cons]; set_solver. }
    rewrite (IH _ _ _ Hc' E), elem_of_union, elem_of_singleton. split.
    + intros [[-> | Hm] | (s & [Hs | Hs]%elem_of_app & Hr)]; [| by left | |].
      * right. exists n. by split; [left | constructor].
      * right. exists s. by split; [right |].
      * right. exists n. split; [left | by apply rtc_l with s].
    + intros [Hm | (s & [-> | Hs]%elem_of_cons & Hr)]; [tauto | |].
      * inversion Hr as [| ? y ? Hny Hym]; subst; [tauto |].
        right. exists y. split; [by apply elem_of_app; right | done].
      * right. exists s. split; [by apply elem_of_app; left | done].
Qed.

(** The caller's code runs on every edge out of a newly marked node. *)
Lemma expand_trace (visit : A → A → St → St) fuel queue visited st visited' st' :
  expand succ visit fuel queue visited st = Some (visited', st') →
  visited ⊆ visited' ∧ ∃ es, st' = foldl (λ st e, visit e.1 e.2 st) st es ∧
    ∀ n m, (n, m) ∈ es ↔ n ∈ visited' ∖ visited ∧ m ∈ succ n.
Proof.
  revert queue visited st. induction fuel as [| fuel IH]; intros queue visited st E;
    destruct queue as [| x queue]; simplify_eq/=; try (split; [done | exists []; set_solver]).
  destruct (decide (x ∈ visited)) as [Hx | Hx]; [eauto |].
  destruct (IH _ _ _ E) as (Hsub & es & -> & Hes). split; [set_solver |].
  exists (((x,.) <$> succ x) ++ es). split.
  - by rewrite foldl_app, foldl_fmap.
  - intros n m. rewrite elem_of_app, Hes, list_elem_of_fmap. set_unfold. split.
    + intros [(y & [= -> ->] & Hy) | [[Hv Hnv] Hm]]; [| tauto].
      split; [split; [by apply Hsub; left | done] | done].
    + intros [[Hv Hnv] Hm]. destruct (decide (n = x)) as [-> |]; [left; eauto | tauto].
Qed.
End discover.
End Worklist.
