(* ===== verification/SccDag.v ===== *)
(** * The dependence graph of a loop, as NOELLE presents it

    The SCCDAG of a loop: its strongly connected components (SCCs), the
    dependences between them and within them, and what NOELLE says about each
    of them ([SCCDAGAttrs], [GenericSCC]) and about the loop ([LoopContent],
    [LoopStructure]).  NOELLE is not part of the repository: the fields below
    are its answers, whatever they are.  A value, an SCC, a basic block and an
    attribute object are named by their addresses. *)

From S2P Require Import Prelude CppStd.

Module SccDag.

Inductive dep_kind := ControlDependence | MemoryDependence | VariableDependence.

#[export] Instance dep_kind_eq_dec : EqDecision dep_kind.
Proof. solve_decision. Defined.

(** [DGEdge<Value, Value>]. *)
Record dependence := Dep { getSrc : Z; getDst : Z; kind : dep_kind }.

#[export] Instance dependence_eq_dec : EqDecision dependence.
Proof. solve_decision. Defined.

Definition isControl (d : dependence) : bool := bool_decide (kind d = ControlDependence).
Definition isMemory (d : dependence) : bool := bool_decide (kind d = MemoryDependence).

(** [DGEdge<SCC, SCC>], with the dependences it stands for. *)
Record scc_edge := SccEdge { fromSCC : Z; toSCC : Z; getSubEdges : list dependence }.

(** [SCCDAG] and [SCCDAGAttrs]. *)
Record SCCDAG := MkSCCDAG {
  getNodes : list Z;
  internalNodes : Z → list Z;          (* the values of an SCC *)
  getEdges : Z → list dependence;      (* the edges of the graph of an SCC *)
  sccEdges : list scc_edge;            (* the edges of the SCCDAG *)
  sccOfValue : Z → Z;
  getSCCAttrs : Z → Z;                 (* the [GenericSCC] of an SCC *)
}.

Definition getIncomingEdges (g : SCCDAG) (n : Z) : list scc_edge :=
  filter (λ e, toSCC e = n) (sccEdges g).
Definition getOutgoingEdges (g : SCCDAG) (n : Z) : list scc_edge :=
  filter (λ e, fromSCC e = n) (sccEdges g).
Definition outDegree (g : SCCDAG) (n : Z) : Z := Z.of_nat (length (getOutgoingEdges g n)).
Definition numInternalNodes (g : SCCDAG) (n : Z) : Z := Z.of_nat (length (internalNodes g n)).

(** The neighbours of an SCC. *)
Definition parents (g : SCCDAG) (n : Z) : list Z := fromSCC <$> getIncomingEdges g n.
Definition children (g : SCCDAG) (n : Z) : list Z := toSCC <$> getOutgoingEdges g n.

(** The nodes of the SCCDAG are distinct, its edges join its nodes, and
    different SCCs have different attributes. *)
Record wf (g : SCCDAG) : Prop := {
  wf_nodes : NoDup (getNodes g);
  wf_edges e : e ∈ sccEdges g → fromSCC e ∈ getNodes g ∧ toSCC e ∈ getNodes g;
  wf_attrs n m : n ∈ getNodes g → m ∈ getNodes g → getSCCAttrs g n = getSCCAttrs g m → n = m;
}.

Lemma elem_of_parents g n m : m ∈ parents g n ↔ ∃ e, e ∈ sccEdges g ∧ fromSCC e = m ∧ toSCC e = n.
Proof.
  unfold parents, getIncomingEdges. rewrite list_elem_of_fmap. setoid_rewrite list_elem_of_filter.
  naive_solver.
Qed.

Lemma elem_of_children g n m : m ∈ children g n ↔ ∃ e, e ∈ sccEdges g ∧ fromSCC e = n ∧ toSCC e = m.
Proof.
  unfold children, getOutgoingEdges. rewrite list_elem_of_fmap. setoid_rewrite list_elem_of_filter.
  naive_solver.
Qed.

(** The classes of the IR a value belongs to ([isa<...>]). *)
Record IR := MkIR {
  isInstruction : Z → bool;
  isCmpInst : Z → bool;
  isTerminator : Z → bool;
  isPHINode : Z → bool;
  isGetElementPtrInst : Z → bool;
  isCastInst : Z → bool;
  isInvokeInst : Z → bool;
}.

(** The classes of a [GenericSCC] and its methods. *)
Record SCCInfo := MkSCCInfo {
  isLoopIterationSCC : Z → bool;
  isLoopCarriedSCC : Z → bool;
  isLoopCarriedUnknownSCC : Z → bool;
  doesHaveMemoryDependencesWithin : Z → bool;
  getLoopCarriedDependences : Z → list dependence;
}.

(** [LoopContent] with its [LoopStructure] and its loop nesting tree. *)
Record LoopContent := MkLoopContent {
  ir : IR;
  dag : SCCDAG;
  info : SCCInfo;
  loopStructure : Z;
  getID : option Z;
  getInstructions : list Z;
  getLoopExitBasicBlocks : list Z;
  getInnermostLoopThatContains : Z → Z;
  getMaximumNumberOfCores : Z;
}.

(** The addresses a [std::set] of pointers is iterated in: increasing. *)
Definition in_address_order (s : gset Z) : list Z := std_sort Z.ltb (elements s).

Lemma elem_of_in_address_order s x : x ∈ in_address_order s ↔ x ∈ s.
Proof. unfold in_address_order. by rewrite std_sort_perm, elem_of_elements. Qed.

#[export] Hint Rewrite elem_of_in_address_order elem_of_parents elem_of_children : gino_rw.

#[export] Instance set_unfold_in_address_order s x P :
  SetUnfoldElemOf x s P → SetUnfoldElemOf x (in_address_order s) P.
Proof. constructor. by rewrite elem_of_in_address_order, (set_unfold_elem_of x s P). Qed.
End SccDag.
