(* ===== verification/Noelle.v ===== *)
(** * What the sources use of NOELLE

    NOELLE is the compiler framework Gino is built on; its code is not part of
    the repository.  The components below use it through these interfaces: the
    loop nesting trees with their visits, the metadata attached to loops, and
    the profiles ([Hot]).  Each class states the documented behaviour the code
    relies on, and has an instance that the concrete inputs use. *)

From S2P Require Import Prelude CppStd.

(** ** Loop nesting trees

    A loop is named by the address of its [LoopStructure]. *)
Module Loops.

#[warnings="-register-all"]
Inductive LoopTree := Node (l : Z) (children : list LoopTree).

Definition getLoop (t : LoopTree) : Z := let 'Node l _ := t in l.
Definition getChildren (t : LoopTree) : list LoopTree := let 'Node _ cs := t in cs.

(** Induction over the tree, with the hypothesis for every child. *)
Lemma LoopTree_ind' (P : LoopTree → Prop) :
  (∀ l cs, Forall P cs → P (Node l cs)) → ∀ t, P t.
Proof.
  intros H. fix IH 1. intros [l cs]. apply H.
  induction cs as [| c cs IHcs]; constructor; [apply IH | apply IHcs].
Qed.

(** All the nodes of a tree. *)
Fixpoint subtrees (t : LoopTree) : list LoopTree :=
  match t with Node l cs => t :: concat (map subtrees cs) end.

Definition loops (t : LoopTree) : list Z := getLoop <$> subtrees t.

Lemma subtrees_self t : t ∈ subtrees t.
Proof. destruct t. left. Qed.

Lemma elem_of_concat {A} (x : A) ls : x ∈ concat ls ↔ ∃ l, l ∈ ls ∧ x ∈ l.
Proof.
  induction ls as [| l ls IH]; cbn.
  - split; [by intros ?%not_elem_of_nil | by intros (l & ?%not_elem_of_nil & _)].
  - rewrite elem_of_app, IH. setoid_rewrite elem_of_cons. split.
    + intros [Hx | (k & Hk & Hx)]; eauto.
    + intros (k & [-> | Hk] & Hx); eauto.
Qed.

Lemma elem_of_map {A B} (f : A → B) l y : y ∈ map f l ↔ ∃ x, y = f x ∧ x ∈ l.
Proof. apply (list_elem_of_fmap f). Qed.

Lemma subtrees_inv t n : n ∈ subtrees t ↔ n = t ∨ ∃ c, c ∈ getChildren t ∧ n ∈ subtrees c.
Proof.
  destruct t as [l cs]. cbn. rewrite elem_of_cons, elem_of_concat.
  setoid_rewrite elem_of_map. split.
  - intros [? | (k & (c & -> & Hc) & Hn)]; eauto.
  - intros [? | (c & Hc & Hn)]; eauto 6.
Qed.

Lemma subtrees_trans t n m : n ∈ subtrees t → m ∈ subtrees n → m ∈ subtrees t.
Proof.
  induction t as [l cs IH] using LoopTree_ind'. intros [-> | (c & Hc & Hn)]%subtrees_inv Hm; [done |].
  apply subtrees_inv. right. exists c. split; [done |]. cbn in Hc.
  rewrite Forall_forall in IH. by apply IH.
Qed.

(** The visits of a tree: every node once, and in post order a node after its
    children.  (The callbacks of the sources never ask to stop.) *)
Class TreeVisit := {
  visitPreOrder : LoopTree → list LoopTree;
  visitPostOrder : LoopTree → list LoopTree;
  pre_perm t : visitPreOrder t ≡ₚ subtrees t;
  post_perm t : visitPostOrder t ≡ₚ subtrees t;
  post_children t l1 n l2 c :
    visitPostOrder t = l1 ++ n :: l2 → c ∈ getChildren n → c ∈ l1;
}.

Fixpoint post_order (t : LoopTree) : list LoopTree :=
  match t with Node l cs => concat (map post_order cs) ++ [t] end.

Lemma post_order_perm t : post_order t ≡ₚ subtrees t.
Proof.
  induction t as [l cs IH] using LoopTree_ind'. cbn.
  rewrite (comm (++)). cbn. constructor.
  induction IH as [| c cs Hc _ IHcs]; cbn; [done |]. by rewrite Hc, IHcs.
Qed.

Lemma post_order_children t : ∀ l1 n l2 c,
  post_order t = l1 ++ n :: l2 → c ∈ getChildren n → c ∈ l1.
Proof.
  induction t as [l cs IH] using LoopTree_ind'. intros l1 n l2 c H Hc. cbn in H.
  destruct (decide (l2 = [])) as [-> | Hne].
  - apply app_inj_tail in H as [<- <-]. cbn in Hc.
    apply elem_of_concat. exists (post_order c). split; [apply elem_of_map; eauto |].
    rewrite post_order_perm. apply subtrees_self.
  - destruct (exists_last Hne) as (l2' & x & ->).
    rewrite app_comm_cons, app_assoc in H. apply app_inj_tail in H as [H _].
    clear Hne x. revert l1 H.
    induction IH as [| d cs Hd _ IHcs]; intros l1 H; cbn in H; [by destruct l1 |].
    apply app_eq_app in H as (k & [[E1 E2] | [E1 E2]]).
    + destruct k as [| y k]; cbn in E2.
      * by pose proof (IHcs [] (eq_sym E2)) as ?%not_elem_of_nil.
      * injection E2 as <- E2. by eapply Hd.
    + subst l1. apply elem_of_app. right. by apply IHcs.
Qed.

#[export] Instance standard_visit : TreeVisit := {|
  visitPreOrder := subtrees;
  visitPostOrder := post_order;
  pre_perm t := Permutation_refl _;
  post_perm := post_order_perm;
  post_children := post_order_children;
|}.
End Loops.

(** ** Metadata

    [MetadataManager]: strings attached to loops, by kind. *)
Module Metadata.

Definition key := list Ascii.ascii.

Class MetadataManager (M : Type) := {
  getMetadata : M → Z → key → option Dec.text;
  addMetadata : Z → key → Dec.text → M → M;
  get_add_eq m l k v : getMetadata (addMetadata l k v m) l k = Some v;
  get_add_ne m l k l' k' v :
    (l, k) ≠ (l', k') → getMetadata (addMetadata l k v m) l' k' = getMetadata m l' k';
}.

Lemma get_add_kind `{MetadataManager M} (m : M) l k l' k' v :
  k ≠ k' → getMetadata (addMetadata l k v m) l' k' = getMetadata m l' k'.
Proof. intros Hk. apply get_add_ne. intros [= _ ?]. done. Qed.

Lemma get_add_loop `{MetadataManager M} (m : M) l k l' k' v :
  l ≠ l' → getMetadata (addMetadata l k v m) l' k' = getMetadata m l' k'.
Proof. intros Hl. apply get_add_ne. intros [= ? _]. done. Qed.

Definition doesHaveMetadata `{MetadataManager M} (m : M) (l : Z) (k : key) : bool :=
  bool_decide (is_Some (getMetadata m l k)).

#[export] Instance function_metadata : MetadataManager (Z → key → option Dec.text).
Proof.
  refine {|
    getMetadata m l k := m l k;
    addMetadata l k v m := λ l' k', if decide ((l, k) = (l', k')) then Some v else m l' k';
  |}.
  - intros m l k v. by rewrite decide_True.
  - intros m l k l' k' v H. by rewrite decide_False.
Defined.

(** The kinds the sources use. *)
Definition looporder : key := String.list_ascii_of_string "noelle.parallelizer.looporder".
Definition gino_doall : key := String.list_ascii_of_string "gino.doall".
Definition yes : Dec.text := String.list_ascii_of_string "yes".
Definition no : Dec.text := String.list_ascii_of_string "no".
#[global] Arguments looporder : simpl never.
#[global] Arguments gino_doall : simpl never.
#[global] Arguments yes : simpl never.
#[global] Arguments no : simpl never.

End Metadata.

(** ** Profiles *)
Module Profiles.

(** [Hot]: what the profiler recorded about loops and about the strongly
    connected components of their dependence graphs. *)
Record Hot := {
  isAvailable : bool;
  hasBeenExecuted : Z → bool;
  getIterations : Z → Z;
  getAverageTotalInstructionsPerInvocation : Z → F64.double;
  getAverageLoopIterationsPerInvocation : Z → F64.double;
  getAverageTotalInstructionsPerIteration : Z → F64.double;
  getDynamicTotalInstructionCoverage : Z → F64.double;
  getTotalInstructionsOfSCC : Z → Z;
  getTotalInstructions : Z;
}.

End Profiles.

(** ** Induction variables *)
Module IVs.

(** An induction variable: its width, start value and step. *)
Record IV := MkIV { iv_width : Z; iv_start : Z; iv_step : Z }.

(** Its value in iteration [i] of the sequential loop. *)
Definition iv_value (v : IV) (i : Z) : Z := swrap v.(iv_width) (v.(iv_start) + i * v.(iv_step)).

(** The instructions [IVUtility] and [LoopGoverningIVUtility] generate, as
    functions of the values they read.  The chunk PHI counts the iterations of
    the current chunk.  The last two, which a latch and the preheader use, give
    the value the exit condition reads in the iteration before the one with the
    given value of the PHI; their laws are those of an exit condition that
    compares the PHI. *)
Class IVUtility := {
  chunkPHI_start : Z;
  isChunkCompleted : Z → Z → bool;
  chunkPHI_next : Z → Z → Z;
  scaleInductionVariableStep : Z → Z → Z → Z;
  offsetIVPHI : Z → Z → Z → Z;
  chunkInductionVariablePHI : Z → Z → bool → Z → Z;
  previousValueUsedToCompare : Z → Z → Z → Z;
  valueForAnIterationAgo : Z → Z → Z → Z;
  chunk_start : chunkPHI_start = 0;
  chunk_completed k c : 0 ≤ k < c → isChunkCompleted k c = (k + 1 =? c);
  chunk_next k c : 0 ≤ k < c → chunkPHI_next k c = if k + 1 =? c then 0 else k + 1;
  scale_step w step scale : scaleInductionVariableStep w step scale = swrap w (step * scale);
  offset_phi w start off : offsetIVPHI w start off = swrap w (start + off);
  chunk_phi w next completed chunkStep :
    chunkInductionVariablePHI w next completed chunkStep =
    if completed then swrap w (next + chunkStep) else next;
  previous_value w v step : previousValueUsedToCompare w v step = swrap w (v - step);
  iteration_ago w v step : valueForAnIterationAgo w v step = swrap w (v - step);
}.

#[export] Instance plain_IVUtility : IVUtility := {|
  chunkPHI_start := 0;
  isChunkCompleted k c := k + 1 =? c;
  chunkPHI_next k c := if k + 1 =? c then 0 else k + 1;
  scaleInductionVariableStep w step scale := swrap w (step * scale);
  offsetIVPHI w start off := swrap w (start + off);
  chunkInductionVariablePHI w next completed chunkStep :=
    if completed then swrap w (next + chunkStep) else next;
  previousValueUsedToCompare w v step := swrap w (v - step);
  valueForAnIterationAgo w v step := swrap w (v - step);
  chunk_start := eq_refl;
  chunk_completed _ _ _ := eq_refl;
  chunk_next _ _ _ := eq_refl;
  scale_step _ _ _ := eq_refl;
  offset_phi _ _ _ := eq_refl;
  chunk_phi _ _ _ _ := eq_refl;
  previous_value _ _ _ := eq_refl;
  iteration_ago _ _ _ := eq_refl;
|}.

(** Congruent arguments wrap to the same value. *)
Lemma swrap_eqm_eq w a b : 1 ≤ w → eqm w a b → swrap w a = swrap w b.
Proof.
  intros Hw H. apply (eqm_signed_eq w); [done | by apply swrap_range | by apply swrap_range |].
  by rewrite !swrap_eqm.
Qed.

Lemma iv_value_next v i : 1 ≤ iv_width v →
  swrap (iv_width v) (iv_value v i + iv_step v) = iv_value v (i + 1).
Proof.
  intros Hw. unfold iv_value. apply swrap_eqm_eq; [done |]. rewrite swrap_eqm.
  by replace (iv_start v + (i + 1) * iv_step v) with (iv_start v + i * iv_step v + iv_step v) by lia.
Qed.

Lemma iv_value_pred v i : 1 ≤ iv_width v →
  swrap (iv_width v) (iv_value v i - iv_step v) = iv_value v (i - 1).
Proof.
  intros Hw. unfold iv_value. apply swrap_eqm_eq; [done |]. rewrite swrap_eqm.
  by replace (iv_start v + (i - 1) * iv_step v) with (iv_start v + i * iv_step v - iv_step v) by lia.
Qed.

(** Skipping [k] iterations. *)
Lemma iv_value_skip `{IVUtility} v i k : 1 ≤ iv_width v →
  swrap (iv_width v) (iv_value v i + scaleInductionVariableStep (iv_width v) (iv_step v) k) =
  iv_value v (i + k).
Proof.
  intros Hw. rewrite scale_step. unfold iv_value. apply swrap_eqm_eq; [done |].
  rewrite !swrap_eqm.
  by replace (iv_start v + (i + k) * iv_step v) with (iv_start v + i * iv_step v + iv_step v * k) by lia.
Qed.
End IVs.
