(* ===== verification/Planner.v ===== *)
(** * The parallelization planner

    [src/src/core/parallelization_planner/src]: the time a parallelized loop
    saves ([TimingModel.cpp]), the best combination of the loops of a nesting
    tree ([LoopEvaluation.cpp]), the loops worth parallelizing and their order
    ([LoopSelector.cpp]), and the pass that writes the order into metadata
    ([Pass.cpp]). *)

From S2P Require Import Prelude CppStd Noelle.

Module Planner.
Import Loops Metadata Profiles.

(** ** TimingModel.cpp *)

(** [sccs]: the sequential SCCs that block DOALL. *)
Definition getTimeSpentInCriticalPathPerIteration (h : Hot) (sequentialSCCs : list Z) : Z :=
  if negb h.(isAvailable) then 0
  else foldl (λ biggestSCCTime scc,
                let sequentialSCCTime := h.(getTotalInstructionsOfSCC) scc in
                if biggestSCCTime <? sequentialSCCTime then sequentialSCCTime
                else biggestSCCTime) 0 sequentialSCCs.

Definition getTimeSavedByParallelizingLoop (h : Hot) (ls : Z) (sequentialSCCs : list Z) : outcome Z :=
  if negb (h.(hasBeenExecuted) ls) then Ok 0
  else
    let seq := getTimeSpentInCriticalPathPerIteration h sequentialSCCs in
    let instsPerIteration := h.(getAverageTotalInstructionsPerIteration) ls in
    let iterations := F64.of_Z (h.(getIterations) ls) in
    let instsInBiggestSCCPerIteration :=
      if negb (F64.eqb instsPerIteration (F64.of_Z 0))
      then F64.div (F64.of_Z seq) iterations
      else F64.of_Z 0 in
    assert_that (F64.leb instsInBiggestSCCPerIteration instsPerIteration) ≫= λ _,
    let timeSavedPerIteration := F64.sub instsPerIteration instsInBiggestSCCPerIteration in
    F64.to_u64 (F64.mul timeSavedPerIteration iterations).

(** ** LoopEvaluation.cpp *)

(** [map.at(l)] throws on a missing key. *)
Definition at_ {A} (m : gmap Z A) (l : Z) : outcome A :=
  match m !! l with Some a => Ok a | None => Fail Thrown end.

(** The savings of the children of a node, accumulated into [maxChildrenSaved];
    [maxTimeSaved[nestedLoop]] inserts a missing key with 0. *)
Fixpoint accumulate_children (considerLoop : Z → outcome bool) (children : list LoopTree)
    (maxChildrenSaved : Z) (maxTimeSaved : gmap Z Z) : outcome (Z * gmap Z Z) :=
  match children with
  | [] => Ok (maxChildrenSaved, maxTimeSaved)
  | child :: rest =>
      let nestedLoop := getLoop child in
      considerLoop nestedLoop ≫= λ c : bool,
      if negb c then accumulate_children considerLoop rest maxChildrenSaved maxTimeSaved
      else
        let nestedLoopMaxSave := default 0 (maxTimeSaved !! nestedLoop) in
        accumulate_children considerLoop rest (u64 (maxChildrenSaved + nestedLoopMaxSave))
                            (<[nestedLoop := nestedLoopMaxSave]> maxTimeSaved)
  end.

(** The visit of one node. *)
Definition evaluate_node (timeSaved : gmap Z Z) (considerLoop : Z → outcome bool)
    (maxTimeSaved : gmap Z Z) (n : LoopTree) : outcome (gmap Z Z) :=
  let ls := getLoop n in
  considerLoop ls ≫= λ c : bool,
  if negb c then Ok maxTimeSaved
  else
    assert_that (bool_decide (is_Some (timeSaved !! ls))) ≫= λ _,
    at_ timeSaved ls ≫= λ loopSaved,
    accumulate_children considerLoop (getChildren n) 0 maxTimeSaved ≫= λ r,
    let '(maxChildrenSaved, maxTimeSaved) := r in
    Ok (<[ls := Z.max maxChildrenSaved loopSaved]> maxTimeSaved).

Fixpoint visit_all (f : gmap Z Z → LoopTree → outcome (gmap Z Z)) (ns : list LoopTree)
    (m : gmap Z Z) : outcome (gmap Z Z) :=
  match ns with
  | [] => Ok m
  | n :: rest => f m n ≫= visit_all f rest
  end.

Definition evaluateSavingsOf `{TreeVisit} (tree : LoopTree) (timeSaved : gmap Z Z)
    (considerLoop : Z → outcome bool) : outcome Z :=
  visit_all (evaluate_node timeSaved considerLoop) (visitPostOrder tree) ∅ ≫= λ maxTimeSaved,
  Ok (default 0 (maxTimeSaved !! getLoop tree)).

Definition considerAll (l : Z) : outcome bool := Ok true.
Definition considerDOALLOnly (doallLoops : gmap Z bool) (l : Z) : outcome bool := at_ doallLoops l.

(** The two metrics: with any technique, and with DOALL only. *)
Definition evaluateSavings `{TreeVisit} (tree : LoopTree) (timeSaved : gmap Z Z)
    (doallLoops : gmap Z bool) : outcome (Z * Z) :=
  evaluateSavingsOf tree timeSaved considerAll ≫= λ a,
  evaluateSavingsOf tree timeSaved (considerDOALLOnly doallLoops) ≫= λ d,
  Ok (a, d).

(** ** LoopSelector.cpp *)

(** What the pass asks of NOELLE and of the techniques about a loop. *)
Record Program := {
  getLoopContent : Z → Z;               (* LoopStructure* to LoopContent* *)
  getLoopStructure : Z → Z;             (* LoopContent* to LoopStructure* *)
  getNestingLevel : Z → Z;              (* of a LoopStructure* *)
  getSCCsThatBlockDOALL : Z → list Z;   (* of a LoopContent* *)
  doall_canBeAppliedToLoop : Z → bool;  (* of a LoopContent* *)
  getID : Z → option Z;                 (* of a LoopStructure* *)
}.

(** [assert(loopIDOpt)] on the ID of a loop. *)
Definition assert_ID (p : Program) (ls : Z) : outcome () :=
  assert_that (bool_decide (is_Some (p.(getID) ls))).

(** The filter of [removeLoopsNotWorthParallelizing]: [true] removes the loop. *)
Definition notWorthParallelizing (h : Hot) (p : Program) (ls : Z) : outcome bool :=
  assert_ID p ls ≫= λ _,
  if h.(getIterations) ls =? 0 then Ok true
  else if F64.ltb (h.(getAverageTotalInstructionsPerInvocation) ls) (F64.of_Z 2000) then Ok true
  else if F64.ltb (h.(getAverageLoopIterationsPerInvocation) ls) (F64.of_Z 12) then Ok true
  else
    let hotness := F64.mul (h.(getDynamicTotalInstructionCoverage) ls) (F64.of_Z 100) in
    Ok (F64.ltb hotness (F64.of_Z 0)).

(** The loops of a tree are printed, with their IDs. *)
Fixpoint printTree (p : Program) (ns : list LoopTree) : outcome () :=
  match ns with
  | [] => Ok ()
  | n :: rest => assert_ID p (getLoop n) ≫= λ _, printTree p rest
  end.

(** [filterOutLoops] is NOELLE's: it drops the loops its argument selects. *)
Definition removeLoopsNotWorthParallelizing `{TreeVisit}
    (filterOutLoops : list LoopTree → (Z → outcome bool) → outcome (list LoopTree))
    (forceParallelization : bool) (h : Hot) (p : Program) (forest : list LoopTree)
    : outcome (list LoopTree) :=
  (if negb forceParallelization then filterOutLoops forest (notWorthParallelizing h p) else Ok forest)
    ≫= λ forest,
  printTree p (concat (map visitPreOrder forest)) ≫= λ _,
  Ok forest.

Record tables := Tables {
  timeSavedLoops : gmap Z Z;    (* by LoopContent* *)
  doallLoops : gmap Z bool;     (* by LoopStructure* *)
  timeSavedPerLoop : gmap Z Z;  (* by LoopStructure* *)
}.

Definition selector (h : Hot) (p : Program) (tb : tables) (n : LoopTree) : outcome tables :=
  let ls := getLoop n in
  let ldi := p.(getLoopContent) ls in
  let doallLoops := <[ls := p.(doall_canBeAppliedToLoop) ldi]> tb.(doallLoops) in
  getTimeSavedByParallelizingLoop h ls (p.(getSCCsThatBlockDOALL) ldi) ≫= λ timeSaved,
  Ok (Tables (<[ldi := timeSaved]> tb.(timeSavedLoops)) doallLoops
             (<[ls := timeSaved]> tb.(timeSavedPerLoop))).

Fixpoint select_all (h : Hot) (p : Program) (ns : list LoopTree) (tb : tables) : outcome tables :=
  match ns with
  | [] => Ok tb
  | n :: rest => selector h p tb n ≫= select_all h p rest
  end.

Definition exportDoallMetadata `{MetadataManager M} (loops : gmap Z bool) (mm : M) : M :=
  foldl (λ mm lb, addMetadata lb.1 gino_doall (if lb.2 : bool then yes else no) mm) mm
        (in_key_order loops).

(** Does the saved time, in percents of the whole program, reach 2? *)
Definition savesEnough (forceParallelization : bool) (h : Hot) (timeSaved : Z) : bool :=
  let savedTimeTotal :=
    F64.mul (F64.div (F64.of_Z timeSaved) (F64.of_Z h.(getTotalInstructions))) (F64.of_Z 100) in
  negb (negb forceParallelization && F64.ltb savedTimeTotal (F64.of_Z 2)).

(** The loops to parallelize, in the order of the table. *)
Fixpoint worthLoops (p : Program) (forceParallelization : bool) (h : Hot) (timeSavedLoops : list (Z * Z))
    : outcome (list Z) :=
  match timeSavedLoops with
  | [] => Ok []
  | (ldi, timeSaved) :: rest =>
      assert_ID p (p.(getLoopStructure) ldi) ≫= λ _,
      worthLoops p forceParallelization h rest ≫= λ selectedLoops,
      Ok (if savesEnough forceParallelization h timeSaved then ldi :: selectedLoops else selectedLoops)
  end.

Definition compareOperator (p : Program) (timeSavedLoops : gmap Z Z) (l1 l2 : Z) : bool :=
  let s1 := default 0 (timeSavedLoops !! l1) in
  let s2 := default 0 (timeSavedLoops !! l2) in
  if negb (s1 =? s2) then s2 <? s1
  else p.(getNestingLevel) (p.(getLoopStructure) l1) <? p.(getNestingLevel) (p.(getLoopStructure) l2).

(** The loops selected, the maximum savings with any technique and with DOALL
    only, and the metadata. *)
Definition selectTheOrderOfLoopsToParallelize `{TreeVisit, MetadataManager M}
    (forceParallelization : bool) (h : Hot) (p : Program) (tree : LoopTree) (mm : M)
    : outcome (list Z * (Z * Z) * M) :=
  select_all h p (visitPreOrder tree) (Tables ∅ ∅ ∅) ≫= λ tb,
  let mm := exportDoallMetadata tb.(doallLoops) mm in
  worthLoops p forceParallelization h (in_key_order tb.(timeSavedLoops)) ≫= λ selectedLoops,
  if (length selectedLoops =? 0)%nat then Ok ([], (0, 0), mm)
  else
    evaluateSavings tree tb.(timeSavedPerLoop) tb.(doallLoops) ≫= λ maxTimeSaved,
    Ok (std_sort (compareOperator p tb.(timeSavedLoops)) selectedLoops, maxTimeSaved, mm).

(** ** Pass.cpp *)

(** The loops of one tree get the next indices. *)
Fixpoint attachOrder `{MetadataManager M} (p : Program) (loopsToParallelize : list Z)
    (parallelizationOrderIndex : Z) (mm : M) : Z * M :=
  match loopsToParallelize with
  | [] => (parallelizationOrderIndex, mm)
  | ldi :: rest =>
      attachOrder p rest (u32 (parallelizationOrderIndex + 1))
        (addMetadata (p.(getLoopStructure) ldi) looporder
                     (Dec.to_string parallelizationOrderIndex) mm)
  end.

Record plan M := Plan {
  planned : list Z;   (* the loops given an index, in that order *)
  index : Z;
  savings : Z * Z;
  modified : bool;
  metadata : M;
}.
Arguments Plan {M}.
Arguments planned {M}.
Arguments index {M}.
Arguments savings {M}.
Arguments modified {M}.
Arguments metadata {M}.

Fixpoint planTrees `{TreeVisit, MetadataManager M} (forceParallelization : bool) (h : Hot)
    (p : Program) (trees : list LoopTree) (pl : plan M) : outcome (plan M) :=
  match trees with
  | [] => Ok pl
  | tree :: rest =>
      selectTheOrderOfLoopsToParallelize forceParallelization h p tree pl.(metadata) ≫= λ r,
      let '(loopsToParallelize, (maxTimeSaved, maxTimeSavedWithDOALLOnly), mm) := r in
      let '(i, mm) := attachOrder p loopsToParallelize pl.(index) mm in
      planTrees forceParallelization h p rest
        (Plan (pl.(planned) ++ loopsToParallelize) i
              (u64 (pl.(savings).1 + maxTimeSaved), u64 (pl.(savings).2 + maxTimeSavedWithDOALLOnly))
              (pl.(modified) || negb (length loopsToParallelize =? 0)%nat) mm)
  end.

Definition runOnModule `{TreeVisit, MetadataManager M}
    (filterOutLoops : list LoopTree → (Z → outcome bool) → outcome (list LoopTree))
    (forceParallelization : bool) (h : Hot) (p : Program) (forest : list LoopTree) (mm : M)
    : outcome (plan M) :=
  if (length (concat (map loops forest)) =? 0)%nat then Ok (Plan [] 0 (0, 0) false mm)
  else
    (if negb forceParallelization
     then removeLoopsNotWorthParallelizing filterOutLoops forceParallelization h p forest
     else Ok forest) ≫= λ forest,
    planTrees forceParallelization h p forest (Plan [] 0 (0, 0) false mm).

(** ** The specification: combinations of loops *)

(** A set of loops of the tree none of which is nested in another, where a loop
    of the set is reached only through loops of [keep]. *)
#[warnings="-register-all"]
Inductive combination (keep : Z → bool) : LoopTree → list Z → Prop :=
| comb_none t : combination keep t []
| comb_root l cs : keep l = true → combination keep (Node l cs) [l]
| comb_children l cs sels : keep l = true → Forall2 (combination keep) cs sels →
    combination keep (Node l cs) (concat sels).

Section savings.
Context (saved : Z → Z) (keep : Z → bool).

Definition total (sel : list Z) : Z := zsum (saved <$> sel).
#[local] Arguments total : simpl never.

Fixpoint best (t : LoopTree) : Z :=
  match t with
  | Node l cs => if keep l then Z.max (zsum (map best cs)) (saved l) else 0
  end.

Context (Hpos : ∀ l, 0 ≤ saved l).

Lemma total_app a b : total (a ++ b) = total a + total b.
Proof. unfold total. by rewrite fmap_app, zsum_app. Qed.

Lemma best_nonneg t : 0 ≤ best t.
Proof. destruct t as [l cs]. cbn. pose proof (Hpos l). destruct (keep l); lia. Qed.

(** [best] is the value of a combination, and no combination is worth more. *)
Lemma best_upper t sel : combination keep t sel → total sel ≤ best t.
Proof.
  revert sel. induction t as [l cs IH] using LoopTree_ind'. intros sel Hc.
  inversion Hc as [| ? ? Hk | ? ? sels Hk Hs]; subst.
  - apply best_nonneg.
  - cbn. rewrite Hk. unfold total. cbn. lia.
  - cbn. rewrite Hk. assert (total (concat sels) ≤ zsum (map best cs)); [| lia].
    clear Hc Hk. revert sels Hs. induction IH as [| c cs Hc _ IHcs]; intros sels Hs.
    + apply Forall2_nil_inv_l in Hs as ->. done.
    + apply Forall2_cons_inv_l in Hs as (s & ss & Hcs & Hss & ->). cbn.
      rewrite total_app. specialize (Hc _ Hcs). specialize (IHcs _ Hss). lia.
Qed.

Lemma best_attained t : ∃ sel, combination keep t sel ∧ total sel = best t.
Proof.
  induction t as [l cs IH] using LoopTree_ind'. cbn. destruct (keep l) eqn:Hk.
  2: { exists []. split; [constructor | done]. }
  assert (∃ sels, Forall2 (combination keep) cs sels ∧
                  total (concat sels) = zsum (map best cs)) as (sels & Hs & Ht).
  { clear Hk. induction IH as [| c cs (s & Hc & Et) _ (ss & Hcs & Ess)].
    - exists []. split; [constructor | done].
    - exists (s :: ss). split; [by constructor |]. cbn. rewrite total_app. lia. }
  destruct (Z.max_spec (zsum (map best cs)) (saved l)) as [[_ ->] | [_ ->]].
  - exists [l]. split; [by constructor |]. unfold total. cbn. lia.
  - exists (concat sels). split; [by constructor | done].
Qed.

Lemma best_le_total t : best t ≤ total (loops t).
Proof.
  induction t as [l cs IH] using LoopTree_ind'. cbn [best]. unfold loops, total. cbn.
  assert (zsum (map best cs) ≤ zsum (saved <$> (getLoop <$> concat (map subtrees cs))) ∧
          0 ≤ zsum (saved <$> (getLoop <$> concat (map subtrees cs)))) as [H1 H2].
  { induction IH as [| c cs Hc _ [IH1 IH2]]; cbn; [lia |].
    rewrite !fmap_app, zsum_app. unfold total, loops in Hc.
    pose proof (best_nonneg c). lia. }
  pose proof (Hpos l). destruct (keep l); lia.
Qed.
End savings.
#[global] Arguments total : simpl never.

(** ** The visit computes [best] *)

Section evaluation.
Context `{TreeVisit} (t : LoopTree) (timeSaved : gmap Z Z) (considerLoop : Z → outcome bool).
Context (keep : Z → bool).

Definition saved (l : Z) : Z := default 0 (timeSaved !! l).

Context (Hnodup : NoDup (loops t)).
Context (Hsaved : ∀ l, l ∈ loops t → is_Some (timeSaved !! l)).
Context (Hkeep : ∀ l, l ∈ loops t → considerLoop l = Ok (keep l)).
Context (Hnonneg : ∀ l, 0 ≤ saved l).
Context (Hsum : total saved (loops t) < 2 ^ 64).

Lemma in_loops n : n ∈ subtrees t → getLoop n ∈ loops t.
Proof. intros. by apply list_elem_of_fmap_2. Qed.

Lemma child_subtree n c : n ∈ subtrees t → c ∈ getChildren n → c ∈ subtrees t.
Proof.
  intros Hn Hc. eapply subtrees_trans; [exact Hn |]. apply subtrees_inv. right.
  exists c. split; [done | apply subtrees_self].
Qed.

Lemma same_loop n m : n ∈ subtrees t → m ∈ subtrees t → getLoop n = getLoop m → n = m.
Proof.
  intros [i Hi]%list_elem_of_lookup [j Hj]%list_elem_of_lookup E.
  assert (i = j) as <-; [| congruence]. eapply (NoDup_lookup (loops t)).
  - done.
  - unfold loops. by rewrite list_lookup_fmap, Hi.
  - unfold loops. by rewrite list_lookup_fmap, Hj, E.
Qed.

Lemma zsum_member {A} (f : A → Z) (l : list A) x :
  (∀ y, 0 ≤ f y) → x ∈ l → f x ≤ zsum (map f l) ∧ 0 ≤ zsum (map f l).
Proof.
  intros Hf. induction l as [| y l IH]; intros Hx; [by apply not_elem_of_nil in Hx |].
  assert (0 ≤ zsum (map f l)) by (clear - Hf; induction l as [| z l IH]; cbn; [lia | specialize (Hf z); lia]).
  cbn. pose proof (Hf y). apply elem_of_cons in Hx as [-> | Hx]; [lia |]. specialize (IH Hx). lia.
Qed.

Lemma total_loops l cs :
  total saved (loops (Node l cs)) = saved l + zsum (map (λ c, total saved (loops c)) cs).
Proof.
  unfold loops, total. cbn. f_equal.
  induction cs as [| c cs IH]; cbn; [done |]. by rewrite !fmap_app, zsum_app, IH.
Qed.

Lemma total_nonneg k : 0 ≤ total saved k.
Proof. unfold total. induction k as [| x k IHk]; cbn; [lia |]. pose proof (Hnonneg x). lia. Qed.

(** The loops below [n] are among those below the whole tree. *)
Lemma total_subtree r n : n ∈ subtrees r → total saved (loops n) ≤ total saved (loops r).
Proof.
  induction r as [l cs IH] using LoopTree_ind'.
  intros [-> | (c & Hc & Hn)]%subtrees_inv; [lia |]. cbn in Hc.
  rewrite Forall_forall in IH. specialize (IH c Hc Hn). rewrite total_loops.
  pose proof (zsum_member (λ c, total saved (loops c)) cs c (λ c, total_nonneg _) Hc) as [Hz _].
  pose proof (Hnonneg l). cbn in Hz. lia.
Qed.

Lemma accumulate_spec cs s m :
  (∀ c, c ∈ cs → considerLoop (getLoop c) = Ok (keep (getLoop c))) →
  (∀ c, c ∈ cs → keep (getLoop c) = true → m !! getLoop c = Some (best saved keep c)) →
  0 ≤ s → s + zsum (map (best saved keep) cs) < 2 ^ 64 →
  accumulate_children considerLoop cs s m = Ok (s + zsum (map (best saved keep) cs), m).
Proof.
  revert s. induction cs as [| c cs IH]; intros s Hc Hm Hs Hlt; cbn in *; [by rewrite Z.add_0_r |].
  rewrite Hc by left. cbn.
  assert (0 ≤ zsum (map (best saved keep) cs)) as Hrest.
  { clear - Hnonneg. induction cs; cbn; [lia |]. pose proof (best_nonneg saved keep Hnonneg a). lia. }
  pose proof (best_nonneg saved keep Hnonneg c) as Hb.
  destruct (keep (getLoop c)) eqn:Hk; cbn.
  - rewrite (Hm c (list_elem_of_here _ _) Hk). cbn.
    rewrite insert_id by (apply Hm; [left | done]).
    rewrite u64_small by (change (2 ^ 64) with 18446744073709551616 in Hlt; lia).
    rewrite IH; [f_equal; f_equal; lia | intros; apply Hc; by right
                | intros; apply Hm; [by right | done] | lia | lia].
  - assert (best saved keep c = 0) as E by (destruct c as [l ds]; cbn in *; by rewrite Hk).
    rewrite IH; [f_equal; f_equal; lia | intros; apply Hc; by right
                | intros; apply Hm; [by right | done] | lia | lia].
Qed.

Definition computed (pre : list LoopTree) (m : gmap Z Z) : Prop :=
  ∀ n, n ∈ pre → keep (getLoop n) = true → m !! getLoop n = Some (best saved keep n).

Lemma evaluate_node_spec pre n m :
  n ∈ subtrees t → (∀ k, k ∈ pre → k ∈ subtrees t) → (∀ c, c ∈ getChildren n → c ∈ pre) →
  computed pre m →
  ∃ m', evaluate_node timeSaved considerLoop m n = Ok m' ∧ computed (pre ++ [n]) m' ∧
        (∀ l, keep l = false → m' !! l = m !! l).
Proof.
  intros Hn Hpre Hch Hm. unfold evaluate_node. rewrite Hkeep by by apply in_loops. cbn.
  destruct (keep (getLoop n)) eqn:Hk; cbn.
  2: { exists m. split_and!; [done | | done]. intros k [Hin | ->%list_elem_of_singleton]%elem_of_app; [by apply Hm |].
       congruence. }
  destruct (Hsaved (getLoop n)) as [v Hv]; [by apply in_loops |].
  rewrite bool_decide_true by (rewrite Hv; eauto). cbn. unfold at_. rewrite Hv. cbn.
  pose proof (best_le_total saved keep Hnonneg n) as Hle.
  pose proof (total_subtree t n Hn) as Hle2.
  assert (best saved keep n = Z.max (zsum (map (best saved keep) (getChildren n))) v) as Eb.
  { destruct n as [l cs]. cbn in *. rewrite Hk. unfold saved at 2. by rewrite Hv. }
  rewrite accumulate_spec; [cbn | | | lia | lia].
  - eexists. split_and!; [done | | intros l Hl; apply lookup_insert_ne; congruence].
    intros k [Hin | ->%list_elem_of_singleton]%elem_of_app Hkk.
    + destruct (decide (getLoop n = getLoop k)) as [E | Hne].
      * rewrite (same_loop n k Hn (Hpre _ Hin) E) in Eb |- *. by rewrite lookup_insert_eq, Eb.
      * rewrite lookup_insert_ne by done. by apply Hm.
    + by rewrite lookup_insert_eq, Eb.
  - intros c Hc. apply Hkeep, in_loops. by eapply child_subtree.
  - intros c Hc Hkc. apply Hm; [by apply Hch | done].
Qed.

Lemma visit_all_spec ns : ∀ pre m,
  visitPostOrder t = pre ++ ns → computed pre m →
  (keep (getLoop t) = false → m !! getLoop t = None) →
  ∃ m', visit_all (evaluate_node timeSaved considerLoop) ns m = Ok m' ∧ computed (pre ++ ns) m' ∧
        (keep (getLoop t) = false → m' !! getLoop t = None).
Proof.
  induction ns as [| n ns IH]; intros pre m E Hm Hr; cbn.
  - exists m. by rewrite app_nil_r.
  - assert (∀ k, k ∈ pre ++ n :: ns → k ∈ subtrees t) as Hall.
    { intros k. rewrite <- E, post_perm. done. }
    destruct (evaluate_node_spec pre n m) as (m' & Hev & Hm' & Hun).
    + apply Hall, elem_of_app. right. left.
    + intros k Hk. apply Hall, elem_of_app. by left.
    + intros c Hc. by eapply post_children.
    + done.
    + rewrite Hev. cbn. rewrite cons_middle, app_assoc in E |- *.
      apply IH; [done | done |]. intros Hkt. rewrite Hun by done. by apply Hr.
Qed.

Lemma evaluateSavingsOf_best :
  evaluateSavingsOf t timeSaved considerLoop = Ok (best saved keep t).
Proof.
  unfold evaluateSavingsOf.
  destruct (visit_all_spec (visitPostOrder t) [] ∅) as (m & Hv & Hm & Hr).
  - done.
  - intros n ?%not_elem_of_nil. done.
  - intros _. apply lookup_empty.
  - rewrite Hv. cbn. f_equal. destruct (keep (getLoop t)) eqn:Hk.
    + cbn in Hm. rewrite (Hm t); [done | rewrite post_perm; apply subtrees_self | done].
    + rewrite Hr by done. destruct t as [l cs]. cbn in *. by rewrite Hk.
Qed.
End evaluation.

(** ** The order *)

#[export] Instance compareOperator_swo p m : StrictWeakOrder (compareOperator p m).
Proof.
  split; unfold compareOperator; intros.
  - rewrite Z.eqb_refl. cbn. by rewrite Z.ltb_irrefl.
  - repeat match goal with H : context [if ?b then _ else _] |- _ => destruct b eqn:? end;
      case_tests; rewrite ?Z.ltb_lt in *; lia.
  - repeat match goal with H : context [if ?b then _ else _] |- _ => destruct b eqn:? end;
      case_tests; rewrite ?Z.ltb_ge in *; lia.
Qed.

Section selection.
Context `{TreeVisit, MetadataManager M} (force : bool) (h : Hot) (p : Program).

(** The value the timing model gives a loop. *)
Definition modelled_saving (ls : Z) : outcome Z :=
  getTimeSavedByParallelizingLoop h ls (getSCCsThatBlockDOALL p (getLoopContent p ls)).

Lemma select_all_spec ns tb tb' :
  select_all h p ns tb = Ok tb' →
  NoDup (getLoop <$> ns) →
  (∀ a b, a ∈ getLoop <$> ns → b ∈ getLoop <$> ns →
          getLoopContent p a = getLoopContent p b → a = b) →
  (∀ l, l ∈ getLoop <$> ns → ∃ v, modelled_saving l = Ok v ∧
     timeSavedLoops tb' !! getLoopContent p l = Some v ∧ timeSavedPerLoop tb' !! l = Some v ∧
     doallLoops tb' !! l = Some (doall_canBeAppliedToLoop p (getLoopContent p l))) ∧
  (∀ c, c ∉ getLoopContent p <$> (getLoop <$> ns) → timeSavedLoops tb' !! c = timeSavedLoops tb !! c) ∧
  (∀ l, l ∉ getLoop <$> ns → timeSavedPerLoop tb' !! l = timeSavedPerLoop tb !! l ∧
                             doallLoops tb' !! l = doallLoops tb !! l).
Proof.
  revert tb. induction ns as [| n ns IH]; intros tb; cbn.
  - intros [= ->] _ _. split_and!; [| done | done]. by intros l ?%not_elem_of_nil.
  - intros (tb1 & Hsel & Hrest)%bind_Ok_inv [Hn Hnd]%NoDup_cons Hinj.
    unfold selector in Hsel. apply bind_Ok_inv in Hsel as (v & Hv & [= <-]).
    destruct (IH _ Hrest Hnd) as (I1 & I2 & I3).
    { intros a b Ha Hb. apply Hinj; by right. }
    assert (getLoopContent p (getLoop n) ∉ getLoopContent p <$> (getLoop <$> ns)) as Hc.
    { intros (a & Ea & Ha)%list_elem_of_fmap. 
      assert (getLoop n = a) as <- by (apply Hinj; [left | by right | done]). done. }
    split_and!.
    + intros l [-> | Hl]%elem_of_cons; [| by apply I1]. exists v. split; [done |].
      rewrite I2 by done. destruct (I3 _ Hn) as [-> ->]. cbn.
      by rewrite !lookup_insert_eq.
    + intros c [Hc1 Hc2]%not_elem_of_cons. rewrite I2 by done. cbn. by apply lookup_insert_ne.
    + intros l [Hl1 Hl2]%not_elem_of_cons. destruct (I3 _ Hl2) as [-> ->]. cbn.
      by rewrite !lookup_insert_ne.
Qed.

Lemma exportDoallMetadata_get (d : gmap Z bool) (mm : M) l k :
  getMetadata (exportDoallMetadata d mm) l k =
  match (d !! l : option bool) with
  | Some b => if decide (k = gino_doall) then Some (if b then yes else no) else getMetadata mm l k
  | None => getMetadata mm l k
  end.
Proof.
  unfold exportDoallMetadata.
  assert (∀ b, d !! l = Some b ↔ (l, b) ∈ in_key_order d) as Hel
    by (intros b; by rewrite elem_of_in_key_order).
  pose proof (in_key_order_NoDup d) as Hnd. revert mm.
  assert (∀ ls (mm : M), NoDup ls.*1 →
    getMetadata (foldl (λ mm lb, addMetadata lb.1 gino_doall (if lb.2 : bool then yes else no) mm) mm ls) l k =
    match list_find (λ lb, lb.1 = l) ls with
    | Some (_, lb) => if decide (k = gino_doall) then Some (if lb.2 : bool then yes else no) else getMetadata mm l k
    | None => getMetadata mm l k
    end) as Hfold.
  { induction ls as [| [x b] ls IH]; intros mm Hn; cbn in *; [done |].
    apply NoDup_cons in Hn as [Hx Hn]. rewrite IH by done. clear IH.
    destruct (decide (x = l)) as [-> | Hne]; cbn.
    - destruct (list_find _ ls) as [[i lb] |] eqn:E.
      { exfalso. apply list_find_Some in E as (Hi & <- & _). apply Hx, list_elem_of_fmap.
        exists lb. split; [done |]. by eapply list_elem_of_lookup_2. }
      destruct (decide (k = gino_doall)) as [-> | Hk]; [by rewrite get_add_eq |].
      by rewrite get_add_kind by congruence.
    - destruct (list_find _ ls) as [[i lb] |]; cbn.
      + destruct (decide (k = gino_doall)); [done |]. by rewrite get_add_loop.
      + by rewrite get_add_loop. }
  intros mm. rewrite Hfold by done. clear Hfold.
  destruct (list_find _ (in_key_order d)) as [[i [x b]] |] eqn:E.
  - apply list_find_Some in E as (Hi & Ex & _). cbn in *. subst x.
    by rewrite (proj2 (Hel b)) by (by eapply list_elem_of_lookup_2).
  - apply list_find_None in E. destruct (d !! l) as [b |] eqn:Ed; [| done].
    rewrite Forall_forall in E. by destruct (E (l, b)); [apply Hel |].
Qed.

Lemma worthLoops_Ok ls : ∀ sel, worthLoops p force h ls = Ok sel →
  sel = (filter (λ ls, Is_true (savesEnough force h ls.2)) ls).*1.
Proof.
  induction ls as [| [c v] ls IH]; intros sel; cbn [worthLoops]; [by intros [= <-] |].
  intros (_ & _ & (sel' & Hr & [= <-])%bind_Ok_inv)%bind_Ok_inv.
  rewrite filter_cons, (IH _ Hr). cbn [snd]. by destruct (savesEnough force h v).
Qed.

Lemma selectTheOrder_inv t mm sel sv mm' :
  selectTheOrderOfLoopsToParallelize force h p t mm = Ok (sel, sv, mm') → ∃ tb,
    select_all h p (visitPreOrder t) (Tables ∅ ∅ ∅) = Ok tb ∧
    mm' = exportDoallMetadata (doallLoops tb) mm ∧
    sel ≡ₚ (filter (λ ls, Is_true (savesEnough force h ls.2)) (in_key_order (timeSavedLoops tb))).*1 ∧
    StronglySorted (not_after (compareOperator p (timeSavedLoops tb))) sel.
Proof.
  unfold selectTheOrderOfLoopsToParallelize. intros (tb & Htb & Hr)%bind_Ok_inv. exists tb.
  split; [done |]. apply bind_Ok_inv in Hr as (sel' & ->%worthLoops_Ok & Hr).
  set (l := (filter _ _).*1) in *.
  destruct (Nat.eqb_spec (length l) 0) as [E |].
  - injection Hr as <- <- <-. apply length_zero_iff_nil in E. rewrite E.
    split_and!; [done | done | constructor].
  - apply bind_Ok_inv in Hr as (? & _ & [= <- _ <-]). split_and!; [done | |].
    + apply std_sort_perm.
    + apply std_sort_sorted, _.
Qed.

Context (t : LoopTree) (Hnodup : NoDup (loops t)).
Context (Hcontent : ∀ l, l ∈ loops t → getLoopStructure p (getLoopContent p l) = l).

Lemma pre_loops : getLoop <$> visitPreOrder t ≡ₚ loops t.
Proof. unfold loops. by rewrite pre_perm. Qed.

Lemma filter_fmap_comm {A B} (f : A → B) (P : B → Prop) `{∀ x, Decision (P x)} (l : list A) :
  filter P (f <$> l) = f <$> filter (λ x, P (f x)) l.
Proof.
  induction l as [| x l IH]; [done |]. rewrite fmap_cons, !filter_cons.
  destruct (decide (P (f x))); [| done]. by rewrite fmap_cons, IH.
Qed.

(** The loops selected are those that save enough, each once, by decreasing
    savings and then increasing nesting level. *)
Lemma selected_loops mm sel sv mm' :
  selectTheOrderOfLoopsToParallelize force h p t mm = Ok (sel, sv, mm') → ∃ saved : Z → Z,
    (∀ l, l ∈ loops t → modelled_saving l = Ok (saved l)) ∧
    sel ≡ₚ getLoopContent p <$> filter (λ l, Is_true (savesEnough force h (saved l))) (loops t) ∧
    StronglySorted (λ a b, saved b < saved a ∨
                           (saved a = saved b ∧ getNestingLevel p a ≤ getNestingLevel p b))
                   (getLoopStructure p <$> sel) ∧
    (∀ l, l ∈ loops t → getMetadata mm' l gino_doall =
       Some (if doall_canBeAppliedToLoop p (getLoopContent p l) then yes else no)) ∧
    (∀ l k, k ≠ gino_doall → getMetadata mm' l k = getMetadata mm l k).
Proof.
  intros (tb & Htb & -> & Hperm & Hsort)%selectTheOrder_inv.
  destruct (select_all_spec _ _ _ Htb) as (S1 & S2 & S3).
  { by rewrite pre_loops. }
  { intros a b Ha Hb E. rewrite pre_loops in Ha, Hb. rewrite <- (Hcontent a Ha), <- (Hcontent b Hb).
    by rewrite E. }
  setoid_rewrite pre_loops in S1. setoid_rewrite pre_loops in S2.
  set (saved := λ l, default 0 (timeSavedPerLoop tb !! l)).
  assert (∀ l, l ∈ loops t → modelled_saving l = Ok (saved l) ∧
            timeSavedLoops tb !! getLoopContent p l = Some (saved l)) as Hsv.
  { intros l Hl. destruct (S1 l Hl) as (v & Hv & Hc & El & _). unfold saved. by rewrite El. }
  assert (in_key_order (timeSavedLoops tb) ≡ₚ (λ l, (getLoopContent p l, saved l)) <$> loops t) as Hord.
  { apply NoDup_Permutation.
    - eapply NoDup_fmap_1, in_key_order_NoDup.
    - apply NoDup_fmap_2_strong; [| done]. intros a b Ha Hb [= E _].
      by rewrite <- (Hcontent a Ha), <- (Hcontent b Hb), E.
    - intros [c v]. rewrite elem_of_in_key_order, list_elem_of_fmap. split.
      + intros Hv. destruct (decide (c ∈ getLoopContent p <$> loops t)) as [Hc | Hc].
        * apply list_elem_of_fmap in Hc as (l & -> & Hl). exists l. split; [| done].
          destruct (Hsv l Hl). congruence.
        * by rewrite S2 in Hv.
      + intros (l & [= -> ->] & Hl). by apply Hsv. }
  exists saved. split_and!.
  - intros l Hl. by apply Hsv.
  - rewrite Hperm, Hord, filter_fmap_comm, <- list_fmap_compose. done.
  - assert (∀ c, c ∈ sel → timeSavedLoops tb !! c = Some (saved (getLoopStructure p c))) as Hc.
    { intros c. rewrite Hperm, Hord, filter_fmap_comm, <- list_fmap_compose.
      intros (l & -> & [_ Hl]%list_elem_of_filter)%list_elem_of_fmap. cbn.
      rewrite Hcontent by done. by apply Hsv. }
    clear - Hc Hsort. induction Hsort as [| c sel Hs IH Hf]; cbn; constructor.
    + apply IH. intros d Hd. apply Hc. by right.
    + apply Forall_fmap. rewrite Forall_forall in Hf |- *. intros d Hd. specialize (Hf d Hd). cbn.
      unfold not_after, compareOperator in Hf.
      rewrite (Hc c (list_elem_of_here _ _)), (Hc d (list_elem_of_further _ _ _ Hd)) in Hf. cbn in Hf.
      destruct (Z.eqb_spec (saved (getLoopStructure p d)) (saved (getLoopStructure p c)));
        cbn in Hf; simplify_tests; lia.
  - intros l Hl. rewrite exportDoallMetadata_get. destruct (S1 l Hl) as (_ & _ & _ & _ & ->).
    by rewrite decide_True.
  - intros l k Hk. rewrite exportDoallMetadata_get. case_match; [| done].
    by rewrite decide_False.
Qed.
End selection.

(** ** The indices *)

Lemma attachOrder_spec `{MetadataManager M} p L : ∀ i (mm : M),
  0 ≤ i → i + Z.of_nat (length L) < 4294967296 → NoDup (getLoopStructure p <$> L) →
  ∃ mm', attachOrder p L i mm = (i + Z.of_nat (length L), mm') ∧
    (∀ j ldi, L !! j = Some ldi →
       getMetadata mm' (getLoopStructure p ldi) looporder = Some (Dec.to_string (i + Z.of_nat j))) ∧
    (∀ l k, k ≠ looporder ∨ l ∉ getLoopStructure p <$> L → getMetadata mm' l k = getMetadata mm l k).
Proof.
  induction L as [| c L IH]; intros i mm Hi Hlt Hnd; cbn [attachOrder length] in *.
  - exists mm. split_and!; [f_equal; lia | done | done].
  - cbn in Hnd. apply NoDup_cons in Hnd as [Hc Hnd]. rewrite u32_small by lia.
    destruct (IH (i + 1) (addMetadata (getLoopStructure p c) looporder (Dec.to_string i) mm))
      as (mm' & E & Hm & Hf); [lia | lia | done |].
    exists mm'. split_and!.
    + rewrite E. f_equal. lia.
    + intros [| j] ldi Hj; cbn in Hj.
      * injection Hj as <-. rewrite Hf by by right. rewrite get_add_eq. do 2 f_equal. lia.
      * rewrite (Hm _ _ Hj). do 2 f_equal. lia.
    + intros l k Hlk. rewrite Hf.
      * destruct Hlk as [Hk | Hl]; [by rewrite get_add_kind by congruence |].
        rewrite get_add_loop; [done |]. intros <-. apply Hl. left.
      * destruct Hlk as [Hk | Hl]; [by left | right]. intros Hin. apply Hl. by right.
Qed.

Section plan_trees.
Context `{TreeVisit, MetadataManager M} (force : bool) (h : Hot) (p : Program) (mm0 : M).

(** What holds of a plan over the loops [D] looked at so far. *)
Record plan_ok (D : list Z) (pl : plan M) : Prop := {
  po_index : index pl = Z.of_nat (length (planned pl));
  po_nodup : NoDup (getLoopStructure p <$> planned pl);
  po_sub l : l ∈ getLoopStructure p <$> planned pl → l ∈ D;
  po_order j ldi : planned pl !! j = Some ldi →
    getMetadata (metadata pl) (getLoopStructure p ldi) looporder = Some (Dec.to_string (Z.of_nat j));
  po_frame l k : k ≠ gino_doall → k ≠ looporder ∨ l ∉ getLoopStructure p <$> planned pl →
    getMetadata (metadata pl) l k = getMetadata mm0 l k;
  po_modified : modified pl = negb (length (planned pl) =? 0)%nat;
}.

Lemma looporder_not_doall : looporder ≠ gino_doall.
Proof. intros E. apply (f_equal (@length _)) in E. done. Qed.

Lemma NoDup_bounded (l D : list Z) : NoDup l → (∀ x, x ∈ l → x ∈ D) → (length l ≤ length D)%nat.
Proof. intros Hn Hs. by apply submseteq_length, NoDup_submseteq. Qed.

Lemma planTree_spec t D pl loopsToParallelize mt md mm i mm' :
  plan_ok D pl → NoDup (D ++ loops t) → Z.of_nat (length (D ++ loops t)) < 4294967296 →
  (∀ l, l ∈ loops t → getLoopStructure p (getLoopContent p l) = l) →
  selectTheOrderOfLoopsToParallelize force h p t (metadata pl) = Ok (loopsToParallelize, (mt, md), mm) →
  attachOrder p loopsToParallelize (index pl) mm = (i, mm') →
  ∀ sv, plan_ok (D ++ loops t)
    (Plan (planned pl ++ loopsToParallelize) i sv
          (modified pl || negb (length loopsToParallelize =? 0)%nat) mm').
Proof.
  intros [P1 P2 P3 P4 P5 P6] Hnd Hlen Hcon Hsel Hatt sv.
  apply NoDup_app in Hnd as (HD & Hdisj & Ht). set (L := loopsToParallelize) in *.
  destruct (selected_loops force h p t Ht Hcon _ _ _ _ Hsel) as (saved & _ & Hperm & _ & _ & Hfr).
  assert (getLoopStructure p <$> L ≡ₚ filter (λ l, Is_true (savesEnough force h (saved l))) (loops t)) as HL.
  { rewrite Hperm, <- list_fmap_compose. set (F := filter _ (loops t)).
    enough (getLoopStructure p ∘ getLoopContent p <$> F = F) as -> by done.
    rewrite <- (list_fmap_id F) at 2. apply list_fmap_ext.
    intros j l Hj. apply list_elem_of_lookup_2, list_elem_of_filter in Hj as [_ Hl]. by apply Hcon. }
  assert (NoDup (getLoopStructure p <$> L)) as HLn by (rewrite HL; by apply NoDup_filter).
  assert (∀ l, l ∈ getLoopStructure p <$> L → l ∈ loops t) as HLs.
  { intros l. rewrite HL. by intros [_ ?]%list_elem_of_filter. }
  assert (length (planned pl) + length L ≤ length (D ++ loops t))%nat as Hle.
  { rewrite length_app. pose proof (NoDup_bounded _ _ P2 P3). pose proof (NoDup_bounded _ _ HLn HLs).
    rewrite !length_fmap in *. lia. }
  destruct (attachOrder_spec p L (index pl) mm) as (mm1 & E & A1 & A2); [lia | lia | done |].
  rewrite E in Hatt. injection Hatt as <- <-.
  assert (∀ l, l ∈ getLoopStructure p <$> planned pl → l ∉ getLoopStructure p <$> L) as Hpl.
  { intros l Hl Hl'. by apply (Hdisj l); [apply P3 | apply HLs]. }
  split; cbn [index planned metadata modified].
  - rewrite length_app. lia.
  - rewrite fmap_app. apply NoDup_app. split_and!; [done | exact Hpl | done].
  - intros l. rewrite fmap_app, !elem_of_app. intros [?%P3 | ?%HLs]; [by left | by right].
  - intros j ldi [Hj | [Hge Hj]]%lookup_app_Some.
    + rewrite A2, Hfr, (P4 _ _ Hj); [done | apply looporder_not_doall |].
      right. apply Hpl, list_elem_of_fmap_2. by eapply list_elem_of_lookup_2.
    + rewrite (A1 _ _ Hj). do 2 f_equal. lia.
  - intros l k Hk Hl. rewrite fmap_app, not_elem_of_app in Hl.
    rewrite A2, Hfr by (try done; tauto). apply P5; [done | tauto].
  - rewrite P6, length_app. destruct (length (planned pl)), (length L); done.
Qed.

Lemma planTrees_spec trees : ∀ D pl pl',
  plan_ok D pl → NoDup (D ++ concat (map loops trees)) →
  Z.of_nat (length (D ++ concat (map loops trees))) < 4294967296 →
  (∀ l, l ∈ concat (map loops trees) → getLoopStructure p (getLoopContent p l) = l) →
  planTrees force h p trees pl = Ok pl' → plan_ok (D ++ concat (map loops trees)) pl'.
Proof.
  induction trees as [| t trees IH]; intros D pl pl' Hpl Hnd Hlen Hcon Hrun; cbn in *.
  - injection Hrun as <-. by rewrite app_nil_r.
  - apply bind_Ok_inv in Hrun as ([[L [mt md]] mm] & Hsel & Hrun).
    destruct (attachOrder p L (index pl) mm) as [i mm'] eqn:Hatt.
    rewrite app_assoc in Hnd, Hlen |- *. pose proof Hnd as (Hnd1 & _ & _)%NoDup_app.
    eapply IH; [| done | done | | exact Hrun].
    + eapply planTree_spec; [done | done | | | exact Hsel | exact Hatt].
      * rewrite (length_app (D ++ loops t)) in Hlen. lia.
      * intros l Hl. apply Hcon, elem_of_app. by left.
    + intros l Hl. apply Hcon, elem_of_app. by right.
Qed.
End plan_trees.

(** ** A concrete program *)

(** Loop 1 contains loops 2 and 3; loop 4 stands alone. *)
Definition demo_tree : LoopTree := Node 1 [Node 2 []; Node 3 []].
Definition demo_forest : list LoopTree := [demo_tree; Node 4 []].

Definition demo_hot : Hot := {|
  isAvailable := true;
  hasBeenExecuted l := true;
  getIterations l := if l =? 4 then 0 else 100;
  getAverageTotalInstructionsPerInvocation l := F64.of_Z 5000;
  getAverageLoopIterationsPerInvocation l := F64.of_Z 50;
  getAverageTotalInstructionsPerIteration l := F64.of_Z (if l =? 1 then 90 else 40);
  getDynamicTotalInstructionCoverage l := F64.of_Z 1;
  getTotalInstructionsOfSCC scc := 1000;
  getTotalInstructions := 10000;
|}.

Definition demo_program : Program := {|
  getLoopContent l := l + 1000;
  getLoopStructure c := c - 1000;
  getNestingLevel l := if l =? 1 then 1 else 2;
  getSCCsThatBlockDOALL c := if c =? 1002 then [7] else [];
  doall_canBeAppliedToLoop c := negb (c =? 1002);
  getID l := Some l;
|}.

(** One way to drop loops from a forest: the children of a dropped loop take
    its place. *)
Fixpoint prune (q : Z → bool) (t : LoopTree) : list LoopTree :=
  match t with
  | Node l cs => let cs' := concat (map (prune q) cs) in if q l then cs' else [Node l cs']
  end.
(** The answers of the predicate on the loops of the forest. *)
Fixpoint ask (q : Z → outcome bool) (ls : list Z) : outcome () :=
  match ls with
  | [] => Ok ()
  | l :: rest => q l ≫= λ _, ask q rest
  end.
Definition prune_forest (f : list LoopTree) (q : Z → outcome bool) : outcome (list LoopTree) :=
  ask q (concat (map loops f)) ≫= λ _,
  Ok (concat (map (prune (λ l, match q l with Ok b => b | Fail _ => false end)) f)).

(** The documented behaviour of NOELLE's [filterOutLoops]: it asks its argument
    about every loop of the forest, and drops those it selects. *)
Definition filters_out
    (filterOutLoops : list LoopTree → (Z → outcome bool) → outcome (list LoopTree)) : Prop :=
  ∀ f q f', filterOutLoops f q = Ok f' →
    (∀ l, l ∈ concat (map loops f) → ∃ b, q l = Ok b) ∧
    concat (map loops f') ≡ₚ filter (λ l, q l = Ok false) (concat (map loops f)).

Lemma concat_map_app {A B} (g : A → list B) (a b : list A) :
  concat (map g (a ++ b)) = concat (map g a) ++ concat (map g b).
Proof. by rewrite map_app, concat_app. Qed.

Lemma loops_node l cs : loops (Node l cs) = l :: concat (map loops cs).
Proof.
  unfold loops. cbn. f_equal. induction cs as [| c cs IH]; cbn; [done |].
  by rewrite fmap_app, IH.
Qed.

Lemma ask_Ok q ls : ask q ls = Ok () → ∀ l, l ∈ ls → ∃ b, q l = Ok b.
Proof.
  induction ls as [| x ls IH]; cbn; [by intros _ ? ?%not_elem_of_nil |].
  intros (b & Hb & Hr)%bind_Ok_inv l [-> | Hl]%elem_of_cons; [by exists b | by apply IH].
Qed.

Lemma prune_loops (q : Z → bool) f :
  concat (map loops (concat (map (prune q) f))) ≡ₚ filter (λ l, q l = false) (concat (map loops f)).
Proof.
  assert (∀ t, concat (map loops (prune q t)) ≡ₚ filter (λ l, q l = false) (loops t)) as Ht.
  { intros t. induction t as [l cs IH] using LoopTree_ind'. rewrite loops_node.
    assert (concat (map loops (concat (map (prune q) cs))) ≡ₚ
            filter (λ l, q l = false) (concat (map loops cs))) as Hcs.
    { induction IH as [| c cs Hc _ IHcs]; cbn; [done |].
      by rewrite concat_map_app, filter_app, Hc, IHcs. }
    cbn [prune]. rewrite filter_cons. destruct (q l) eqn:Hq.
    - by rewrite decide_False.
    - rewrite decide_True by done. cbn [map concat]. rewrite app_nil_r, loops_node. by rewrite Hcs. }
  induction f as [| t f IH]; cbn; [done |]. by rewrite concat_map_app, filter_app, Ht, IH.
Qed.

Lemma prune_filters_out : filters_out prune_forest.
Proof.
  intros f q f'. unfold prune_forest. intros ([] & Hask & [= <-])%bind_Ok_inv.
  pose proof (ask_Ok _ _ Hask) as Hq. split; [done |]. rewrite prune_loops.
  clear Hask. induction (concat (map loops f)) as [| l L IH]; [done |].
  specialize (IH (λ x Hx, Hq x (list_elem_of_further _ _ _ Hx))). rewrite !filter_cons.
  destruct (Hq l (list_elem_of_here _ _)) as [[] E]; rewrite E; cbn;
    repeat case_decide; by rewrite ?IH.
Qed.

(** ** Properties *)

(** C10. [evaluateSavings] returns, for a nesting tree whose savings do not
    overflow, the maximum over all the sets of loops none of which is nested in
    another, and the same maximum over the sets whose loops and all their
    ancestors in the tree are DOALL. *)
Theorem evaluateSavings_optimal `{TreeVisit} (t : LoopTree) timeSaved doall :
  NoDup (loops t) →
  (∀ l, l ∈ loops t → is_Some (timeSaved !! l) ∧ is_Some (doall !! l)) →
  (∀ l, 0 ≤ saved timeSaved l) → total (saved timeSaved) (loops t) < 2 ^ 64 →
  ∃ a d, evaluateSavings t timeSaved doall = Ok (a, d) ∧
  (let is_max keep v := (∃ sel, combination keep t sel ∧ total (saved timeSaved) sel = v) ∧
                        ∀ sel, combination keep t sel → total (saved timeSaved) sel ≤ v in
   is_max (λ _, true) a ∧ is_max (λ l, default false (doall !! l)) d).
Proof.
  intros Hnd Hs Hpos Hlt.
  exists (best (saved timeSaved) (λ _, true) t),
         (best (saved timeSaved) (λ l, default false (doall !! l)) t).
  split; [| split; (split; [by apply best_attained | intros; by apply best_upper])].
  unfold evaluateSavings.
  rewrite (evaluateSavingsOf_best t timeSaved considerAll (λ _, true));
    [| done | intros; by apply Hs | done | done | done].
  cbn. rewrite (evaluateSavingsOf_best t timeSaved (considerDOALLOnly doall)
                  (λ l, default false (doall !! l))); [done | done | intros; by apply Hs | | done | done].
  intros l Hl. unfold considerDOALLOnly, at_. destruct (Hs l Hl) as [_ [b ->]]. done.
Qed.

Lemma evaluateSavings_optimal_witness :
  ∃ a d, evaluateSavings demo_tree {[1 := 70; 2 := 50; 3 := 40]} {[1 := true; 2 := false; 3 := true]}
         = Ok (a, d) ∧ a = 90 ∧ d = 70.
Proof.
  destruct (evaluateSavings_optimal demo_tree {[1 := 70; 2 := 50; 3 := 40]}
              {[1 := true; 2 := false; 3 := true]}) as (a & d & E & _).
  - by apply (bool_decide_unpack _).
  - intros l Hl. rewrite list_elem_of_In in Hl. cbn in Hl.
    destruct Hl as [<- | [<- | [<- | []]]]; split; by eexists.
  - intros l. unfold saved.
    destruct ({[1 := 70; 2 := 50; 3 := 40]} !! l) as [v |] eqn:Ev; [| done].
    rewrite !lookup_insert_Some, lookup_singleton_Some in Ev. cbn. lia.
  - by vm_compute.
  - exists a, d. split; [exact E |]. vm_compute in E. by injection E as <- <-.
Defined.

(** C38. The DOALL-only metric is 0 for every tree whose root is not DOALL,
    whatever the loops nested in it could save: such a root hides them. *)
Theorem nested_doall_not_counted `{TreeVisit} (t : LoopTree) timeSaved doall :
  NoDup (loops t) →
  (∀ l, l ∈ loops t → is_Some (timeSaved !! l) ∧ is_Some (doall !! l)) →
  (∀ l, 0 ≤ saved timeSaved l) → total (saved timeSaved) (loops t) < 2 ^ 64 →
  doall !! getLoop t = Some false →
  ∃ a, evaluateSavings t timeSaved doall = Ok (a, 0).
Proof.
  intros Hnd Hs Hpos Hlt Hroot.
  exists (best (saved timeSaved) (λ _, true) t). unfold evaluateSavings.
  rewrite (evaluateSavingsOf_best t timeSaved considerAll (λ _, true));
    [| done | intros; by apply Hs | done | done | done].
  cbn. rewrite (evaluateSavingsOf_best t timeSaved (considerDOALLOnly doall)
                  (λ l, default false (doall !! l))); [| done | intros; by apply Hs | | done | done].
  - destruct t as [l cs]. cbn in *. by rewrite Hroot.
  - intros l Hl. unfold considerDOALLOnly, at_. destruct (Hs l Hl) as [_ [b ->]]. done.
Qed.

Lemma nested_doall_not_counted_witness :
  combination (λ _, true) (Node 1 [Node 2 []]) [2] ∧
  ∃ a, evaluateSavings (Node 1 [Node 2 []]) {[1 := 5; 2 := 100]} {[1 := false; 2 := true]} = Ok (a, 0).
Proof.
  split; [by apply (comb_children _ 1 [Node 2 []] [[2]]); repeat constructor |].
  apply (nested_doall_not_counted (Node 1 [Node 2 []])).
  - by apply (bool_decide_unpack _).
  - intros l Hl. rewrite list_elem_of_In in Hl. cbn in Hl.
    destruct Hl as [<- | [<- | []]]; split; by eexists.
  - intros l. unfold saved.
    destruct ({[1 := 5; 2 := 100]} !! l) as [v |] eqn:Ev; [| done].
    rewrite !lookup_insert_Some, lookup_singleton_Some in Ev. cbn. lia.
  - by vm_compute.
  - done.
Defined.


Definition demo_metadata : Z → key → option Dec.text := λ _ _, None.



(** What the pass leaves in the metadata, for its clients. *)
Lemma runOnModule_spec `{TreeVisit, MetadataManager M} filterOutLoops force h p forest (mm : M) pl :
  filters_out filterOutLoops →
  NoDup (concat (map loops forest)) →
  Z.of_nat (length (concat (map loops forest))) < 2147483648 →
  (∀ l, l ∈ concat (map loops forest) → getLoopStructure p (getLoopContent p l) = l) →
  runOnModule filterOutLoops force h p forest mm = Ok pl →
  (∀ i ldi, planned pl !! i = Some ldi →
     getMetadata (metadata pl) (getLoopStructure p ldi) looporder = Some (Dec.to_string (Z.of_nat i)) ∧
     Dec.stoi (Dec.to_string (Z.of_nat i)) = Ok (Z.of_nat i)) ∧
  NoDup (getLoopStructure p <$> planned pl) ∧
  (∀ l, l ∈ getLoopStructure p <$> planned pl →
     l ∈ concat (map loops forest) ∧ (force = false → notWorthParallelizing h p l = Ok false)) ∧
  (∀ l, l ∉ getLoopStructure p <$> planned pl →
     getMetadata (metadata pl) l looporder = getMetadata mm l looporder) ∧
  modified pl = negb (length (planned pl) =? 0)%nat.
Proof.
  intros Hfl Hnd Hlen Hcon Hrun. unfold runOnModule in Hrun.
  destruct (Nat.eqb_spec (length (concat (map loops forest))) 0) as [E0 | _].
  { injection Hrun as <-.
    split_and!; cbn; [done | constructor | by intros ? ?%not_elem_of_nil | done | done]. }
  apply bind_Ok_inv in Hrun as (f & Hforest & Hrun).
  assert (∃ P, ∃ _ : ∀ l, Decision (P l), concat (map loops f) ≡ₚ filter P (concat (map loops forest)) ∧
            ∀ l, P l → force = false → notWorthParallelizing h p l = Ok false) as (P & ? & Hf & HP).
  { destruct force; cbn in Hforest.
    - injection Hforest as <-. exists (λ _, True), (λ _, left I). split; [| done].
      clear. induction (concat (map loops forest)) as [| l L IH]; [done |].
      rewrite filter_cons, decide_True by done. by apply Permutation_skip.
    - unfold removeLoopsNotWorthParallelizing in Hforest. cbn in Hforest.
      apply bind_Ok_inv in Hforest as (f' & [_ Hq]%Hfl & ([] & _ & [= <-])%bind_Ok_inv).
      exists (λ l, notWorthParallelizing h p l = Ok false), _. by split. }
  assert (∀ l, l ∈ concat (map loops f) → l ∈ concat (map loops forest) ∧
             (force = false → notWorthParallelizing h p l = Ok false)) as Hin.
  { intros l. rewrite Hf, list_elem_of_filter. intros [E ?]. split; [done |]. by apply HP. }
  assert (length (concat (map loops f)) ≤ length (concat (map loops forest)))%nat as Hl
    by (rewrite Hf; apply length_filter).
  assert (plan_ok p mm ([] ++ concat (map loops f)) pl) as [P1 P2 P3 P4 P5 P6].
  { eapply planTrees_spec; [| | | | exact Hrun].
    - split; try done. cbn. constructor.
    - cbn. rewrite Hf. by apply NoDup_filter.
    - cbn. lia.
    - intros l [? _]%Hin. by apply Hcon. }
  cbn in P3. split_and!; [| done | by intros l ?%P3%Hin | | done].
  - intros i ldi Hi. split; [by apply P4 |]. apply Dec.stoi_to_string.
    pose proof (lookup_lt_Some _ _ _ Hi). pose proof (NoDup_bounded _ _ P2 P3) as Hb.
    rewrite length_fmap in Hb. lia.
  - intros l Hl'. apply P5; [apply looporder_not_doall | by right].
Qed.

(** C13. The pass numbers the loops it selects 0, 1, 2, ... in the order of the
    trees and of the selection within a tree: the [i]-th planned loop carries
    the index [i] as its order (which [std::stoi] reads back), no loop is
    planned twice, every planned loop belongs to the program and, unless forced,
    is worth parallelizing, and no other loop's order changes. *)
Theorem runOnModule_indices `{TreeVisit, MetadataManager M} filterOutLoops force h p forest (mm : M) pl :
  filters_out filterOutLoops →
  NoDup (concat (map loops forest)) →
  Z.of_nat (length (concat (map loops forest))) < 2147483648 →
  (∀ l, l ∈ concat (map loops forest) → getLoopStructure p (getLoopContent p l) = l) →
  runOnModule filterOutLoops force h p forest mm = Ok pl →
  (∀ i ldi, planned pl !! i = Some ldi →
     getMetadata (metadata pl) (getLoopStructure p ldi) looporder = Some (Dec.to_string (Z.of_nat i)) ∧
     Dec.stoi (Dec.to_string (Z.of_nat i)) = Ok (Z.of_nat i)) ∧
  NoDup (getLoopStructure p <$> planned pl) ∧
  (∀ l, l ∈ getLoopStructure p <$> planned pl →
     l ∈ concat (map loops forest) ∧ (force = false → notWorthParallelizing h p l = Ok false)) ∧
  (∀ l, l ∉ getLoopStructure p <$> planned pl →
     getMetadata (metadata pl) l looporder = getMetadata mm l looporder) ∧
  modified pl = negb (length (planned pl) =? 0)%nat.
Proof. apply runOnModule_spec. Qed.

Definition demo_plan : outcome (plan (Z → key → option Dec.text)) :=
  runOnModule prune_forest false demo_hot demo_program demo_forest demo_metadata.

Lemma runOnModule_indices_witness :
  ∃ pl, demo_plan = Ok pl ∧ planned pl = [1001; 1003; 1002] ∧
        getMetadata (metadata pl) 2 looporder = Some (Dec.to_string 2).
Proof.
  assert (match demo_plan with Ok pl => Some (planned pl) | Fail _ => None end =
          Some [1001; 1003; 1002]) as Ep by by vm_compute.
  destruct demo_plan as [pl | e] eqn:E; [| done]. injection Ep as Ep. exists pl.
  split; [done |]. split; [done |].
  destruct (runOnModule_indices prune_forest false demo_hot demo_program demo_forest demo_metadata pl
    prune_filters_out ltac:(by apply (bool_decide_unpack _)) ltac:(by vm_compute)
    ltac:(intros l Hl; rewrite list_elem_of_In in Hl; cbn in Hl; cbn; lia) E) as [H _].
  by destruct (H 2%nat 1002 ltac:(by rewrite Ep)) as [H2 _].
Defined.
End Planner.
