(* ===== verification/TimeSaved.v ===== *)
(** * The [TimeSaved] tool

    [src/src/tools/time_saved/src]: the estimate of the time that parallelizing
    the loops of a program saves.  It is the planner's evaluation over every
    loop of the program: a loop counts as DOALL when no sequential SCC was
    measured in it, nothing is filtered out, and only the two program-wide
    figures are reported.  [LoopEvaluation.cpp] of the tool is a copy of the
    planner's. *)

From S2P Require Import Prelude CppStd Noelle Planner.

Module TimeSaved.
Import Loops Profiles.

(** ** TimingModel.cpp *)

Definition getTimeSpentInCriticalPathPerIteration (h : Hot) (sequentialSCCs : list Z) : Z :=
  if negb h.(isAvailable) then 0
  else foldl (λ biggestSCCTime scc,
                let sequentialSCCTime := h.(getTotalInstructionsOfSCC) scc in
                if biggestSCCTime <? sequentialSCCTime then sequentialSCCTime
                else biggestSCCTime) 0 sequentialSCCs.

Definition getTimeSavedByParallelizingLoop (h : Hot) (ls : Z) (sequentialSCCs : list Z) : outcome Z :=
  let seq := getTimeSpentInCriticalPathPerIteration h sequentialSCCs in
  let instsPerIteration := h.(getAverageTotalInstructionsPerIteration) ls in
  let iterations := F64.of_Z (h.(getIterations) ls) in
  let instsInBiggestSCCPerIteration := F64.div (F64.of_Z seq) iterations in
  assert_that (F64.leb instsInBiggestSCCPerIteration instsPerIteration) ≫= λ _,
  let timeSavedPerIteration := F64.sub instsPerIteration instsInBiggestSCCPerIteration in
  F64.to_u64 (F64.mul timeSavedPerIteration iterations).

(** ** LoopEvaluation.cpp *)

Definition evaluateSavingsOf `{TreeVisit} := Planner.evaluateSavingsOf.
Definition evaluateSavings `{TreeVisit} := Planner.evaluateSavings.

(** ** LoopSelector.cpp *)

Definition selector (h : Hot) (p : Planner.Program) (tb : Planner.tables) (n : LoopTree)
    : outcome Planner.tables :=
  let ls := getLoop n in
  let ldi := Planner.getLoopContent p ls in
  let sccs := Planner.getSCCsThatBlockDOALL p ldi in
  let doallLoops := <[ls := getTimeSpentInCriticalPathPerIteration h sccs =? 0]> tb.(Planner.doallLoops) in
  (if 0 <? h.(getIterations) ls then getTimeSavedByParallelizingLoop h ls sccs else Ok 0)
    ≫= λ timeSaved,
  Ok (Planner.Tables (<[ldi := timeSaved]> tb.(Planner.timeSavedLoops)) doallLoops
                     (<[ls := timeSaved]> tb.(Planner.timeSavedPerLoop))).

Fixpoint select_all (h : Hot) (p : Planner.Program) (ns : list LoopTree) (tb : Planner.tables)
    : outcome Planner.tables :=
  match ns with
  | [] => Ok tb
  | n :: rest => selector h p tb n ≫= select_all h p rest
  end.

(** All the loops are selected. *)
Fixpoint selectLoops (p : Planner.Program) (timeSavedLoops : list (Z * Z)) : outcome (list Z) :=
  match timeSavedLoops with
  | [] => Ok []
  | (ldi, _) :: rest =>
      Planner.assert_ID p (Planner.getLoopStructure p ldi) ≫= λ _,
      selectLoops p rest ≫= λ selectedLoops, Ok (ldi :: selectedLoops)
  end.

Definition selectTheOrderOfLoopsToParallelize `{TreeVisit} (h : Hot) (p : Planner.Program)
    (tree : LoopTree) : outcome (list Z * (Z * Z)) :=
  select_all h p (visitPreOrder tree) (Planner.Tables ∅ ∅ ∅) ≫= λ tb,
  selectLoops p (in_key_order tb.(Planner.timeSavedLoops)) ≫= λ selectedLoops,
  if (length selectedLoops =? 0)%nat then Ok ([], (0, 0))
  else
    evaluateSavings tree tb.(Planner.timeSavedPerLoop) tb.(Planner.doallLoops) ≫= λ maxTimeSaved,
    Ok (std_sort (Planner.compareOperator p tb.(Planner.timeSavedLoops)) selectedLoops, maxTimeSaved).

(** ** Pass.cpp: the two figures of the program *)

Fixpoint sumTrees `{TreeVisit} (h : Hot) (p : Planner.Program) (trees : list LoopTree)
    (programMaxTimeSaved programMaxTimeSavedWithDOALLOnly : Z) : outcome (Z * Z) :=
  match trees with
  | [] => Ok (programMaxTimeSaved, programMaxTimeSavedWithDOALLOnly)
  | tree :: rest =>
      selectTheOrderOfLoopsToParallelize h p tree ≫= λ r,
      let '(_, (maxTimeSaved, maxTimeSavedWithDOALLOnly)) := r in
      sumTrees h p rest (u64 (programMaxTimeSaved + maxTimeSaved))
               (u64 (programMaxTimeSavedWithDOALLOnly + maxTimeSavedWithDOALLOnly))
  end.

Definition runOnModule `{TreeVisit} (h : Hot) (p : Planner.Program) (forest : list LoopTree)
    : outcome (Z * Z) :=
  if (length (concat (map loops forest)) =? 0)%nat then Ok (0, 0)
  else sumTrees h p forest 0 0.

(** ** What the tool reports *)

Section estimate.
Context `{TreeVisit} (h : Hot) (p : Planner.Program).

Definition modelled_saving (ls : Z) : outcome Z :=
  if 0 <? h.(getIterations) ls
  then getTimeSavedByParallelizingLoop h ls (Planner.getSCCsThatBlockDOALL p (Planner.getLoopContent p ls))
  else Ok 0.

Definition is_doall (ls : Z) : bool :=
  getTimeSpentInCriticalPathPerIteration h
    (Planner.getSCCsThatBlockDOALL p (Planner.getLoopContent p ls)) =? 0.

Lemma select_all_tables ns tb tb' :
  select_all h p ns tb = Ok tb' → NoDup (getLoop <$> ns) →
  (∀ l, l ∈ getLoop <$> ns → ∃ v, modelled_saving l = Ok v ∧
     Planner.timeSavedPerLoop tb' !! l = Some v ∧ Planner.doallLoops tb' !! l = Some (is_doall l)) ∧
  (∀ l, l ∉ getLoop <$> ns → Planner.timeSavedPerLoop tb' !! l = Planner.timeSavedPerLoop tb !! l ∧
                             Planner.doallLoops tb' !! l = Planner.doallLoops tb !! l) ∧
  (ns ≠ [] → Planner.timeSavedLoops tb' ≠ ∅) ∧
  (Planner.timeSavedLoops tb ≠ ∅ → Planner.timeSavedLoops tb' ≠ ∅).
Proof.
  revert tb. induction ns as [| n ns IH]; intros tb; cbn.
  - intros [= ->] _. split_and!; [by intros l ?%not_elem_of_nil | done | done | done].
  - intros (tb1 & Hsel & Hrest)%bind_Ok_inv [Hn Hnd]%NoDup_cons.
    unfold selector in Hsel. apply bind_Ok_inv in Hsel as (v & Hv & [= <-]).
    destruct (IH _ Hrest Hnd) as (I1 & I2 & _ & I4).
    assert (Planner.timeSavedLoops tb' ≠ ∅) by (apply I4; cbn; apply insert_non_empty).
    split_and!; [| | done | done].
    + intros l [-> | Hl]%elem_of_cons; [| by apply I1]. exists v. split; [done |].
      destruct (I2 _ Hn) as [-> ->]. cbn. by rewrite !lookup_insert_eq.
    + intros l [Hl1 Hl2]%not_elem_of_cons. destruct (I2 _ Hl2) as [-> ->]. cbn.
      by rewrite !lookup_insert_ne.
Qed.

Lemma to_u64_range x z : F64.to_u64 x = Ok z → 0 ≤ z < 2 ^ 64.
Proof.
  unfold F64.to_u64. destruct x as [s | s | | s m e]; try done; [by intros [= <-] |].
  case_match; [| done]. intros [= <-]. simplify_tests. lia.
Qed.

Lemma modelled_saving_range l v : modelled_saving l = Ok v → 0 ≤ v < 2 ^ 64.
Proof.
  unfold modelled_saving. destruct (0 <? _); [| by intros [= <-]].
  unfold getTimeSavedByParallelizingLoop. intros (_ & _ & Hv)%bind_Ok_inv.
  by apply to_u64_range in Hv.
Qed.

(** The saving of a loop, 0 when the model fails. *)
Definition saving (ls : Z) : Z := match modelled_saving ls with Ok v => v | Fail _ => 0 end.

Lemma saving_nonneg l : 0 ≤ saving l.
Proof.
  unfold saving. destruct (modelled_saving l) eqn:E; [| done].
  by destruct (modelled_saving_range _ _ E).
Qed.

Lemma best_ext (s s' : Z → Z) (k k' : Z → bool) t :
  (∀ l, l ∈ loops t → s l = s' l ∧ k l = k' l) → Planner.best s k t = Planner.best s' k' t.
Proof.
  induction t as [l cs IH] using LoopTree_ind'. intros Heq. cbn.
  destruct (Heq l) as [-> ->]; [by left |].
  assert (map (Planner.best s k) cs = map (Planner.best s' k') cs) as ->; [| done].
  apply map_ext_in. intros c Hc%list_elem_of_In. rewrite Forall_forall in IH. apply IH; [done |].
  intros x Hx. apply Heq. unfold loops in *. cbn. right.
  apply list_elem_of_fmap in Hx as (n & -> & Hn). apply list_elem_of_fmap_2, elem_of_concat.
  exists (subtrees c). split; [apply elem_of_map; eauto | done].
Qed.

Lemma best_mono (s : Z → Z) (k : Z → bool) t :
  (∀ l, 0 ≤ s l) → Planner.best s k t ≤ Planner.best s (λ _, true) t.
Proof.
  intros Hs. induction t as [l cs IH] using LoopTree_ind'. cbn. pose proof (Hs l).
  destruct (k l); [| lia].
  assert (zsum (map (Planner.best s k) cs) ≤ zsum (map (Planner.best s (λ _, true)) cs)); [| lia].
  induction IH; cbn; lia.
Qed.

Lemma selectLoops_Ok ls : ∀ sel, selectLoops p ls = Ok sel → sel = ls.*1.
Proof.
  induction ls as [| [c v] ls IH]; intros sel; cbn [selectLoops]; [by intros [= <-] |].
  intros (_ & _ & (sel' & Hr & [= <-])%bind_Ok_inv)%bind_Ok_inv. by rewrite (IH _ Hr).
Qed.

Lemma selectTheOrder_best t sel a d :
  NoDup (loops t) → Planner.total saving (loops t) < 2 ^ 64 →
  selectTheOrderOfLoopsToParallelize h p t = Ok (sel, (a, d)) →
  a = Planner.best saving (λ _, true) t ∧ d = Planner.best saving is_doall t.
Proof.
  intros Hnd Hlt. unfold selectTheOrderOfLoopsToParallelize.
  intros (tb & Htb & Hr)%bind_Ok_inv.
  assert (getLoop <$> visitPreOrder t ≡ₚ loops t) as Hpre by (unfold loops; by rewrite pre_perm).
  destruct (select_all_tables _ _ _ Htb) as (S1 & S2 & S3 & _); [by rewrite Hpre |].
  setoid_rewrite Hpre in S1. setoid_rewrite Hpre in S2.
  apply bind_Ok_inv in Hr as (sel' & ->%selectLoops_Ok & Hr).
  destruct (Nat.eqb_spec (length (in_key_order (Planner.timeSavedLoops tb)).*1) 0) as [E | _].
  { exfalso. apply S3.
    - intros Hnil. pose proof (subtrees_self t) as Ht. rewrite <- (pre_perm t), Hnil in Ht.
      by apply not_elem_of_nil in Ht.
    - apply length_zero_iff_nil, fmap_nil_inv in E. apply map_empty. intros c.
      destruct (Planner.timeSavedLoops tb !! c) as [v |] eqn:Ec; [| done].
      apply elem_of_in_key_order in Ec. rewrite E in Ec. by apply not_elem_of_nil in Ec. }
  apply bind_Ok_inv in Hr as ([a' d'] & Hev & [= _ <- <-]).
  set (sv := Planner.saved (Planner.timeSavedPerLoop tb)).
  assert (∀ l, l ∈ loops t → sv l = saving l ∧
     Planner.timeSavedPerLoop tb !! l = Some (saving l) ∧
     Planner.doallLoops tb !! l = Some (is_doall l)) as Hsv.
  { intros l Hl. destruct (S1 l Hl) as (v & Hv & Ev & Ed). unfold sv, Planner.saved, saving.
    by rewrite Ev, Hv. }
  assert (∀ l, 0 ≤ sv l) as Hpos.
  { intros l. destruct (decide (l ∈ loops t)) as [Hl | Hl].
    - destruct (Hsv l Hl) as [-> _]. apply saving_nonneg.
    - unfold sv, Planner.saved. destruct (S2 l Hl) as [-> _]. done. }
  assert (Planner.total sv (loops t) < 2 ^ 64) as Hlt'.
  { assert (Planner.total sv (loops t) = Planner.total saving (loops t)) as ->; [| done].
    unfold Planner.total. f_equal. apply list_fmap_ext. intros i l Hl.
    apply Hsv. by eapply list_elem_of_lookup_2. }
  unfold evaluateSavings, Planner.evaluateSavings in Hev.
  rewrite (Planner.evaluateSavingsOf_best t (Planner.timeSavedPerLoop tb) Planner.considerAll (λ _, true)) in Hev;
    [| done | intros l Hl; destruct (Hsv l Hl) as (_ & -> & _); eauto | done | done | done].
  cbn in Hev.
  rewrite (Planner.evaluateSavingsOf_best t (Planner.timeSavedPerLoop tb)
             (Planner.considerDOALLOnly (Planner.doallLoops tb)) is_doall) in Hev;
    [| done | intros l Hl; destruct (Hsv l Hl) as (_ & -> & _); eauto | | done | done].
  - cbn in Hev. injection Hev as <- <-. split; apply best_ext; intros l Hl; by destruct (Hsv l Hl).
  - intros l Hl. unfold Planner.considerDOALLOnly, Planner.at_. by destruct (Hsv l Hl) as (_ & _ & ->).
Qed.

Definition estimate (keep : Z → bool) (forest : list LoopTree) : Z :=
  zsum (map (Planner.best saving keep) forest).

Lemma estimate_bounds keep forest :
  0 ≤ estimate keep forest ≤ estimate (λ _, true) forest ∧
  estimate keep forest ≤ Planner.total saving (concat (map loops forest)).
Proof.
  unfold estimate. induction forest as [| t f [IH1 IH2]]; cbn; [unfold Planner.total; cbn; lia |].
  rewrite Planner.total_app. pose proof (best_mono saving keep t saving_nonneg).
  pose proof (Planner.best_nonneg saving keep saving_nonneg t).
  pose proof (Planner.best_le_total saving keep saving_nonneg t). lia.
Qed.

Lemma sumTrees_spec forest : ∀ x y a d,
  NoDup (concat (map loops forest)) →
  0 ≤ x → x + Planner.total saving (concat (map loops forest)) < 2 ^ 64 →
  0 ≤ y → y + Planner.total saving (concat (map loops forest)) < 2 ^ 64 →
  sumTrees h p forest x y = Ok (a, d) →
  a = x + estimate (λ _, true) forest ∧ d = y + estimate is_doall forest.
Proof.
  unfold estimate. induction forest as [| t f IH]; intros x y a d Hnd Hx Hxl Hy Hyl; cbn.
  - intros [= <- <-]. lia.
  - intros ([sel [mt md]] & Hsel & Hrest)%bind_Ok_inv. cbn in Hnd, Hxl, Hyl.
    rewrite Planner.total_app in Hxl, Hyl. apply NoDup_app in Hnd as (Ht & _ & Hf).
    pose proof (Planner.best_nonneg saving (λ _, true) saving_nonneg t).
    pose proof (Planner.best_nonneg saving is_doall saving_nonneg t).
    pose proof (Planner.best_le_total saving (λ _, true) saving_nonneg t).
    pose proof (Planner.best_le_total saving is_doall saving_nonneg t).
    destruct (estimate_bounds (λ _, true) f) as [[? _] ?].
    change (2 ^ 64) with 18446744073709551616 in *.
    destruct (selectTheOrder_best _ _ _ _ Ht ltac:(change (2 ^ 64) with 18446744073709551616; lia) Hsel)
      as [-> ->].
    rewrite !u64_small in Hrest by lia.
    apply IH in Hrest as [-> ->]; [lia | done | lia | lia | lia | lia].
Qed.
End estimate.

(** A selection of loops of a program: one combination per nesting tree. *)
Definition selection (keep : Z → bool) (forest : list LoopTree) (sel : list Z) : Prop :=
  ∃ sels, Forall2 (Planner.combination keep) forest sels ∧ sel = concat sels.

(** [v] is what the best selection saves. *)
Definition is_best (s : Z → Z) (keep : Z → bool) (forest : list LoopTree) (v : Z) : Prop :=
  (∃ sel, selection keep forest sel ∧ Planner.total s sel = v) ∧
  ∀ sel, selection keep forest sel → Planner.total s sel ≤ v.

Lemma estimate_best `{TreeVisit} h p keep forest :
  is_best (saving h p) keep forest (estimate h p keep forest).
Proof.
  unfold estimate. induction forest as [| t f [(sel & (sels & Hs & ->) & Ht) Hup]].
  - split; [by exists []; split; [exists []; split; [constructor |] |] |].
    intros sel (sels & Hs%Forall2_nil_inv_l & ->). by subst.
  - destruct (Planner.best_attained (saving h p) keep t) as (sel0 & Hc & Et). split.
    + exists (concat (sel0 :: sels)). split.
      * exists (sel0 :: sels). split; [by constructor | done].
      * cbn [concat]. rewrite Planner.total_app. cbn. lia.
    + intros sel (sels' & Hs' & ->). inversion Hs' as [| ? ? ? ? H1 H2]; subst. cbn [concat map zsum].
      rewrite Planner.total_app.
      pose proof (Planner.best_upper (saving h p) keep (saving_nonneg h p) t _ H1).
      assert (Planner.total (saving h p) (concat l') ≤ zsum (map (Planner.best (saving h p) keep) f)).
      { apply Hup. by exists l'. }
      lia.
Qed.

(** A tree whose root is not kept has nothing to offer. *)
Lemma estimate_hidden `{TreeVisit} h p keep forest :
  (∀ t, t ∈ forest → keep (getLoop t) = false) → estimate h p keep forest = 0.
Proof.
  unfold estimate. induction forest as [| t f IH]; intros Hk; cbn; [done |].
  rewrite IH by (intros u Hu; apply Hk; by right).
  specialize (Hk t ltac:(by left)). destruct t as [l cs]. cbn in *. by rewrite Hk.
Qed.

(** C35. The figures [TimeSaved] reports for a program whose savings do not
    overflow: the first is what the best selection of loops saves, where no loop
    of a selection is nested in another; the second is the same over the loops
    that are DOALL and whose ancestors in the nesting tree all are, so it never
    exceeds the first, and a DOALL loop nested in one that is not DOALL does not
    count: when no outermost loop is DOALL the second figure is 0. *)
Theorem runOnModule_estimate `{TreeVisit} h p forest a d :
  NoDup (concat (map loops forest)) →
  Planner.total (saving h p) (concat (map loops forest)) < 2 ^ 64 →
  runOnModule h p forest = Ok (a, d) →
  is_best (saving h p) (λ _, true) forest a ∧ is_best (saving h p) (is_doall h p) forest d ∧
  d ≤ a ∧ ((∀ t, t ∈ forest → is_doall h p (getLoop t) = false) → d = 0).
Proof.
  intros Hnd Hlt Hrun. unfold runOnModule in Hrun.
  destruct (estimate_bounds h p (is_doall h p) forest) as [[_ Hle] _].
  assert (a = estimate h p (λ _, true) forest ∧ d = estimate h p (is_doall h p) forest) as [-> ->].
  2:{ split_and!; [apply estimate_best | apply estimate_best | done |]. apply estimate_hidden. }
  destruct (Nat.eqb_spec (length (concat (map loops forest))) 0) as [E | _].
  - injection Hrun as <- <-. destruct forest as [| [l cs] f]; [done | by cbn in E].
  - by apply (sumTrees_spec h p forest 0 0).
Qed.

(** Loops 1, 2 and 3 of the planner's example (loop 2 has a sequential SCC) and
    loop 4, never executed; then loop 3 alone inside loop 2, where the DOALL loop
    that saves the most is not counted. *)
Definition hidden_forest : list LoopTree := [Node 2 [Node 3 []]].

Lemma runOnModule_estimate_witness :
  runOnModule Planner.demo_hot Planner.demo_program Planner.demo_forest = Ok (9000, 9000) ∧
  is_best (saving Planner.demo_hot Planner.demo_program) (λ _, true) Planner.demo_forest 9000 ∧
  ∃ a d, runOnModule Planner.demo_hot Planner.demo_program hidden_forest = Ok (a, d) ∧ d = 0 ∧
         a = saving Planner.demo_hot Planner.demo_program 3 ∧
         is_doall Planner.demo_hot Planner.demo_program 3 = true.
Proof.
  assert (runOnModule Planner.demo_hot Planner.demo_program Planner.demo_forest = Ok (9000, 9000)) as E
    by by vm_compute.
  assert (runOnModule Planner.demo_hot Planner.demo_program hidden_forest = Ok (4000, 0)) as E'
    by by vm_compute.
  split; [done |]. split.
  - by destruct (runOnModule_estimate Planner.demo_hot Planner.demo_program Planner.demo_forest 9000 9000
      ltac:(by apply (bool_decide_unpack _)) ltac:(by vm_compute) E) as (H & _).
  - exists 4000, 0. split_and!; [exact E' | | by vm_compute | by vm_compute].
    apply (runOnModule_estimate Planner.demo_hot Planner.demo_program hidden_forest
      4000 0 ltac:(by apply (bool_decide_unpack _)) ltac:(by vm_compute) E').
    intros t ->%list_elem_of_singleton. by vm_compute.
Defined.
End TimeSaved.
