(* ===== verification/RuntimeCores.v ===== *)
(** * The runtime's core accounting

    [NoelleRuntime] of [src/src/core/runtime/Parallelizer_utils.cpp]: the
    counter of idle cores that every dispatcher reserves from and releases to.
    Each operation runs under [spinLock], so it is one atomic step of the
    shared state; any interleaving of dispatchers is a sequence of steps of
    [acct_step]. *)

From S2P Require Import Prelude CppStd.

Module Cores.

(** [NOELLE_idleCores] is an [int32_t], [maxCores] a [uint32_t]. *)
Record runtime := Runtime {
  NOELLE_idleCores : Z;
  maxCores : Z;
}.

(** The function-local [static int cores] caches the first non-zero answer;
    [envVar] is the value of the variable [NOELLE_CORES], [hw] the value of
    [std::thread::hardware_concurrency()]. *)
Definition getMaximumNumberOfCores (envVar : option Dec.text) (hw : Z)
    (cores : Z) : Z * Z :=
  let cores :=
    if cores =? 0 then
      match envVar with
      | None => s32 (hw / 2)
      | Some s => Dec.atoi s
      end
    else cores in
  (u32 cores, cores).

(** The constructor: every core starts idle. *)
Definition NoelleRuntime (envVar : option Dec.text) (hw cores : Z) : runtime * Z :=
  let '(m, cores') := getMaximumNumberOfCores envVar hw cores in
  ({| NOELLE_idleCores := s32 m; maxCores := m |}, cores').

(** The comparison of the source is between an [int32_t] and a [uint32_t]: the
    idle counter is converted to unsigned first. *)
Definition reserveCores (coresRequested : Z) (rt : runtime) : Z * runtime :=
  let numCores :=
    if coresRequested <=? u32 rt.(NOELLE_idleCores)
    then coresRequested
    else u32 rt.(NOELLE_idleCores) in
  let numCores := if numCores <? 1 then 1 else numCores in
  (numCores,
   {| NOELLE_idleCores := s32 (u32 rt.(NOELLE_idleCores) - numCores);
      maxCores := rt.(maxCores) |}).

Definition releaseCores (coresReleased : Z) (rt : runtime) : outcome runtime :=
  _ ← assert_that (0 <? coresReleased);
  Ok {| NOELLE_idleCores := s32 (u32 rt.(NOELLE_idleCores) + coresReleased);
        maxCores := rt.(maxCores) |}.

(** Here the local copy is an [int32_t]: the comparison is signed. *)
Definition getAvailableCores (rt : runtime) : Z :=
  let numCores := rt.(NOELLE_idleCores) in
  let numCores := if numCores <? 1 then 1 else numCores in
  u32 numCores.

(** The state every dispatcher shares, with the reservations that have not
    been released yet. *)
Record acct := Acct { rt : runtime; outstanding : list Z }.

Inductive acct_step : acct → acct → Prop :=
| step_reserve rt rt' out req g :
    is_u 32 req → reserveCores req rt = (g, rt') →
    acct_step (Acct rt out) (Acct rt' (g :: out))
| step_release rt rt' out i g :
    out !! i = Some g → releaseCores g rt = Ok rt' →
    acct_step (Acct rt out) (Acct rt' (delete i out)).

Definition acct_wf (m : Z) (a : acct) : Prop :=
  is_s 32 a.(rt).(NOELLE_idleCores) ∧
  eqm 32 (a.(rt).(NOELLE_idleCores) + zsum a.(outstanding)) m ∧
  Forall (λ g, 1 ≤ g < 4294967296) a.(outstanding) ∧
  a.(rt).(maxCores) = m.

(** ** Lemmas *)

Lemma reserveCores_range req rt g rt' :
  is_u 32 req → reserveCores req rt = (g, rt') → 1 ≤ g < 4294967296.
Proof.
  intros Hr [= <- _]. rewrite is_u32_iff in Hr.
  pose proof (u32_range (NOELLE_idleCores rt)). case_tests; lia.
Qed.

Lemma reserveCores_le req rt g rt' :
  reserveCores req rt = (g, rt') → g ≤ Z.max 1 req.
Proof. intros [= <- _]. case_tests; lia. Qed.

Lemma reserveCores_idle req rt g rt' :
  reserveCores req rt = (g, rt') →
  eqm 32 (NOELLE_idleCores rt' + g) (NOELLE_idleCores rt) ∧
  maxCores rt' = maxCores rt.
Proof.
  intros H. assert (NOELLE_idleCores rt' = s32 (u32 (NOELLE_idleCores rt) - g))
    as -> by (unfold reserveCores in H; by injection H as <- <-).
  split; [| unfold reserveCores in H; by injection H as <- <-].
  unfold s32, u32. rewrite (swrap_eqm 32), (wrap_eqm 32).
  by replace (NOELLE_idleCores rt - g + g) with (NOELLE_idleCores rt) by lia.
Qed.

Lemma reserveCores_le_idle req rt g rt' :
  0 ≤ NOELLE_idleCores rt < 4294967296 →
  reserveCores req rt = (g, rt') → g ≤ Z.max 1 (NOELLE_idleCores rt).
Proof. intros Hi [= <- _]. rewrite u32_small by done. case_tests; lia. Qed.

Lemma releaseCores_idle g rt rt' :
  releaseCores g rt = Ok rt' →
  eqm 32 (NOELLE_idleCores rt') (NOELLE_idleCores rt + g) ∧
  maxCores rt' = maxCores rt ∧ is_s 32 (NOELLE_idleCores rt').
Proof.
  unfold releaseCores, assert_that. destruct (0 <? g); [| done].
  intros [= <-]. cbn. split_and!; [| done | by apply s32_range].
  unfold s32, u32. by rewrite (swrap_eqm 32), (wrap_eqm 32).
Qed.

(** Releasing what was reserved restores the counter. *)
Lemma reserve_release req rt g rt' rt'' :
  is_s 32 (NOELLE_idleCores rt) →
  reserveCores req rt = (g, rt') → releaseCores g rt' = Ok rt'' → rt'' = rt.
Proof.
  intros Hs Hg Hr. destruct (reserveCores_idle _ _ _ _ Hg) as [E1 M1].
  destruct (releaseCores_idle _ _ _ Hr) as (E2 & M2 & Hs'').
  assert (NOELLE_idleCores rt'' = NOELLE_idleCores rt) as E.
  { apply (eqm_signed_eq 32); [done | done | done |]. by rewrite E2, E1. }
  destruct rt, rt''; cbn in *; congruence.
Qed.

Lemma zsum_delete i g l : l !! i = Some g → zsum l = g + zsum (delete i l).
Proof.
  revert i. induction l as [| x l IH]; intros [| i] H; simplify_eq/=; [done |].
  rewrite (IH i) by done. lia.
Qed.

Lemma acct_wf_step m a a' : acct_wf m a → acct_step a a' → acct_wf m a'.
Proof.
  intros (Hs & He & Hf & Hm) Hstep. destruct Hstep as [rt rt' out req g Hr H | rt rt' out i g Hi H]; cbn in *.
  - destruct (reserveCores_idle _ _ _ _ H) as [Hi Hm'].
    split_and!; cbn [NOELLE_idleCores outstanding Cores.rt maxCores zsum]; [| | | congruence].
    + unfold reserveCores in H. injection H as <- <-. apply s32_range.
    + rewrite Z.add_assoc, Hi. done.
    + constructor; [by eapply reserveCores_range | done].
  - destruct (releaseCores_idle _ _ _ H) as (Hi' & Hm' & Hs').
    split_and!; cbn [NOELLE_idleCores outstanding Cores.rt maxCores]; [done | | | congruence].
    + rewrite Hi'. rewrite (zsum_delete _ _ _ Hi) in He.
      by rewrite <- Z.add_assoc.
    + by apply Forall_delete.
Qed.

Lemma acct_wf_init env hw c r c' :
  NoelleRuntime env hw c = (r, c') → acct_wf (maxCores r) (Acct r []).
Proof.
  unfold NoelleRuntime, getMaximumNumberOfCores. intros [= <- <-].
  split_and!; cbn; [apply s32_range | | constructor | done].
  rewrite Z.add_0_r. apply swrap_eqm.
Qed.

(** ** Properties *)

(** C29. In every interleaving of reservations and releases, starting from the
    constructed runtime, the idle counter is the number of cores minus the
    outstanding reservations (as an [int32_t]); hence once every dispatcher
    has released what it was granted all the cores are idle again. *)
Theorem idle_cores_accounting env hw c r c' rt' out :
  NoelleRuntime env hw c = (r, c') →
  steps acct_step (Acct r []) (Acct rt' out) →
  NOELLE_idleCores rt' = s32 (maxCores r - zsum out) ∧
  (out = [] → rt' = r).
Proof.
  intros Hn Hst.
  pose proof (steps_invariant acct_step (acct_wf (maxCores r)) (acct_wf_step _)
                _ _ Hst (acct_wf_init _ _ _ _ _ Hn)) as (Hs & He & _ & Hm).
  cbn in *.
  assert (NOELLE_idleCores rt' = s32 (maxCores r - zsum out)) as E.
  { apply (eqm_signed_eq 32); [done | done | by apply s32_range |].
    unfold s32. rewrite (swrap_eqm 32), <- He.
    by replace (NOELLE_idleCores rt' + zsum out - zsum out)
      with (NOELLE_idleCores rt') by lia. }
  split; [done |]. intros ->. cbn in E. rewrite Z.sub_0_r in E.
  unfold NoelleRuntime, getMaximumNumberOfCores in Hn. injection Hn as <- <-.
  cbn in *. destruct rt'; cbn in *; congruence.
Qed.

Lemma idle_cores_accounting_witness :
  ∃ rt' out,
    steps acct_step (Acct (NoelleRuntime None 16 0).1 []) (Acct rt' out) ∧
    NOELLE_idleCores rt' = s32 (8 - zsum out).
Proof.
  exists {| NOELLE_idleCores := 3; maxCores := 8 |}, [5].
  assert (steps acct_step (Acct (NoelleRuntime None 16 0).1 [])
            (Acct {| NOELLE_idleCores := 3; maxCores := 8 |} [5])) as Hst.
  { eapply rtc_l; [| constructor].
    apply (step_reserve _ _ _ 5); [by vm_compute | by vm_compute]. }
  split; [exact Hst |].
  exact (proj1 (idle_cores_accounting None 16 0 _ 8 _ _ eq_refl Hst)).
Defined.

(** C33. While the counter is not negative a reservation grants exactly what it
    asks for, limited to what [getAvailableCores] reports (at least one core
    is always granted), and never takes the counter below -1. *)
Theorem reserveCores_grants_available req rt :
  is_u 32 req → 0 ≤ NOELLE_idleCores rt < 2147483648 →
  let '(g, rt') := reserveCores req rt in
  g = Z.max 1 (Z.min req (getAvailableCores rt)) ∧
  NOELLE_idleCores rt' = NOELLE_idleCores rt - g ∧
  -1 ≤ NOELLE_idleCores rt'.
Proof.
  intros Hr Hi. rewrite is_u32_iff in Hr.
  destruct (reserveCores req rt) as [g rt'] eqn:E.
  unfold reserveCores in E. injection E as <- <-. cbn.
  unfold getAvailableCores. rewrite (u32_small (NOELLE_idleCores rt)) by lia.
  case_tests; rewrite ?u32_small, ?s32_small by lia; lia.
Qed.

Lemma reserveCores_grants_available_witness :
  let '(g, rt') := reserveCores 12 {| NOELLE_idleCores := 8; maxCores := 8 |} in
  g = 8 ∧ NOELLE_idleCores rt' = 0.
Proof.
  pose proof (reserveCores_grants_available 12
    {| NOELLE_idleCores := 8; maxCores := 8 |} ltac:(by vm_compute)
    ltac:(cbn; lia)) as (H1 & H2 & _).
  split; [rewrite H1; reflexivity | by rewrite H2].
Defined.

(** C34. Once the counter is negative - one forced grant on a fully used machine
    is enough - a reservation grants everything it asks for, although
    [getAvailableCores] reports a single core: the signed counter is compared
    as an unsigned one. *)
Theorem reserveCores_oversubscribes req rt :
  1 ≤ req → is_s 32 (NOELLE_idleCores rt) →
  NOELLE_idleCores rt < 0 → req ≤ 4294967296 + NOELLE_idleCores rt →
  (reserveCores req rt).1 = req ∧ getAvailableCores rt = 1.
Proof.
  intros Hr Hs Hi Hle. rewrite is_s32_iff in Hs.
  unfold reserveCores, getAvailableCores. cbn [fst].
  rewrite u32_neg by lia. case_tests; split; first [lia | reflexivity].
Qed.

Lemma reserveCores_oversubscribes_witness :
  let rt := (reserveCores 4 {| NOELLE_idleCores := 0; maxCores := 8 |}).2 in
  NOELLE_idleCores rt = -1 ∧ (reserveCores 100 rt).1 = 100 ∧
  getAvailableCores rt = 1.
Proof.
  split; [reflexivity |].
  apply (reserveCores_oversubscribes 100
    (reserveCores 4 {| NOELLE_idleCores := 0; maxCores := 8 |}).2);
    first [by vm_compute | vm_compute; split; congruence | idtac].
Defined.

End Cores.
