(* ===== verification/RuntimePool.v ===== *)
(** * The pool of DOALL argument blocks

    [NoelleRuntime::getDOALLArgs] and [releaseDOALLArgs] of
    [src/src/core/runtime/Parallelizer_utils.cpp].  A block is an array of
    [DOALL_args_t]; blocks are never freed, only reused, and the initialisation
    of [coreID] and of the end locks happens once, when a block is allocated. *)

From S2P Require Import Prelude.

Module Pool.

(** Function pointers and [void *] are opaque integers; a [pthread_spinlock_t]
    is its state ([true]: locked). *)
Record DOALL_args_t := DOALLArgs {
  parallelizedLoop : Z;
  env : Z;
  coreID : Z;
  numCores : Z;
  chunkSize : Z;
  endLock : bool;
}.

(** The three parallel vectors of the class; the [DOALL_args_t *] stored in
    [doallMemory] are the blocks themselves, named by their index. *)
Record pool := MkPool {
  doallMemorySizes : list Z;
  doallMemoryAvailability : list bool;
  doallMemory : list (list DOALL_args_t);
}.

Definition empty_pool : pool := MkPool [] [] [].

(** The scan for a reusable block: the first available one that is big enough.
    The index of the loop is an [int]. *)
Fixpoint find_block (i : nat) (sizes : list Z) (avail : list bool) (cores : Z)
    : outcome (option nat) :=
  match sizes, avail with
  | currentSize :: sizes', a :: avail' =>
      if a && (cores <=? currentSize) then Ok (Some i)
      else if Z.of_nat i <? INT_MAX then find_block (S i) sizes' avail' cores
      else Fail UndefinedBehaviour
  | _, _ => Ok None
  end.

(** [coreID = i], and the end lock initialised and then taken. *)
Definition init_args (i : nat) (a : DOALL_args_t) : DOALL_args_t :=
  {| parallelizedLoop := a.(parallelizedLoop); env := a.(env);
     coreID := Z.of_nat i; numCores := a.(numCores);
     chunkSize := a.(chunkSize); endLock := true |}.

(** [mem] is what [posix_memalign] does, whose result is not checked: [None]
    when it fails, which leaves the pointer null, else the content of the memory
    it returns. *)
Definition allocate (mem : option (nat → DOALL_args_t)) (cores : Z)
    : outcome (list DOALL_args_t) :=
  match mem with
  | Some uninit => Ok (uninit <$> seq 0 (Z.to_nat cores))
  | None => if 0 <? cores then Fail UndefinedBehaviour else Ok []
  end.

Definition getDOALLArgs (mem : option (nat → DOALL_args_t)) (cores : Z) (p : pool)
    : outcome (nat * pool) :=
  found ← find_block 0 p.(doallMemorySizes) p.(doallMemoryAvailability) cores;
  match found with
  | Some i =>
      Ok (i, {| doallMemorySizes := p.(doallMemorySizes);
                doallMemoryAvailability := <[i := false]> p.(doallMemoryAvailability);
                doallMemory := p.(doallMemory) |})
  | None =>
      let index := length p.(doallMemoryAvailability) in
      argsForAllCores ← allocate mem cores;
      _ ← int_loop cores;
      Ok (index, {| doallMemorySizes := p.(doallMemorySizes) ++ [cores];
                    doallMemoryAvailability := p.(doallMemoryAvailability) ++ [false];
                    doallMemory := p.(doallMemory) ++ [imap init_args argsForAllCores] |})
  end.

Definition releaseDOALLArgs (index : nat) (p : pool) : outcome pool :=
  if (index <? length p.(doallMemoryAvailability))%nat
  then Ok {| doallMemorySizes := p.(doallMemorySizes);
             doallMemoryAvailability := <[index := true]> p.(doallMemoryAvailability);
             doallMemory := p.(doallMemory) |}
  else Fail UndefinedBehaviour.

(** [argsForAllCores[i]] of block [b]. *)
Definition arg_at (p : pool) (b i : nat) : option DOALL_args_t :=
  p.(doallMemory) !! b ≫= λ blk, blk !! i.

(** A write through the pointer [&argsForAllCores[i]]. *)
Definition update_arg (f : DOALL_args_t → DOALL_args_t) (b i : nat) (p : pool) : pool :=
  {| doallMemorySizes := p.(doallMemorySizes);
     doallMemoryAvailability := p.(doallMemoryAvailability);
     doallMemory := alter (alter f i) b p.(doallMemory) |}.

Definition set_endLock (l : bool) (a : DOALL_args_t) : DOALL_args_t :=
  {| parallelizedLoop := a.(parallelizedLoop); env := a.(env);
     coreID := a.(coreID); numCores := a.(numCores);
     chunkSize := a.(chunkSize); endLock := l |}.

(** The invariant of the pool: the vectors have one entry per block, the sizes
    are the lengths of the blocks, slot [i] belongs to core [i], and every lock
    of an available block is taken. *)
Record pool_wf (p : pool) : Prop := {
  wf_sizes : doallMemorySizes p = (λ blk : list DOALL_args_t, Z.of_nat (length blk)) <$> doallMemory p;
  wf_avail : length (doallMemoryAvailability p) = length (doallMemory p);
  wf_coreID b i a : arg_at p b i = Some a → coreID a = Z.of_nat i;
  wf_locked b i a : doallMemoryAvailability p !! b = Some true →
                    arg_at p b i = Some a → endLock a = true;
}.

(** ** Lemmas *)

Lemma arg_at_update_eq f b i p :
  arg_at (update_arg f b i p) b i = f <$> arg_at p b i.
Proof.
  unfold arg_at, update_arg. cbn. rewrite list_lookup_alter_eq.
  destruct (doallMemory p !! b) as [blk |]; cbn; [| done].
  apply list_lookup_alter_eq.
Qed.

Lemma arg_at_update_ne f b i b' i' p :
  (b, i) ≠ (b', i') → arg_at (update_arg f b i p) b' i' = arg_at p b' i'.
Proof.
  intros Hne. unfold arg_at, update_arg. cbn.
  destruct (decide (b = b')) as [-> | Hb].
  - rewrite list_lookup_alter_eq. destruct (doallMemory p !! b') as [blk |]; cbn; [| done].
    apply list_lookup_alter_ne. congruence.
  - by rewrite list_lookup_alter_ne.
Qed.

Lemma update_sizes_wf f b i p :
  doallMemorySizes p = (λ blk : list DOALL_args_t, Z.of_nat (length blk)) <$> doallMemory p →
  doallMemorySizes (update_arg f b i p) =
    (λ blk : list DOALL_args_t, Z.of_nat (length blk)) <$> doallMemory (update_arg f b i p).
Proof.
  intros Hs. cbn. rewrite Hs. apply list_eq. intros j. rewrite !list_lookup_fmap.
  destruct (decide (j = b)) as [-> | Hj].
  - rewrite list_lookup_alter_eq. destruct (doallMemory p !! b); cbn; [| done].
    by rewrite length_alter.
  - by rewrite list_lookup_alter_ne.
Qed.

Lemma find_block_Some k sizes avail cores b :
  find_block k sizes avail cores = Ok (Some b) →
  ∃ i sz, b = (k + i)%nat ∧ sizes !! i = Some sz ∧ avail !! i = Some true ∧ cores ≤ sz.
Proof.
  revert k avail. induction sizes as [| sz sizes IH]; intros k [| a avail]; cbn; [done..|].
  destruct (a && (cores <=? sz)) eqn:E.
  - intros [= <-]. simplify_tests. exists 0%nat, sz. rewrite Nat.add_0_r. by destruct a.
  - destruct (_ <? _); [| done].
    intros H'. destruct (IH _ _ H') as (i & sz' & -> & ? & ? & ?).
    exists (S i), sz'. split_and!; [lia | done..].
Qed.

Lemma find_block_None k sizes avail cores i sz :
  find_block k sizes avail cores = Ok None →
  sizes !! i = Some sz → avail !! i = Some true → sz < cores.
Proof.
  revert k avail i. induction sizes as [| sz' sizes IH];
    intros k [| a avail] [| i]; cbn; try done.
  - destruct a; cbn; [| done]. destruct (Z.leb_spec cores sz'); [done |].
    intros _ [= ->]. done.
  - destruct (_ && _); [done |]. destruct (_ <? _); [apply IH | done].
Qed.

(** The scan fails only past [INT_MAX] blocks. *)
Lemma find_block_Fail k sizes avail cores e :
  find_block k sizes avail cores = Fail e →
  e = UndefinedBehaviour ∧ INT_MAX < Z.of_nat (k + length avail).
Proof.
  revert k avail. induction sizes as [| sz sizes IH]; intros k [| a avail]; cbn; [done..|].
  destruct (_ && _); [done |]. destruct (Z.ltb_spec (Z.of_nat k) INT_MAX).
  - intros H'. destruct (IH _ _ H') as [-> ?]. split; [done | lia].
  - intros [= <-]. split; [done | lia].
Qed.

(** What a dispatcher gets: a block nobody else holds, large enough, with every
    end lock taken and every core numbered. *)
Record fresh_block (p : pool) (cores : Z) (b : nat) (p' : pool) : Prop := {
  fb_free : doallMemoryAvailability p !! b ≠ Some false;
  fb_held : doallMemoryAvailability p' !! b = Some false;
  fb_args i : (i < Z.to_nat cores)%nat →
    ∃ a, arg_at p' b i = Some a ∧ coreID a = Z.of_nat i;
  fb_locks i a : arg_at p' b i = Some a → endLock a = true;
  fb_other b' : b' ≠ b → doallMemoryAvailability p' !! b' = doallMemoryAvailability p !! b' ∧
                          doallMemory p' !! b' = doallMemory p !! b';
}.

Lemma getDOALLArgs_reuse_spec p i cores :
  pool_wf p →
  find_block 0 (doallMemorySizes p) (doallMemoryAvailability p) cores = Ok (Some i) →
  let p' := {| doallMemorySizes := doallMemorySizes p;
               doallMemoryAvailability := <[i:=false]> (doallMemoryAvailability p);
               doallMemory := doallMemory p |} in
  pool_wf p' ∧ fresh_block p cores i p'.
Proof.
  intros Hwf Hfind p'. destruct (find_block_Some _ _ _ _ _ Hfind) as (j & sz & Hij & Hsz & Hav & Hle).
  cbn in Hij. subst j. destruct Hwf as [Hs Ha Hc Hl].
  assert (i < length (doallMemoryAvailability p))%nat as Hlt by (by eapply lookup_lt_Some).
  split.
  - split; cbn; [done | by rewrite length_insert | done |].
    intros b k a Hb. destruct (decide (b = i)) as [-> | Hne].
    + rewrite list_lookup_insert_eq in Hb by done. done.
    + rewrite list_lookup_insert_ne in Hb by done. by apply Hl.
  - split; cbn.
    + congruence.
    + by rewrite list_lookup_insert_eq.
    + intros k Hk. rewrite Hs, list_lookup_fmap in Hsz.
      destruct (doallMemory p !! i) as [blk |] eqn:Hb; simplify_eq/=.
      destruct (lookup_lt_is_Some_2 blk k) as [a Hka]; [lia |].
      assert (arg_at p i k = Some a) as E by (unfold arg_at; by rewrite Hb).
      exists a. split; [exact E | by apply (Hc i)].
    + intros k a Hk. by apply (Hl i k).
    + intros b' Hb'. by rewrite list_lookup_insert_ne.
Qed.

Lemma allocate_length mem cores args :
  0 ≤ cores → allocate mem cores = Ok args → length args = Z.to_nat cores.
Proof.
  unfold allocate. intros Hc. destruct mem as [uninit |].
  - intros [= <-]. by rewrite length_fmap, length_seq.
  - destruct (Z.ltb_spec 0 cores); [done |]. intros [= <-]. cbn. lia.
Qed.

Lemma getDOALLArgs_alloc_spec mem p cores args :
  pool_wf p → 0 ≤ cores → allocate mem cores = Ok args →
  let b := length (doallMemoryAvailability p) in
  let p' := {| doallMemorySizes := doallMemorySizes p ++ [cores];
               doallMemoryAvailability := doallMemoryAvailability p ++ [false];
               doallMemory := doallMemory p ++ [imap init_args args] |} in
  pool_wf p' ∧ fresh_block p cores b p'.
Proof.
  intros Hwf Hcores Hlen%allocate_length b p'; [| done]. destruct Hwf as [Hs Ha Hc Hl].
  assert (∀ i a, arg_at p' b i = Some a → coreID a = Z.of_nat i ∧ endLock a = true) as Hnew.
  { intros i a. unfold arg_at, p', b. cbn. rewrite Ha, list_lookup_middle by done. cbn.
    rewrite list_lookup_imap. destruct (_ !! i) as [u |]; cbn; [| done].
    intros [= <-]. done. }
  assert (∀ b', b' ≠ b → doallMemory p' !! b' = doallMemory p !! b') as Hold.
  { intros b' Hb'. cbn. destruct (decide (b' < b)%nat).
    - rewrite lookup_app_l; [done | lia].
    - rewrite !lookup_ge_None_2; [done | lia |]. rewrite length_app. cbn. lia. }
  assert (∀ b', b' ≠ b → doallMemoryAvailability p' !! b' = doallMemoryAvailability p !! b') as Hav.
  { intros b' Hb'. cbn. destruct (decide (b' < b)%nat).
    - by rewrite lookup_app_l.
    - rewrite !lookup_ge_None_2; [done | lia |]. rewrite length_app. cbn. lia. }
  assert (doallMemoryAvailability p' !! b = Some false) as Hb.
  { cbn. by rewrite list_lookup_middle. }
  split.
  - split.
    + cbn. rewrite Hs, fmap_app. cbn. rewrite length_imap, Hlen.
      by rewrite Z2Nat.id.
    + cbn. rewrite !length_app. cbn. lia.
    + intros b' i a. destruct (decide (b' = b)) as [-> | Hne]; [apply Hnew |].
      unfold arg_at. rewrite Hold by done. apply Hc.
    + intros b' i a Hav'. destruct (decide (b' = b)) as [-> | Hne]; [congruence |].
      rewrite Hav in Hav' by done. unfold arg_at. rewrite Hold by done. by apply Hl.
  - split.
    + by rewrite lookup_ge_None_2.
    + done.
    + intros i Hi. unfold arg_at, p', b. cbn. rewrite Ha, list_lookup_middle by done. cbn.
      rewrite list_lookup_imap. destruct (lookup_lt_is_Some_2 args i) as [a ->]; [lia |].
      cbn. eauto.
    + apply Hnew.
    + intros b' Hb'. auto.
Qed.

Lemma getDOALLArgs_spec mem cores p b p' :
  pool_wf p → 0 ≤ cores → getDOALLArgs mem cores p = Ok (b, p') →
  pool_wf p' ∧ fresh_block p cores b p'.
Proof.
  intros Hwf Hc. unfold getDOALLArgs. intros ([i |] & E & H)%bind_Ok_inv.
  - injection H as <- <-. by apply getDOALLArgs_reuse_spec.
  - apply bind_Ok_inv in H as (args & Hargs & (_ & _ & [= <- <-])%bind_Ok_inv).
    by eapply getDOALLArgs_alloc_spec.
Qed.

(** What has to hold for a call not to fail. *)
Definition pool_fits (mem : option (nat → DOALL_args_t)) (cores : Z) (p : pool) : Prop :=
  (is_Some mem ∨ cores ≤ 0) ∧ cores ≤ INT_MAX ∧
  Z.of_nat (length (doallMemoryAvailability p)) ≤ INT_MAX.

Lemma getDOALLArgs_Fail mem cores p e :
  getDOALLArgs mem cores p = Fail e → e = UndefinedBehaviour ∧ ¬ pool_fits mem cores p.
Proof.
  unfold getDOALLArgs, pool_fits. destruct (find_block _ _ _ _) as [[i |] |] eqn:E; cbn; [done | |].
  - unfold allocate, int_loop. destruct mem as [uninit |]; cbn.
    + destruct (Z.leb_spec cores INT_MAX); cbn; [done |]. intros [= <-]. split; [done | lia].
    + destruct (Z.ltb_spec 0 cores); cbn.
      * intros [= <-]. split; [done |]. intros ([[] | ?] & _); [done | lia].
      * destruct (Z.leb_spec cores INT_MAX); cbn; [done |]. intros [= <-]. split; [done | lia].
  - intros [= <-]. destruct (find_block_Fail _ _ _ _ _ E). split; [done |]. cbn in *. lia.
Qed.

(** Giving a block back is fine once its locks are all taken again. *)
Lemma releaseDOALLArgs_wf b p :
  pool_wf p → (b < length (doallMemoryAvailability p))%nat →
  (∀ i a, arg_at p b i = Some a → endLock a = true) →
  ∃ p', releaseDOALLArgs b p = Ok p' ∧ pool_wf p'.
Proof.
  intros [Hs Ha Hc Hl] Hb Hlk. unfold releaseDOALLArgs.
  destruct (Nat.ltb_spec b (length (doallMemoryAvailability p))); [| lia].
  eexists. split; [done |]. split; cbn; [done | by rewrite length_insert | done |].
  intros b' i a Hb'. destruct (decide (b' = b)) as [-> | Hne]; [by apply Hlk |].
  rewrite list_lookup_insert_ne in Hb' by done. by apply Hl.
Qed.

(** ** Several dispatchers at once *)

(** The blocks the running dispatchers hold; each allocation finds memory of
    its own. *)
Inductive pool_step : pool * list nat → pool * list nat → Prop :=
| pool_get mem p held cores b p' :
    0 ≤ cores → getDOALLArgs mem cores p = Ok (b, p') →
    pool_step (p, held) (p', b :: held)
| pool_release p held i b p' :
    held !! i = Some b → releaseDOALLArgs b p = Ok p' →
    pool_step (p, held) (p', delete i held).

Definition held_ok (s : pool * list nat) : Prop :=
  pool_wf s.1 ∧ NoDup s.2 ∧
  ∀ b, b ∈ s.2 → doallMemoryAvailability s.1 !! b = Some false ∧
                 ∀ i a, arg_at s.1 b i = Some a → endLock a = true.

Lemma releaseDOALLArgs_inv b p p' :
  releaseDOALLArgs b p = Ok p' →
  (b < length (doallMemoryAvailability p))%nat ∧
  p' = {| doallMemorySizes := doallMemorySizes p;
          doallMemoryAvailability := <[b:=true]> (doallMemoryAvailability p);
          doallMemory := doallMemory p |}.
Proof.
  unfold releaseDOALLArgs. destruct (Nat.ltb_spec b (length (doallMemoryAvailability p)));
    [| done]. intros [= <-]. done.
Qed.

Lemma held_ok_step s s' : held_ok s → pool_step s s' → held_ok s'.
Proof.
  intros (Hwf & Hnd & Hh) Hst.
  destruct Hst as [mem p held cores b p' Hc Hg | p held i b p' Hi Hr]; cbn in *.
  - destruct (getDOALLArgs_spec _ _ _ _ _ Hwf Hc Hg) as [Hwf' Hf]. destruct Hf.
    split_and!; cbn; [done | |].
    + apply NoDup_cons. split; [| done]. intros Hin. by destruct (Hh _ Hin).
    + intros b' [-> | Hin]%elem_of_cons; [split; [done | apply fb_locks0] |].
      destruct (decide (b' = b)) as [-> | Hne]; [split; [done | apply fb_locks0] |].
      destruct (Hh _ Hin) as [Hav Hlk]. destruct (fb_other0 _ Hne) as [E1 E2].
      split; [congruence |]. unfold arg_at. rewrite E2. apply Hlk.
  - destruct (releaseDOALLArgs_inv _ _ _ Hr) as [Hlt ->].
    assert (b ∈ held) as Hin by (by eapply list_elem_of_lookup_2).
    destruct (releaseDOALLArgs_wf b p Hwf Hlt) as (p'' & Hr' & Hwf').
    { apply Hh, Hin. }
    rewrite Hr in Hr'. injection Hr' as <-.
    assert (held ≡ₚ b :: delete i held) as Hperm by (by apply delete_Permutation).
    rewrite Hperm in Hnd. apply NoDup_cons in Hnd as [Hnb Hnd].
    split_and!; cbn; [done | done |].
    intros b' Hb'. assert (b' ≠ b) by congruence.
    rewrite list_lookup_insert_ne by done.
    apply Hh. rewrite Hperm. by right.
Qed.

(** ** Properties *)

(** C32. [getDOALLArgs] on a well-formed pool returns a block that no other
    dispatcher holds, with a slot per requested core whose [coreID] is its
    index and whose end lock is taken, marks it as in use, leaves every other
    block alone, and keeps the pool well formed.  It fails only when a block of
    at least one slot cannot be allocated, or with more slots or blocks than an
    [int] counts. *)
Theorem getDOALLArgs_correct mem cores p :
  pool_wf p → 0 ≤ cores →
  match getDOALLArgs mem cores p with
  | Ok (b, p') => pool_wf p' ∧ fresh_block p cores b p'
  | Fail e => e = UndefinedBehaviour ∧ ¬ pool_fits mem cores p
  end.
Proof.
  intros Hwf Hc. destruct (getDOALLArgs mem cores p) as [[b p'] | e] eqn:E.
  - by eapply getDOALLArgs_spec.
  - by apply getDOALLArgs_Fail.
Qed.

Definition zero_args (i : nat) : DOALL_args_t := DOALLArgs 0 0 0 0 0 false.

Lemma empty_pool_wf : pool_wf empty_pool.
Proof. by split. Qed.

(** The pool after a call on it. *)
Definition after_get (cores : Z) (p : pool) : pool :=
  match getDOALLArgs (Some zero_args) cores p with Ok (_, p') => p' | Fail _ => p end.

Lemma getDOALLArgs_correct_witness :
  pool_wf (after_get 3 empty_pool) ∧
  doallMemoryAvailability (after_get 3 empty_pool) = [false].
Proof.
  split; [| reflexivity].
  exact (proj1 (getDOALLArgs_correct (Some zero_args) 3 empty_pool empty_pool_wf ltac:(lia))).
Defined.

(** C6. Whatever the interleaving of the dispatchers that take and give back
    blocks, the blocks held at any time are pairwise distinct and marked as in
    use: two parallel loops never share an argument block. *)
Theorem held_blocks_distinct p held :
  steps pool_step (empty_pool, []) (p, held) →
  NoDup held ∧ ∀ b, b ∈ held → doallMemoryAvailability p !! b = Some false.
Proof.
  intros Hst.
  destruct (steps_invariant pool_step held_ok held_ok_step _ _ Hst)
    as (_ & Hnd & Hh).
  - split_and!; [apply empty_pool_wf | constructor |].
    intros b Hb. by apply not_elem_of_nil in Hb.
  - split; [done |]. intros b Hb. by apply Hh.
Qed.

Lemma held_blocks_distinct_witness :
  ∃ p, steps pool_step (empty_pool, []) (p, [1%nat; 0%nat]) ∧
       NoDup [1%nat; 0%nat].
Proof.
  exists (after_get 2 (after_get 3 empty_pool)).
  assert (steps pool_step (empty_pool, [])
    (after_get 2 (after_get 3 empty_pool), [1%nat; 0%nat])) as H.
  { eapply rtc_l; [apply (pool_get (Some zero_args) _ _ 3); [lia | reflexivity] |].
    eapply rtc_l; [apply (pool_get (Some zero_args) _ _ 2); [lia | reflexivity] |]. constructor. }
  split; [exact H |]. exact (proj1 (held_blocks_distinct _ _ H)).
Defined.

End Pool.
