(* ===== verification/RuntimeDoall.v ===== *)
(** * The DOALL dispatcher

    [NOELLE_DOALLDispatcher] and [NOELLE_DOALLTrampoline] of
    [src/src/core/runtime/Parallelizer_utils.cpp] as a transition system: the
    dispatching thread advances one source step at a time, and the worker
    threads of the pool (VIRGIL) take submitted tasks in any order and at any
    speed.  A task reads its arguments from the shared block when it runs, calls
    the parallelized loop, and later unlocks its end lock. *)

From S2P Require Import Prelude RuntimeCores RuntimePool.

Module Doall.
Import Cores Pool.

(** The parameters of the dispatcher. *)
Record request := Request {
  rq_loop : Z;
  rq_env : Z;
  rq_maxNumberOfCores : Z;
  rq_chunkSize : Z;
}.

(** One invocation of [parallelizedLoop]. *)
Record call := Call {
  c_loop : Z;
  c_env : Z;
  c_coreID : Z;
  c_numCores : Z;
  c_chunkSize : Z;
}.

(** Where the dispatching thread is; [idx] is [doallMemoryIndex]. *)
Inductive pc :=
| AtReserve
| AtGetArgs (numCores : Z)
| AtSubmit (numCores : Z) (idx i : nat)
| AtRun (numCores : Z) (idx : nat)
| AtJoin (numCores : Z) (idx i : nat)
| AtReleaseCores (numCores : Z) (idx : nat)
| AtReleaseArgs (numCores : Z) (idx : nat)
| Returned (numberOfThreadsUsed : Z)
| Crashed (why : failure).

Record state := St {
  cores : runtime;
  mem : pool;
  queued : list (nat * nat);   (* submitted to VIRGIL, not started *)
  running : list (nat * nat);  (* inside the trampoline, not finished *)
  calls : list call;           (* every invocation so far *)
  at_ : pc;
}.

Definition init (c : runtime) (p : pool) : state := St c p [] [] [] AtReserve.

(** The arguments written before a submission. *)
Definition prepare_args (rq : request) (n : Z) (a : DOALL_args_t) : DOALL_args_t :=
  {| parallelizedLoop := rq.(rq_loop); env := rq.(rq_env); coreID := a.(coreID);
     numCores := n; chunkSize := rq.(rq_chunkSize); endLock := a.(endLock) |}.

Definition goto (s : state) (p : pc) : state :=
  St s.(cores) s.(mem) s.(queued) s.(running) s.(calls) p.

(** The end [++i] of an iteration of a loop whose index [i] is an [int]. *)
Definition next_index (i : nat) (s : state) : state :=
  if Z.of_nat i <? INT_MAX then s else goto s (Crashed UndefinedBehaviour).

(** One step of the dispatching thread; [None]: it spins on a lock, or it has
    returned. *)
Definition NOELLE_DOALLDispatcher (posix_memalign : option (nat → DOALL_args_t)) (rq : request)
    (s : state) : option state :=
  match s.(at_) with
  | AtReserve =>
      let '(n, c) := reserveCores (u32 rq.(rq_maxNumberOfCores)) s.(cores) in
      Some (St c s.(mem) s.(queued) s.(running) s.(calls) (AtGetArgs n))
  | AtGetArgs n =>
      match getDOALLArgs posix_memalign (u32 (n - 1)) s.(mem) with
      | Ok (idx, p) => Some (St s.(cores) p s.(queued) s.(running) s.(calls) (AtSubmit n idx 0))
      | Fail e => Some (goto s (Crashed e))
      end
  | AtSubmit n idx i =>
      if Z.of_nat i <? u32 (n - 1) then
        Some (next_index i
               (St s.(cores) (update_arg (prepare_args rq n) idx i s.(mem))
                   (s.(queued) ++ [(idx, i)]) s.(running) s.(calls)
                   (AtSubmit n idx (S i))))
      else Some (goto s (AtRun n idx))
  | AtRun n idx =>
      Some (St s.(cores) s.(mem) s.(queued) s.(running)
               (s.(calls) ++ [Call rq.(rq_loop) rq.(rq_env) (u32 (n - 1)) n
                                   rq.(rq_chunkSize)])
               (AtJoin n idx 0))
  | AtJoin n idx i =>
      if Z.of_nat i <? u32 (n - 1) then
        match arg_at s.(mem) idx i with
        | Some a =>
            if a.(endLock) then None
            else Some (next_index i
                        (St s.(cores) (update_arg (set_endLock true) idx i s.(mem))
                            s.(queued) s.(running) s.(calls) (AtJoin n idx (S i))))
        | None => Some (goto s (Crashed UndefinedBehaviour))
        end
      else Some (goto s (AtReleaseCores n idx))
  | AtReleaseCores n idx =>
      match releaseCores n s.(cores) with
      | Ok c => Some (St c s.(mem) s.(queued) s.(running) s.(calls) (AtReleaseArgs n idx))
      | Fail e => Some (goto s (Crashed e))
      end
  | AtReleaseArgs n idx =>
      match releaseDOALLArgs idx s.(mem) with
      | Ok p => Some (St s.(cores) p s.(queued) s.(running) s.(calls) (Returned (s32 n)))
      | Fail e => Some (goto s (Crashed e))
      end
  | Returned _ | Crashed _ => None
  end.

(** A process that has failed has no workers left. *)
Definition alive (s : state) : option unit :=
  match s.(at_) with Crashed _ => None | _ => Some tt end.

(** A worker takes the [k]-th waiting task: the trampoline fetches the
    arguments and invokes the loop. *)
Definition NOELLE_DOALLTrampoline_invoke (k : nat) (s : state) : option state :=
  _ ← alive s;
  '(b, i) ← s.(queued) !! k;
  match arg_at s.(mem) b i with
  | Some a =>
      Some (St s.(cores) s.(mem) (delete k s.(queued)) (s.(running) ++ [(b, i)])
               (s.(calls) ++ [Call a.(parallelizedLoop) a.(env) a.(coreID)
                                   a.(numCores) a.(chunkSize)]) s.(at_))
  | None => Some (goto s (Crashed UndefinedBehaviour))
  end.

(** The end of the trampoline: unlock the end lock. *)
Definition NOELLE_DOALLTrampoline_unlock (k : nat) (s : state) : option state :=
  _ ← alive s;
  '(b, i) ← s.(running) !! k;
  Some (St s.(cores) (update_arg (set_endLock false) b i s.(mem)) s.(queued)
           (delete k s.(running)) s.(calls) s.(at_)).

Inductive step (alloc : option (nat → DOALL_args_t)) (rq : request) : state → state → Prop :=
| step_main s s' : NOELLE_DOALLDispatcher alloc rq s = Some s' → step alloc rq s s'
| step_invoke k s s' : NOELLE_DOALLTrampoline_invoke k s = Some s' → step alloc rq s s'
| step_unlock k s s' : NOELLE_DOALLTrampoline_unlock k s = Some s' → step alloc rq s s'.

(** ** The invariant of a dispatch *)

#[local] Arguments seq : simpl never.

Section dispatch.
Context (alloc : option (nat → DOALL_args_t)) (rq : request) (c0 : runtime) (p0 : pool).
Context (Hp0 : pool_wf p0).

(** The invocation of task instance [j] out of [n]. *)
Definition mk (n : Z) (j : nat) : call :=
  Call (rq_loop rq) (rq_env rq) (Z.of_nat j) n (rq_chunkSize rq).

Definition n1 (n : Z) : nat := Z.to_nat (n - 1).

Definition granted (n : Z) (c : runtime) : Prop :=
  reserveCores (u32 (rq_maxNumberOfCores rq)) c0 = (n, c).

(** What slot [j] of the block looks like once [sub] tasks are submitted and
    [joined] are joined. *)
Record slot_ok (n : Z) (b sub joined : nat) (pend : list (nat * nat))
    (j : nat) (a : DOALL_args_t) : Prop := {
  slot_core : coreID a = Z.of_nat j;
  slot_lock : endLock a = false ↔ (joined ≤ j < sub)%nat ∧ (b, j) ∉ pend;
  slot_args : (j < sub)%nat → parallelizedLoop a = rq_loop rq ∧ env a = rq_env rq ∧
                              numCores a = n ∧ chunkSize a = rq_chunkSize rq;
}.

(** While the dispatcher is between the allocation and the release. *)
Record active (n : Z) (b sub joined : nat) (own : bool) (s : state) : Prop := {
  ac_n : 1 ≤ n < 4294967296;
  ac_sub : (joined ≤ sub ≤ n1 n)%nat;
  ac_wf : pool_wf (mem s);
  ac_held : doallMemoryAvailability (mem s) !! b = Some false;
  ac_nodup : NoDup (queued s ++ running s);
  ac_pend x : x ∈ queued s ++ running s → ∃ j, x = (b, j) ∧ (joined ≤ j < sub)%nat;
  ac_exists j : (j < n1 n)%nat → is_Some (arg_at (mem s) b j);
  ac_slot j a : arg_at (mem s) b j = Some a →
                slot_ok n b sub joined (queued s ++ running s) j a;
  ac_calls : calls s ++ (mk n <$> (queued s).*2) ≡ₚ
             (mk n <$> seq 0 sub) ++ (if own then [mk n (n1 n)] else []);
}.

(** What has to hold for the dispatcher not to fail: the block of arguments can
    be allocated, and an [int] can count the task instances and the blocks. *)
Definition fits : Prop :=
  is_Some alloc ∧ Z.max 1 (u32 (rq_maxNumberOfCores rq)) - 1 ≤ INT_MAX ∧
  Z.of_nat (length (doallMemoryAvailability p0)) ≤ INT_MAX.

Definition finished (n : Z) (s : state) : Prop :=
  queued s = [] ∧ running s = [] ∧ pool_wf (mem s) ∧
  calls s ≡ₚ mk n <$> seq 0 (S (n1 n)).

Definition inv (s : state) : Prop :=
  match at_ s with
  | AtReserve => s = init c0 p0
  | AtGetArgs n => granted n (cores s) ∧ s = St (cores s) p0 [] [] [] (AtGetArgs n)
  | AtSubmit n b i => granted n (cores s) ∧ active n b i 0 false s
  | AtRun n b => granted n (cores s) ∧ active n b (n1 n) 0 false s
  | AtJoin n b i => granted n (cores s) ∧ active n b (n1 n) i true s
  | AtReleaseCores n b => granted n (cores s) ∧ active n b (n1 n) (n1 n) true s
  | AtReleaseArgs n b => (∃ c, granted n c ∧ releaseCores n c = Ok (cores s)) ∧
                         active n b (n1 n) (n1 n) true s
  | Returned t => ∃ n, t = s32 n ∧ (∃ c, granted n c ∧ releaseCores n c = Ok (cores s)) ∧
                       finished n s
  | Crashed e => e = UndefinedBehaviour ∧ ¬ fits
  end.

Lemma update_wf f b i p :
  pool_wf p → doallMemoryAvailability p !! b = Some false →
  (∀ a, coreID (f a) = coreID a) → pool_wf (update_arg f b i p).
Proof using.
  intros [Hs Ha Hc Hl] Hb Hf. split.
  - by apply update_sizes_wf.
  - cbn. by rewrite length_alter.
  - intros b' i' a. destruct (decide ((b, i) = (b', i'))) as [[= <- <-] | Hne].
    + rewrite arg_at_update_eq. destruct (arg_at p b i) as [a0 |] eqn:E; [| done].
      intros [= <-]. rewrite Hf. by eapply Hc.
    + rewrite arg_at_update_ne by done. apply Hc.
  - intros b' i' a Hb'. cbn in Hb'.
    assert (b' ≠ b) by congruence.
    rewrite arg_at_update_ne by congruence. by apply Hl.
Qed.

Lemma active_arg n b sub joined own s j :
  active n b sub joined own s → (j < n1 n)%nat →
  ∃ a, arg_at (mem s) b j = Some a ∧
       slot_ok n b sub joined (queued s ++ running s) j a.
Proof using.
  intros Ha Hj. destruct (ac_exists _ _ _ _ _ _ Ha j Hj) as [a E].
  exists a. split; [done |]. by eapply ac_slot.
Qed.

(** A slot's description only depends on whether its own task is pending. *)
Lemma slot_ok_proper n b sub joined pend pend' j a :
  ((b, j) ∈ pend ↔ (b, j) ∈ pend') →
  slot_ok n b sub joined pend j a → slot_ok n b sub joined pend' j a.
Proof using. intros H [H1 H2 H3]. split; [done | by rewrite H2, H | done]. Qed.

Lemma active_invoke n b sub joined own s k s' :
  active n b sub joined own s → NOELLE_DOALLTrampoline_invoke k s = Some s' →
  active n b sub joined own s' ∧ cores s' = cores s ∧ at_ s' = at_ s.
Proof using.
  intros Ha. unfold NOELLE_DOALLTrampoline_invoke. destruct (alive s); cbn; [| done].
  destruct (queued s !! k) as [[b' j] |] eqn:Hk; cbn; [| done].
  assert ((b', j) ∈ queued s ++ running s) as Hin.
  { apply elem_of_app. left. by eapply list_elem_of_lookup_2. }
  destruct (ac_pend _ _ _ _ _ _ Ha _ Hin) as (j' & [= -> ->] & Hj).
  pose proof (ac_sub _ _ _ _ _ _ Ha).
  destruct (active_arg _ _ _ _ _ _ j' Ha) as (a & Earg & Hslot); [lia |].
  rewrite Earg. intros [= <-]. cbn.
  assert (queued s ≡ₚ (b, j') :: delete k (queued s)) as Hq by (by apply delete_Permutation).
  assert (delete k (queued s) ++ running s ++ [(b, j')] ≡ₚ queued s ++ running s) as Hp.
  { rewrite Hq at 2. rewrite app_assoc, <- Permutation_cons_append. done. }
  destruct Ha as [A1 A2 A3 A4 A5 A6 A7 A8 A9]. split; [| done].
  split; cbn; try done.
  - by rewrite Hp.
  - intros x. rewrite Hp. apply A6.
  - intros i a' E. eapply slot_ok_proper; [| by apply A8]. by rewrite Hp.
  - rewrite <- A9. destruct Hslot as [Hc _ Hargs].
    destruct Hargs as (E1 & E2 & E3 & E4); [lia |].
    rewrite E1, E2, E3, E4, Hc. rewrite Hq at 2. cbn.
    by rewrite <- app_assoc.
Qed.

Lemma active_unlock n b sub joined own s k s' :
  active n b sub joined own s → NOELLE_DOALLTrampoline_unlock k s = Some s' →
  active n b sub joined own s' ∧ cores s' = cores s ∧ at_ s' = at_ s.
Proof using.
  intros Ha. unfold NOELLE_DOALLTrampoline_unlock. destruct (alive s); cbn; [| done].
  destruct (running s !! k) as [[b' j] |] eqn:Hk; cbn; [| done].
  assert ((b', j) ∈ queued s ++ running s) as Hin.
  { apply elem_of_app. right. by eapply list_elem_of_lookup_2. }
  destruct (ac_pend _ _ _ _ _ _ Ha _ Hin) as (j' & [= -> ->] & Hj).
  intros [= <-]. cbn.
  assert (queued s ++ running s ≡ₚ (b, j') :: (queued s ++ delete k (running s))) as Hp.
  { rewrite (delete_Permutation (running s)) at 1 by done.
    by rewrite Permutation_middle. }
  destruct Ha as [A1 A2 A3 A4 A5 A6 A7 A8 A9].
  rewrite Hp in A5. apply NoDup_cons in A5 as [Hnin Hnd].
  split; [| done]. split; cbn; try done.
  - by apply update_wf.
  - intros x Hx. apply A6. rewrite Hp. by right.
  - intros i Hi. destruct (decide (i = j')) as [-> | Hne].
    + rewrite arg_at_update_eq, fmap_is_Some. by apply A7.
    + rewrite arg_at_update_ne by congruence. by apply A7.
  - intros i a. destruct (decide (i = j')) as [-> | Hne].
    + rewrite arg_at_update_eq. destruct (arg_at (mem s) b j') as [a0 |] eqn:E; [| done].
      intros [= <-]. destruct (A8 _ _ E) as [S1 _ S3]. split; [done | | done]. done.
    + rewrite arg_at_update_ne by congruence. intros E.
      eapply slot_ok_proper; [| by apply A8]. rewrite Hp, elem_of_cons.
      split; [intros [[= ->] | H]; done | auto].
Qed.

Lemma n1_lt n i : 1 ≤ n < 4294967296 → (Z.of_nat i <? u32 (n - 1)) = (i <? n1 n)%nat.
Proof using.
  intros. rewrite u32_small by lia. unfold n1.
  destruct (Z.ltb_spec (Z.of_nat i) (n - 1)), (Nat.ltb_spec i (Z.to_nat (n - 1))); lia.
Qed.

(** What the call of [getDOALLArgs] establishes. *)
Lemma active_start n b p s :
  1 ≤ n < 4294967296 → getDOALLArgs alloc (u32 (n - 1)) p0 = Ok (b, p) →
  s = St (cores s) p [] [] [] (AtSubmit n b 0) → active n b 0 0 false s.
Proof using Hp0.
  intros Hn Hg Hs. rewrite u32_small in Hg by lia.
  destruct (getDOALLArgs_spec alloc (n - 1) p0 b p Hp0 ltac:(lia) Hg) as [Hwf [F1 F2 F3 F4 F5]].
  rewrite Hs. split; cbn; try done; try lia.
  - constructor.
  - intros x Hx. by apply not_elem_of_nil in Hx.
  - intros j Hj. destruct (F3 j Hj) as (a & -> & _). eauto.
  - intros j a E. split; [by eapply wf_coreID | | lia].
    rewrite (F4 _ _ E). split; [done | lia].
Qed.

Lemma active_submit n b i s :
  active n b i 0 false s → (i < n1 n)%nat →
  active n b (S i) 0 false
    (St (cores s) (update_arg (prepare_args rq n) b i (mem s))
        (queued s ++ [(b, i)]) (running s) (calls s) (AtSubmit n b (S i))).
Proof using.
  intros [A1 A2 A3 A4 A5 A6 A7 A8 A9] Hi.
  assert ((b, i) ∉ queued s ++ running s) as Hnin.
  { intros Hin. destruct (A6 _ Hin) as (j & [= <-] & ?). lia. }
  assert ((queued s ++ [(b, i)]) ++ running s ≡ₚ (b, i) :: (queued s ++ running s)) as Hp.
  { rewrite <- app_assoc. cbn. by rewrite <- Permutation_middle. }
  split; cbn; try done; try lia.
  - by apply update_wf.
  - rewrite Hp. by constructor.
  - intros x. rewrite Hp. intros [-> | Hx]%elem_of_cons; [exists i; split; [done | lia] |].
    destruct (A6 _ Hx) as (j & -> & ?). exists j. split; [done | lia].
  - intros j Hj. destruct (decide (j = i)) as [-> | Hne].
    + rewrite arg_at_update_eq, fmap_is_Some. by apply A7.
    + rewrite arg_at_update_ne by congruence. by apply A7.
  - intros j a. destruct (decide (j = i)) as [-> | Hne].
    + rewrite arg_at_update_eq. destruct (arg_at (mem s) b i) as [a0 |] eqn:E; [| done].
      intros [= <-]. destruct (A8 _ _ E) as [S1 S2 S3]. split; [done | | done]. cbn.
      rewrite S2. split; [lia |]. intros [_ []]. rewrite Hp. by left.
    + rewrite arg_at_update_ne by congruence. intros E.
      destruct (A8 _ _ E) as [S1 S2 S3]. split; [done | | intros; apply S3; lia].
      rewrite S2, Hp, not_elem_of_cons. split.
      * intros [? ?]. split; [lia |]. split; [congruence | done].
      * intros [? [? ?]]. split; [lia | done].
  - rewrite fmap_app, fmap_app, app_assoc, A9, seq_S, fmap_app. cbn.
    by rewrite !app_nil_r.
Qed.

Lemma active_run n b s :
  active n b (n1 n) 0 false s →
  active n b (n1 n) 0 true
    (St (cores s) (mem s) (queued s) (running s)
        (calls s ++ [Call (rq_loop rq) (rq_env rq) (u32 (n - 1)) n (rq_chunkSize rq)])
        (AtJoin n b 0)).
Proof using.
  intros [A1 A2 A3 A4 A5 A6 A7 A8 A9]. split; cbn; try done.
  assert (Call (rq_loop rq) (rq_env rq) (u32 (n - 1)) n (rq_chunkSize rq) = mk n (n1 n))
    as -> by (unfold mk, n1; by rewrite u32_small, Z2Nat.id by lia).
  rewrite <- app_assoc. cbn.
  by rewrite <- Permutation_middle, A9, app_nil_r, Permutation_cons_append.
Qed.

Lemma active_join n b i a s :
  active n b (n1 n) i true s → (i < n1 n)%nat →
  arg_at (mem s) b i = Some a → endLock a = false →
  active n b (n1 n) (S i) true
    (St (cores s) (update_arg (set_endLock true) b i (mem s))
        (queued s) (running s) (calls s) (AtJoin n b (S i))).
Proof using.
  intros [A1 A2 A3 A4 A5 A6 A7 A8 A9] Hi Ea Hl.
  assert ((b, i) ∉ queued s ++ running s) as Hnin by (by apply (A8 _ _ Ea)).
  split; cbn; try done; try lia.
  - by apply update_wf.
  - intros x Hx. destruct (A6 _ Hx) as (j & -> & ?). exists j. split; [done |].
    assert (j ≠ i) by congruence. lia.
  - intros j Hj. destruct (decide (j = i)) as [-> | Hne].
    + rewrite arg_at_update_eq, fmap_is_Some. by apply A7.
    + rewrite arg_at_update_ne by congruence. by apply A7.
  - intros j a'. destruct (decide (j = i)) as [-> | Hne].
    + rewrite arg_at_update_eq, Ea. intros [= <-].
      destruct (A8 _ _ Ea) as [S1 S2 S3]. split; [done | cbn; split; [done | lia] | done].
    + rewrite arg_at_update_ne by congruence. intros E.
      destruct (A8 _ _ E) as [S1 S2 S3]. split; [done | | done].
      rewrite S2. split; (intros [? ?]; split; [lia | done]).
Qed.

(** After the last join no task is left and every lock is taken. *)
Lemma active_drained n b s :
  active n b (n1 n) (n1 n) true s →
  queued s = [] ∧ running s = [] ∧
  (∀ j a, arg_at (mem s) b j = Some a → endLock a = true) ∧
  calls s ≡ₚ mk n <$> seq 0 (S (n1 n)).
Proof using.
  intros [A1 A2 A3 A4 A5 A6 A7 A8 A9].
  assert (queued s ++ running s = []) as E.
  { destruct (queued s ++ running s) as [| x l]; [done |].
    destruct (A6 x) as (j & _ & ?); [left | lia]. }
  apply app_eq_nil in E as [E1 E2]. split_and!; [done | done | |].
  - intros j a E. destruct (endLock a) eqn:El; [done |].
    apply (A8 _ _ E) in El as [? _]. lia.
  - rewrite E1 in A9. cbn in A9. rewrite app_nil_r in A9.
    by rewrite A9, seq_S, fmap_app.
Qed.

Lemma finish_release n b c s :
  active n b (n1 n) (n1 n) true s → granted n c →
  ∃ p, releaseDOALLArgs b (mem s) = Ok p ∧ pool_wf p.
Proof using.
  intros Ha _. destruct (active_drained _ _ _ Ha) as (_ & _ & Hl & _).
  apply releaseDOALLArgs_wf; [by eapply ac_wf | | done].
  eapply lookup_lt_Some, (ac_held _ _ _ _ _ _ Ha).
Qed.

Lemma release_ok n c : 1 ≤ n → ∃ c', releaseCores n c = Ok c'.
Proof using.
  intros Hn. unfold releaseCores, assert_that.
  destruct (Z.ltb_spec 0 n); [cbn; eauto | lia].
Qed.

(** The index of a loop over the task instances overflows only when there are
    more of them than an [int] counts. *)
Lemma inv_next_index n c i s :
  granted n c → (i < n1 n)%nat → inv s → inv (next_index i s).
Proof using.
  intros Hg Hi Hs. unfold next_index. destruct (Z.ltb_spec (Z.of_nat i) INT_MAX); [done |].
  unfold inv. cbn. split; [done |]. intros (_ & Hm & _).
  pose proof (reserveCores_le _ _ _ _ Hg). unfold n1 in Hi. lia.
Qed.

Lemma not_pool_fits n c :
  granted n c → ¬ pool_fits alloc (u32 (n - 1)) p0 → ¬ fits.
Proof using.
  intros Hg Hn (H1 & H2 & H3). apply Hn. split_and!; [by left | | done].
  pose proof (reserveCores_le _ _ _ _ Hg).
  pose proof (reserveCores_range _ _ _ _ (u32_range _) Hg). rewrite u32_small; lia.
Qed.

Lemma doall_inv_main s s' : inv s → NOELLE_DOALLDispatcher alloc rq s = Some s' → inv s'.
Proof using Hp0.
  unfold inv, NOELLE_DOALLDispatcher. destruct (at_ s) as [| n | n b i | n b | n b i | n b | n b | t | e] eqn:Epc; try done.
  - intros ->. destruct (reserveCores _ _) as [n c] eqn:E. intros [= <-]. done.
  - intros [Hg Es]. destruct (getDOALLArgs _ _ _) as [[b p] | e] eqn:E; intros [= <-].
    + rewrite Es in E |- *. split; [done |]. eapply active_start; [| done | done].
      eapply reserveCores_range; [| exact Hg]. apply u32_range.
    + rewrite Es in E. apply getDOALLArgs_Fail in E as [-> Hn]. cbn. split; [done |].
      by eapply not_pool_fits.
  - intros [Hg Ha]. rewrite n1_lt by (by eapply ac_n).
    pose proof (ac_sub _ _ _ _ _ _ Ha).
    destruct (Nat.ltb_spec i (n1 n)); intros [= <-].
    + eapply inv_next_index; [done | done |]. split; [done |]. by apply active_submit.
    + split; [done |]. replace i with (n1 n) in Ha by lia. by destruct Ha.
  - intros [Hg Ha] [= <-]. split; [done |]. by apply active_run.
  - intros [Hg Ha]. rewrite n1_lt by (by eapply ac_n).
    pose proof (ac_sub _ _ _ _ _ _ Ha).
    destruct (Nat.ltb_spec i (n1 n)).
    + destruct (active_arg _ _ _ _ _ _ i Ha) as (a & Ea & _); [done |].
      rewrite Ea. destruct (endLock a) eqn:El; [done |]. intros [= <-].
      eapply inv_next_index; [done | done |]. split; [done |]. by eapply active_join.
    + intros [= <-]. split; [done |]. replace i with (n1 n) in Ha by lia. by destruct Ha.
  - intros [Hg Ha]. destruct (release_ok n (cores s)) as [c' Hr]; [apply (ac_n _ _ _ _ _ _ Ha) |].
    rewrite Hr. intros [= <-]. split; [eauto |]. by destruct Ha.
  - intros [(c & Hg & Hr) Ha]. destruct (finish_release n b c s Ha Hg) as (p & Hp & Hwf).
    rewrite Hp. intros [= <-]. exists n. split; [done |]. split; [eauto |].
    destruct (active_drained _ _ _ Ha) as (? & ? & _ & ?). done.
Qed.

(** A worker step only exists while a dispatch is active. *)
Lemma inv_worker s s' :
  inv s →
  (∃ k, NOELLE_DOALLTrampoline_invoke k s = Some s') ∨
  (∃ k, NOELLE_DOALLTrampoline_unlock k s = Some s') →
  inv s' ∧ at_ s' = at_ s.
Proof using.
  intros Hi Hs.
  assert (∀ n b sub joined own, active n b sub joined own s →
    active n b sub joined own s' ∧ cores s' = cores s ∧ at_ s' = at_ s) as Hact.
  { intros n b sub joined own Ha. destruct Hs as [[k Hk] | [k Hk]];
      [by eapply active_invoke | by eapply active_unlock]. }
  assert (queued s = [] → running s = [] → False) as Hnil.
  { intros E1 E2. destruct Hs as [[k Hk] | [k Hk]].
    - unfold NOELLE_DOALLTrampoline_invoke in Hk. rewrite E1 in Hk. by destruct (alive s).
    - unfold NOELLE_DOALLTrampoline_unlock in Hk. rewrite E2 in Hk. by destruct (alive s). }
  assert (is_Some (alive s)) as Hal.
  { destruct Hs as [[k Hk] | [k Hk]]; unfold NOELLE_DOALLTrampoline_invoke,
      NOELLE_DOALLTrampoline_unlock in Hk; by destruct (alive s). }
  unfold inv, alive in *. destruct (at_ s) as [| n | n b i | n b | n b i | n b | n b | t | e] eqn:Epc;
    [..| by destruct Hal].
  - subst s. by destruct Hnil.
  - destruct Hi as [_ E]. destruct Hnil; by rewrite E.
  - destruct Hi as [Hg Ha]. destruct (Hact _ _ _ _ _ Ha) as (Ha' & -> & ->). done.
  - destruct Hi as [Hg Ha]. destruct (Hact _ _ _ _ _ Ha) as (Ha' & -> & ->). done.
  - destruct Hi as [Hg Ha]. destruct (Hact _ _ _ _ _ Ha) as (Ha' & -> & ->). done.
  - destruct Hi as [Hg Ha]. destruct (Hact _ _ _ _ _ Ha) as (Ha' & -> & ->). done.
  - destruct Hi as [Hg Ha]. destruct (Hact _ _ _ _ _ Ha) as (Ha' & -> & ->). done.
  - destruct Hi as (n & _ & _ & E1 & E2 & _). by destruct Hnil.
Qed.

Lemma doall_inv_step s s' : inv s → step alloc rq s s' → inv s'.
Proof using Hp0.
  intros Hi Hst. destruct Hst as [s s' H | k s s' H | k s s' H].
  - by eapply doall_inv_main.
  - eapply inv_worker; eauto.
  - eapply inv_worker; eauto.
Qed.

(** ** Progress and termination *)

(** No run of a dispatch is longer than this. *)
Definition run_bound : nat :=
  8 + 4 * Z.to_nat (Z.max 1 (u32 (rq_maxNumberOfCores rq))).

Definition pc_measure (p : pc) : nat :=
  match p with
  | AtReserve => run_bound
  | AtGetArgs n => 7 + 4 * n1 n
  | AtSubmit n _ i => 6 + 3 * (n1 n - i) + n1 n
  | AtRun n _ => 5 + n1 n
  | AtJoin n _ i => 4 + (n1 n - i)
  | AtReleaseCores _ _ => 3
  | AtReleaseArgs _ _ => 2
  | Returned _ | Crashed _ => 0
  end.

Definition measure (s : state) : nat :=
  pc_measure (at_ s) + 2 * length (queued s) + length (running s).

Lemma length_delete_lt {A} (l : list A) k x :
  l !! k = Some x → length l = S (length (delete k l)).
Proof using.
  intros H. pose proof (delete_Permutation l k x H) as Hp.
  apply Permutation_length in Hp. done.
Qed.

Lemma measure_main s s' :
  inv s → NOELLE_DOALLDispatcher alloc rq s = Some s' → (measure s' < measure s)%nat.
Proof using.
  unfold inv, NOELLE_DOALLDispatcher, measure.
  destruct (at_ s) as [| n | n b i | n b | n b i | n b | n b | t | e] eqn:Epc; try done.
  - intros ->. destruct (reserveCores _ _) as [n c] eqn:E. intros [= <-]. cbn.
    pose proof (reserveCores_le _ _ _ _ E). unfold run_bound, n1. lia.
  - intros _. destruct (getDOALLArgs _ _ _) as [[b p] |]; intros [= <-]; cbn; lia.
  - intros [_ Ha]. rewrite n1_lt by (by eapply ac_n). unfold next_index.
    destruct (Nat.ltb_spec i (n1 n)); [destruct (_ <? _) |]; intros [= <-]; cbn;
      rewrite ?length_app; cbn; lia.
  - intros _ [= <-]. cbn. lia.
  - intros [_ Ha]. rewrite n1_lt by (by eapply ac_n).
    destruct (Nat.ltb_spec i (n1 n)); [| intros [= <-]; cbn; lia].
    destruct (active_arg _ _ _ _ _ _ i Ha) as (a & -> & _); [done |].
    destruct (endLock a); [done |]. unfold next_index. destruct (_ <? _); intros [= <-]; cbn; lia.
  - intros _. destruct (releaseCores _ _); intros [= <-]; cbn; lia.
  - intros _. destruct (releaseDOALLArgs _ _); intros [= <-]; cbn; lia.
Qed.

Lemma measure_invoke k s s' :
  inv s → NOELLE_DOALLTrampoline_invoke k s = Some s' → (measure s' < measure s)%nat.
Proof using.
  intros Hi H. destruct (inv_worker _ _ Hi (or_introl (ex_intro _ k H))) as [_ Hat].
  unfold measure. rewrite Hat. unfold NOELLE_DOALLTrampoline_invoke in H.
  destruct (alive s) eqn:Hal; cbn in H; [| done].
  destruct (queued s !! k) as [[b i] |] eqn:Hk; cbn in H; [| done].
  pose proof (length_delete_lt _ _ _ Hk) as Hl.
  destruct (arg_at (mem s) b i); injection H as <-; cbn in *.
  - rewrite length_app. cbn. lia.
  - exfalso. unfold alive in Hal. by rewrite <- Hat in Hal.
Qed.

Lemma measure_unlock k s s' :
  NOELLE_DOALLTrampoline_unlock k s = Some s' → (measure s' < measure s)%nat.
Proof using.
  unfold NOELLE_DOALLTrampoline_unlock, measure. destruct (alive s); cbn; [| done].
  destruct (running s !! k) as [[b i] |] eqn:Hk; cbn; [| done].
  pose proof (length_delete_lt _ _ _ Hk) as Hl. intros [= <-]. cbn. lia.
Qed.

Lemma inv_measure s s' :
  inv s → step alloc rq s s' → inv s' ∧ (measure s' < measure s)%nat.
Proof using Hp0.
  intros Hi Hst. split; [by eapply doall_inv_step |].
  destruct Hst; [by apply measure_main | by eapply measure_invoke | by eapply measure_unlock].
Qed.

(** A join spins only on a task that is still pending, and a pending task can
    always take its next step. *)
Lemma join_progress n b i s a :
  alive s = Some tt → active n b (n1 n) i true s → (i < n1 n)%nat →
  arg_at (mem s) b i = Some a → endLock a = true → ∃ s', step alloc rq s s'.
Proof using.
  intros Hal Ha Hi Ea El.
  assert ((b, i) ∈ queued s ++ running s) as [Hin | Hin]%elem_of_app.
  { destruct (decide ((b, i) ∈ queued s ++ running s)); [done |].
    destruct (ac_slot _ _ _ _ _ _ Ha _ _ Ea) as [_ [_ Hl] _].
    rewrite Hl in El; [done |]. split; [lia | done]. }
  - apply list_elem_of_lookup in Hin as [k Hk]. eexists. apply (step_invoke _ _ k).
    unfold NOELLE_DOALLTrampoline_invoke. by rewrite Hal; cbn; rewrite Hk; cbn; rewrite Ea.
  - apply list_elem_of_lookup in Hin as [k Hk]. eexists. apply (step_unlock _ _ k).
    unfold NOELLE_DOALLTrampoline_unlock. by rewrite Hal; cbn; rewrite Hk.
Qed.

Lemma inv_progress s : inv s →
  (∃ t, at_ s = Returned t) ∨ (¬ fits ∧ at_ s = Crashed UndefinedBehaviour) ∨
  ∃ s', step alloc rq s s'.
Proof using.
  intros Hi. destruct (NOELLE_DOALLDispatcher alloc rq s) as [s' |] eqn:E.
  { right. right. exists s'. by apply step_main. }
  unfold NOELLE_DOALLDispatcher in E. unfold inv in Hi.
  destruct (at_ s) as [| n | n b i | n b | n b i | n b | n b | t | e] eqn:Epc; try done.
  - destruct (getDOALLArgs alloc (u32 (n - 1)) (mem s)) as [[] |]; discriminate E.
  - destruct (Z.of_nat i <? u32 (n - 1)) in E; discriminate E.
  - destruct Hi as [_ Ha]. rewrite n1_lt in E by (by eapply ac_n).
    destruct (Nat.ltb_spec i (n1 n)); [| done].
    destruct (active_arg _ _ _ _ _ _ i Ha) as (a & Ea & _); [done |].
    rewrite Ea in E. destruct (endLock a) eqn:El; [| done].
    right. right. eapply join_progress; [| done..]. unfold alive. by rewrite Epc.
  - destruct (releaseCores n (cores s)) in E; discriminate E.
  - destruct (releaseDOALLArgs b (mem s)) in E; discriminate E.
  - left. by exists t.
  - right. left. destruct Hi as [-> ?]. done.
Qed.

Lemma inv_reachable s : steps (step alloc rq) (init c0 p0) s → inv s.
Proof using Hp0.
  intros H. by eapply (steps_invariant (step alloc rq) inv doall_inv_step).
Qed.

(** The invocations of a dispatch that has returned, for its clients. *)
Lemma returned_calls s t : steps (step alloc rq) (init c0 p0) s → at_ s = Returned t →
  ∃ n, 1 ≤ n ≤ Z.max 1 (u32 (rq_maxNumberOfCores rq)) ∧ calls s ≡ₚ mk n <$> seq 0 (Z.to_nat n).
Proof.
  intros Hst E. pose proof (inv_reachable _ Hst) as Hi. unfold inv in Hi. rewrite E in Hi.
  destruct Hi as (n & _ & (c & Hg & _) & _ & _ & _ & Hc). exists n.
  pose proof (reserveCores_range _ _ _ _ (u32_range _) Hg).
  pose proof (reserveCores_le _ _ _ _ Hg). split; [lia |]. unfold n1 in Hc.
  by replace (Z.to_nat n) with (S (Z.to_nat (n - 1))) by lia.
Qed.
End dispatch.

(** ** Properties *)

(** C5. In every schedule of the dispatching thread and the workers, starting
    from a well-formed pool: the dispatcher fails only when the block of
    arguments cannot be allocated or there are more task instances or blocks
    than an [int] counts, and when it returns it has invoked [parallelizedLoop]
    exactly once for every core ID below the number of cores it reserved, each
    time with the request's environment and chunk size; no task is left behind,
    the argument pool is well formed again and the reserved cores have been
    released. *)
Theorem dispatcher_runs_each_core_once alloc rq c0 p0 s :
  pool_wf p0 → steps (step alloc rq) (init c0 p0) s →
  (∀ e, at_ s = Crashed e → e = UndefinedBehaviour ∧ ¬ fits alloc rq p0) ∧
  ∀ t, at_ s = Returned t → ∃ n c,
    reserveCores (u32 (rq_maxNumberOfCores rq)) c0 = (n, c) ∧ t = s32 n ∧
    calls s ≡ₚ mk rq n <$> seq 0 (Z.to_nat n) ∧
    queued s = [] ∧ running s = [] ∧ pool_wf (mem s) ∧
    releaseCores n c = Ok (cores s).
Proof.
  intros Hwf Hst. pose proof (inv_reachable _ _ _ _ Hwf _ Hst) as Hi.
  unfold inv in Hi. split; [intros e E; by rewrite E in Hi |].
  intros t E. rewrite E in Hi.
  destruct Hi as (n & -> & (c & Hg & Hr) & Hq & Hrun & Hp & Hc).
  exists n, c. split_and!; try done.
  pose proof (reserveCores_range _ _ _ _ (u32_range _) Hg). unfold n1 in Hc.
  by replace (Z.to_nat n) with (S (Z.to_nat (n - 1))) by lia.
Qed.

(** C17. Every run of a dispatch is finite, with an explicit bound, and a state
    in which nothing can move is one where the dispatcher has returned (or
    failed for want of memory or of [int] indices): there is no deadlock between
    the joins and the workers. *)
Theorem dispatcher_terminates alloc rq c0 p0 :
  pool_wf p0 →
  (∀ k s, nsteps (step alloc rq) k (init c0 p0) s → (k ≤ run_bound rq)%nat) ∧
  (∀ s, steps (step alloc rq) (init c0 p0) s →
     (∃ t, at_ s = Returned t) ∨ (¬ fits alloc rq p0 ∧ at_ s = Crashed UndefinedBehaviour) ∨
     ∃ s', step alloc rq s s').
Proof.
  intros Hwf. split.
  - intros k s H. pose proof (steps_bounded (step alloc rq) (inv alloc rq c0 p0)
      (measure rq) (inv_measure alloc rq c0 p0 Hwf) k
      (init c0 p0) s eq_refl H) as Hb.
    change (measure rq (init c0 p0)) with (run_bound rq + 0 + 0)%nat in Hb. lia.
  - intros s Hs. by eapply inv_progress, inv_reachable.
Qed.

(** A run with three cores where the workers finish in the opposite order of
    their submission. *)
Definition demo_cores : runtime := {| NOELLE_idleCores := 3; maxCores := 3 |}.
Definition demo_request : request := Request 7 8 16 4.

Fixpoint run_main (fuel : nat) (s : state) : state :=
  match fuel with
  | O => s
  | S f => match NOELLE_DOALLDispatcher (Some zero_args) demo_request s with
           | Some s' => run_main f s'
           | None => s
           end
  end.

Definition run_worker (f : nat → state → option state) (k : nat) (s : state) : state :=
  default s (f k s).

Definition demo_final : state :=
  run_main 20 (run_worker NOELLE_DOALLTrampoline_unlock 0
    (run_worker NOELLE_DOALLTrampoline_unlock 1
      (run_worker NOELLE_DOALLTrampoline_invoke 0
        (run_worker NOELLE_DOALLTrampoline_invoke 1
          (run_main 20 (init demo_cores empty_pool)))))).

Lemma run_main_steps fuel s : steps (step (Some zero_args) demo_request) s (run_main fuel s).
Proof.
  revert s. induction fuel as [| f IH]; intros s; cbn; [constructor |].
  destruct (NOELLE_DOALLDispatcher _ _ s) eqn:E; [| constructor].
  eapply rtc_l; [by apply step_main | apply IH].
Qed.

Lemma run_worker_steps f k s :
  (∀ s', f k s = Some s' → step (Some zero_args) demo_request s s') →
  steps (step (Some zero_args) demo_request) s (run_worker f k s).
Proof.
  intros H. unfold run_worker. destruct (f k s) eqn:E; cbn; [| constructor].
  eapply rtc_l; [by apply H | constructor].
Qed.

Lemma doall_demo_steps : steps (step (Some zero_args) demo_request) (init demo_cores empty_pool) demo_final.
Proof.
  unfold demo_final.
  etrans; [| apply run_main_steps].
  do 2 (etrans; [| apply run_worker_steps; intros; by eapply step_unlock]).
  do 2 (etrans; [| apply run_worker_steps; intros; by eapply step_invoke]).
  apply run_main_steps.
Qed.

Lemma dispatcher_runs_each_core_once_witness :
  at_ demo_final = Returned 3 ∧ calls demo_final ≡ₚ mk demo_request 3 <$> seq 0 3.
Proof.
  split; [by vm_compute |].
  destruct (dispatcher_runs_each_core_once _ _ _ _ _ empty_pool_wf doall_demo_steps) as [_ H].
  destruct (H 3 ltac:(by vm_compute)) as (n & c & Hn & _ & Hc & _).
  vm_compute in Hn. injection Hn as <- _. exact Hc.
Defined.

Lemma demo_fits : fits (Some zero_args) demo_request empty_pool.
Proof. split_and!; [done | by vm_compute | by vm_compute]. Qed.

Lemma dispatcher_terminates_witness :
  let s := run_main 20 (init demo_cores empty_pool) in
  (∃ t, at_ s = Returned t) ∨ ∃ s', step (Some zero_args) demo_request s s'.
Proof.
  destruct (proj2 (dispatcher_terminates (Some zero_args) demo_request demo_cores _ empty_pool_wf) _
    (run_main_steps 20 _)) as [? | [[Hn _] | ?]]; [by left | by destruct (Hn demo_fits) | by right].
Defined.

End Doall.
