(* ===== verification/RuntimeHelix.v ===== *)
(** * The HELIX dispatcher and its sequential segments

    [NOELLE_HELIX_dispatcher], [HELIX_wait] and [HELIX_signal] of
    [src/src/core/runtime/Parallelizer_utils.cpp].  The dispatcher lays out one
    array of spin locks per core (one cache line per sequential segment), hands
    core [i] the array [i] as its past and the array [i + 1] as its future (a
    ring), and leaves only the array of core 0 unlocked.  Core [c] executes the
    iterations [c], [c + n], [c + 2 n], ... of the loop.  In each of them it
    waits once for every segment, on its past lock, and later signals it once,
    on its future lock; the waits and signals of different segments come in any
    order, so a core can be inside several segments at a time, as it is at a
    loop exit, where the generated code waits for all of them before it signals
    any.  With [LIO = false] there is a single array: the segments are plain
    critical sections.  A task instance starts when a thread of the pool takes
    it, and keeps that thread until its function returns. *)

From S2P Require Import Prelude RuntimeCores.

Module Helix.
Import Cores.

Definition CACHE_LINE_SIZE : Z := 64.

(** The address of lock [lockID] of array [i]. *)
Definition lock_addr (ssArrays numOfsequentialSegments : Z) (i lockID : nat) : Z :=
  let ssSize := CACHE_LINE_SIZE in
  let ssArraySize := ssSize * numOfsequentialSegments in
  let ssArray := ssArrays + Z.of_nat i * ssArraySize in
  ssArray + Z.of_nat lockID * ssSize.

(** Initialisation of one lock ([true]: taken): only those of array 0 are left
    free. *)
Definition init_lock (base segs : Z) (i : nat) (m : gmap Z bool) (lockID : nat) : gmap Z bool :=
  <[lock_addr base segs i lockID := (0 <? Z.of_nat i)]> m.

(** Initialisation of all the arrays. *)
Definition init_locks (base segs : Z) (numOfSSArrays : nat) : gmap Z bool :=
  foldl (λ m i, foldl (init_lock base segs i) m (seq 0 (Z.to_nat segs)))
        ∅ (seq 0 numOfSSArrays).

(** [HELIX_wait] takes the spin lock of a sequential segment: it has no result
    while the lock is taken.  [HELIX_signal] releases it. *)
Definition HELIX_wait (ss : Z) (locks : gmap Z bool) : option (gmap Z bool) :=
  match locks !! ss with
  | Some false => Some (<[ss:=true]> locks)
  | _ => None
  end.

Definition HELIX_signal (ss : Z) (locks : gmap Z bool) : gmap Z bool := <[ss:=false]> locks.

(** What an iteration does as far as the segments are concerned. *)
Inductive op := Wait (g : nat) | Signal (g : nat).

#[export] Instance op_eq_dec : EqDecision op.
Proof. solve_decision. Defined.

(** Every wait is followed by one signal of its segment, and none is repeated. *)
Fixpoint ops_ok (l : list op) : Prop :=
  match l with
  | [] => True
  | Wait g :: r => Signal g ∈ r ∧ Wait g ∉ r ∧ ops_ok r
  | Signal g :: r => Signal g ∉ r ∧ Wait g ∉ r ∧ ops_ok r
  end.

(** The body of an iteration: each of the [segs] segments is waited for once and
    signalled once, later. *)
Definition body_ok (segs : nat) (l : list op) : Prop :=
  ops_ok l ∧ (∀ g, Wait g ∈ l ↔ (g < segs)%nat) ∧ (∀ g, Signal g ∈ l → (g < segs)%nat).

(** Segments are entered in increasing [rank] while others are still held. *)
Fixpoint ordered (rank : nat → nat) (l : list op) : Prop :=
  match l with
  | [] => True
  | Wait g :: r => (∀ h, h ≠ g → Signal h ∈ r → Wait h ∉ r → (rank h < rank g)%nat) ∧ ordered rank r
  | Signal _ :: r => ordered rank r
  end.

(** A task instance: the arguments of [NOELLE_HELIX_args_t] that matter to the
    synchronization, where the instance is in its iterations ([todo]: what the
    current iteration still has to do), whether a thread has started it, whether
    its function has returned, and its end lock. *)
Record core := Core {
  ssArrayPast : Z;
  ssArrayFuture : Z;
  iter : nat;
  todo : list op;
  started : bool;
  over : bool;
  endLock : bool;
}.

Inductive main_pc := MRun | MJoin (i : nat) | MDone | MFailed (why : failure).

Record state := St {
  locks : gmap Z bool;
  tasks : list core;
  log : list (nat * nat);  (* (segment, iteration) entered so far *)
  cores : runtime;
  main : main_pc;
}.

(** Core [x] is inside segment [g]: it has waited and not signalled yet. *)
Definition holds (x : core) (g : nat) : Prop := Signal g ∈ todo x ∧ Wait g ∉ todo x.

#[export] Instance holds_dec x g : Decision (holds x g).
Proof. unfold holds. apply _. Defined.

(** The instance occupies a thread. *)
Definition working (x : core) : bool := started x && negb (over x).

#[local] Arguments Nat.ltb : simpl never.
#[local] Arguments Nat.modulo : simpl never.

Section helix.
(** [n]: cores reserved; [segs]: sequential segments; [N]: iterations of the
    loop; [body k]: what iteration [k] does; [base]: what [posix_memalign]
    returned; [workers]: threads of the pool this dispatch can use; [rt0]: the
    core counter after the reservation. *)
Context (n segs N workers : nat) (body : nat → list op) (base : Z) (LIO : bool) (rt0 : runtime).
Context (Hn : (1 ≤ n)%nat) (Hbody : ∀ k, body_ok segs (body k)).

Definition numOfSSArrays : nat := if LIO then n else 1.

Definition array_addr (i : nat) : Z := base + Z.of_nat i * (CACHE_LINE_SIZE * Z.of_nat segs).

Definition pastID (i : nat) : nat := i mod numOfSSArrays.

(** The last instance, run by the dispatching thread itself, has future 0. *)
Definition futureID (i : nat) : nat :=
  if (i =? n - 1)%nat then 0%nat else (i + 1) mod numOfSSArrays.

Definition start_iteration (k : nat) : list op :=
  if (k <? N)%nat then body k else [].

(** The arguments of task instance [i], its end lock taken before it is
    submitted; the last instance is not submitted, the dispatching thread calls
    the task function. *)
Definition launch (i : nat) : core :=
  {| ssArrayPast := array_addr (pastID i);
     ssArrayFuture := array_addr (futureID i);
     iter := i; todo := start_iteration i; started := (i =? n - 1)%nat; over := false;
     endLock := true |}.

(** The state when every instance has been submitted to the pool. *)
Definition launch_tasks : state :=
  {| locks := init_locks base (Z.of_nat segs) numOfSSArrays;
     tasks := launch <$> seq 0 n; log := []; cores := rt0; main := MRun |}.

(** The lock of a segment in an array; the cache line of the compiler is that of
    the runtime. *)
Definition ss_ptr (ssArray : Z) (ssID : nat) : Z :=
  ssArray + Z.of_nat ssID * CACHE_LINE_SIZE.

Definition set_core (c : nat) (x : core) (s : state) : state :=
  St s.(locks) (<[c:=x]> s.(tasks)) s.(log) s.(cores) s.(main).

(** The threads of the pool that run an instance of this dispatch. *)
Definition busy (s : state) : nat :=
  sum_list_with (λ x, Nat.b2n (working x)) (take (n - 1) s.(tasks)).

(** A thread of the pool takes a submitted instance. *)
Definition start_task (c : nat) (s : state) : option state :=
  x ← s.(tasks) !! c;
  if negb x.(started) && (busy s <? workers)%nat then
    Some (set_core c (Core x.(ssArrayPast) x.(ssArrayFuture) x.(iter) x.(todo)
                           true x.(over) x.(endLock)) s)
  else None.

(** A core goes on to [l] after an operation that leaves the locks [lk]. *)
Definition goto (c : nat) (x : core) (l : list op) (lk : gmap Z bool)
    (entry : list (nat * nat)) (s : state) : state :=
  St lk (<[c:=Core x.(ssArrayPast) x.(ssArrayFuture) x.(iter) l x.(started) x.(over) x.(endLock)]>
            s.(tasks)) (s.(log) ++ entry) s.(cores) s.(main).

(** The call of [HELIX_wait] the compiler injects at the entry of a segment: on
    the lock of the past array. *)
Definition injectWaitCall (c : nat) (s : state) : option state :=
  x ← s.(tasks) !! c;
  match x.(started), x.(todo) with
  | true, Wait g :: rest =>
      lk ← HELIX_wait (ss_ptr x.(ssArrayPast) g) s.(locks);
      Some (goto c x rest lk [(g, x.(iter))] s)
  | _, _ => None
  end.

(** The call of [HELIX_signal] at its exit: on the lock of the future array. *)
Definition injectSignalCall (c : nat) (s : state) : option state :=
  x ← s.(tasks) !! c;
  match x.(started), x.(todo) with
  | true, Signal g :: rest =>
      Some (goto c x rest (HELIX_signal (ss_ptr x.(ssArrayFuture) g) s.(locks)) [] s)
  | _, _ => None
  end.

(** The latch of the task: the next iteration of this core is [n] later. *)
Definition next_iteration (c : nat) (s : state) : option state :=
  x ← s.(tasks) !! c;
  match x.(started), x.(todo) with
  | true, [] =>
      if (x.(iter) <? N)%nat then
        Some (set_core c (Core x.(ssArrayPast) x.(ssArrayFuture) (x.(iter) + n)
                (start_iteration (x.(iter) + n)) true x.(over) x.(endLock)) s)
      else None
  | _, _ => None
  end.

(** The task function returns; for an instance of the pool the trampoline then
    unlocks the end lock. *)
Definition NOELLE_HELIXTrampoline (c : nat) (s : state) : option state :=
  x ← s.(tasks) !! c;
  if x.(started) && negb (x.(iter) <? N)%nat && negb x.(over) then
    Some (set_core c (Core x.(ssArrayPast) x.(ssArrayFuture) x.(iter) x.(todo)
                           true true (if (c =? n - 1)%nat then x.(endLock) else false)) s)
  else None.

(** The dispatching thread after its own instance: it takes every end lock and
    then releases the cores. *)
Definition NOELLE_HELIX_join (s : state) : option state :=
  match s.(main) with
  | MRun => x ← s.(tasks) !! (n - 1)%nat;
            if x.(over) then Some (St s.(locks) s.(tasks) s.(log) s.(cores) (MJoin 0)) else None
  | MJoin i =>
      if (i <? n - 1)%nat then
        x ← s.(tasks) !! i;
        if x.(endLock) then None
        else Some (St s.(locks)
                     (<[i:=Core x.(ssArrayPast) x.(ssArrayFuture) x.(iter) x.(todo)
                                x.(started) x.(over) true]> s.(tasks))
                     s.(log) s.(cores) (MJoin (S i)))
      else match releaseCores (Z.of_nat n) s.(cores) with
           | Ok rt => Some (St s.(locks) s.(tasks) s.(log) rt MDone)
           | Fail e => Some (St s.(locks) s.(tasks) s.(log) s.(cores) (MFailed e))
           end
  | MDone | MFailed _ => None
  end.

Inductive step : state → state → Prop :=
| step_start c s s' : start_task c s = Some s' → step s s'
| step_wait c s s' : injectWaitCall c s = Some s' → step s s'
| step_signal c s s' : injectSignalCall c s = Some s' → step s s'
| step_next c s s' : next_iteration c s = Some s' → step s s'
| step_return c s s' : NOELLE_HELIXTrampoline c s = Some s' → step s s'
| step_join s s' : NOELLE_HELIX_join s = Some s' → step s s'.

(** ** The lock layout *)

Lemma lock_addr_ptr i g :
  lock_addr base (Z.of_nat segs) i g = ss_ptr (array_addr i) g.
Proof. unfold lock_addr, ss_ptr, array_addr, CACHE_LINE_SIZE. lia. Qed.

(** Distinct locks are at distinct addresses. *)
Lemma ss_ptr_inj i g i' g' :
  (g < segs)%nat → (g' < segs)%nat →
  ss_ptr (array_addr i) g = ss_ptr (array_addr i') g' → i = i' ∧ g = g'.
Proof.
  unfold ss_ptr, array_addr, CACHE_LINE_SIZE. intros Hg Hg' H.
  assert (Z.of_nat i * Z.of_nat segs + Z.of_nat g =
          Z.of_nat i' * Z.of_nat segs + Z.of_nat g') as E by lia.
  assert (Z.of_nat i = Z.of_nat i') by nia. nia.
Qed.

Lemma init_row i m m' r :
  m' = foldl (init_lock base (Z.of_nat segs) i) m (seq 0 r) → (r ≤ segs)%nat →
  (∀ g, (g < r)%nat → m' !! ss_ptr (array_addr i) g = Some (0 <? Z.of_nat i)) ∧
  (∀ i' g, i' ≠ i → (g < segs)%nat →
     m' !! ss_ptr (array_addr i') g = m !! ss_ptr (array_addr i') g).
Proof.
  intros ->. induction r as [| r IH]; intros Hr; [split; [lia | done] |].
  rewrite seq_S, foldl_app. cbn. destruct IH as [IH1 IH2]; [lia |].
  unfold init_lock at 1 3. rewrite lock_addr_ptr. split.
  - intros g Hg. destruct (decide (g = r)) as [-> | Hne]; [by rewrite lookup_insert_eq |].
    rewrite lookup_insert_ne; [apply IH1; lia |].
    intros H. apply ss_ptr_inj in H as [_ ?]; lia.
  - intros i' g Hi Hg. rewrite lookup_insert_ne; [by apply IH2 |].
    intros H. apply ss_ptr_inj in H as [? _]; [congruence | lia | done].
Qed.

(** After the initialisation exactly the locks of array 0 are free. *)
Lemma init_locks_lookup a i g :
  (i < a)%nat → (g < segs)%nat →
  init_locks base (Z.of_nat segs) a !! ss_ptr (array_addr i) g = Some (0 <? Z.of_nat i).
Proof.
  unfold init_locks. rewrite Nat2Z.id. revert i. induction a as [| a IH]; intros i Hi Hg; [lia |].
  rewrite seq_S, foldl_app. cbn.
  set (m := foldl _ ∅ (seq 0 a)) in *.
  destruct (init_row a m _ segs eq_refl ltac:(lia)) as [H1 H2].
  destruct (decide (i = a)) as [-> | Hne]; [by apply H1 |].
  rewrite H2 by done. apply IH; lia.
Qed.

(** ** What an iteration still has to do *)

Lemma holds_wait x g rest g' :
  todo x = Wait g :: rest → ops_ok (todo x) →
  (Signal g' ∈ rest ∧ Wait g' ∉ rest) ↔ g' = g ∨ holds x g'.
Proof.
  unfold holds. intros -> (H1 & H2 & _). rewrite !elem_of_cons. split.
  - intros [H3 H4]. destruct (decide (g' = g)); [by left | right]. naive_solver.
  - naive_solver.
Qed.

Lemma holds_signal x g rest g' :
  todo x = Signal g :: rest → ops_ok (todo x) →
  (Signal g' ∈ rest ∧ Wait g' ∉ rest) ↔ g' ≠ g ∧ holds x g'.
Proof. unfold holds. intros -> (H1 & H2 & _). rewrite !elem_of_cons. naive_solver. Qed.

Lemma not_holds_wait x g rest : todo x = Wait g :: rest → ¬ holds x g.
Proof. unfold holds. intros -> [_ []]. by left. Qed.

Lemma holds_head x g rest : todo x = Signal g :: rest → ops_ok (todo x) → holds x g.
Proof. intros E Hok. unfold holds. rewrite E in *. cbn in Hok. rewrite !elem_of_cons. naive_solver. Qed.

Lemma holds_nil x g : todo x = [] → ¬ holds x g.
Proof. unfold holds. intros -> [H _]. by apply not_elem_of_nil in H. Qed.

Lemma holds_todo x y g : todo x = todo y → holds x g ↔ holds y g.
Proof. unfold holds. by intros ->. Qed.

(** Waits before signals: while a wait is pending, so is its signal, but the
    segment is not held. *)
Lemma wait_not_held x g : Wait g ∈ todo x → ¬ holds x g.
Proof. by intros ? []. Qed.

Lemma ops_ok_NoDup l : ops_ok l → NoDup l.
Proof.
  induction l as [| [g | g] l IH]; cbn; [constructor | |];
    intros (? & ? & ?); constructor; auto.
Qed.

(** An iteration of [segs] segments has at most [2 * segs] operations. *)
Lemma body_ok_length l : body_ok segs l → (length l ≤ 2 * segs)%nat.
Proof.
  intros (Hok & Hw & Hs). apply ops_ok_NoDup in Hok.
  assert (l ⊆+ (Wait <$> seq 0 segs) ++ (Signal <$> seq 0 segs)) as Hsub.
  { apply NoDup_submseteq; [done |]. intros [g | g] Hg; apply elem_of_app.
    - left. apply list_elem_of_fmap. exists g. split; [done |]. apply elem_of_seq. apply Hw in Hg. lia.
    - right. apply list_elem_of_fmap. exists g. split; [done |]. apply elem_of_seq. apply Hs in Hg. lia. }
  apply submseteq_length in Hsub. rewrite length_app, !length_fmap, length_seq in Hsub. lia.
Qed.

Lemma start_iteration_ok k :
  (start_iteration k = [] ∨ (k < N)%nat) ∧ ops_ok (start_iteration k) ∧
  (∀ g, Wait g ∈ start_iteration k ∨ Signal g ∈ start_iteration k → (g < segs)%nat) ∧
  ((k < N)%nat → ∀ g, (g < segs)%nat → Wait g ∈ start_iteration k).
Proof.
  unfold start_iteration. destruct (Hbody k) as (H1 & H2 & H3).
  destruct (Nat.ltb_spec k N); split_and!.
  - by right.
  - done.
  - intros g [Hg | Hg]; [by apply H2 | by apply H3].
  - intros _ g Hg. by apply H2.
  - by left.
  - done.
  - intros g [Hg | Hg]; by apply not_elem_of_nil in Hg.
  - lia.
Qed.

Lemma start_iteration_length k : (length (start_iteration k) ≤ 2 * segs)%nat.
Proof.
  unfold start_iteration. destruct (_ <? _)%nat; cbn; [| lia]. apply body_ok_length, Hbody.
Qed.

(** ** What holds in both modes *)

Definition joined (m : main_pc) (c : nat) : Prop :=
  match m with MRun => False | MJoin i => (c < i)%nat | MDone | MFailed _ => True end.

Record core_ok (c : nat) (x : core) : Prop := {
  co_past : ssArrayPast x = array_addr (pastID c);
  co_future : ssArrayFuture x = array_addr (futureID c);
  co_mod : (iter x mod n = c)%nat;
  co_done : (N ≤ iter x)%nat → todo x = [];
  co_ops : ops_ok (todo x);
  co_range g : Wait g ∈ todo x ∨ Signal g ∈ todo x → (g < segs)%nat;
  co_over : over x = true → (N ≤ iter x)%nat ∧ started x = true;
  co_fresh : started x = false → iter x = c ∧ c ≠ (n - 1)%nat ∧ todo x = start_iteration c;
}.

Record base_inv (s : state) : Prop := {
  bi_len : length (tasks s) = n;
  bi_core c x : tasks s !! c = Some x → core_ok c x;
  bi_end c x : (c < n - 1)%nat → tasks s !! c = Some x →
               endLock x = false ↔ over x = true ∧ ¬ joined (main s) c;
  bi_joined c x : joined (main s) c → tasks s !! c = Some x → over x = true;
  bi_pc : match main s with
          | MJoin i => (i ≤ n - 1)%nat ∧
                       ∃ x, tasks s !! (n - 1)%nat = Some x ∧ over x = true
          | MFailed _ => False
          | _ => True
          end;
  bi_cores : match main s with
             | MDone => releaseCores (Z.of_nat n) rt0 = Ok (cores s)
             | _ => cores s = rt0
             end;
}.

(** Updating one core keeps the common part if the core itself stays fine and
    its end lock and return flag do not move. *)
Lemma base_inv_update s c x x' lk lg :
  base_inv s → tasks s !! c = Some x → core_ok c x' →
  over x' = over x → endLock x' = endLock x →
  base_inv (St lk (<[c:=x']> (tasks s)) lg (cores s) (main s)).
Proof.
  intros [B1 B2 B3 B4 B5 B6] Hc Hok Ho He. split; cbn; [| | | | | done].
  - by rewrite length_insert.
  - intros d y Hd. destruct (lookup_update _ _ _ _ _ _ Hc Hd) as [[-> ->] | [_ ?]]; auto.
  - intros d y Hlt Hd. destruct (lookup_update _ _ _ _ _ _ Hc Hd) as [[-> ->] | [_ ?]]; [| by apply B3].
    rewrite Ho, He. by apply B3.
  - intros d y Hj Hd. destruct (lookup_update _ _ _ _ _ _ Hc Hd) as [[-> ->] | [_ ?]]; [| by eapply B4].
    rewrite Ho. by eapply B4.
  - destruct (main s); [done | | done | done]. destruct B5 as [Hi (y & Hy & Hov)].
    split; [done |]. destruct (decide (c = n - 1)%nat) as [-> | Hne].
    + exists x'. rewrite list_lookup_insert_eq by (by eapply lookup_lt_Some).
      split; [done |]. rewrite Ho. by simplify_eq.
    + exists y. by rewrite list_lookup_insert_ne.
Qed.

Lemma launch_lookup c x : tasks launch_tasks !! c = Some x → (c < n)%nat ∧ x = launch c.
Proof.
  cbn. rewrite list_lookup_fmap. intros (i & Hi & ->)%fmap_Some.
  by apply lookup_seq in Hi as [-> ?].
Qed.

Lemma base_inv_init : base_inv launch_tasks.
Proof.
  split; cbn [main joined launch_tasks cores]; try done.
  - cbn. by rewrite length_fmap, length_seq.
  - intros c x [Hlt ->]%launch_lookup.
    destruct (start_iteration_ok c) as (H1 & H2 & H3 & _).
    split; cbn; try done.
    + by apply Nat.mod_small.
    + intros HN. destruct H1; [done | lia].
    + destruct (Nat.eqb_spec c (n - 1)); done.
  - intros c x Hlt [_ ->]%launch_lookup. cbn. split; [done | intros [? _]; done].
Qed.

(** The kinds of steps, one core at a time. *)

Lemma start_inv c s s' :
  start_task c s = Some s' → ∃ x,
    tasks s !! c = Some x ∧ started x = false ∧ (busy s < workers)%nat ∧
    s' = set_core c (Core (ssArrayPast x) (ssArrayFuture x) (iter x) (todo x)
                          true (over x) (endLock x)) s.
Proof.
  unfold start_task. destruct (tasks s !! c) as [x |] eqn:Hx; cbn; [| done].
  destruct (started x) eqn:Hs; cbn; [done |].
  destruct (Nat.ltb_spec (busy s) workers); [| done]. intros [= <-]. by exists x.
Qed.

Lemma wait_inv c s s' :
  injectWaitCall c s = Some s' → ∃ x g rest,
    tasks s !! c = Some x ∧ started x = true ∧ todo x = Wait g :: rest ∧
    locks s !! ss_ptr (ssArrayPast x) g = Some false ∧
    s' = goto c x rest (<[ss_ptr (ssArrayPast x) g := true]> (locks s)) [(g, iter x)] s.
Proof.
  unfold injectWaitCall, HELIX_wait. destruct (tasks s !! c) as [x |] eqn:Hx; cbn; [| done].
  destruct (started x) eqn:Hi; [| done]. destruct (todo x) as [| [g | g] rest] eqn:Ht; [done | | done].
  destruct (locks s !! _) as [[] |] eqn:Hl; cbn; [done | | done].
  intros [= <-]. by exists x, g, rest.
Qed.

Lemma signal_inv c s s' :
  injectSignalCall c s = Some s' → ∃ x g rest,
    tasks s !! c = Some x ∧ started x = true ∧ todo x = Signal g :: rest ∧
    s' = goto c x rest (<[ss_ptr (ssArrayFuture x) g := false]> (locks s)) [] s.
Proof.
  unfold injectSignalCall, HELIX_signal. destruct (tasks s !! c) as [x |] eqn:Hx; cbn; [| done].
  destruct (started x) eqn:Hi; [| done]. destruct (todo x) as [| [g | g] rest] eqn:Ht; [done | done |].
  intros [= <-]. by exists x, g, rest.
Qed.

Lemma next_inv c s s' :
  next_iteration c s = Some s' → ∃ x,
    tasks s !! c = Some x ∧ started x = true ∧ todo x = [] ∧ (iter x < N)%nat ∧
    s' = set_core c (Core (ssArrayPast x) (ssArrayFuture x) (iter x + n)
           (start_iteration (iter x + n)) true (over x) (endLock x)) s.
Proof.
  unfold next_iteration. destruct (tasks s !! c) as [x |] eqn:Hx; cbn; [| done].
  destruct (started x) eqn:Hi; [| done]. destruct (todo x) eqn:Ht; [| done].
  destruct (Nat.ltb_spec (iter x) N); [| done]. intros [= <-]. by exists x.
Qed.

Lemma return_inv c s s' :
  NOELLE_HELIXTrampoline c s = Some s' → ∃ x,
    tasks s !! c = Some x ∧ started x = true ∧ (N ≤ iter x)%nat ∧ over x = false ∧
    s' = set_core c (Core (ssArrayPast x) (ssArrayFuture x) (iter x) (todo x) true true
                          (if (c =? n - 1)%nat then endLock x else false)) s.
Proof.
  unfold NOELLE_HELIXTrampoline. destruct (tasks s !! c) as [x |] eqn:Hx; cbn; [| done].
  destruct (started x) eqn:Hs; cbn; [| done].
  destruct (Nat.ltb_spec (iter x) N); cbn; [done |]. destruct (over x) eqn:Ho; [done |].
  intros [= <-]. by exists x.
Qed.

Lemma base_inv_start c s s' : base_inv s → start_task c s = Some s' → base_inv s'.
Proof.
  intros Hb H. destruct (start_inv _ _ _ H) as (x & Hx & Hs & _ & ->).
  destruct (bi_core _ Hb _ _ Hx) as [O1 O2 O3 O4 O5 O6 O7 O8].
  eapply base_inv_update; [done | done | | done | done]. split; cbn; try done.
  intros Ho. by destruct (O7 Ho).
Qed.

Lemma base_inv_wait c s s' : base_inv s → injectWaitCall c s = Some s' → base_inv s'.
Proof.
  intros Hb H. destruct (wait_inv _ _ _ H) as (x & g & rest & Hx & Hi & Ht & _ & ->).
  destruct (bi_core _ Hb _ _ Hx) as [O1 O2 O3 O4 O5 O6 O7 O8]. rewrite Ht in *.
  eapply base_inv_update; [done | done | | done | done]. split; cbn; try done.
  - intros HN. by specialize (O4 HN).
  - by destruct O5 as (_ & _ & ?).
  - intros g' Hg'. apply O6. rewrite !elem_of_cons. tauto.
  - congruence.
Qed.

Lemma base_inv_signal c s s' : base_inv s → injectSignalCall c s = Some s' → base_inv s'.
Proof.
  intros Hb H. destruct (signal_inv _ _ _ H) as (x & g & rest & Hx & Hi & Ht & ->).
  destruct (bi_core _ Hb _ _ Hx) as [O1 O2 O3 O4 O5 O6 O7 O8]. rewrite Ht in *.
  eapply base_inv_update; [done | done | | done | done]. split; cbn; try done.
  - intros HN. by specialize (O4 HN).
  - by destruct O5 as (_ & _ & ?).
  - intros g' Hg'. apply O6. rewrite !elem_of_cons. tauto.
  - congruence.
Qed.

Lemma base_inv_next c s s' : base_inv s → next_iteration c s = Some s' → base_inv s'.
Proof.
  intros Hb H. destruct (next_inv _ _ _ H) as (x & Hx & Hi & Ht & HN & ->).
  destruct (bi_core _ Hb _ _ Hx) as [O1 O2 O3 O4 O5 O6 O7 O8].
  destruct (start_iteration_ok (iter x + n)) as (S1 & S2 & S3 & _).
  eapply base_inv_update; [done | done | | done | done]. split; cbn; try done.
  - replace (iter x + n)%nat with (iter x + 1 * n)%nat by lia.
    by rewrite Nat.Div0.mod_add.
  - intros ?. destruct S1; [done | lia].
  - intros Ho. specialize (O7 Ho). lia.
Qed.

Lemma base_inv_return c s s' :
  base_inv s → NOELLE_HELIXTrampoline c s = Some s' → base_inv s'.
Proof.
  intros Hb H. destruct (return_inv _ _ _ H) as (x & Hx & Hs & HN & Ho & ->).
  pose proof (bi_core _ Hb _ _ Hx) as Hok. destruct Hb as [B1 B2 B3 B4 B5 B6].
  assert (¬ joined (main s) c) as Hnj.
  { intros Hj. specialize (B4 _ _ Hj Hx). congruence. }
  split; unfold set_core; cbn; [| | | | | done].
  - by rewrite length_insert.
  - intros d y Hd. destruct (lookup_update _ _ _ _ _ _ Hx Hd) as [[-> ->] | [_ ?]]; [| auto].
    destruct Hok. by split.
  - intros d y Hlt Hd. destruct (lookup_update _ _ _ _ _ _ Hx Hd) as [[-> ->] | [_ ?]]; [| auto].
    cbn. destruct (Nat.eqb_spec c (n - 1)); [lia | done].
  - intros d y Hj Hd. destruct (lookup_update _ _ _ _ _ _ Hx Hd) as [[-> ->] | [_ ?]]; eauto.
  - destruct (main s); [done | | done | done]. destruct B5 as [Hi (y & Hy & Hov)].
    split; [done |]. exists y. rewrite list_lookup_insert_ne; [done |].
    intros ->. congruence.
Qed.

Lemma base_inv_join s s' : base_inv s → NOELLE_HELIX_join s = Some s' → base_inv s'.
Proof.
  intros [B1 B2 B3 B4 B5 B6]. unfold NOELLE_HELIX_join.
  destruct (main s) as [| i | | e] eqn:Em; rewrite ?Em in *; cbn in *; [| | done | done].
  - destruct (tasks s !! (n - 1)%nat) as [x |] eqn:Hx; cbn; [| done].
    destruct (over x) eqn:Ho; [| done]. intros [= <-]. split; cbn; try done.
    + intros c y Hlt Hc. rewrite (B3 _ _ Hlt Hc). split; intros [? _]; (split; [done | lia]).
    + intros c y ?. exfalso. lia.
    + split; [lia | by exists x].
  - destruct B5 as [Hle (z & Hz & Hoz)].
    destruct (Nat.ltb_spec i (n - 1)).
    + destruct (tasks s !! i) as [x |] eqn:Hx; cbn; [| done].
      destruct (endLock x) eqn:El; [done |]. intros [= <-].
      destruct (proj1 (B3 i x ltac:(done) Hx) El) as [Hox _].
      split; cbn; [| | | | | done].
      * by rewrite length_insert.
      * intros d y Hd. destruct (lookup_update _ _ _ _ _ _ Hx Hd) as [[-> ->] | [_ ?]]; [| auto].
        destruct (B2 _ _ Hx). by split.
      * intros d y Hlt Hd. destruct (lookup_update _ _ _ _ _ _ Hx Hd) as [[-> ->] | [? Hd']].
        -- cbn. split; [done | intros [_ []]; lia].
        -- rewrite (B3 _ _ Hlt Hd'). split; (intros [? ?]; split; [done | lia]).
      * intros d y Hj Hd. destruct (lookup_update _ _ _ _ _ _ Hx Hd) as [[-> ->] | [? ?]]; [done |].
        apply (B4 d); [lia | done].
      * split; [lia |]. exists z. rewrite list_lookup_insert_ne by lia. done.
    + destruct (releaseCores _ _) as [rt | e] eqn:Er.
      2:{ exfalso. unfold releaseCores, assert_that in Er.
          destruct (Z.ltb_spec 0 (Z.of_nat n)); [done | lia]. }
      intros [= <-]. assert (∀ c x, tasks s !! c = Some x → over x = true) as Hall.
      { intros c x Hc. pose proof (lookup_lt_Some _ _ _ Hc).
        destruct (decide (c = n - 1)%nat) as [-> | Hne]; [congruence |].
        apply (B4 c); [lia | done]. }
      split; cbn; try done.
      * intros c x Hlt Hc. rewrite (B3 _ _ Hlt Hc). split; [| tauto].
        intros [_ []]. lia.
      * intros c x _ Hc. by eapply Hall.
      * by rewrite <- B6.
Qed.

Lemma base_inv_step s s' : base_inv s → step s s' → base_inv s'.
Proof.
  intros Hb Hst. destruct Hst.
  - by eapply base_inv_start.
  - by eapply base_inv_wait.
  - by eapply base_inv_signal.
  - by eapply base_inv_next.
  - by eapply base_inv_return.
  - by eapply base_inv_join.
Qed.

(** ** Every run is finite *)

(** The steps core [x] can still take. *)
Definition core_measure (x : core) : nat :=
  (N - iter x) * (2 * segs + 1) + length (todo x) +
  (if over x then 0 else 1) + (if started x then 0 else 1).

#[local] Arguments core_measure : simpl never.

Definition main_measure (m : main_pc) : nat :=
  match m with MRun => n + 1 | MJoin i => n - i | MDone | MFailed _ => 0 end.

Definition measure (s : state) : nat :=
  sum_list_with core_measure (tasks s) + main_measure (main s).

Lemma sum_update (f : core → nat) (l : list core) c x x' :
  l !! c = Some x →
  (sum_list_with f (<[c:=x']> l) + f x = sum_list_with f l + f x')%nat.
Proof.
  revert c. induction l as [| y l IH]; intros [| c] Hc; simpl in *; try done.
  - simplify_eq. lia.
  - specialize (IH _ Hc). lia.
Qed.

Lemma measure_update s c x x' lk lg rt :
  tasks s !! c = Some x → (core_measure x' < core_measure x)%nat →
  (measure (St lk (<[c:=x']> (tasks s)) lg rt (main s)) < measure s)%nat.
Proof.
  intros Hx Hlt. unfold measure. cbn. pose proof (sum_update core_measure _ _ _ x' Hx). lia.
Qed.

Lemma measure_join s s' : base_inv s → NOELLE_HELIX_join s = Some s' → (measure s' < measure s)%nat.
Proof.
  intros Hb H. unfold NOELLE_HELIX_join, measure in *.
  destruct (main s) as [| i | | e] eqn:Em; [| | done | done].
  - destruct (tasks s !! _) as [x |]; cbn in *; [| done]. destruct (over x); [| done].
    injection H as <-. cbn. lia.
  - pose proof (bi_pc _ Hb) as HP. rewrite Em in HP. destruct (Nat.ltb_spec i (n - 1)).
    + destruct (tasks s !! i) as [x |] eqn:Hx; cbn in *; [| done].
      destruct (endLock x); [done |]. injection H as <-. simpl.
      match goal with |- context [<[i:=?x']> _] =>
        pose proof (sum_update core_measure _ _ _ x' Hx : (_ + core_measure x = _ + core_measure x)%nat)
      end. lia.
    + destruct (releaseCores _ _); injection H as <-; cbn; destruct HP as [? (y & Hy & _)];
        apply lookup_lt_Some in Hy; rewrite (bi_len _ Hb) in Hy; lia.
Qed.

Lemma step_measure s s' : base_inv s → step s s' → base_inv s' ∧ (measure s' < measure s)%nat.
Proof.
  intros Hb Hst. split; [by eapply base_inv_step |].
  destruct Hst as [c s s' H | c s s' H | c s s' H | c s s' H | c s s' H | s s' H];
    [| | | | | by apply measure_join].
  - destruct (start_inv _ _ _ H) as (x & Hx & Hs & _ & ->).
    apply (measure_update _ _ _ _ _ _ _ Hx). unfold core_measure. cbn. rewrite Hs. lia.
  - destruct (wait_inv _ _ _ H) as (x & g & rest & Hx & Hi & Ht & _ & ->).
    apply (measure_update _ _ _ _ _ _ _ Hx). unfold core_measure. cbn. rewrite Ht. cbn. lia.
  - destruct (signal_inv _ _ _ H) as (x & g & rest & Hx & Hi & Ht & ->).
    apply (measure_update _ _ _ _ _ _ _ Hx). unfold core_measure. cbn. rewrite Ht. cbn. lia.
  - destruct (next_inv _ _ _ H) as (x & Hx & Hi & Ht & HN & ->).
    apply (measure_update _ _ _ _ _ _ _ Hx). unfold core_measure. cbn. rewrite Hi, Ht. cbn.
    pose proof (start_iteration_length (iter x + n)).
    assert ((N - (iter x + n)) * (2 * segs + 1) + (2 * segs + 1) ≤
            (N - iter x) * (2 * segs + 1))%nat by nia. lia.
  - destruct (return_inv _ _ _ H) as (x & Hx & Hs & HN & Ho & ->).
    apply (measure_update _ _ _ _ _ _ _ Hx). unfold core_measure. cbn. rewrite Ho, Hs. lia.
Qed.

(** ** Progress that does not depend on the mode *)

(** The instances that occupy a thread of the pool, when one does not. *)
Lemma busy_lt s c x :
  base_inv s → tasks s !! c = Some x → (c < n - 1)%nat → working x = false →
  (busy s < n - 1)%nat.
Proof.
  intros Hb Hx Hc Hw. unfold busy.
  assert (take (n - 1) (tasks s) !! c = Some x) as Hx' by (by rewrite lookup_take_lt).
  assert (∀ l : list core, (sum_list_with (λ x, Nat.b2n (working x)) l ≤ length l)%nat) as Hle.
  { clear. induction l as [| y l IH]; cbn; [done |]. destruct (working y); cbn; lia. }
  pose proof (sum_update (λ x, Nat.b2n (working x)) _ _ _ (Core 0 0 0 [] true false false) Hx') as Hu.
  pose proof (Hle (<[c:=Core 0 0 0 [] true false false]> (take (n - 1) (tasks s)))) as Hl.
  rewrite length_insert, length_take, (bi_len _ Hb) in Hl. cbn in Hu. rewrite Hw in Hu. cbn in Hu. lia.
Qed.

Lemma local_progress s c x :
  (n - 1 ≤ workers)%nat → base_inv s → tasks s !! c = Some x → over x = false →
  (∃ s', step s s') ∨
  (started x = true ∧ (iter x < N)%nat ∧ ∃ g rest, todo x = Wait g :: rest ∧ (g < segs)%nat).
Proof.
  intros Hw Hb Hx Ho. pose proof (bi_core _ Hb _ _ Hx) as Hok.
  destruct (started x) eqn:Hs.
  2:{ left. destruct (co_fresh _ _ Hok Hs) as (_ & Hc & _). eexists. apply (step_start c).
      unfold start_task. rewrite Hx. cbn. rewrite Hs. cbn.
      assert (busy s < n - 1)%nat.
      { eapply busy_lt; [done | done | | by unfold working; rewrite Hs].
        apply lookup_lt_Some in Hx. rewrite (bi_len _ Hb) in Hx. lia. }
      destruct (Nat.ltb_spec (busy s) workers); [done | lia]. }
  destruct (todo x) as [| [g | g] rest] eqn:Ht.
  - left. destruct (decide (iter x < N)%nat) as [HN | HN].
    + eexists. apply (step_next c). unfold next_iteration. rewrite Hx. cbn. rewrite Hs, Ht.
      by destruct (Nat.ltb_spec (iter x) N); [| lia].
    + eexists. apply (step_return c). unfold NOELLE_HELIXTrampoline. rewrite Hx. cbn.
      destruct (Nat.ltb_spec (iter x) N); [lia |]. by rewrite Hs, Ho.
  - right. split; [done |]. split.
    + destruct (decide (iter x < N)%nat); [done |]. rewrite (co_done _ _ Hok) in Ht; [done | lia].
    + exists g, rest. split; [done |]. apply (co_range _ _ Hok). rewrite Ht. left. by left.
  - left. eexists. apply (step_signal c). unfold injectSignalCall. by rewrite Hx; cbn; rewrite Hs, Ht.
Qed.

Lemma wait_progress s c x g rest :
  tasks s !! c = Some x → started x = true → todo x = Wait g :: rest →
  locks s !! ss_ptr (ssArrayPast x) g = Some false → ∃ s', step s s'.
Proof.
  intros Hx Hi Ht Hl. eexists. apply (step_wait c). unfold injectWaitCall, HELIX_wait. rewrite Hx. cbn.
  rewrite Hi, Ht. cbn. by rewrite Hl.
Qed.

Lemma main_progress s :
  base_inv s → (∀ c x, tasks s !! c = Some x → over x = true) →
  main s = MDone ∨ ∃ s', step s s'.
Proof.
  intros Hb Hov.
  assert (∀ c, (c < n)%nat → ∃ x, tasks s !! c = Some x) as Hex.
  { intros c Hc. apply lookup_lt_is_Some_2. by rewrite (bi_len _ Hb). }
  destruct (NOELLE_HELIX_join s) as [s' |] eqn:E; [right; exists s'; by apply step_join |].
  left. unfold NOELLE_HELIX_join in E. pose proof (bi_pc _ Hb) as HP.
  destruct (main s) as [| i | | e] eqn:Em; [| | done | done].
  - destruct (Hex (n - 1)%nat) as [x Hx]; [lia |]. rewrite Hx in E. cbn in E.
    by rewrite (Hov _ _ Hx) in E.
  - destruct (Nat.ltb_spec i (n - 1)); [| by destruct (releaseCores _ _)].
    destruct (Hex i) as [x Hx]; [lia |]. rewrite Hx in E. cbn in E.
    assert (endLock x = false) as El.
    { apply (bi_end _ Hb i x); [done | done |]. split; [by eapply Hov |].
      rewrite Em. cbn. lia. }
    by rewrite El in E.
Qed.

(** It is enough that some core can move as long as one has not returned. *)
Lemma progress_from_cores s :
  base_inv s → (∀ c x, tasks s !! c = Some x → over x = false → ∃ s', step s s') →
  main s = MDone ∨ ∃ s', step s s'.
Proof.
  intros Hb Hp. destruct (decide (Forall (λ x, over x = true) (tasks s))) as [Hall | Hnot].
  - apply main_progress; [done |]. intros c x Hx. by eapply (Forall_lookup_1 _ _ _ _ Hall).
  - right. apply not_Forall_Exists in Hnot; [| apply _].
    apply Exists_exists in Hnot as (x & Hin & Ho). apply list_elem_of_lookup in Hin as [c Hx].
    apply (Hp _ _ Hx). cbn in Ho. by destruct (over x).
Qed.

(** A core that holds a segment has not returned. *)
Lemma holds_active c x g : core_ok c x → holds x g → over x = false ∧ (iter x < N)%nat.
Proof.
  intros Hok Hh. assert (iter x < N)%nat as HN.
  { destruct (decide (iter x < N)%nat); [done |].
    exfalso. apply (holds_nil x g); [| done]. apply (co_done _ _ Hok). lia. }
  split; [| done]. destruct (over x) eqn:Ho; [| done]. destruct (co_over _ _ Hok Ho). lia.
Qed.

(** ** Sequential segments: the ring of arrays *)

(** The iterations that entered segment [g], in order. *)
Definition entered (g : nat) (l : list (nat * nat)) : list nat :=
  (filter (λ p, p.1 = g) l).*2.
#[local] Arguments entered : simpl never.

Lemma entered_app g l k : entered g (l ++ k) = entered g l ++ entered g k.
Proof. unfold entered. by rewrite filter_app, fmap_app. Qed.

Lemma entered_one g g' k : entered g [(g', k)] = if decide (g' = g) then [k] else [].
Proof. unfold entered. rewrite filter_cons. cbn. by destruct (decide (g' = g)). Qed.

(** The next iteration in which core [x] enters segment [g]. *)
Definition nxt (x : core) (g : nat) : nat :=
  if (iter x <? N)%nat && negb (bool_decide (Wait g ∈ todo x))
  then (iter x + n)%nat else iter x.

Definition free_of (g : nat) (l : list core) : Prop := ∀ d y, l !! d = Some y → ¬ holds y g.

Record ring_seg (s : state) (g : nat) (E : nat) : Prop := {
  rs_log : entered g (log s) = seq 0 E;
  rs_le : (E ≤ N)%nat;
  rs_next c x : tasks s !! c = Some x → (E ≤ nxt x g < E + n)%nat;
  rs_hold c x : tasks s !! c = Some x → holds x g → E = S (iter x);
  rs_lock a : (a < n)%nat → ∃ b, locks s !! ss_ptr (array_addr a) g = Some b ∧
              (b = false ↔ a = (E mod n)%nat ∧ free_of g (tasks s));
}.

Lemma congruent_range a b E : (E ≤ a < E + n)%nat → (E ≤ b < E + n)%nat →
  (a mod n = b mod n)%nat → a = b.
Proof.
  intros Ha Hb H. pose proof (Nat.div_mod_eq a n). pose proof (Nat.div_mod_eq b n).
  rewrite H in *. generalize dependent (a / n)%nat. generalize dependent (b / n)%nat.
  generalize (b mod n)%nat. intros r qb Eb qa Ea. assert (qa = qb) by nia. nia.
Qed.

Lemma nxt_mod c x g : core_ok c x → (nxt x g mod n)%nat = c.
Proof.
  intros Hok. unfold nxt. destruct (_ && _); [| by apply co_mod].
  replace (iter x + n)%nat with (iter x + 1 * n)%nat by lia.
  rewrite Nat.Div0.mod_add. by apply co_mod.
Qed.

(** The core whose turn it is. *)
Lemma nxt_turn s g E c x : base_inv s → ring_seg s g E → tasks s !! c = Some x →
  c = (E mod n)%nat → nxt x g = E.
Proof.
  intros Hb Hr Hx Hc. apply (congruent_range _ _ E); [by eapply rs_next | lia |].
  rewrite (nxt_mod c); [done | by eapply bi_core].
Qed.

Lemma holds_unique s g E c x d y : base_inv s → ring_seg s g E →
  tasks s !! c = Some x → tasks s !! d = Some y → holds x g → holds y g → c = d.
Proof.
  intros Hb Hr Hx Hy H1 H2.
  pose proof (rs_hold _ _ _ Hr _ _ Hx H1). pose proof (rs_hold _ _ _ Hr _ _ Hy H2).
  rewrite <- (co_mod _ _ (bi_core _ Hb _ _ Hx)), <- (co_mod _ _ (bi_core _ Hb _ _ Hy)).
  f_equal. lia.
Qed.

(** A step that neither enters nor leaves [g] keeps its part of the ring. *)
Lemma ring_seg_frame s s' g E c x x' :
  ring_seg s g E → tasks s !! c = Some x → tasks s' = <[c:=x']> (tasks s) →
  entered g (log s') = entered g (log s) →
  (∀ a, (a < n)%nat → locks s' !! ss_ptr (array_addr a) g = locks s !! ss_ptr (array_addr a) g) →
  nxt x' g = nxt x g → (holds x' g ↔ holds x g) → (holds x g → iter x' = iter x) →
  ring_seg s' g E.
Proof.
  intros [R1 R2 R3 R4 R5] Hx Ht Hlog Hlk Hn' Hh Hit. split.
  - by rewrite Hlog.
  - done.
  - intros d y. rewrite Ht. intros Hd.
    destruct (lookup_update _ _ _ _ _ _ Hx Hd) as [[-> ->] | [_ ?]]; [rewrite Hn' |]; eauto.
  - intros d y. rewrite Ht. intros Hd Hold.
    destruct (lookup_update _ _ _ _ _ _ Hx Hd) as [[-> ->] | [_ ?]]; [| eauto].
    rewrite Hit by tauto. apply (R4 _ _ Hx). tauto.
  - intros a Ha. rewrite Hlk by done. destruct (R5 a Ha) as (b & Hb & HbE).
    exists b. split; [done |]. rewrite HbE. f_equiv. unfold free_of. rewrite Ht. split.
    + intros Hf d y Hd. destruct (lookup_update _ _ _ _ _ _ Hx Hd) as [[-> ->] | [_ ?]]; [| eauto].
      rewrite Hh. eauto.
    + intros Hf d y Hd. destruct (decide (d = c)) as [-> | Hne].
      * simplify_eq. rewrite <- Hh. apply (Hf c). rewrite list_lookup_insert_eq; [done |].
        by eapply lookup_lt_Some.
      * apply (Hf d). by rewrite list_lookup_insert_ne.
Qed.

Lemma nxt_pending x g : Wait g ∈ todo x → nxt x g = iter x.
Proof. intros H1. unfold nxt. rewrite bool_decide_true by done. by rewrite andb_false_r. Qed.

Lemma nxt_passed x g : (iter x < N)%nat → Wait g ∉ todo x → nxt x g = (iter x + n)%nat.
Proof.
  intros H1 H2. unfold nxt. destruct (Nat.ltb_spec (iter x) N); [| lia].
  by rewrite bool_decide_false.
Qed.

Lemma nxt_done x g : (N ≤ iter x)%nat → nxt x g = iter x.
Proof. intros. unfold nxt. by destruct (Nat.ltb_spec (iter x) N); [lia |]. Qed.

Lemma nxt_ext x x' g : iter x' = iter x → (Wait g ∈ todo x' ↔ Wait g ∈ todo x) → nxt x' g = nxt x g.
Proof. unfold nxt. intros -> H. erewrite bool_decide_ext; [reflexivity | exact H]. Qed.

Lemma active_iter c x : core_ok c x → todo x ≠ [] → (iter x < N)%nat.
Proof.
  intros Hok Ht. destruct (decide (iter x < N)%nat); [done |].
  rewrite (co_done _ _ Hok) in Ht; [done | lia].
Qed.

Lemma core_range s c x : base_inv s → tasks s !! c = Some x → (c < n)%nat.
Proof. intros Hb Hx. rewrite <- (bi_len _ Hb). by eapply lookup_lt_Some. Qed.

Lemma lock_other a g c g' : (g < segs)%nat → (g' < segs)%nat → g' ≠ g →
  ss_ptr (array_addr c) g ≠ ss_ptr (array_addr a) g'.
Proof. intros Hg Hg' Hne H. apply ss_ptr_inj in H as [_ ?]; [congruence | done | done]. Qed.

(** The segment of the operation a core is about to execute. *)
Lemma head_range c x o rest : core_ok c x → todo x = o :: rest →
  (match o with Wait g | Signal g => g end < segs)%nat ∧ (iter x < N)%nat.
Proof.
  intros Hok Ht. split; [| apply (active_iter _ _ Hok); by rewrite Ht].
  destruct o; apply (co_range _ _ Hok); rewrite Ht; [left | right]; by left.
Qed.

Section ring.
Context (HLIO : LIO = true).

Lemma past_ring c : (c < n)%nat → pastID c = c.
Proof. intros. unfold pastID, numOfSSArrays. rewrite HLIO. by apply Nat.mod_small. Qed.

Lemma future_ring c : (c < n)%nat → futureID c = ((c + 1) mod n)%nat.
Proof.
  intros. unfold futureID, numOfSSArrays. rewrite HLIO.
  destruct (Nat.eqb_spec c (n - 1)) as [-> |]; [| done].
  replace (n - 1 + 1)%nat with n by lia. by rewrite Nat.Div0.mod_same.
Qed.

Lemma mod_lt E : (E mod n < n)%nat.
Proof. apply Nat.mod_upper_bound. lia. Qed.

Lemma succ_mod E : ((E mod n + 1) mod n = S E mod n)%nat.
Proof. rewrite Nat.Div0.add_mod_idemp_l. f_equal. lia. Qed.

Lemma ring_init g : (g < segs)%nat → ring_seg launch_tasks g 0.
Proof.
  intros Hg.
  assert (∀ c, ¬ holds (launch c) g) as Hf.
  { intros c Hh. unfold holds in Hh. cbn in Hh. unfold start_iteration in Hh.
    destruct (_ <? _)%nat; [| destruct Hh as [H _]; by apply not_elem_of_nil in H].
    destruct Hh as [_ []]. by apply Hbody. }
  split.
  - done.
  - lia.
  - intros c x [Hlt ->]%launch_lookup.
    destruct (start_iteration_ok c) as (S1 & _ & _ & S4).
    destruct (decide (c < N)%nat).
    + rewrite nxt_pending; [cbn; lia | by apply S4].
    + rewrite nxt_done; cbn; lia.
  - intros c x [_ ->]%launch_lookup. by intros []%Hf.
  - intros a Ha. cbn [locks launch_tasks]. unfold numOfSSArrays. rewrite HLIO.
    rewrite init_locks_lookup by done. eexists. split; [done |].
    rewrite Nat.Div0.mod_0_l. split.
    + intros E. split; [simplify_tests; lia |].
      intros d y [_ ->]%launch_lookup. apply Hf.
    + intros [-> _]. done.
Qed.

(** Entering [g] itself: it is the turn of the core that finds its lock free. *)
Lemma ring_wait_same c x g rest s E :
  base_inv s → ring_seg s g E → (g < segs)%nat →
  tasks s !! c = Some x → todo x = Wait g :: rest →
  locks s !! ss_ptr (ssArrayPast x) g = Some false →
  E = iter x ∧ free_of g (tasks s) ∧ c = (E mod n)%nat.
Proof.
  intros Hb Hr Hg Hx Ht Hl. pose proof (core_range _ _ _ Hb Hx) as Hc.
  pose proof (bi_core _ Hb _ _ Hx) as Hok.
  rewrite (co_past _ _ Hok), past_ring in Hl by done.
  destruct (rs_lock _ _ _ Hr c Hc) as (b & Hb' & HbE).
  rewrite Hl in Hb'. injection Hb' as <-. destruct (proj1 HbE eq_refl) as [HcE Hf].
  split; [| done]. rewrite <- (nxt_turn _ _ _ _ _ Hb Hr Hx HcE).
  apply nxt_pending. rewrite Ht. by left.
Qed.

Lemma ring_wait_enter c x g rest s :
  base_inv s → ring_seg s g (iter x) → (g < segs)%nat → (iter x < N)%nat →
  tasks s !! c = Some x → todo x = Wait g :: rest →
  free_of g (tasks s) → c = (iter x mod n)%nat →
  ring_seg (goto c x rest (<[ss_ptr (ssArrayPast x) g := true]> (locks s)) [(g, iter x)] s)
           g (S (iter x)).
Proof.
  intros Hb [R1 R2 R3 R4 R5] Hg HN Hx Ht Hf HcE.
  pose proof (bi_core _ Hb _ _ Hx) as Hok. pose proof (core_range _ _ _ Hb Hx) as Hc.
  unfold goto. set (x' := Core _ _ _ rest _ _ _).
  assert (holds x' g) as Hnew.
  { apply (holds_wait x g rest g Ht (co_ops _ _ Hok)). by left. }
  split; cbn.
  - rewrite entered_app, R1, entered_one, decide_True by done. symmetry. apply seq_S.
  - lia.
  - intros d y Hd. destruct (lookup_update _ _ _ _ _ _ Hx Hd) as [[-> ->] | [Hdc Hd']].
    + rewrite (nxt_passed x'); [cbn; lia | done | apply Hnew].
    + specialize (R3 _ _ Hd'). assert (nxt y g ≠ iter x); [| lia].
      intros Heq. apply Hdc. rewrite HcE, <- Heq. symmetry.
      by apply nxt_mod, (bi_core _ Hb).
  - intros d y Hd Hold. destruct (lookup_update _ _ _ _ _ _ Hx Hd) as [[-> ->] | [Hdc Hd']]; [done |].
    by destruct (Hf _ _ Hd').
  - intros a Ha. rewrite (co_past _ _ Hok), past_ring by done. exists true.
    assert (¬ free_of g (<[c:=x']> (tasks s))).
    { intros Hn'. eapply (Hn' c), Hnew. by eapply list_lookup_insert_eq, lookup_lt_Some. }
    split; [| split; [done | by intros [_ ?]]]. destruct (decide (a = c)) as [-> | Hac].
    + by rewrite lookup_insert_eq.
    + rewrite lookup_insert_ne by (intros [? _]%ss_ptr_inj; congruence).
      destruct (R5 a Ha) as ([] & Hla & Hlb); [done |].
      destruct (proj1 Hlb eq_refl). congruence.
Qed.

Lemma ring_wait c s s' g' E' :
  base_inv s → (g' < segs)%nat →
  ring_seg s g' E' → injectWaitCall c s = Some s' → ∃ E, ring_seg s' g' E.
Proof.
  intros Hb Hg' Hr' H. destruct (wait_inv _ _ _ H) as (x & g & rest & Hx & Hi & Ht & Hl & ->).
  pose proof (bi_core _ Hb _ _ Hx) as Hok.
  destruct (head_range _ _ _ _ Hok Ht) as [Hg HN].
  destruct (decide (g' = g)) as [-> | Hne].
  - destruct (ring_wait_same _ _ _ _ _ _ Hb Hr' Hg Hx Ht Hl) as (-> & Hf & HcE).
    exists (S (iter x)). by apply ring_wait_enter.
  - exists E'. eapply ring_seg_frame; [done | done | done | | | | |]; cbn.
    + rewrite entered_app, entered_one, decide_False by congruence. by rewrite app_nil_r.
    + intros a Ha. rewrite (co_past _ _ Hok), lookup_insert_ne; [done |]. by apply lock_other.
    + apply nxt_ext; cbn; [done |]. rewrite Ht, elem_of_cons. naive_solver.
    + unfold holds at 1. cbn. rewrite (holds_wait x g rest g' Ht (co_ops _ _ Hok)). naive_solver.
    + done.
Qed.

Lemma ring_signal_leave c x g rest s E :
  base_inv s → ring_seg s g E → (g < segs)%nat → (iter x < N)%nat →
  tasks s !! c = Some x → todo x = Signal g :: rest →
  ring_seg (goto c x rest (<[ss_ptr (ssArrayFuture x) g := false]> (locks s)) [] s) g E.
Proof.
  intros Hb Hr Hg HN Hx Ht.
  pose proof (bi_core _ Hb _ _ Hx) as Hok. pose proof (core_range _ _ _ Hb Hx) as Hc.
  pose proof (holds_head _ _ _ Ht (co_ops _ _ Hok)) as Hh.
  unfold goto. set (x' := Core _ _ _ rest _ _ _).
  assert (¬ holds x' g) as Hx'.
  { unfold x', holds. cbn. rewrite (holds_signal x g rest g Ht (co_ops _ _ Hok)). naive_solver. }
  assert (free_of g (<[c:=x']> (tasks s))) as Hf.
  { intros d y Hd Hhy. destruct (lookup_update _ _ _ _ _ _ Hx Hd) as [[-> ->] | [Hdc Hd']]; [done |].
    destruct Hdc. symmetry. by eapply (holds_unique s g E). }
  assert (Wait g ∉ rest) as Hnr.
  { pose proof (co_ops _ _ Hok) as Ho. rewrite Ht in Ho. apply Ho. }
  destruct Hr as [R1 R2 R3 R4 R5]. split; cbn; [by rewrite app_nil_r | done | ..].
  - intros d y Hd. destruct (lookup_update _ _ _ _ _ _ Hx Hd) as [[-> ->] | [Hdc Hd']]; [| eauto].
    rewrite (nxt_passed x') by done. specialize (R3 _ _ Hx).
    rewrite (nxt_passed x) in R3; [done | done | apply Hh].
  - intros d y Hd Hhy. by destruct (Hf _ _ Hd).
  - intros a Ha. rewrite (co_future _ _ Hok), future_ring by done.
    assert ((c + 1) mod n = E mod n)%nat as ->.
    { rewrite (R4 _ _ Hx Hh), <- (succ_mod (iter x)), (co_mod _ _ Hok). done. }
    destruct (decide (a = E mod n)%nat) as [-> | Hae].
    + rewrite lookup_insert_eq. by exists false.
    + rewrite lookup_insert_ne by (intros [? _]%ss_ptr_inj; congruence).
      destruct (R5 a Ha) as (b & Hla & Hlb). exists b. split; [done |]. split.
      * intros ->. by destruct (proj2 (proj1 Hlb eq_refl) _ _ Hx).
      * by intros [-> _].
Qed.

Lemma ring_signal c s s' g' E' :
  base_inv s → (g' < segs)%nat →
  ring_seg s g' E' → injectSignalCall c s = Some s' → ring_seg s' g' E'.
Proof.
  intros Hb Hg' Hr' H. destruct (signal_inv _ _ _ H) as (x & g & rest & Hx & Hi & Ht & ->).
  pose proof (bi_core _ Hb _ _ Hx) as Hok.
  destruct (head_range _ _ _ _ Hok Ht) as [Hg HN].
  destruct (decide (g' = g)) as [-> | Hne]; [by apply ring_signal_leave |].
  eapply ring_seg_frame; [done | done | done | | | | |]; cbn.
  - by rewrite app_nil_r.
  - intros a Ha. rewrite (co_future _ _ Hok), lookup_insert_ne; [done |]. by apply lock_other.
  - apply nxt_ext; cbn; [done |]. rewrite Ht, elem_of_cons. naive_solver.
  - unfold holds at 1. cbn. rewrite (holds_signal x g rest g' Ht (co_ops _ _ Hok)). naive_solver.
  - done.
Qed.

(** A step that moves only one core, and neither a lock nor the log. *)
Lemma ring_quiet s c x x' rt m g E :
  ring_seg s g E → tasks s !! c = Some x →
  (holds x' g ↔ holds x g) → nxt x' g = nxt x g → (holds x g → iter x' = iter x) →
  ring_seg (St (locks s) (<[c:=x']> (tasks s)) (log s) rt m) g E.
Proof.
  intros Hr Hx Hh Hn' Hit. eapply ring_seg_frame; [done | done | done | done | done | done | done | done].
Qed.

Lemma ring_next c s s' g E :
  base_inv s → (g < segs)%nat → ring_seg s g E → next_iteration c s = Some s' → ring_seg s' g E.
Proof.
  intros Hb Hg Hr H. destruct (next_inv _ _ _ H) as (x & Hx & Hi & Ht & HN & ->).
  assert (¬ holds x g) as Hnx by by apply holds_nil.
  destruct (start_iteration_ok (iter x + n)) as (S1 & _ & _ & S4).
  eapply ring_quiet; [done | done | | |].
  - split; [| done]. intros Hh. destruct S1 as [S1 | S1].
    + exfalso. by eapply holds_nil, Hh.
    + exfalso. destruct Hh as [_ Hh]. apply Hh. cbn. by apply S4.
  - rewrite (nxt_passed x); [| done | rewrite Ht; by intros ?%not_elem_of_nil].
    destruct (decide (iter x + n < N)%nat).
    + rewrite nxt_pending; [done | by apply S4].
    + rewrite nxt_done; cbn; lia.
  - done.
Qed.

Lemma ring_start c s s' g E : ring_seg s g E → start_task c s = Some s' → ring_seg s' g E.
Proof.
  intros Hr H. destruct (start_inv _ _ _ H) as (x & Hx & Hs & _ & ->). by eapply ring_quiet.
Qed.

Lemma ring_return c s s' g E :
  ring_seg s g E → NOELLE_HELIXTrampoline c s = Some s' → ring_seg s' g E.
Proof.
  intros Hr H. destruct (return_inv _ _ _ H) as (x & Hx & Hs & HN & Ho & ->).
  by eapply ring_quiet.
Qed.

Lemma ring_main s g E rt m : ring_seg s g E → ring_seg (St (locks s) (tasks s) (log s) rt m) g E.
Proof. intros []. by split. Qed.

Lemma ring_join s s' g E : ring_seg s g E → NOELLE_HELIX_join s = Some s' → ring_seg s' g E.
Proof.
  intros Hr. unfold NOELLE_HELIX_join. destruct (main s) as [| i | |]; [| | done | done].
  - destruct (tasks s !! _) as [x |]; cbn; [| done]. destruct (over x); [| done].
    intros [= <-]. by apply ring_main.
  - destruct (_ <? _)%nat; [| destruct (releaseCores _ _); intros [= <-]; by apply ring_main].
    destruct (tasks s !! i) as [x |] eqn:Hx; cbn; [| done].
    destruct (endLock x); [done |]. intros [= <-]. by eapply ring_quiet.
Qed.

Definition ring_inv (s : state) : Prop :=
  base_inv s ∧ ∀ g, (g < segs)%nat → ∃ E, ring_seg s g E.

Lemma ring_inv_step s s' : ring_inv s → step s s' → ring_inv s'.
Proof.
  intros [Hb Hr] Hst. split; [by eapply base_inv_step |].
  intros g Hg. destruct (Hr g Hg) as [E HE]. destruct Hst.
  - exists E. by eapply ring_start.
  - by eapply ring_wait.
  - exists E. by eapply ring_signal.
  - exists E. by eapply ring_next.
  - exists E. by eapply ring_return.
  - exists E. by eapply ring_join.
Qed.

Lemma ring_inv_init : ring_inv launch_tasks.
Proof. split; [apply base_inv_init |]. intros g Hg. exists 0%nat. by apply ring_init. Qed.

(** A core that has not returned can move, or waits for one at an earlier
    iteration, whichever segments it holds. *)
Lemma ring_core_progress s : (n - 1 ≤ workers)%nat → ring_inv s → ∀ k c x,
  iter x = k → tasks s !! c = Some x → over x = false → ∃ s', step s s'.
Proof.
  intros Hw [Hb Hr]. induction k as [k IH] using lt_wf_ind. intros c x <- Hx Ho.
  destruct (local_progress _ _ _ Hw Hb Hx Ho) as [? | (Hs & HN & g & rest & Ht & Hg)]; [done |].
  destruct (Hr g Hg) as [E HE].
  assert (nxt x g = iter x) as Hnx by (apply nxt_pending; rewrite Ht; by left).
  pose proof (rs_next _ _ _ HE _ _ Hx) as Hrx. rewrite Hnx in Hrx.
  destruct (lookup_lt_is_Some_2 (tasks s) (E mod n)) as [y Hy].
  { rewrite (bi_len _ Hb). apply mod_lt. }
  pose proof (nxt_turn _ _ _ _ _ Hb HE Hy eq_refl) as Hny.
  pose proof (bi_core _ Hb _ _ Hy) as Hoky.
  destruct (decide (iter y < iter x)%nat) as [Hlt | Hge].
  { apply (IH _ Hlt _ y eq_refl Hy). destruct (over y) eqn:Hoy; [| done].
    destruct (co_over _ _ Hoky Hoy). lia. }
  assert (iter y = E ∧ iter x = E) as [Ey Ex].
  { unfold nxt in Hny. destruct (_ && _); lia. }
  assert (c = E mod n)%nat as -> by (rewrite <- Ex; symmetry; apply (bi_core _ Hb _ _ Hx)).
  destruct (decide (Exists (λ z, holds z g) (tasks s))) as [He | Hne].
  { apply Exists_exists in He as (z & Hin & Hz). apply list_elem_of_lookup in Hin as [d Hd].
    pose proof (rs_hold _ _ _ HE _ _ Hd Hz).
    destruct (holds_active _ _ _ (bi_core _ Hb _ _ Hd) Hz).
    apply (IH (iter z) ltac:(lia) d z eq_refl Hd). done. }
  eapply wait_progress; [exact Hx | exact Hs | exact Ht |].
  rewrite (co_past _ _ (bi_core _ Hb _ _ Hx)), past_ring by apply mod_lt.
  destruct (rs_lock _ _ _ HE (E mod n)) as (b & Hl & HbE); [apply mod_lt |].
  rewrite Hl. f_equal. apply HbE. split; [done |].
  intros d z Hz Hh. apply Hne, Exists_exists. exists z. split; [by eapply list_elem_of_lookup_2 | done].
Qed.

Lemma ring_progress s :
  (n - 1 ≤ workers)%nat → ring_inv s → main s = MDone ∨ ∃ s', step s s'.
Proof.
  intros Hw Hi. apply progress_from_cores; [apply Hi |].
  intros c x Hx Ho. by eapply ring_core_progress.
Qed.

(** When the dispatcher returns, every segment has seen every iteration. *)
Lemma ring_done s g E : base_inv s → ring_seg s g E → main s = MDone → E = N.
Proof.
  intros Hb HE Hm.
  destruct (lookup_lt_is_Some_2 (tasks s) (E mod n)) as [y Hy].
  { rewrite (bi_len _ Hb). apply mod_lt. }
  pose proof (nxt_turn _ _ _ _ _ Hb HE Hy eq_refl) as Hny.
  assert (N ≤ iter y)%nat.
  { apply (co_over _ _ (bi_core _ Hb _ _ Hy)). eapply bi_joined; [done | | done]. by rewrite Hm. }
  rewrite nxt_done in Hny by done. pose proof (rs_le _ _ _ HE). lia.
Qed.

(** ** A pool with fewer threads than instances *)

Lemma busy_update s c x x' lk lg rt m :
  tasks s !! c = Some x → ∃ b : bool,
  (busy (St lk (<[c:=x']> (tasks s)) lg rt m) + (if b then Nat.b2n (working x) else 0) =
   busy s + (if b then Nat.b2n (working x') else 0))%nat.
Proof.
  intros Hx. unfold busy. cbn. destruct (decide (c < n - 1)%nat) as [Hc | Hc].
  - exists true. rewrite take_insert_lt by done. 
    apply (sum_update (λ x, Nat.b2n (working x))). by rewrite lookup_take_lt.
  - exists false. rewrite take_insert_ge by lia. lia.
Qed.

Lemma busy_frame s c x x' lk lg rt m :
  tasks s !! c = Some x → working x' = working x →
  busy (St lk (<[c:=x']> (tasks s)) lg rt m) = busy s.
Proof. intros Hx E. destruct (busy_update s c x x' lk lg rt m Hx) as [[] Hb]; rewrite ?E in Hb; lia. Qed.

Record starved (s : state) : Prop := {
  st_ring : ring_inv s;
  st_busy : (busy s ≤ workers)%nat;
  st_over c x : tasks s !! c = Some x → over x = false;
  st_main : main s = MRun;
}.

(** Some instance has no thread. *)
Lemma starved_queued s :
  (workers < n - 1)%nat → starved s → ∃ d y, tasks s !! d = Some y ∧ started y = false.
Proof.
  intros Hw [[Hb _] Hbusy Hover _].
  destruct (decide (Forall (λ x, working x = true) (take (n - 1) (tasks s)))) as [Hall | Hnot].
  - exfalso. unfold busy in Hbusy.
    assert (∀ l : list core, Forall (λ x, working x = true) l →
              sum_list_with (λ x, Nat.b2n (working x)) l = length l) as Hs.
    { clear. induction 1 as [| y l E _ IH]; cbn; [done |]. by rewrite E, IH. }
    rewrite (Hs _ Hall), length_take, (bi_len _ Hb) in Hbusy. lia.
  - apply not_Forall_Exists in Hnot; [| apply _].
    apply Exists_exists in Hnot as (y & Hin & Ho). apply list_elem_of_lookup in Hin as [d Hy].
    apply lookup_take_Some in Hy as [Hy _]. exists d, y. split; [done |].
    cbn in Ho. unfold working in Ho. rewrite (Hover _ _ Hy), andb_true_r in Ho.
    by destruct (started y).
Qed.

(** The iteration of an instance that has no thread holds up all later ones. *)
Lemma starved_return c s s' :
  (workers < n - 1)%nat → (0 < segs)%nat → (2 * n ≤ N)%nat →
  starved s → NOELLE_HELIXTrampoline c s = Some s' → False.
Proof.
  intros Hw Hsegs HN Hst H. destruct (return_inv _ _ _ H) as (x & Hx & _ & Hi & _ & _).
  destruct (starved_queued s Hw Hst) as (d & y & Hy & Hs).
  destruct Hst as [[Hb Hr] _ _ _]. destruct (Hr 0%nat Hsegs) as [E HE].
  pose proof (core_range _ _ _ Hb Hy) as Hd.
  destruct (co_fresh _ _ (bi_core _ Hb _ _ Hy) Hs) as (Hiy & _ & Ht).
  destruct (start_iteration_ok d) as (_ & _ & _ & S4).
  assert (nxt y 0 = d) as Hny.
  { rewrite nxt_pending; [done |]. rewrite Ht. apply S4; lia. }
  pose proof (rs_next _ _ _ HE _ _ Hy). pose proof (rs_next _ _ _ HE _ _ Hx) as Hnx.
  rewrite nxt_done in Hnx by done. lia.
Qed.

Lemma starved_step s s' :
  (workers < n - 1)%nat → (0 < segs)%nat → (2 * n ≤ N)%nat →
  starved s → step s s' → starved s'.
Proof.
  intros Hw Hsegs HN Hst Hstep. pose proof Hst as [Hri Hbusy Hover Hm].
  assert (∀ c x x' lk lg, tasks s !! c = Some x → over x' = false →
    (working x' = working x ∨ (busy s < workers)%nat) →
    ring_inv (St lk (<[c:=x']> (tasks s)) lg (cores s) (main s)) →
    starved (St lk (<[c:=x']> (tasks s)) lg (cores s) (main s))) as Hup.
  { intros c x x' lk lg Hx Ho Hwk Hri'. split; [done | | | done].
    - destruct Hwk as [Hwk | Hlt]; [by rewrite (busy_frame _ _ x) |].
      destruct (busy_update s c x x' lk lg (cores s) (main s) Hx) as [[] Hb]; [| lia].
      unfold working in Hb at 2. destruct (started x'); rewrite ?Ho in Hb; cbn in Hb; lia.
    - cbn. intros d y Hd. destruct (lookup_update _ _ _ _ _ _ Hx Hd) as [[-> ->] | [_ ?]]; eauto. }
  pose proof (ring_inv_step _ _ Hri Hstep) as Hri'.
  destruct Hstep as [c s s' H | c s s' H | c s s' H | c s s' H | c s s' H | s s' H].
  - destruct (start_inv _ _ _ H) as (x & Hx & Hs & Hlt & ->).
    apply (Hup c x); [done | by apply (Hover c x) | by right | done].
  - destruct (wait_inv _ _ _ H) as (x & g & rest & Hx & _ & _ & _ & ->).
    apply (Hup c x); [done | by apply (Hover c x) | by left | done].
  - destruct (signal_inv _ _ _ H) as (x & g & rest & Hx & _ & _ & ->).
    apply (Hup c x); [done | by apply (Hover c x) | by left | done].
  - destruct (next_inv _ _ _ H) as (x & Hx & Hs & _ & _ & ->).
    apply (Hup c x); [done | by apply (Hover c x) | | done]. left. unfold working. cbn. by rewrite Hs.
  - exfalso. by eapply starved_return.
  - exfalso. unfold NOELLE_HELIX_join in H. rewrite Hm in H.
    destruct (tasks s !! _) as [x |] eqn:Hx; cbn in H; [| done]. by rewrite (Hover _ _ Hx) in H.
Qed.

Lemma starved_init : starved launch_tasks.
Proof.
  split; [apply ring_inv_init | | by intros c x [_ ->]%launch_lookup | done].
  unfold busy. assert (∀ l, (∀ x, x ∈ l → working x = false) →
    sum_list_with (λ x, Nat.b2n (working x)) l = 0%nat) as Hz.
  { clear. induction l as [| y l IH]; intros H; cbn; [done |]. rewrite (H y) by by left.
    rewrite IH; [done |]. intros x Hx. apply H. by right. }
  rewrite Hz; [lia |]. intros x Hin. apply list_elem_of_lookup in Hin as [d Hx].
  apply lookup_take_Some in Hx as [[_ ->]%launch_lookup Hd]. unfold working. cbn.
  destruct (Nat.eqb_spec d (n - 1)); [lia | done].
Qed.
End ring.

(** ** Critical sections: one array *)

Section critical.
Context (HLIO : LIO = false).

Lemma critical_ids c : pastID c = 0%nat ∧ futureID c = 0%nat.
Proof.
  unfold pastID, futureID, numOfSSArrays. rewrite HLIO. split; [by rewrite Nat.mod_1_r |].
  destruct (_ =? _)%nat; [done | by rewrite Nat.mod_1_r].
Qed.

Record critical_seg (s : state) (g : nat) : Prop := {
  cs_unique c d x y : tasks s !! c = Some x → tasks s !! d = Some y →
                      holds x g → holds y g → c = d;
  cs_lock : ∃ b, locks s !! ss_ptr (array_addr 0) g = Some b ∧
            (b = false ↔ free_of g (tasks s));
}.

Lemma start_not_held k g : (g < segs)%nat → ¬ (Signal g ∈ start_iteration k ∧ Wait g ∉ start_iteration k).
Proof.
  intros Hg [H1 H2]. destruct (start_iteration_ok k) as ([E | Hk] & _ & _ & S4).
  - rewrite E in H1. by apply not_elem_of_nil in H1.
  - apply H2. by apply S4.
Qed.

Lemma critical_init g : (g < segs)%nat → critical_seg launch_tasks g.
Proof.
  intros Hg.
  assert (free_of g (tasks launch_tasks)) as Hf.
  { intros c x [_ ->]%launch_lookup. by apply start_not_held. }
  split.
  - intros c d x y Hc _ Hh. by destruct (Hf _ _ Hc).
  - cbn [locks launch_tasks]. unfold numOfSSArrays. rewrite HLIO.
    rewrite init_locks_lookup by (done || lia). by exists false.
Qed.

(** A step that leaves [g] alone. *)
Lemma critical_frame s s' g c x x' :
  critical_seg s g → tasks s !! c = Some x → tasks s' = <[c:=x']> (tasks s) →
  locks s' !! ss_ptr (array_addr 0) g = locks s !! ss_ptr (array_addr 0) g →
  (holds x' g ↔ holds x g) → critical_seg s' g.
Proof.
  intros [U (b & Hl & HbE)] Hx Ht Hlk Hh.
  assert (∀ d y, tasks s' !! d = Some y →
            ∃ z, tasks s !! d = Some z ∧ (holds y g ↔ holds z g)) as Hback.
  { intros d y. rewrite Ht. intros Hd.
    destruct (lookup_update _ _ _ _ _ _ Hx Hd) as [[-> ->] | [_ ?]]; eauto. }
  split.
  - intros d e y z Hd He. destruct (Hback _ _ Hd) as (y' & Hy' & ->).
    destruct (Hback _ _ He) as (z' & Hz' & ->). eauto.
  - exists b. rewrite Hlk. split; [done |]. rewrite HbE. split.
    + intros Hf d y Hd. destruct (Hback _ _ Hd) as (y' & Hy' & ->). eauto.
    + intros Hf d y Hd. destruct (decide (d = c)) as [-> | Hne].
      * simplify_eq. rewrite <- Hh. apply (Hf c). rewrite Ht.
        by eapply list_lookup_insert_eq, lookup_lt_Some.
      * apply (Hf d). by rewrite Ht, list_lookup_insert_ne.
Qed.

Lemma critical_wait c s s' g' :
  base_inv s → (g' < segs)%nat → critical_seg s g' → injectWaitCall c s = Some s' → critical_seg s' g'.
Proof.
  intros Hb Hg' Hcs H. destruct (wait_inv _ _ _ H) as (x & g & rest & Hx & Hi & Ht & Hl & ->).
  pose proof (bi_core _ Hb _ _ Hx) as Hok. destruct (head_range _ _ _ _ Hok Ht) as [Hg _].
  rewrite (co_past _ _ Hok), (proj1 (critical_ids c)) in *.
  unfold goto. set (x' := Core _ _ _ rest _ _ _).
  destruct (decide (g' = g)) as [-> | Hne].
  - assert (holds x' g) as Hnew.
    { apply (holds_wait x g rest g Ht (co_ops _ _ Hok)). by left. }
    destruct Hcs as [U (b & Hlb & HbE)]. rewrite Hl in Hlb. injection Hlb as <-.
    pose proof (proj1 HbE eq_refl) as Hf. split; cbn.
    + intros d e y z Hd He Hhy Hhz.
      destruct (lookup_update _ _ _ _ _ _ Hx Hd) as [[-> ->] | [_ Hd']]; [| by destruct (Hf _ _ Hd')].
      destruct (lookup_update _ _ _ _ _ _ Hx He) as [[-> ->] | [_ He']]; [done | by destruct (Hf _ _ He')].
    + rewrite lookup_insert_eq. exists true. split; [done |]. split; [done |].
      intros Hf'. destruct (Hf' c x'); [| done].
      by eapply list_lookup_insert_eq, lookup_lt_Some.
  - eapply critical_frame; [exact Hcs | exact Hx | done | |]; cbn.
    + rewrite lookup_insert_ne; [done |]. by apply lock_other.
    + unfold holds at 1. cbn. rewrite (holds_wait x g rest g' Ht (co_ops _ _ Hok)). naive_solver.
Qed.

Lemma critical_signal c s s' g' :
  base_inv s → (g' < segs)%nat → critical_seg s g' → injectSignalCall c s = Some s' → critical_seg s' g'.
Proof.
  intros Hb Hg' Hcs H. destruct (signal_inv _ _ _ H) as (x & g & rest & Hx & Hi & Ht & ->).
  pose proof (bi_core _ Hb _ _ Hx) as Hok. destruct (head_range _ _ _ _ Hok Ht) as [Hg _].
  pose proof (holds_head _ _ _ Ht (co_ops _ _ Hok)) as Hh.
  rewrite (co_future _ _ Hok), (proj2 (critical_ids c)) in *.
  unfold goto. set (x' := Core _ _ _ rest _ _ _).
  destruct (decide (g' = g)) as [-> | Hne].
  - assert (¬ holds x' g) as Hx'.
    { unfold x', holds. cbn. rewrite (holds_signal x g rest g Ht (co_ops _ _ Hok)). naive_solver. }
    assert (free_of g (<[c:=x']> (tasks s))) as Hf.
    { intros d y Hd Hhy. destruct (lookup_update _ _ _ _ _ _ Hx Hd) as [[-> ->] | [Hdc Hd']]; [done |].
      destruct Hdc. by eapply (cs_unique _ _ Hcs d c y x). }
    split; cbn.
    + intros d e y z Hd He Hhy. by destruct (Hf _ _ Hd).
    + rewrite lookup_insert_eq. by exists false.
  - eapply critical_frame; [exact Hcs | exact Hx | done | |]; cbn.
    + rewrite lookup_insert_ne; [done |]. by apply lock_other.
    + unfold holds at 1. cbn. rewrite (holds_signal x g rest g' Ht (co_ops _ _ Hok)). naive_solver.
Qed.

Lemma critical_quiet s c x x' rt m g :
  critical_seg s g → tasks s !! c = Some x → (holds x' g ↔ holds x g) →
  critical_seg (St (locks s) (<[c:=x']> (tasks s)) (log s) rt m) g.
Proof. intros Hr Hx Hh. by eapply critical_frame. Qed.

Lemma critical_step s s' g :
  base_inv s → (g < segs)%nat → critical_seg s g → step s s' → critical_seg s' g.
Proof.
  intros Hb Hg Hcs Hst.
  destruct Hst as [c s s' H | c s s' H | c s s' H | c s s' H | c s s' H | s s' H].
  - destruct (start_inv _ _ _ H) as (x & Hx & Hs & _ & ->). by eapply critical_quiet.
  - by eapply critical_wait.
  - by eapply critical_signal.
  - destruct (next_inv _ _ _ H) as (x & Hx & Hi & Ht & HN & ->).
    eapply critical_quiet; [done | done |]. split; [| by intros []%holds_nil].
    intros Hh. by destruct (start_not_held (iter x + n) g Hg).
  - destruct (return_inv _ _ _ H) as (x & Hx & Hs & HN & Ho & ->). by eapply critical_quiet.
  - unfold NOELLE_HELIX_join in H. destruct Hcs as [U L].
    destruct (main s) as [| i | |]; [| | done | done].
    + destruct (tasks s !! _) as [x |]; cbn in *; [| done]. destruct (over x); [| done].
      injection H as <-. by split.
    + destruct (_ <? _)%nat; [| destruct (releaseCores _ _); injection H as <-; by split].
      destruct (tasks s !! i) as [x |] eqn:Hx; cbn in *; [| done].
      destruct (endLock x); [done |]. injection H as <-. by eapply critical_quiet.
Qed.

Definition critical_inv (s : state) : Prop :=
  base_inv s ∧ ∀ g, (g < segs)%nat → critical_seg s g.

Lemma critical_inv_step s s' : critical_inv s → step s s' → critical_inv s'.
Proof.
  intros [Hb Hr] Hst. split; [by eapply base_inv_step |].
  intros g Hg. by eapply critical_step; [..| apply Hr |].
Qed.

Lemma critical_inv_init : critical_inv launch_tasks.
Proof. split; [apply base_inv_init |]. intros g Hg. by apply critical_init. Qed.

(** Deadlock freedom, when the segments are entered in the order of a rank
    while others are held. *)
Context (rank : nat → nat) (Hrank : ∀ k, ordered rank (body k)).

Definition order_inv (s : state) : Prop := ∀ c x, tasks s !! c = Some x → ordered rank (todo x).

Lemma start_ordered k : ordered rank (start_iteration k).
Proof. unfold start_iteration. by destruct (_ <? _)%nat; [apply Hrank |]. Qed.

Lemma order_inv_step s s' : order_inv s → step s s' → order_inv s'.
Proof.
  intros Ho Hst.
  assert (∀ c x x' l, tasks s !! c = Some x → l = <[c:=x']> (tasks s) → ordered rank (todo x') →
    ∀ d y, l !! d = Some y → ordered rank (todo y)) as Hup.
  { intros c x x' l Hx -> Hx' d y Hd.
    destruct (lookup_update _ _ _ _ _ _ Hx Hd) as [[-> ->] | [_ ?]]; eauto. }
  unfold order_inv in *.
  destruct Hst as [c s s' H | c s s' H | c s s' H | c s s' H | c s s' H | s s' H].
  - destruct (start_inv _ _ _ H) as (x & Hx & _ & _ & ->). eapply Hup; [done | done |]. exact (Ho _ _ Hx).
  - destruct (wait_inv _ _ _ H) as (x & g & rest & Hx & _ & Ht & _ & ->).
    eapply Hup; [done | done |]. specialize (Ho _ _ Hx). rewrite Ht in Ho. apply Ho.
  - destruct (signal_inv _ _ _ H) as (x & g & rest & Hx & _ & Ht & ->).
    eapply Hup; [done | done |]. specialize (Ho _ _ Hx). rewrite Ht in Ho. apply Ho.
  - destruct (next_inv _ _ _ H) as (x & Hx & _ & _ & _ & ->). eapply Hup; [done | done |].
    apply start_ordered.
  - destruct (return_inv _ _ _ H) as (x & Hx & _ & _ & _ & ->). eapply Hup; [done | done |].
    exact (Ho _ _ Hx).
  - unfold NOELLE_HELIX_join in H. destruct (main s) as [| i | |]; [| | done | done].
    + destruct (tasks s !! _) as [x |]; cbn in *; [| done]. destruct (over x); [| done].
      by injection H as <-.
    + destruct (_ <? _)%nat; [| destruct (releaseCores _ _); by injection H as <-].
      destruct (tasks s !! i) as [x |] eqn:Hx; cbn in *; [| done].
      destruct (endLock x); [done |]. injection H as <-. eapply Hup; [done | done |]. exact (Ho _ _ Hx).
Qed.

Lemma order_inv_init : order_inv launch_tasks.
Proof. intros c x [_ ->]%launch_lookup. apply start_ordered. Qed.

(** The largest rank of a segment. *)
Definition max_rank : nat := list_max (rank <$> seq 0 segs).

Lemma rank_le g : (g < segs)%nat → (rank g ≤ max_rank)%nat.
Proof.
  intros Hg. unfold max_rank.
  pose proof (proj1 (list_max_le (rank <$> seq 0 segs) _) (le_n _)) as H.
  rewrite List.Forall_forall in H. apply H, list_elem_of_In, list_elem_of_fmap.
  exists g. split; [done |]. apply elem_of_seq. lia.
Qed.

(** A core that waits can move, or its segment is held by one that can, or that
    waits for a segment of higher rank. *)
Lemma critical_wait_progress s : (n - 1 ≤ workers)%nat → critical_inv s → order_inv s →
  ∀ k c x g rest, (max_rank - rank g)%nat = k → tasks s !! c = Some x → started x = true →
  todo x = Wait g :: rest → ∃ s', step s s'.
Proof.
  intros Hw [Hb Hr] Hord. induction k as [k IH] using lt_wf_ind. intros c x g rest <- Hx Hs Ht.
  destruct (head_range _ _ _ _ (bi_core _ Hb _ _ Hx) Ht) as [Hg _].
  destruct (decide (Exists (λ z, holds z g) (tasks s))) as [He | Hne].
  - apply Exists_exists in He as (z & Hin & Hz). apply list_elem_of_lookup in Hin as [d Hd].
    pose proof (bi_core _ Hb _ _ Hd) as Hokz.
    destruct (holds_active _ _ _ Hokz Hz) as [Hoz _].
    destruct (local_progress _ _ _ Hw Hb Hd Hoz) as [? | (Hsz & _ & g' & rest' & Ht' & Hg')]; [done |].
    specialize (Hord _ _ Hd). rewrite Ht' in Hord. destruct Hord as [Hord _].
    assert (g ≠ g') as Hne by (intros ->; by apply (not_holds_wait z g' rest')).
    assert (rank g < rank g')%nat.
    { destruct Hz as [H1 H2]. rewrite Ht', elem_of_cons in H1, H2. apply Hord; naive_solver. }
    pose proof (rank_le _ Hg'). eapply (IH (max_rank - rank g')%nat ltac:(lia)); eauto.
  - eapply wait_progress; [exact Hx | exact Hs | exact Ht |].
    rewrite (co_past _ _ (bi_core _ Hb _ _ Hx)), (proj1 (critical_ids c)).
    destruct (cs_lock _ _ (Hr g Hg)) as (b & Hl & HbE). rewrite Hl. f_equal. apply HbE.
    intros d z Hz Hh. apply Hne, Exists_exists. exists z. split; [by eapply list_elem_of_lookup_2 | done].
Qed.

Lemma critical_progress s :
  (n - 1 ≤ workers)%nat → critical_inv s → order_inv s → main s = MDone ∨ ∃ s', step s s'.
Proof.
  intros Hw Hci Ho. apply progress_from_cores; [apply Hci |]. intros c x Hx Hov.
  destruct (local_progress _ _ _ Hw (proj1 Hci) Hx Hov) as [? | (Hs & _ & g & rest & Ht & Hg)]; [done |].
  by eapply critical_wait_progress.
Qed.
End critical.
End helix.

(** ** The dispatcher *)

(** The parameters of the dispatcher; the number of sequential segments is a
    count the compiler passes. *)
Record request := Request {
  rq_parallelizedLoop : Z;
  rq_env : Z;
  rq_maxNumberOfCores : Z;
  rq_numOfsequentialSegments : nat;
}.

Definition sizeof_HELIX_args : Z := 72.

(** Arithmetic on [int64_t] and [int], whose overflow is undefined. *)
Definition int64_op (z : Z) : outcome Z :=
  if (- 9223372036854775808 <=? z) && (z <=? 9223372036854775807)
  then Ok z else Fail UndefinedBehaviour.

Definition int_op (z : Z) : outcome Z :=
  if (- INT_MAX - 1 <=? z) && (z <=? INT_MAX) then Ok z else Fail UndefinedBehaviour.

(** [NOELLE_HELIX_dispatcher] up to the launch of the task instances: the
    number of cores reserved and the initial state of the run.  [alloc] is the
    allocator ([None]: out of memory), called for the arrays of locks, where the
    source checks the result, and then for the arguments, where it does not. *)
Definition NOELLE_HELIX_dispatcher (alloc : nat → Z → option Z) (rq : request)
    (N : nat) (body : nat → list op) (LIO : bool) (c : runtime) : outcome (nat * state) :=
  _ ← assert_that (negb (rq.(rq_parallelizedLoop) =? 0));
  _ ← assert_that (negb (rq.(rq_env) =? 0));
  _ ← assert_that (1 <? rq.(rq_maxNumberOfCores));
  let '(numCores, c') := reserveCores (u32 rq.(rq_maxNumberOfCores)) c in
  _ ← assert_that (1 <=? numCores);
  let segs := rq.(rq_numOfsequentialSegments) in
  let numOfSSArrays := if LIO then numCores else 1 in
  ssArraySize ← int64_op (CACHE_LINE_SIZE * Z.of_nat segs);
  ssArrays ← (if 0 <? Z.of_nat segs then
                size ← int64_op (ssArraySize * numOfSSArrays);
                match alloc 0%nat size with
                | Some ssArrays =>
                    _ ← int_loop numOfSSArrays; _ ← int_loop (Z.of_nat segs);
                    (* the largest [lockID * ssSize] *)
                    _ ← int_op ((Z.of_nat segs - 1) * CACHE_LINE_SIZE); Ok ssArrays
                | None => Fail Aborted
                end
              else Ok 0);
  let args := alloc 1%nat (sizeof_HELIX_args * (numCores - 1)) in
  _ ← (if (1 <? numCores) && bool_decide (args = None) then Fail UndefinedBehaviour else Ok tt);
  _ ← int_loop (numCores - 1);
  Ok (Z.to_nat numCores, launch_tasks (Z.to_nat numCores) segs N body ssArrays LIO c').

Definition NOELLE_HELIX_dispatcher_sequentialSegments alloc rq N body c :=
  NOELLE_HELIX_dispatcher alloc rq N body true c.

Definition NOELLE_HELIX_dispatcher_criticalSections alloc rq N body c :=
  NOELLE_HELIX_dispatcher alloc rq N body false c.

Lemma dispatcher_launch al rq N body LIO c n s0 :
  NOELLE_HELIX_dispatcher al rq N body LIO c = Ok (n, s0) →
  (1 ≤ n)%nat ∧ ∃ base c',
    reserveCores (u32 (rq_maxNumberOfCores rq)) c = (Z.of_nat n, c') ∧
    s0 = launch_tasks n (rq_numOfsequentialSegments rq) N body base LIO c'.
Proof.
  unfold NOELLE_HELIX_dispatcher.
  intros (_ & _ & (_ & _ & (_ & _ & H)%bind_Ok_inv)%bind_Ok_inv)%bind_Ok_inv.
  destruct (reserveCores _ c) as [numCores c'] eqn:E.
  pose proof (reserveCores_range _ _ _ _ (u32_range _) E).
  apply bind_Ok_inv in H as (_ & _ & (sz & _ & (b & _ & (_ & _ & (_ & _ & [= <- <-])
    %bind_Ok_inv)%bind_Ok_inv)%bind_Ok_inv)%bind_Ok_inv).
  split; [lia |]. exists b, c'. by rewrite Z2Nat.id by lia.
Qed.

(** ** Properties *)

(** C1. The sequential segments of HELIX, for every number of cores, of threads
    in the pool, of segments and iterations, every order in which the iterations
    enter and leave their segments (overlapping or not) and every schedule: each
    segment is entered by the iterations of the loop in their order, without
    gaps; no two cores are inside one segment at a time; and when the dispatcher
    has joined every instance, every segment was entered exactly once by each
    iteration. *)
Theorem sequential_segments_in_iteration_order al rq N body c n s0 workers s :
  (∀ k, body_ok (rq_numOfsequentialSegments rq) (body k)) →
  NOELLE_HELIX_dispatcher_sequentialSegments al rq N body c = Ok (n, s0) →
  steps (step n N workers body) s0 s →
  ∀ g, (g < rq_numOfsequentialSegments rq)%nat →
    entered g (log s) = seq 0 (length (entered g (log s))) ∧
    (∀ c d x y, tasks s !! c = Some x → tasks s !! d = Some y →
                holds x g → holds y g → c = d) ∧
    (main s = MDone → entered g (log s) = seq 0 N).
Proof.
  intros Ho (Hn & base & c' & _ & ->)%dispatcher_launch Hst g Hg.
  set (segs := rq_numOfsequentialSegments rq) in *.
  destruct (steps_invariant _ _ (ring_inv_step n segs N workers body base true c' Hn Ho eq_refl) _ _ Hst
              (ring_inv_init n segs N body base true c' Hn Ho eq_refl)) as [Hb Hr].
  destruct (Hr g Hg) as [E HE]. split_and!.
  - rewrite (rs_log _ _ _ _ _ _ _ HE). by rewrite length_seq.
  - intros d e x y Hx Hy. by eapply holds_unique.
  - intros Hm. rewrite (rs_log _ _ _ _ _ _ _ HE). f_equal. by eapply ring_done.
Qed.

(** C18. The critical sections of HELIX (a single array of locks): no two cores
    are ever inside the same segment, and its lock, at the address the array
    gives it, is taken exactly when one is. *)
Theorem critical_sections_exclude al rq N body c n s0 workers s :
  (∀ k, body_ok (rq_numOfsequentialSegments rq) (body k)) →
  NOELLE_HELIX_dispatcher_criticalSections al rq N body c = Ok (n, s0) →
  steps (step n N workers body) s0 s →
  ∃ base, ∀ g, (g < rq_numOfsequentialSegments rq)%nat →
    (∀ c d x y, tasks s !! c = Some x → tasks s !! d = Some y →
                holds x g → holds y g → c = d) ∧
    (locks s !! (base + Z.of_nat g * CACHE_LINE_SIZE) = Some true ↔
     ∃ c x, tasks s !! c = Some x ∧ holds x g).
Proof.
  intros Ho (Hn & base & c' & _ & ->)%dispatcher_launch Hst. exists base. intros g Hg.
  set (segs := rq_numOfsequentialSegments rq) in *.
  destruct (steps_invariant _ _ (critical_inv_step n segs N workers body base false c' Hn Ho eq_refl) _ _ Hst
              (critical_inv_init n segs N body base false c' Hn Ho eq_refl)) as [Hb Hr].
  destruct (Hr g Hg) as [U (b & Hl & HbE)]. split; [done |].
  change (base + Z.of_nat g * CACHE_LINE_SIZE) with (ss_ptr base g).
  assert (array_addr segs base 0 = base) as Ea by (unfold array_addr; lia).
  rewrite Ea in Hl. rewrite Hl. split.
  - intros [= ->]. destruct (decide (Exists (λ x, holds x g) (tasks s))) as [He | Hne].
    + apply Exists_exists in He as (x & Hin & Hh). apply list_elem_of_lookup in Hin as [d Hx]. eauto.
    + exfalso. assert (true = false); [| done]. apply HbE. intros d y Hy Hh. apply Hne.
      apply Exists_exists. exists y. split; [by eapply list_elem_of_lookup_2 | done].
  - intros (d & x & Hx & Hh). destruct b; [done |]. by destruct (proj1 HbE eq_refl _ _ Hx).
Qed.

(** A reservation out of a counter that is not negative fits in the threads the
    counter stands for. *)
Lemma granted_fits req c n c' workers :
  is_s 32 (NOELLE_idleCores c) → 0 ≤ NOELLE_idleCores c ≤ Z.of_nat workers →
  reserveCores req c = (Z.of_nat n, c') → (n - 1 ≤ workers)%nat.
Proof.
  rewrite is_s32_iff. intros Hs Hi H. pose proof (reserveCores_le_idle req c (Z.of_nat n) c' ltac:(lia) H). lia.
Qed.

(** C15. While the counter of idle cores is not negative and the pool has a free
    thread for each core it counts, every schedule of a HELIX dispatch is finite,
    with an explicit bound, and never deadlocks, although a thread runs an
    instance to its end and an iteration may hold several segments: until the
    dispatcher has joined every task instance some instance, or the dispatcher,
    can move; and when it returns the reserved cores are idle again.  With a
    single array of locks this needs that the iterations agree on the order in
    which they enter segments while holding others. *)
Theorem helix_terminates al rq N body LIO c n s0 workers :
  (∀ k, body_ok (rq_numOfsequentialSegments rq) (body k)) →
  (LIO = false → ∃ rank, ∀ k, ordered rank (body k)) →
  is_s 32 (NOELLE_idleCores c) → 0 ≤ NOELLE_idleCores c ≤ Z.of_nat workers →
  NOELLE_HELIX_dispatcher al rq N body LIO c = Ok (n, s0) →
  (∀ k s, nsteps (step n N workers body) k s0 s →
     (k ≤ measure n (rq_numOfsequentialSegments rq) N s0)%nat) ∧
  (∀ s, steps (step n N workers body) s0 s →
     main s = MDone ∧ cores s = c ∨ ∃ s', step n N workers body s s').
Proof.
  intros Ho Hrank Hs Hi (Hn & base & c' & Hg & ->)%dispatcher_launch.
  set (segs := rq_numOfsequentialSegments rq) in *.
  pose proof (granted_fits _ _ _ _ _ Hs Hi Hg) as Hw.
  assert (∀ s, base_inv n segs N body base LIO c' s →
    (main s = MDone ∨ ∃ s', step n N workers body s s') →
    main s = MDone ∧ cores s = c ∨ ∃ s', step n N workers body s s') as Hfin.
  { intros s Hb [Hm |]; [left; split; [done |] | by right].
    pose proof (bi_cores _ _ _ _ _ _ _ _ Hb) as Hc. rewrite Hm in Hc.
    by eapply reserve_release. }
  split.
  - intros k s H.
    pose proof (steps_bounded _ _ _ (step_measure n segs N workers body base LIO c' Hn Ho) k _ _
                  (base_inv_init n segs N body base LIO c' Hn Ho) H). lia.
  - intros s Hst. destruct LIO.
    + pose proof (steps_invariant _ _ (ring_inv_step n segs N workers body base true c' Hn Ho eq_refl) _ _ Hst
                    (ring_inv_init n segs N body base true c' Hn Ho eq_refl)) as Hri.
      apply Hfin; [apply Hri |].
      by apply (ring_progress n segs N workers body base true c' Hn eq_refl).
    + destruct (Hrank eq_refl) as [rank Hrk].
      pose proof (steps_invariant _ _ (critical_inv_step n segs N workers body base false c' Hn Ho eq_refl) _ _ Hst
                    (critical_inv_init n segs N body base false c' Hn Ho eq_refl)) as Hci.
      pose proof (steps_invariant _ _ (order_inv_step n N workers body rank Hrk) _ _ Hst
                    (order_inv_init n segs N body base false c' rank Hrk)) as Hoi.
      apply Hfin; [apply Hci |].
      by apply (critical_progress n segs N workers body base false c' Hn eq_refl rank).
Qed.

(** C39. When the pool has fewer threads than the dispatcher submits instances,
    which the counter of idle cores allows once it is negative, a loop with a
    sequential segment and two iterations per core never ends: the instances
    that have a thread spin on iterations of an instance that has none, under
    every schedule, and the dispatcher never returns. *)
Theorem oversubscribed_helix_never_returns al rq N body c n s0 workers s :
  (∀ k, body_ok (rq_numOfsequentialSegments rq) (body k)) →
  NOELLE_HELIX_dispatcher_sequentialSegments al rq N body c = Ok (n, s0) →
  (0 < rq_numOfsequentialSegments rq)%nat → (workers < n - 1)%nat → (2 * n ≤ N)%nat →
  steps (step n N workers body) s0 s →
  main s = MRun ∧ (∀ i x, tasks s !! i = Some x → over x = false) ∧
  ∃ i x, tasks s !! i = Some x ∧ started x = false.
Proof.
  intros Ho (Hn & base & c' & _ & ->)%dispatcher_launch Hsegs Hw HN Hst.
  set (segs := rq_numOfsequentialSegments rq) in *.
  assert (starved n segs N workers body base true c' s) as Hs.
  { exact (steps_invariant _ _
      (λ s s', starved_step n segs N workers body base true c' Hn Ho eq_refl s s' Hw Hsegs HN)
      _ _ Hst (starved_init n segs N workers body base true c' Hn Ho eq_refl)). }
  split_and!; [apply Hs | apply Hs |]. exact (starved_queued _ _ _ _ _ _ _ _ Hn _ Hw Hs).
Qed.

(** Two cores, two segments, three iterations.  The even iterations hold both
    segments at once, as at a loop exit; the odd ones enter them one by one, in
    the other order. *)
Definition demo_body (k : nat) : list op :=
  if Nat.even k then [Wait 0; Wait 1; Signal 0; Signal 1]%nat
  else [Wait 1; Signal 1; Wait 0; Signal 0]%nat.

(** Membership in a concrete list of operations. *)
Ltac solve_ops :=
  repeat match goal with
  | |- _ ∧ _ => split
  | |- _ ↔ _ => split
  | |- ∀ _, _ => intros ?
  | H : _ ∈ _ :: _ |- _ => apply elem_of_cons in H as [H | H]
  | H : _ ∈ [] |- _ => by apply not_elem_of_nil in H
  | H : Wait _ = _ |- _ => simplify_eq
  | H : Signal _ = _ |- _ => simplify_eq
  | |- _ ∉ [] => apply not_elem_of_nil
  | |- _ ∉ _ :: _ => apply not_elem_of_cons
  | |- _ ≠ _ => congruence
  | H : (?g < 2)%nat |- _ ∈ _ => assert (g = 0 ∨ g = 1)%nat as [-> | ->] by lia; clear H
  | H : (?g < 1)%nat |- _ ∈ _ => assert (g = 0)%nat as -> by lia; clear H
  end; try done; try lia; try (rewrite ?elem_of_cons; tauto); try (exfalso; set_solver).

Lemma demo_body_ok k : body_ok 2 (demo_body k).
Proof. unfold body_ok, demo_body. destruct (Nat.even k); cbn [ops_ok]; solve_ops. Qed.

Lemma demo_body_ordered k : ordered id (demo_body k).
Proof. unfold demo_body, id. destruct (Nat.even k); cbn [ordered]; solve_ops. Qed.

(** A schedule: the cores move in turn, then the dispatcher joins. *)
Definition try_move (f : state → option state) (s : state) : state := default s (f s).

Definition demo_round (s : state) : state :=
  foldl (λ s c, try_move (NOELLE_HELIXTrampoline 2 3 c) (try_move (next_iteration 2 3 demo_body c)
                  (try_move (injectSignalCall c) (try_move (injectWaitCall c)
                    (try_move (start_task 2 2 c) s)))))
        (try_move (NOELLE_HELIX_join 2) s) [1; 0]%nat.

Definition demo_cores : runtime := {| NOELLE_idleCores := 2; maxCores := 2 |}.
Definition demo_request : request := Request 7 8 8 2.
Definition demo_alloc (k : nat) (size : Z) : option Z :=
  if size <? 8192 then Some (4096 * (1 + Z.of_nat k)) else None.

(** The state the dispatcher launches, and what [rounds] rounds make of it. *)
Definition launched (LIO : bool) : nat * state :=
  match NOELLE_HELIX_dispatcher demo_alloc demo_request 3 demo_body LIO demo_cores with
  | Ok r => r
  | Fail _ => (0%nat, St ∅ [] [] demo_cores MRun)
  end.

Definition demo_state (LIO : bool) (rounds : nat) : state :=
  Nat.iter rounds demo_round (launched LIO).2.

Lemma try_move_steps n N w body f s :
  (∀ s', f s = Some s' → step n N w body s s') → steps (step n N w body) s (try_move f s).
Proof.
  unfold try_move. intros H. destruct (f s) eqn:E; cbn; [by apply rtc_once, H | constructor].
Qed.

Lemma demo_round_steps s : steps (step 2 3 2 demo_body) s (demo_round s).
Proof.
  unfold demo_round. cbn [foldl].
  repeat (etrans; [| apply try_move_steps; intros;
    first [by eapply step_return | by eapply step_next | by eapply step_signal
          | by eapply step_wait | by eapply step_start]]).
  apply try_move_steps. intros. by apply step_join.
Qed.

Lemma demo_steps LIO k : steps (step 2 3 2 demo_body) (launched LIO).2 (demo_state LIO k).
Proof.
  induction k as [| k IH]; [constructor |]. etrans; [exact IH | apply demo_round_steps].
Qed.

Lemma sequential_segments_in_iteration_order_witness :
  main (demo_state true 20) = MDone ∧ entered 1 (log (demo_state true 20)) = seq 0 3.
Proof.
  assert (main (demo_state true 20) = MDone) as Hm by by vm_compute.
  split; [exact Hm |].
  exact (proj2 (proj2 (sequential_segments_in_iteration_order demo_alloc demo_request 3 demo_body
    demo_cores 2 (launched true).2 2 (demo_state true 20) demo_body_ok eq_refl
    (demo_steps true 20) 1 ltac:(cbn; lia))) Hm).
Defined.

Lemma critical_sections_exclude_witness :
  ∃ base, locks (try_move (injectWaitCall 1) (demo_state false 0)) !! (base + 1 * 64) = Some true.
Proof.
  destruct (critical_sections_exclude demo_alloc demo_request 3 demo_body demo_cores 2
    (launched false).2 2 (try_move (injectWaitCall 1) (demo_state false 0)) demo_body_ok eq_refl)
    as [base H].
  - etrans; [apply (demo_steps false 0) | apply try_move_steps; intros; by eapply step_wait].
  - exists base. apply (proj2 (H 1%nat ltac:(cbn; lia))).
    exists 1%nat. eexists. split; [by vm_compute | apply (bool_decide_unpack _); by vm_compute].
Defined.

Lemma helix_terminates_witness :
  main (demo_state false 1) = MDone ∧ cores (demo_state false 1) = demo_cores ∨
  ∃ s', step 2 3 2 demo_body (demo_state false 1) s'.
Proof.
  exact (proj2 (helix_terminates demo_alloc demo_request 3 demo_body false demo_cores 2
    (launched false).2 2 demo_body_ok (λ _, ex_intro _ id demo_body_ordered)
    ltac:(rewrite is_s32_iff; cbn; lia) ltac:(cbn; lia) eq_refl) _ (demo_steps false 1)).
Defined.

(** One core in the machine, its counter at -1: the dispatcher is granted the
    three cores it asks for, and the pool has one thread for two instances. *)
Definition starved_cores : runtime := {| NOELLE_idleCores := -1; maxCores := 1 |}.
Definition starved_request : request := Request 7 8 3 1.
Definition starved_body (k : nat) : list op := [Wait 0; Signal 0]%nat.

Definition starved_launch : nat * state :=
  match NOELLE_HELIX_dispatcher_sequentialSegments demo_alloc starved_request 6 starved_body
          starved_cores with
  | Ok r => r
  | Fail _ => (0%nat, St ∅ [] [] demo_cores MRun)
  end.

Lemma starved_body_ok k : body_ok 1 (starved_body k).
Proof. unfold body_ok, starved_body. cbn [ops_ok]. solve_ops. Qed.

Lemma oversubscribed_helix_never_returns_witness :
  starved_launch.1 = 3%nat ∧
  main (try_move (injectWaitCall 0) (try_move (start_task 3 1 0) starved_launch.2)) = MRun.
Proof.
  split; [by vm_compute |].
  refine (proj1 (oversubscribed_helix_never_returns demo_alloc starved_request 6 starved_body
    starved_cores 3 starved_launch.2 1 _ starved_body_ok eq_refl ltac:(cbn; lia) ltac:(lia)
    ltac:(lia) _)).
  etrans; apply try_move_steps; intros; [by eapply step_start | by eapply step_wait].
Defined.

End Helix.
