(* ===== verification/RuntimeDswp.v ===== *)
(** * The DSWP dispatcher and its communication queues

    [NOELLE_DSWPDispatcher], [NOELLE_DSWPTrampoline] and the [queuePush<w>] /
    [queuePop<w>] functions of [src/src/core/runtime/Parallelizer_utils.cpp].
    The dispatcher allocates one FIFO queue per communicated value, submits
    every stage of the pipeline, and joins their end locks.  A stage is the
    sequence of its local computations, pushes and pops (the code DSWP generates
    for it); the stages run at any speed.  The properties are those of a
    pipeline: no schedule deadlocks and all of them compute the same. *)

From S2P Require Import Prelude RuntimeCores.

Module Dswp.
Import Cores.

(** [ThreadSafeLockFreeQueue<intW_t>]. *)
Record queue := Queue { width : Z; items : list Z }.

(** The queue the dispatcher allocates for a queue size. *)
Definition new_queue (queueSize : Z) : outcome queue :=
  if queueSize =? 1 then Ok (Queue 8 [])
  else if queueSize =? 8 then Ok (Queue 8 [])
  else if queueSize =? 16 then Ok (Queue 16 [])
  else if queueSize =? 32 then Ok (Queue 32 [])
  else if queueSize =? 64 then Ok (Queue 64 [])
  else Fail Aborted.

Fixpoint new_queues (queueSizes : list Z) : outcome (list queue) :=
  match queueSizes with
  | [] => Ok []
  | sz :: rest => new_queue sz ≫= λ q, new_queues rest ≫= λ qs, Ok (q :: qs)
  end.

(** [queuePushW]: the value is stored at the width of the queue. *)
Definition queuePush (v : Z) (q : queue) : queue :=
  Queue q.(width) (q.(items) ++ [swrap q.(width) v]).

(** [queuePopW]: blocks on an empty queue. *)
Definition queuePop (q : queue) : option (Z * queue) :=
  match q.(items) with
  | v :: vs => Some (v, Queue q.(width) vs)
  | [] => None
  end.

Section dswp.
Context {L : Type}.

(** One operation of a stage on its local state. *)
Inductive action :=
| ALocal (f : L → L)
| APush (q : nat) (f : L → Z)
| APop (q : nat) (f : L → Z → L).

(** A stage under [NOELLE_DSWPTrampoline]: what is left of its code, its local
    state, whether its function returned, and its end lock. *)
Record stage := Stage { code : list action; local : L; over : bool; endLock : bool }.

Inductive main_pc := MJoin (i : nat) | MDone.

Record state := St {
  queues : list queue;
  stages : list stage;
  main : main_pc;
  cores : runtime;
  numCores : Z;
}.

(** [NOELLE_DSWPDispatcher] up to the submission of the stages. *)
Definition NOELLE_DSWPDispatcher (queueSizes : list Z) (allStages : list (list action * L))
    (c : runtime) : outcome state :=
  let numberOfStages := Z.of_nat (length allStages) in
  let '(n, c') := reserveCores (u32 numberOfStages) c in
  assert_that (1 <=? n) ≫= λ _,
  new_queues queueSizes ≫= λ localQueues,
  Ok (St localQueues ((λ p, Stage p.1 p.2 false true) <$> allStages) (MJoin 0) c' n).

(** The next operation of a stage, on the shared queues; at the end of its code
    it returns to [NOELLE_DSWPTrampoline], which unlocks its end lock. *)
Definition advance (x : stage) (qs : list queue) : option (stage * list queue) :=
  match x.(code) with
  | [] => if x.(over) then None else Some (Stage [] x.(local) true false, qs)
  | ALocal f :: r => Some (Stage r (f x.(local)) x.(over) x.(endLock), qs)
  | APush q f :: r =>
      y ← qs !! q;
      Some (Stage r x.(local) x.(over) x.(endLock), <[q:=queuePush (f x.(local)) y]> qs)
  | APop q f :: r =>
      y ← qs !! q;
      '(v, y') ← queuePop y;
      Some (Stage r (f x.(local) v) x.(over) x.(endLock), <[q:=y']> qs)
  end.

Definition NOELLE_DSWPTrampoline (i : nat) (s : state) : option state :=
  x ← s.(stages) !! i;
  '(x', qs) ← advance x s.(queues);
  Some (St qs (<[i:=x']> s.(stages)) s.(main) s.(cores) s.(numCores)).

(** The dispatching thread: it joins the stages in order, then gives the cores
    back. *)
Definition NOELLE_DSWP_join (s : state) : option state :=
  match s.(main) with
  | MJoin i =>
      match s.(stages) !! i with
      | Some x => if x.(endLock) then None
                  else Some (St s.(queues)
                         (<[i:=Stage x.(code) x.(local) x.(over) true]> s.(stages))
                         (MJoin (S i)) s.(cores) s.(numCores))
      | None => match releaseCores s.(numCores) s.(cores) with
                | Ok c => Some (St s.(queues) s.(stages) MDone c s.(numCores))
                | Fail _ => None
                end
      end
  | MDone => None
  end.

Inductive step : state → state → Prop :=
| step_stage i s s' : NOELLE_DSWPTrampoline i s = Some s' → step s s'
| step_main s s' : NOELLE_DSWP_join s = Some s' → step s s'.

(** ** Well-formed pipelines

    Every queue has one producer and one consumer stage, the producer earlier
    in the pipeline, and carries as many values as are popped from it. *)
Context (producer consumer : nat → nat).

Fixpoint pushes (q : nat) (l : list action) : nat :=
  match l with
  | [] => 0
  | APush q' _ :: r => (if (q' =? q)%nat then 1 else 0) + pushes q r
  | _ :: r => pushes q r
  end.

Fixpoint pops (q : nat) (l : list action) : nat :=
  match l with
  | [] => 0
  | APop q' _ :: r => (if (q' =? q)%nat then 1 else 0) + pops q r
  | _ :: r => pops q r
  end.

Definition action_ok (nq i : nat) (a : action) : Prop :=
  match a with
  | ALocal _ => True
  | APush q _ => (q < nq)%nat ∧ producer q = i
  | APop q _ => (q < nq)%nat ∧ consumer q = i
  end.

Definition code_at (l : list stage) (i : nat) : list action :=
  match l !! i with Some x => code x | None => [] end.

Definition program_at (l : list (list action * L)) (i : nat) : list action :=
  match l !! i with Some p => p.1 | None => [] end.

Record pipeline (nq : nat) (allStages : list (list action * L)) : Prop := {
  pl_ok i pr : allStages !! i = Some pr → Forall (action_ok nq i) pr.1;
  pl_order q : (q < nq)%nat → (producer q < consumer q)%nat;
  pl_count q : (q < nq)%nat →
    pushes q (program_at allStages (producer q)) = pops q (program_at allStages (consumer q));
}.

Definition joined (m : main_pc) (i : nat) : Prop :=
  match m with MJoin j => (i < j)%nat | MDone => True end.

Record inv (nq : nat) (s : state) : Prop := {
  iv_nq : length (queues s) = nq;
  iv_order q : (q < nq)%nat → (producer q < consumer q)%nat;
  iv_ok i x : stages s !! i = Some x → Forall (action_ok nq i) (code x);
  iv_count q y : queues s !! q = Some y →
    (pushes q (code_at (stages s) (producer q)) + length (items y) =
     pops q (code_at (stages s) (consumer q)))%nat;
  iv_over i x : stages s !! i = Some x → over x = true → code x = [];
  iv_end i x : stages s !! i = Some x →
    endLock x = false ↔ over x = true ∧ ¬ joined (main s) i;
  iv_joined i x : stages s !! i = Some x → joined (main s) i → over x = true;
  iv_cores : 1 ≤ numCores s;
}.

Lemma new_queues_empty sizes qs : new_queues sizes = Ok qs →
  length qs = length sizes ∧ Forall (λ y, items y = []) qs.
Proof.
  revert qs. induction sizes as [| sz l IH]; intros qs; cbn; [by intros [= <-] |].
  intros (y & Hy & (ys & Hys & [= <-])%bind_Ok_inv)%bind_Ok_inv.
  destruct (IH _ Hys) as [<- Hall]. split; [done |]. constructor; [| done].
  unfold new_queue in Hy. repeat case_match; by simplify_eq.
Qed.

Lemma inv_init sizes allStages c s :
  pipeline (length sizes) allStages →
  NOELLE_DSWPDispatcher sizes allStages c = Ok s → inv (length sizes) s.
Proof.
  intros [P1 P2 P3]. unfold NOELLE_DSWPDispatcher.
  destruct (reserveCores _ _) as [n c'] eqn:En.
  intros ([] & _ & (qs & Hqs & [= <-])%bind_Ok_inv)%bind_Ok_inv.
  destruct (new_queues_empty _ _ Hqs) as [Hlen Hemp].
  assert (∀ i, code_at ((λ p, Stage p.1 p.2 false true) <$> allStages) i =
               program_at allStages i) as Hcode.
  { intros i. unfold code_at, program_at. rewrite list_lookup_fmap. by destruct (allStages !! i). }
  split; cbn; try done.
  - intros i x. rewrite list_lookup_fmap. intros (pr & Hp & ->)%fmap_Some. by eapply P1.
  - intros q y Hy. rewrite !Hcode. rewrite (Forall_lookup_1 _ _ _ _ Hemp Hy).
    rewrite P3; [cbn; lia |]. rewrite <- Hlen. by eapply lookup_lt_Some.
  - intros i x. rewrite list_lookup_fmap. by intros (pr & Hp & ->)%fmap_Some.
  - intros i x. rewrite list_lookup_fmap. intros (pr & Hp & ->)%fmap_Some. cbn.
    split; [done | by intros [? _]].
  - intros i x _ ?. exfalso. lia.
  - pose proof (reserveCores_range _ _ _ _ (u32_range _) En). lia.
Qed.

Lemma code_at_update l i x x' j : l !! i = Some x →
  code_at (<[i:=x']> l) j = if decide (j = i) then code x' else code_at l j.
Proof.
  intros Hi. unfold code_at. destruct (decide (j = i)) as [-> | Hne].
  - by rewrite list_lookup_insert_eq by (by eapply lookup_lt_Some).
  - by rewrite list_lookup_insert_ne.
Qed.

(** What one operation does: either the stage returns, or it consumes one
    action, and touches at most the queue of that action. *)
Lemma advance_cases x qs x' qs' :
  advance x qs = Some (x', qs') →
  (code x = [] ∧ over x = false ∧ x' = Stage [] (local x) true false ∧ qs' = qs) ∨
  (∃ a r, code x = a :: r ∧ code x' = r ∧ over x' = over x ∧ endLock x' = endLock x ∧
     match a with
     | ALocal _ => qs' = qs
     | APush q f => ∃ y, qs !! q = Some y ∧ qs' = <[q:=queuePush (f (local x)) y]> qs
     | APop q _ => ∃ y v vs, qs !! q = Some y ∧ items y = v :: vs ∧
                             qs' = <[q:=Queue (width y) vs]> qs
     end).
Proof.
  unfold advance. destruct (code x) as [| [f | q f | q f] r] eqn:Hc.
  - destruct (over x) eqn:Ho; [done |]. intros [= <- <-]. by left.
  - intros [= <- <-]. right. by exists (ALocal f), r.
  - destruct (qs !! q) as [y |] eqn:Hq; cbn; [| done]. intros [= <- <-]. right.
    exists (APush q f), r. split_and!; eauto.
  - destruct (qs !! q) as [y |] eqn:Hq; cbn; [| done]. unfold queuePop.
    destruct (items y) as [| v vs] eqn:Hi; cbn; [done |]. intros [= <- <-]. right.
    exists (APop q f), r. split_and!; try done. by exists y, v, vs.
Qed.

Lemma trampoline_inv i s s' :
  NOELLE_DSWPTrampoline i s = Some s' → ∃ x x' qs,
    stages s !! i = Some x ∧ advance x (queues s) = Some (x', qs) ∧
    s' = St qs (<[i:=x']> (stages s)) (main s) (cores s) (numCores s).
Proof.
  unfold NOELLE_DSWPTrampoline. destruct (stages s !! i) as [x |] eqn:Hx; cbn; [| done].
  destruct (advance x (queues s)) as [[x' qs] |] eqn:Ha; cbn; [| done].
  intros [= <-]. by exists x, x', qs.
Qed.

(** An operation keeps, on every queue, the balance of the pushes and pops left
    to the stage and of the values in the queue. *)
Lemma advance_balance x qs x' qs' q y' :
  advance x qs = Some (x', qs') → qs' !! q = Some y' → ∃ y, qs !! q = Some y ∧
  (pushes q (code x') + length (items y') + pops q (code x) =
   pushes q (code x) + length (items y) + pops q (code x'))%nat.
Proof.
  intros Ha Hy'.
  destruct (advance_cases _ _ _ _ Ha) as [(Hc & _ & -> & ->) | (a & r & Hc & Hc' & _ & _ & H)].
  - exists y'. by rewrite Hc.
  - rewrite Hc, Hc'. destruct a as [f | p f | p f]; cbn.
    + subst qs'. exists y'. split; [done | lia].
    + destruct H as (z & Hz & ->).
      destruct (lookup_update _ _ _ _ _ _ Hz Hy') as [[-> ->] | [Hne Hy]].
      * exists z. split; [done |]. rewrite Nat.eqb_refl. cbn. rewrite length_app. cbn. lia.
      * exists y'. split; [done |]. destruct (Nat.eqb_spec p q); [congruence | lia].
    + destruct H as (z & v & vs & Hz & Hv & ->).
      destruct (lookup_update _ _ _ _ _ _ Hz Hy') as [[-> ->] | [Hne Hy]].
      * exists z. split; [done |]. rewrite Nat.eqb_refl, Hv. cbn. lia.
      * exists y'. split; [done |]. destruct (Nat.eqb_spec p q); [congruence | lia].
Qed.

Lemma foreign_counts nq i q l : Forall (action_ok nq i) l →
  (producer q ≠ i → pushes q l = 0%nat) ∧ (consumer q ≠ i → pops q l = 0%nat).
Proof.
  induction 1 as [| a l Ha _ [IH1 IH2]]; [done |]. destruct a as [f | p f | p f]; cbn in *.
  - done.
  - destruct Ha as [_ Hp]. split; [| done]. intros Hne.
    destruct (Nat.eqb_spec p q); [congruence | auto].
  - destruct Ha as [_ Hp]. split; [done |]. intros Hne.
    destruct (Nat.eqb_spec p q); [congruence | auto].
Qed.

Lemma advance_ok nq i x qs x' qs' : advance x qs = Some (x', qs') →
  Forall (action_ok nq i) (code x) → Forall (action_ok nq i) (code x') ∧ length qs' = length qs.
Proof.
  intros Ha Hok.
  destruct (advance_cases _ _ _ _ Ha) as [(_ & _ & -> & ->) | (a & r & Hc & Hc' & _ & _ & H)]; [done |].
  rewrite Hc in Hok. rewrite Hc'. split; [by apply Forall_cons in Hok as [_ ?] |].
  destruct a; [by subst | |]; [destruct H as (? & _ & ->) | destruct H as (? & ? & ? & _ & _ & ->)];
    by rewrite length_insert.
Qed.

Lemma advance_count nq i s x x' qs q y :
  inv nq s → stages s !! i = Some x → advance x (queues s) = Some (x', qs) → qs !! q = Some y →
  (pushes q (code_at (<[i:=x']> (stages s)) (producer q)) + length (items y) =
   pops q (code_at (<[i:=x']> (stages s)) (consumer q)))%nat.
Proof.
  intros Hi Hx Ha Hy. rewrite !(code_at_update _ _ _ _ _ Hx).
  destruct (advance_balance _ _ _ _ _ _ Ha Hy) as (z & Hz & Hbal).
  pose proof (iv_count _ _ Hi _ _ Hz) as Hold.
  assert (code_at (stages s) i = code x) as Hcx by (unfold code_at; by rewrite Hx).
  pose proof (iv_ok _ _ Hi _ _ Hx) as Hok. destruct (advance_ok nq i _ _ _ _ Ha Hok) as [Hok' _].
  destruct (foreign_counts _ _ q _ Hok), (foreign_counts _ _ q _ Hok').
  destruct (decide (producer q = i)) as [Ep |], (decide (consumer q = i)) as [Ec |];
    rewrite ?Ep, ?Ec, ?Hcx in Hold; intuition lia.
Qed.

Lemma inv_stage nq i s s' : inv nq s → NOELLE_DSWPTrampoline i s = Some s' → inv nq s'.
Proof.
  intros Hi H. destruct (trampoline_inv _ _ _ H) as (x & x' & qs & Hx & Ha & ->).
  destruct (advance_ok nq i _ _ _ _ Ha (iv_ok _ _ Hi _ _ Hx)) as [Hok' Hlen].
  assert (over x' = true → code x' = []) as Hov.
  { destruct (advance_cases _ _ _ _ Ha) as [(_ & _ & -> & _) | (a & r & Hc & _ & -> & _)]; [done |].
    intros Ho. pose proof (iv_over _ _ Hi _ _ Hx Ho). congruence. }
  assert (over x = false) as Hxo.
  { destruct (over x) eqn:Ho; [| done]. pose proof (iv_over _ _ Hi _ _ Hx Ho) as Hc.
    unfold advance in Ha. by rewrite Hc, Ho in Ha. }
  assert (¬ joined (main s) i) as Hnj.
  { intros Hj. pose proof (iv_joined _ _ Hi _ _ Hx Hj). congruence. }
  assert (endLock x' = false ↔ over x' = true ∧ ¬ joined (main s) i) as Hend.
  { destruct (advance_cases _ _ _ _ Ha) as [(_ & _ & -> & _) | (a & r & _ & _ & -> & -> & _)]; [done |].
    by apply (iv_end _ _ Hi). }
  split; cbn.
  - rewrite Hlen. apply Hi.
  - apply Hi.
  - intros j y Hy. destruct (lookup_update _ _ _ _ _ _ Hx Hy) as [[-> ->] | [_ ?]]; [done |].
    by apply (iv_ok _ _ Hi).
  - intros q y Hy. by eapply advance_count.
  - intros j y Hy. destruct (lookup_update _ _ _ _ _ _ Hx Hy) as [[-> ->] | [_ ?]]; [done |].
    by apply (iv_over _ _ Hi j).
  - intros j y Hy. destruct (lookup_update _ _ _ _ _ _ Hx Hy) as [[-> ->] | [_ ?]]; [done |].
    by apply (iv_end _ _ Hi).
  - intros j y Hy Hj. destruct (lookup_update _ _ _ _ _ _ Hx Hy) as [[-> ->] | [_ ?]]; [done |].
    by apply (iv_joined _ _ Hi j).
  - apply Hi.
Qed.

Lemma dswp_inv_main nq s s' : inv nq s → NOELLE_DSWP_join s = Some s' → inv nq s'.
Proof.
  intros Hi. unfold NOELLE_DSWP_join. destruct (main s) as [i |] eqn:Em; [| done].
  destruct (stages s !! i) as [x |] eqn:Hx.
  - destruct (endLock x) eqn:El; [done |]. intros [= <-].
    destruct (proj1 (iv_end _ _ Hi _ _ Hx) El) as [Ho _].
    destruct Hi as [I1 I2 I3 I4 I5 I6 I7 I8]. rewrite Em in *. split; cbn; try done.
    + intros j y Hy. destruct (lookup_update _ _ _ _ _ _ Hx Hy) as [[-> ->] | [_ ?]]; [exact (I3 i x Hx) | by eapply I3].
    + intros q y Hy. rewrite !(code_at_update _ _ _ _ _ Hx).
      specialize (I4 _ _ Hy). unfold code_at in *. cbn.
      destruct (decide (producer q = i)) as [Ep |], (decide (consumer q = i)) as [Ec |];
        rewrite ?Ep, ?Ec, ?Hx in I4; done.
    + intros j y Hy. destruct (lookup_update _ _ _ _ _ _ Hx Hy) as [[-> ->] | [_ ?]]; [exact (I5 i x Hx) | by eapply I5].
    + intros j y Hy. destruct (lookup_update _ _ _ _ _ _ Hx Hy) as [[-> ->] | [Hne Hy']]; cbn.
      * split; [done | intros [_ []]; lia].
      * rewrite (I6 _ _ Hy'). cbn. split; (intros [? ?]; split; [done | lia]).
    + intros j y Hy Hj. destruct (lookup_update _ _ _ _ _ _ Hx Hy) as [[-> ->] | [Hne Hy']]; [done |].
      apply (I7 j); [done | cbn; lia].
  - destruct (releaseCores _ _) as [c |]; [| done]. intros [= <-].
    apply lookup_ge_None in Hx. destruct Hi as [I1 I2 I3 I4 I5 I6 I7 I8]. rewrite Em in *.
    assert (∀ j y, stages s !! j = Some y → over y = true) as Hall.
    { intros j y Hy. apply (I7 j); [done |]. cbn. apply lookup_lt_Some in Hy. lia. }
    split; cbn; try done.
    + intros j y Hy. rewrite (I6 _ _ Hy). cbn. split; [| tauto].
      intros [_ []]. apply lookup_lt_Some in Hy. lia.
    + intros j y Hy _. by eapply Hall.
Qed.

Lemma dswp_inv_step nq s s' : inv nq s → step s s' → inv nq s'.
Proof.
  intros Hi Hst. destruct Hst as [i s s' H | s s' H].
  - exact (inv_stage _ _ _ _ Hi H).
  - exact (dswp_inv_main _ _ _ Hi H).
Qed.


(** ** Progress *)

Lemma stage_progress nq s : inv nq s → ∀ i x,
  stages s !! i = Some x → over x = false → ∃ s', step s s'.
Proof.
  intros Hi. induction i as [i IH] using lt_wf_ind. intros x Hx Ho.
  pose proof (iv_ok _ _ Hi _ _ Hx) as Hok.
  destruct (advance x (queues s)) as [[x' qs] |] eqn:Ha.
  { eexists. apply (step_stage i). unfold NOELLE_DSWPTrampoline. by rewrite Hx; cbn; rewrite Ha. }
  unfold advance in Ha. destruct (code x) as [| [f | q f | q f] r] eqn:Hc;
    [by rewrite Ho in Ha | done | |]; apply Forall_cons in Hok as [[Hq Hpi] _];
    destruct (lookup_lt_is_Some_2 (queues s) q) as [y Hy]; try (by rewrite (iv_nq _ _ Hi));
    rewrite Hy in Ha; cbn in Ha; [done |].
  unfold queuePop in Ha. destruct (items y) eqn:Hits; [| done].
  pose proof (iv_count _ _ Hi _ _ Hy) as Hcount.
  assert (code_at (stages s) (consumer q) = APop q f :: r) as Ecc.
  { unfold code_at. by rewrite Hpi, Hx. }
  rewrite Ecc, Hits in Hcount. cbn in Hcount. rewrite Nat.eqb_refl in Hcount.
  unfold code_at in Hcount. destruct (stages s !! producer q) as [z |] eqn:Hz; [| cbn in Hcount; lia].
  apply (IH (producer q)) with z; [| done |].
  - rewrite <- Hpi. by apply (iv_order _ _ Hi).
  - destruct (over z) eqn:Hoz; [| done].
    rewrite (iv_over _ _ Hi _ _ Hz Hoz) in Hcount. cbn in Hcount. lia.
Qed.

Lemma progress nq s : inv nq s → main s = MDone ∨ ∃ s', step s s'.
Proof.
  intros Hi. destruct (decide (Forall (λ x, over x = true) (stages s))) as [Hall | Hnot].
  - destruct (NOELLE_DSWP_join s) as [s' |] eqn:E; [right; exists s'; by apply step_main |].
    left. unfold NOELLE_DSWP_join in E. destruct (main s) as [i |] eqn:Em; [| done].
    destruct (stages s !! i) as [x |] eqn:Hx.
    + assert (endLock x = false) as El.
      { apply (iv_end _ _ Hi _ _ Hx). split; [by eapply (Forall_lookup_1 _ _ _ _ Hall) |].
        rewrite Em. cbn. lia. }
      by rewrite El in E.
    + pose proof (iv_cores _ _ Hi). unfold releaseCores, assert_that in E.
      destruct (Z.ltb_spec 0 (numCores s)); [done | lia].
  - right. apply not_Forall_Exists in Hnot; [| apply _].
    apply Exists_exists in Hnot as (x & Hin & Ho). apply list_elem_of_lookup in Hin as [i Hx].
    eapply stage_progress; [done | exact Hx |]. cbn in Ho. by destruct (over x).
Qed.

Lemma done_final nq s : inv nq s → main s = MDone → ∀ s', ¬ step s s'.
Proof.
  intros Hi Hm s' Hst. destruct Hst as [i s s' H | s s' H].
  - destruct (trampoline_inv _ _ _ H) as (x & x' & qs & Hx & Ha & _).
    assert (over x = true) as Ho by (apply (iv_joined _ _ Hi i); [done | by rewrite Hm]).
    unfold advance in Ha. by rewrite (iv_over _ _ Hi _ _ Hx Ho), Ho in Ha.
  - unfold NOELLE_DSWP_join in H. by rewrite Hm in H.
Qed.

(** When everything is joined no value is left in a queue. *)
Lemma done_empty nq s : inv nq s → main s = MDone → Forall (λ y, items y = []) (queues s).
Proof.
  intros Hi Hm. apply Forall_lookup_2. intros q y Hy.
  assert (∀ i, code_at (stages s) i = []) as Hc.
  { intros i. unfold code_at. destruct (stages s !! i) as [x |] eqn:Hx; [| done].
    apply (iv_over _ _ Hi _ _ Hx), (iv_joined _ _ Hi _ _ Hx). by rewrite Hm. }
  pose proof (iv_count _ _ Hi _ _ Hy) as H. rewrite !Hc in H. cbn in H.
  by apply length_zero_iff_nil.
Qed.

(** ** Every run is finite *)

Definition stage_measure (x : stage) : nat := length (code x) + (if over x then 0 else 1).
#[local] Arguments stage_measure : simpl never.

Definition measure (s : state) : nat :=
  sum_list_with stage_measure (stages s) +
  match main s with MJoin i => S (length (stages s) - i) | MDone => 0 end.

Lemma dswp_sum_update (l : list stage) i x x' : l !! i = Some x →
  (sum_list_with stage_measure (<[i:=x']> l) + stage_measure x =
   sum_list_with stage_measure l + stage_measure x')%nat.
Proof.
  revert i. induction l as [| y l IH]; intros [| i] Hi; simpl in *; try done.
  - simplify_eq. lia.
  - specialize (IH _ Hi). lia.
Qed.

Lemma dswp_step_measure nq s s' : inv nq s → step s s' → inv nq s' ∧ (measure s' < measure s)%nat.
Proof.
  intros Hi Hst. split; [by eapply dswp_inv_step |]. destruct Hst as [i s s' H | s s' H].
  - destruct (trampoline_inv _ _ _ H) as (x & x' & qs & Hx & Ha & ->).
    pose proof (dswp_sum_update _ _ _ x' Hx). unfold measure. simpl. rewrite length_insert.
    assert (stage_measure x' < stage_measure x)%nat; [| lia]. unfold stage_measure.
    destruct (advance_cases _ _ _ _ Ha) as [(-> & -> & -> & _) | (a & r & -> & -> & -> & _)]; cbn; lia.
  - unfold NOELLE_DSWP_join, measure in *. destruct (main s) as [i |]; [| done].
    destruct (stages s !! i) as [x |] eqn:Hx.
    + destruct (endLock x); [done |]. injection H as <-. simpl. rewrite length_insert.
      apply lookup_lt_Some in Hx as Hlt.
      match goal with |- context [<[i:=?x']> _] =>
        pose proof (dswp_sum_update _ _ _ x' Hx : (_ + stage_measure x = _ + stage_measure x)%nat)
      end. lia.
    + destruct (releaseCores _ _); [| done]. injection H as <-. simpl. lia.
Qed.


(** ** All schedules compute the same *)

(** The queue operation of an action at the state of its stage. *)
Definition queue_op (a : action) (l : L) (y : queue) : option (L * queue) :=
  match a with
  | ALocal f => Some (f l, y)
  | APush _ f => Some (l, queuePush (f l) y)
  | APop _ f => '(v, y') ← queuePop y; Some (f l v, y')
  end.

Definition queue_of (a : action) : option nat :=
  match a with ALocal _ => None | APush q _ | APop q _ => Some q end.

Lemma advance_action x qs a r : code x = a :: r →
  advance x qs = match queue_of a with
  | Some q => y ← qs !! q; '(l, y') ← queue_op a (local x) y;
              Some (Stage r l (over x) (endLock x), <[q:=y']> qs)
  | None => match a with
            | ALocal f => Some (Stage r (f (local x)) (over x) (endLock x), qs)
            | _ => None
            end
  end.
Proof.
  intros Hc. unfold advance. rewrite Hc. destruct a as [f | q f | q f]; cbn; [done | |].
  - by destruct (qs !! q).
  - destruct (qs !! q) as [y |]; cbn; [| done]. by destruct (queuePop y) as [[v y'] |].
Qed.

(** Operations of different stages on one queue are a push and a pop, and they
    commute when both are enabled. *)
Lemma queue_op_commute nq i j a b q l m y l' ya m' yb :
  i ≠ j → action_ok nq i a → action_ok nq j b →
  queue_of a = Some q → queue_of b = Some q →
  queue_op a l y = Some (l', ya) → queue_op b m y = Some (m', yb) →
  ∃ z, queue_op b m ya = Some (m', z) ∧ queue_op a l yb = Some (l', z).
Proof.
  intros Hij Ha Hb Hqa Hqb.
  destruct a as [f | p f | p f], b as [g | p' g | p' g]; try done; cbn in Hqa, Hqb, Ha, Hb |- *;
    simplify_eq.
  - destruct Ha as [_ <-], Hb as [_ <-]. done.
  - unfold queuePop, queuePush. intros [= <- <-]. destruct (items y) as [| v vs]; cbn; [done |].
    intros [= <- <-]. eauto.
  - unfold queuePop, queuePush. destruct (items y) as [| v vs]; cbn; [done |].
    intros [= <- <-] [= <- <-]. eauto.
  - destruct Ha as [_ <-], Hb as [_ <-]. done.
Qed.

Lemma advance_commute nq i j x y qs x' q1 y' q2 :
  i ≠ j → Forall (action_ok nq i) (code x) → Forall (action_ok nq j) (code y) →
  advance x qs = Some (x', q1) → advance y qs = Some (y', q2) →
  ∃ q3, advance y q1 = Some (y', q3) ∧ advance x q2 = Some (x', q3).
Proof.
  intros Hij Hox Hoy Hx Hy.
  destruct (code x) as [| a r] eqn:Hcx.
  { unfold advance in Hx |- *. rewrite Hcx in *. destruct (over x); [done |].
    injection Hx as <- <-. by exists q2. }
  destruct (code y) as [| b r'] eqn:Hcy.
  { unfold advance in Hy |- *. rewrite Hcy in *. destruct (over y); [done |].
    injection Hy as <- <-. by exists q1. }
  apply Forall_cons in Hox as [Ha _]. apply Forall_cons in Hoy as [Hb _].
  rewrite (advance_action x qs _ _ Hcx) in Hx. rewrite (advance_action y qs _ _ Hcy) in Hy.
  rewrite (advance_action y q1 _ _ Hcy), (advance_action x q2 _ _ Hcx).
  destruct (queue_of a) as [qa |] eqn:Eqa.
  2: { destruct a; try done. injection Hx as <- <-. by exists q2. }
  destruct (queue_of b) as [qb |] eqn:Eqb.
  2: { destruct b; try done. injection Hy as <- <-. rewrite Hx. by exists q1. }
  destruct (qs !! qa) as [z |] eqn:Hz; cbn in Hx; [| done].
  destruct (queue_op a (local x) z) as [[lx za] |] eqn:Oa; cbn in Hx; [| done].
  injection Hx as <- <-.
  destruct (qs !! qb) as [w |] eqn:Hw; cbn in Hy; [| done].
  destruct (queue_op b (local y) w) as [[ly wb] |] eqn:Ob; cbn in Hy; [| done].
  injection Hy as <- <-.
  destruct (decide (qa = qb)) as [<- | Hne].
  - rewrite Hz in Hw. injection Hw as <-. apply lookup_lt_Some in Hz as Hlt.
    destruct (queue_op_commute nq i j a b qa _ _ _ _ _ _ _ Hij Ha Hb Eqa Eqb Oa Ob) as (u & Hu1 & Hu2).
    rewrite !list_lookup_insert_eq by done. cbn. rewrite Hu1, Hu2. cbn.
    exists (<[qa:=u]> qs). by rewrite !list_insert_insert_eq.
  - rewrite !list_lookup_insert_ne by done. rewrite Hw, Hz. cbn. rewrite Ob, Oa. cbn.
    exists (<[qb:=wb]> (<[qa:=za]> qs)). split; [done |]. by rewrite list_insert_insert_ne.
Qed.

Lemma stage_diamond nq s i j a b : inv nq s →
  NOELLE_DSWPTrampoline i s = Some a → NOELLE_DSWPTrampoline j s = Some b →
  a = b ∨ ∃ c, step a c ∧ step b c.
Proof.
  intros Hi Ha Hb. destruct (decide (i = j)) as [<- | Hij]; [left; congruence | right].
  destruct (trampoline_inv _ _ _ Ha) as (x & x' & q1 & Hx & Ax & ->).
  destruct (trampoline_inv _ _ _ Hb) as (y & y' & q2 & Hy & Ay & ->).
  destruct (advance_commute nq i j _ _ _ _ _ _ _ Hij (iv_ok _ _ Hi _ _ Hx) (iv_ok _ _ Hi _ _ Hy) Ax Ay)
    as (q3 & By & Bx).
  exists (St q3 (<[j:=y']> (<[i:=x']> (stages s))) (main s) (cores s) (numCores s)). split.
  - apply (step_stage j). unfold NOELLE_DSWPTrampoline. cbn.
    rewrite list_lookup_insert_ne by done. rewrite Hy. cbn. by rewrite By.
  - apply (step_stage i). unfold NOELLE_DSWPTrampoline. cbn.
    rewrite list_lookup_insert_ne by done. rewrite Hx. cbn. rewrite Bx. cbn.
    by rewrite list_insert_insert_ne.
Qed.

Lemma main_diamond nq s i a b : inv nq s →
  NOELLE_DSWPTrampoline i s = Some a → NOELLE_DSWP_join s = Some b →
  ∃ c, step a c ∧ step b c.
Proof.
  intros Hi Ha Hb. destruct (trampoline_inv _ _ _ Ha) as (x & x' & q1 & Hx & Ax & ->).
  unfold NOELLE_DSWP_join in Hb. destruct (main s) as [j |] eqn:Em; [| done].
  destruct (stages s !! j) as [y |] eqn:Hy.
  - destruct (endLock y) eqn:El; [done |]. injection Hb as <-.
    assert (i ≠ j) as Hij.
    { intros ->. rewrite Hx in Hy. injection Hy as ->.
      destruct (proj1 (iv_end _ _ Hi _ _ Hx) El) as [Ho _].
      unfold advance in Ax. by rewrite (iv_over _ _ Hi _ _ Hx Ho), Ho in Ax. }
    eexists. split.
    + apply step_main. unfold NOELLE_DSWP_join. cbn.
      rewrite list_lookup_insert_ne by done. by rewrite Hy, El.
    + apply (step_stage i). unfold NOELLE_DSWPTrampoline. cbn.
      rewrite list_lookup_insert_ne by done. rewrite Hx. cbn. rewrite Ax. cbn.
      by rewrite list_insert_insert_ne.
  - destruct (releaseCores _ _) as [c |] eqn:Hr; [| done]. injection Hb as <-.
    eexists. split.
    + apply step_main. unfold NOELLE_DSWP_join. cbn.
      rewrite list_lookup_insert_ne by (intros ->; congruence). by rewrite Hy, Hr.
    + apply (step_stage i). unfold NOELLE_DSWPTrampoline. cbn. rewrite Hx. cbn. by rewrite Ax.
Qed.

Lemma step_diamond nq s a b : inv nq s → step s a → step s b →
  a = b ∨ ∃ c, step a c ∧ step b c.
Proof.
  intros Hi Ha Hb. destruct Ha as [i s a Ha | s a Ha]; inversion Hb as [j ? ? Hb' | ? ? Hb']; subst.
  - by eapply stage_diamond.
  - right. by eapply main_diamond.
  - right. destruct (main_diamond _ _ _ _ _ Hi Hb' Ha) as (c & ? & ?). by exists c.
  - left. congruence.
Qed.

(** ** One schedule, executed *)

(** The first of the stages of a list that can move, else the dispatcher. *)
Fixpoint first_step (l : list nat) (s : state) : option state :=
  match l with
  | [] => NOELLE_DSWP_join s
  | i :: l' => match NOELLE_DSWPTrampoline i s with
               | Some s' => Some s'
               | None => first_step l' s
               end
  end.

(** Stage after stage, each as far as it goes. *)
Fixpoint run_in_order (fuel : nat) (s : state) : state :=
  match fuel with
  | O => s
  | S f => match first_step (seq 0 (length (stages s))) s with
           | Some s' => run_in_order f s'
           | None => s
           end
  end.

Lemma first_step_step l s s' : first_step l s = Some s' → step s s'.
Proof.
  induction l as [| i l IH]; cbn; [by apply step_main |].
  destruct (NOELLE_DSWPTrampoline i s) eqn:E; [| done]. intros [= <-]. by eapply step_stage.
Qed.

Lemma first_step_none s :
  first_step (seq 0 (length (stages s))) s = None → ∀ s', ¬ step s s'.
Proof.
  assert (∀ l, first_step l s = None →
    NOELLE_DSWP_join s = None ∧ ∀ i, i ∈ l → NOELLE_DSWPTrampoline i s = None) as Hl.
  { induction l as [| i l IH]; cbn; [by intros ->; split; [| intros ? ?%not_elem_of_nil] |].
    destruct (NOELLE_DSWPTrampoline i s) eqn:E; [done |]. intros [? H]%IH. split; [done |].
    intros j [-> | ?]%elem_of_cons; auto. }
  intros [Hm Hs]%Hl s' Hst. destruct Hst as [i s s' H | s s' H]; [| congruence].
  rewrite Hs in H; [done |]. destruct (trampoline_inv _ _ _ H) as (x & _ & _ & Hx & _).
  apply elem_of_seq. apply lookup_lt_Some in Hx. lia.
Qed.

Lemma run_in_order_done nq fuel s : inv nq s → (measure s ≤ fuel)%nat →
  steps step s (run_in_order fuel s) ∧ main (run_in_order fuel s) = MDone.
Proof.
  revert s. induction fuel as [| f IH]; intros s Hi Hm; cbn.
  - split; [constructor |]. unfold measure in Hm. destruct (main s); [lia | done].
  - destruct (first_step _ s) as [s' |] eqn:E.
    + pose proof (first_step_step _ _ _ E) as Hst.
      destruct (dswp_step_measure _ _ _ Hi Hst) as [Hi' Hlt].
      destruct (IH s' Hi') as [H1 H2]; [lia |]. split; [by eapply rtc_l | done].
    + split; [constructor |]. destruct (progress _ _ Hi) as [? | [s' Hs']]; [done |].
      by destruct (first_step_none _ E s').
Qed.

(** The cores stay reserved until everything is joined. *)
Lemma cores_held s s' : step s s' →
  numCores s' = numCores s ∧
  (main s' ≠ MDone → main s ≠ MDone ∧ cores s' = cores s) ∧
  (main s' = MDone → main s ≠ MDone → releaseCores (numCores s) (cores s) = Ok (cores s')).
Proof.
  intros Hst. destruct Hst as [i s s' H | s s' H].
  - destruct (trampoline_inv _ _ _ H) as (x & x' & q & _ & _ & ->). cbn. done.
  - unfold NOELLE_DSWP_join in H. destruct (main s) as [i |]; [| done].
    destruct (stages s !! i) as [x |].
    + destruct (endLock x); [done |]. by injection H as <-.
    + destruct (releaseCores _ _) eqn:E; [| done]. injection H as <-. cbn. done.
Qed.

Lemma cores_released nq s0 s : inv nq s0 → main s0 ≠ MDone → steps step s0 s → main s = MDone →
  releaseCores (numCores s0) (cores s0) = Ok (cores s).
Proof.
  intros Hi Hm0 Hst Hm. induction Hst as [s | s0 s1 s H1 H2 IH]; [done |].
  destruct (cores_held _ _ H1) as (En & Hk & Hr). destruct (main s1) as [i |] eqn:E1.
  - destruct (Hk ltac:(done)) as [_ Ec]. rewrite <- En, <- Ec. apply IH; [| done | done].
    by eapply dswp_inv_step.
  - inversion H2 as [| ? y ? Hst' _]; subst; [by apply Hr |].
    destruct (done_final nq s1) with (s' := y); [by eapply dswp_inv_step | done | done].
Qed.
End dswp.

Arguments action L : clear implicits.
Arguments stage L : clear implicits.
Arguments state L : clear implicits.

(** ** Properties *)

(** C2. A pipeline in which every queue goes from one stage to a later one and
    carries as many values as are popped from it computes the same in every
    schedule: whenever the dispatcher has joined all its stages, the state is
    the one of running the stages one after the other, the queues are empty and
    the cores have been given back. *)
Theorem pipeline_schedule_independent {L} (producer consumer : nat → nat)
    sizes (allStages : list (list (action L) * L)) c s0 s :
  pipeline producer consumer (length sizes) allStages →
  NOELLE_DSWPDispatcher sizes allStages c = Ok s0 →
  steps step s0 s → main s = MDone →
  s = run_in_order (measure s0) s0 ∧
  Forall (λ y, items y = []) (queues s) ∧
  releaseCores (numCores s0) (cores s0) = Ok (cores s).
Proof.
  intros Hp H0 Hst Hm. pose proof (inv_init producer consumer _ _ _ _ Hp H0) as Hi0.
  assert (inv producer consumer (length sizes) s) as Hi
    by (by eapply (steps_invariant _ _ (dswp_inv_step producer consumer _))).
  destruct (run_in_order_done producer consumer _ _ _ Hi0 (le_n _)) as [Hr Hrm].
  assert (inv producer consumer (length sizes) (run_in_order (measure s0) s0)) as Hir
    by (by eapply (steps_invariant _ _ (dswp_inv_step producer consumer _))).
  split_and!.
  - apply (unique_normal_form step (inv producer consumer (length sizes))
             (dswp_inv_step _ _ _) (step_diamond _ _ _) s0); try done.
    + by eapply done_final.
    + by eapply done_final.
  - by eapply done_empty.
  - eapply cores_released; try done. unfold NOELLE_DSWPDispatcher in H0.
    destruct (reserveCores _ _). by apply bind_Ok_inv in H0 as ([] & _ & (? & _ & [= <-])%bind_Ok_inv).
Qed.

(** C16. Such a pipeline never deadlocks and every run of it is finite, with an
    explicit bound: until everything is joined, a stage or the dispatcher can
    move. *)
Theorem pipeline_terminates {L} (producer consumer : nat → nat)
    sizes (allStages : list (list (action L) * L)) c s0 :
  pipeline producer consumer (length sizes) allStages →
  NOELLE_DSWPDispatcher sizes allStages c = Ok s0 →
  (∀ s, steps step s0 s → main s = MDone ∨ ∃ s', step s s') ∧
  (∀ k s, nsteps step k s0 s → (k ≤ measure s0)%nat).
Proof.
  intros Hp H0. pose proof (inv_init producer consumer _ _ _ _ Hp H0) as Hi0. split.
  - intros s Hst. eapply (progress producer consumer (length sizes)).
    by eapply (steps_invariant _ _ (dswp_inv_step producer consumer _)).
  - intros k s H.
    pose proof (steps_bounded _ _ _ (dswp_step_measure producer consumer _) k _ _ Hi0 H). lia.
Qed.

(** The dispatcher aborts exactly on a queue size that is not 1, 8, 16, 32 or
    64. *)
Definition queue_size_ok (sz : Z) : bool := bool_decide (sz ∈ [1; 8; 16; 32; 64]).

Lemma new_queues_ok sizes : (∃ qs, new_queues sizes = Ok qs) ↔ forallb queue_size_ok sizes = true.
Proof.
  induction sizes as [| sz l IH]; cbn; [split; eauto |].
  rewrite andb_true_iff, <- IH. unfold queue_size_ok. rewrite bool_decide_eq_true. split.
  - intros (qs & (y & Hy & (ys & Hys & _)%bind_Ok_inv)%bind_Ok_inv). split; [| by exists ys].
    unfold new_queue in Hy. repeat case_match; simplify_tests; try done; subst;
      rewrite !elem_of_cons; tauto.
  - intros [Hin [ys Hys]]. rewrite Hys.
    assert (∃ y, new_queue sz = Ok y) as [y ->]; [| cbn; eauto].
    rewrite !elem_of_cons in Hin. unfold new_queue.
    destruct Hin as [-> | [-> | [-> | [-> | [-> | ?%not_elem_of_nil]]]]]; cbn; eauto; done.
Qed.

(** Two stages and three iterations: the first sends the running sum through an
    8-bit queue, the second adds up what it receives. *)
Definition demo_stages : list (list (action Z) * Z) :=
  [ (concat (repeat [ALocal (λ s, s + 100); APush 0 (λ s, s)] 3), 0);
    (repeat (APop 0 (λ s v, s + v)) 3, 0) ].

Definition demo_cores : runtime := {| NOELLE_idleCores := 4; maxCores := 4 |}.

Lemma demo_pipeline : pipeline (λ _, 0%nat) (λ _, 1%nat) 1 demo_stages.
Proof.
  split.
  - intros [| [| i]] pr Hi; cbn in Hi; simplify_eq; cbn; repeat constructor.
  - intros. lia.
  - intros [| q] Hq; [done | lia].
Qed.

Definition demo_start : state Z :=
  match NOELLE_DSWPDispatcher [8] demo_stages demo_cores with
  | Ok s => s
  | Fail _ => St [] [] MDone demo_cores 0
  end.

Lemma demo_run : steps step demo_start (run_in_order 14 demo_start) ∧
                 main (run_in_order 14 demo_start) = MDone.
Proof.
  apply (run_in_order_done (λ _, 0%nat) (λ _, 1%nat) 1); [| vm_compute; lia].
  by eapply (inv_init _ _ [8] demo_stages demo_cores), eq_refl; apply demo_pipeline.
Qed.

(** The third push, 300, arrives as the signed byte 44; the second, 200, as
    -56. *)
Lemma pipeline_schedule_independent_witness :
  local <$> stages (run_in_order 14 demo_start) = [300; 88] ∧
  Forall (λ y, items y = []) (queues (run_in_order 14 demo_start)).
Proof.
  split; [by vm_compute |].
  exact (proj1 (proj2 (pipeline_schedule_independent (λ _, 0%nat) (λ _, 1%nat) [8] demo_stages
    demo_cores demo_start _ demo_pipeline eq_refl (proj1 demo_run) (proj2 demo_run)))).
Defined.

Lemma pipeline_terminates_witness :
  main demo_start = MDone ∨ ∃ s', step demo_start s'.
Proof.
  exact (proj1 (pipeline_terminates (λ _, 0%nat) (λ _, 1%nat) [8] demo_stages demo_cores demo_start
    demo_pipeline eq_refl) _ (rtc_refl _ _)).
Defined.
End Dswp.
