(* ===== verification/Parallelizer.v ===== *)
(** * The parallelizer

    [src/src/core/parallelizer/src]: the push and pop functions of the runtime
    ([Helper.cpp]), the choice of the technique for one loop
    ([Parallelizer_loop.cpp]), and the traversal of the loops in the order the
    planner attached to them ([Parallelizer_loops.cpp]).

    The program being transformed is a state [W] the techniques and the linker
    change; what they do to it is theirs. *)

From S2P Require Import Prelude CppStd Noelle Planner RuntimeDswp.

Module Parallelizer.
Import Loops Metadata.

(** ** Helper.cpp: the queues of the runtime *)

Definition text (s : string) : Dec.text := String.list_ascii_of_string s.

Definition pushers : list Dec.text :=
  [text "queuePush8"; text "queuePush16"; text "queuePush32"; text "queuePush64"].
Definition poppers : list Dec.text :=
  [text "queuePop8"; text "queuePop16"; text "queuePop32"; text "queuePop64"].

Record queues := Queues {
  queuePushes : list Z;        (* the functions found in the module *)
  queuePops : list Z;
  queueTypes : list Z;         (* the type of their first argument *)
  queueSizeToIndex : gmap Z Z;
  queueElementTypes : list Z;  (* integer types, by width *)
}.

(** [M.getFunction(name)] for each name, aborting on a missing one. *)
Fixpoint find_functions (getFunction : Dec.text → option Z) (names : list Dec.text) : outcome (list Z) :=
  match names with
  | [] => Ok []
  | name :: rest =>
      match getFunction name with
      | None => Fail Aborted
      | Some f => find_functions getFunction rest ≫= λ fs, Ok (f :: fs)
      end
  end.

Definition collectThreadPoolHelperFunctionsAndTypes (getFunction : Dec.text → option Z)
    (argType : Z → Z) : outcome queues :=
  find_functions getFunction pushers ≫= λ pushes,
  find_functions getFunction poppers ≫= λ pops,
  Ok (Queues pushes pops (argType <$> pushes)
             (list_to_map [(1, 0); (8, 0); (16, 1); (32, 2); (64, 3)])
             [8; 16; 32; 64]).

(** ** Parallelizer_loop.cpp *)

Section parallelizer.
Context {W : Type}.

(** A [ParallelizationTechnique]; 0 is the null pointer. *)
Record technique := Technique {
  getParallelizationID : Z;
  canBeAppliedToLoop : Z → W → bool;
  apply_ : Z → W → bool * W;
  getEnvArray : W → Z;
  getParLoopEntryPoint : W → Z;
  getParLoopExitPoint : W → Z;
  getIndexOfEnvironmentVariable : W → Z → Z;
  getMinimumNumberOfIdleCores : W → Z;
}.

(** What NOELLE says about the program and about a loop ([LoopContent*]), and
    its linker. *)
Record noelle := Noelle_ {
  verifyCode : W → bool;
  verbose : bool;                    (* the verbosity is not [Disabled] *)
  getID : W → Z → option Z;          (* the loop ID, kept in the program's metadata *)
  isTransformationEnabled : Z → bool;
  ltm_isTransformationEnabled : Z → Z → bool;
  getExitBlockID : Z → Z;
  linkTransformedLoopToOriginalFunction :
    Z → (Z * Z * Z) → Z → Z → W → W;  (* loop, (entry, exit, environment), exit index, idle cores *)
}.

(** The first enabled and applicable technique is applied; there is no other
    attempt when its application fails. *)
Fixpoint try_techniques (n : noelle) (loopContent : Z) (ts : list technique) (w : W)
    : option technique * bool * W :=
  match ts with
  | [] => (None, false, w)
  | t :: rest =>
      let parID := t.(getParallelizationID) in
      if n.(isTransformationEnabled) parID && n.(ltm_isTransformationEnabled) loopContent parID
         && t.(canBeAppliedToLoop) loopContent w
      then let '(codeModified, w') := t.(apply_) loopContent w in (Some t, codeModified, w')
      else try_techniques n loopContent rest w
  end.

(** The index of the exit variable in the environment.  The two branches of the
    conditional have the common type [uint32_t]. *)
Definition exitIndex (n : noelle) (t : technique) (loopContent : Z) (w : W) : Z :=
  let exitBlockID := n.(getExitBlockID) loopContent in
  if 0 <=? exitBlockID then u32 (t.(getIndexOfEnvironmentVariable) w (u32 exitBlockID))
  else u32 (-1).

(** [h]: the [Heuristics*] the techniques are given. *)
Definition parallelizeLoop (n : noelle) (doall helix dswp : technique) (loopContent h : Z) (w : W)
    : outcome (bool * W) :=
  assert_that (negb (loopContent =? 0)) ≫= λ _,
  assert_that (negb (h =? 0)) ≫= λ _,
  assert_that (n.(verifyCode) w) ≫= λ _,
  assert_that (negb n.(verbose) || bool_decide (is_Some (n.(getID) w loopContent))) ≫= λ _,
  let '(usedTechnique, codeModified, w) := try_techniques n loopContent [doall; helix; dswp] w in
  if negb codeModified then Ok (false, w)
  else
    match usedTechnique with
    | None => Fail AssertionFailed
    | Some t =>
        let envArray := t.(getEnvArray) w in
        assert_that (negb (envArray =? 0)) ≫= λ _,
        let entryPoint := t.(getParLoopEntryPoint) w in
        let exitPoint := t.(getParLoopExitPoint) w in
        assert_that (negb (entryPoint =? 0) && negb (exitPoint =? 0)) ≫= λ _,
        let w := n.(linkTransformedLoopToOriginalFunction) loopContent
                    (entryPoint, exitPoint, envArray) (exitIndex n t loopContent w)
                    (t.(getMinimumNumberOfIdleCores) w) w in
        assert_that (n.(verifyCode) w) ≫= λ _,
        Ok (true, w)
    end.

(** ** Parallelizer_loops.cpp *)

Definition isSelected (WL BL : list Z) (i : Z) : bool :=
  if negb (length WL =? 0)%nat then bool_decide (i ∈ WL)
  else if negb (length BL =? 0)%nat then negb (bool_decide (i ∈ BL))
  else true.

(** The visit of one node: a loop with an order that is selected. *)
Definition order_selector `{MetadataManager M} (WL BL : list Z) (mm : M) (getLoopContent : Z → Z)
    (loopParallelizationOrder : gmap Z Z) (n : LoopTree) : outcome (gmap Z Z) :=
  let ls := getLoop n in
  match getMetadata mm ls looporder with
  | None => Ok loopParallelizationOrder
  | Some s =>
      Dec.stoi s ≫= λ parallelizationOrderIndex,
      if negb (isSelected WL BL parallelizationOrderIndex) then Ok loopParallelizationOrder
      else Ok (<[u32 parallelizationOrderIndex := getLoopContent ls]> loopParallelizationOrder)
  end.

Fixpoint collect_order `{MetadataManager M} (WL BL : list Z) (mm : M) (getLoopContent : Z → Z)
    (ns : list LoopTree) (order : gmap Z Z) : outcome (gmap Z Z) :=
  match ns with
  | [] => Ok order
  | n :: rest => order_selector WL BL mm getLoopContent order n ≫=
                 collect_order WL BL mm getLoopContent rest
  end.

Definition loopParallelizationOrder `{TreeVisit, MetadataManager M} (WL BL : list Z) (mm : M)
    (getLoopContent : Z → Z) (forest : list LoopTree) : outcome (gmap Z Z) :=
  collect_order WL BL mm getLoopContent (concat (map visitPreOrder forest)) ∅.

(** What the traversal keeps: the locals of the function, and the loops it
    reports as parallelized on the standard error, in the order of the reports.
    [modifiedFunctions] has no duplicates. *)
Record progress := Progress {
  modified : bool;
  modifiedBBs : gset Z;
  modifiedFunctions : list Z;
  reported : list Z;
}.

Definition no_progress : progress := Progress false ∅ [] [].

(** The parallelization of one loop is recorded. *)
Definition keep_track (getBasicBlocks : Z → list Z) (getFunction : Z → Z) (ldi : Z) (s : progress) : progress :=
  {| modified := true;
     modifiedBBs := list_to_set (getBasicBlocks ldi) ∪ s.(modifiedBBs);
     modifiedFunctions := if decide (getFunction ldi ∈ s.(modifiedFunctions)) then s.(modifiedFunctions)
                          else s.(modifiedFunctions) ++ [getFunction ldi];
     reported := s.(reported) ++ [ldi] |}.

(** The loops in the order of their indices.  The ID of a loop is fetched before
    the loop is parallelized. *)
Fixpoint parallelize_in_order (getBasicBlocks : Z → list Z) (getFunction : Z → Z)
    (loopID : W → Z → option Z) (run : Z → W → outcome (bool * W))
    (order : list Z) (s : progress) (w : W) : outcome (progress * W) :=
  match order with
  | [] => Ok (s, w)
  | ldi :: rest =>
      let safe := forallb (λ bb, negb (bool_decide (bb ∈ s.(modifiedBBs)))) (getBasicBlocks ldi) in
      let loopIDOpt := loopID w ldi in
      if negb safe then parallelize_in_order getBasicBlocks getFunction loopID run rest s w
      else
        run ldi w ≫= λ r,
        let '(loopIsParallelized, w) := r in
        if loopIsParallelized : bool then
          assert_that (bool_decide (is_Some loopIDOpt)) ≫= λ _,
          parallelize_in_order getBasicBlocks getFunction loopID run rest
            (keep_track getBasicBlocks getFunction ldi s) w
        else parallelize_in_order getBasicBlocks getFunction loopID run rest s w
  end.

(** The calls to lifetime intrinsics of the modified functions are erased. *)
Definition erase_lifetime_calls (instructions : W → Z → list Z) (isLifetimeStartOrEnd : W → Z → bool)
    (eraseFromParent : Z → W → W) (modifiedFunctions : list Z) (w : W) : W :=
  let intrinsicCallsToRemove :=
    remove_dups (concat (map (λ F, filter (λ I, Is_true (isLifetimeStartOrEnd w I)) (instructions w F))
                             modifiedFunctions)) in
  foldl (λ w call, eraseFromParent call w) w intrinsicCallsToRemove.

Record pass := Pass {
  p_getFunction : Dec.text → option Z;
  p_argType : Z → Z;
  p_forest : list LoopTree;
  p_whiteList : list Z;
  p_blackList : list Z;
  p_getLoopContent : Z → Z;
  p_getBasicBlocks : Z → list Z;         (* of a LoopContent* *)
  p_getFunctionOf : Z → Z;               (* of a LoopContent* *)
  p_getID : W → Z → option Z;            (* of a LoopContent* *)
  p_instructions : W → Z → list Z;
  p_isLifetimeStartOrEnd : W → Z → bool;
  p_eraseFromParent : Z → W → W;
}.

(** Whether the program was modified, the loops parallelized and the program. *)
Definition parallelizeLoops `{TreeVisit, MetadataManager M} (p : pass) (mm : M)
    (run : Z → W → outcome (bool * W)) (w : W) : outcome (bool * list Z * W) :=
  collectThreadPoolHelperFunctionsAndTypes p.(p_getFunction) p.(p_argType) ≫= λ _,
  if (length (concat (map loops p.(p_forest))) =? 0)%nat then Ok (false, [], w)
  else
    loopParallelizationOrder p.(p_whiteList) p.(p_blackList) mm p.(p_getLoopContent) p.(p_forest)
      ≫= λ order,
    parallelize_in_order p.(p_getBasicBlocks) p.(p_getFunctionOf) p.(p_getID) run
                         (in_key_order order).*2 no_progress w ≫= λ r,
    let '(s, w) := r in
    Ok (s.(modified), s.(reported),
        erase_lifetime_calls p.(p_instructions) p.(p_isLifetimeStartOrEnd) p.(p_eraseFromParent)
                             s.(modifiedFunctions) w).
End parallelizer.

(** ** The traversal *)

Section traversal.
Context {W : Type} (getBasicBlocks : Z → list Z) (getFunction : Z → Z)
  (loopID : W → Z → option Z) (run : Z → W → outcome (bool * W)).

Definition shares_block (a b : Z) : Prop := ∃ bb, bb ∈ getBasicBlocks a ∧ bb ∈ getBasicBlocks b.

Lemma safe_spec ldi (m : gset Z) :
  forallb (λ bb, negb (bool_decide (bb ∈ m))) (getBasicBlocks ldi) = true ↔
  ∀ bb, bb ∈ getBasicBlocks ldi → bb ∉ m.
Proof.
  rewrite forallb_forall. setoid_rewrite <- list_elem_of_In.
  setoid_rewrite negb_true_iff. by setoid_rewrite bool_decide_eq_false.
Qed.

Lemma unsafe_spec ldi (m : gset Z) :
  forallb (λ bb, negb (bool_decide (bb ∈ m))) (getBasicBlocks ldi) = false →
  ∃ bb, bb ∈ getBasicBlocks ldi ∧ bb ∈ m.
Proof.
  intros H. destruct (decide (Exists (λ bb, bb ∈ m) (getBasicBlocks ldi))) as [He | Hne].
  - by apply Exists_exists in He.
  - exfalso. apply not_true_iff_false in H. apply H, safe_spec. intros bb Hbb Hm. apply Hne.
    apply Exists_exists. eauto.
Qed.

Lemma traversal_spec order : ∀ (s : progress) w s' w',
  parallelize_in_order getBasicBlocks getFunction loopID run order s w = Ok (s', w') →
  ∃ par, reported s' = reported s ++ par ∧
  sublist par order ∧
  (∀ l bb, l ∈ par → bb ∈ getBasicBlocks l → bb ∉ modifiedBBs s) ∧
  (∀ i j a b, par !! i = Some a → par !! j = Some b → i ≠ j → ¬ shares_block a b) ∧
  (∀ l, l ∈ order → l ∈ par ∨
     (∃ bb, bb ∈ getBasicBlocks l ∧ (bb ∈ modifiedBBs s ∨ ∃ q, q ∈ par ∧ bb ∈ getBasicBlocks q)) ∨
     (∃ w1 w2, run l w1 = Ok (false, w2))) ∧
  modified s' = modified s || negb (length par =? 0)%nat ∧
  (∀ F, F ∈ modifiedFunctions s' ↔ F ∈ modifiedFunctions s ∨ F ∈ getFunction <$> par).
Proof.
  induction order as [| ldi rest IH]; intros s w s' w'; cbn.
  - intros [= <- <-]. exists []. rewrite app_nil_r, orb_false_r.
    split_and!; try done; [by intros ? ? ?%not_elem_of_nil | by intros ? ?%not_elem_of_nil |].
    intros F. rewrite elem_of_nil. naive_solver.
  - destruct (forallb _ _) eqn:Hsafe; cbn.
    + intros ([ok w1] & Hrun & H)%bind_Ok_inv. destruct ok.
      * apply bind_Ok_inv in H as ([] & _ & Hrest).
        destruct (IH _ _ _ _ Hrest) as (par' & I0 & I1 & I2 & I3 & I4 & I5 & I6). cbn in I0, I2, I4, I5, I6.
        assert (∀ l bb, l ∈ par' → bb ∈ getBasicBlocks l →
                  (bb ∉ getBasicBlocks ldi) ∧ bb ∉ modifiedBBs s) as Hnew.
        { intros l bb Hl Hbb. pose proof (I2 l bb Hl Hbb) as Hn.
          rewrite not_elem_of_union, elem_of_list_to_set in Hn. done. }
        exists (ldi :: par'). split_and!.
        -- by rewrite I0, <- app_assoc.
        -- by constructor.
        -- intros l bb [-> | Hl]%elem_of_cons Hbb; [by eapply safe_spec | by eapply Hnew].
        -- intros [| i] [| j] a b Ha Hb Hij (bb & H1 & H2); cbn in *; simplify_eq.
           ++ by destruct (Hnew b bb (list_elem_of_lookup_2 _ _ _ Hb) H2).
           ++ by destruct (Hnew a bb (list_elem_of_lookup_2 _ _ _ Ha) H1).
           ++ apply (I3 i j a b); [done | done | congruence | by exists bb].
        -- intros l [-> | Hl]%elem_of_cons; [left; left |].
           destruct (I4 l Hl) as [? | [(bb & Hbb & [Hm | (q & Hq & Hqb)]) | ?]].
           ++ left. by right.
           ++ right. left. exists bb. split; [done |]. apply elem_of_union in Hm as [Hm | Hm]; [| by left].
              right. exists ldi. split; [left |]. by apply elem_of_list_to_set in Hm.
           ++ right. left. exists bb. split; [done |]. right. exists q. split; [by right | done].
           ++ by right; right.
        -- rewrite I5. by rewrite orb_true_r.
        -- intros F. rewrite I6, fmap_cons, elem_of_cons. case_decide as Hd; [naive_solver |].
           rewrite elem_of_app, list_elem_of_singleton. naive_solver.
      * destruct (IH _ _ _ _ H) as (par & I0 & I1 & I2 & I3 & I4 & I5). exists par.
        split_and!; [done | by constructor | done | done | | naive_solver | naive_solver].
        intros l [-> | Hl]%elem_of_cons; [| by apply I4]. right. right. eauto.
    + intros H. destruct (IH _ _ _ _ H) as (par & I0 & I1 & I2 & I3 & I4 & I5). exists par.
      split_and!; [done | by constructor | done | done | | naive_solver | naive_solver].
      intros l [-> | Hl]%elem_of_cons; [| by apply I4]. right. left.
      destruct (unsafe_spec _ _ Hsafe) as (bb & Hbb & Hm). exists bb. split; [done | by left].
Qed.
End traversal.

(** ** The order of the loops *)

Lemma StronglySorted_filter {A} (R : A → A → Prop) (P : A → Prop) `{∀ x, Decision (P x)} (l : list A) :
  StronglySorted R l → StronglySorted R (filter P l).
Proof.
  induction 1 as [| x l Hs IH Hf]; [constructor |]. rewrite filter_cons.
  destruct (decide (P x)); [| done]. constructor; [done |].
  rewrite Forall_forall in Hf |- *. intros y [_ Hy]%list_elem_of_filter. by apply Hf.
Qed.

(** The iteration of a map is determined by its sorted keys. *)
Lemma in_key_order_unique {V} (m : gmap Z V) (l : list (Z * V)) :
  StronglySorted Z.lt l.*1 → (∀ k v, (k, v) ∈ l ↔ m !! k = Some v) → in_key_order m = l.
Proof.
  intros Hs Hl.
  assert ((in_key_order m).*1 = l.*1) as Ek.
  { apply sorted_lt_unique; [apply in_key_order_sorted | done |]. intros k.
    rewrite !list_elem_of_fmap. split.
    - intros ([k' v] & -> & Hin%elem_of_in_key_order). exists (k', v). split; [done | by apply Hl].
    - intros ([k' v] & -> & Hin%Hl). exists (k', v). split; [done | by apply elem_of_in_key_order]. }
  assert (∀ l' : list (Z * V), (∀ k v, (k, v) ∈ l' → m !! k = Some v) →
            Some <$> l'.*2 = (m !!.) <$> l'.*1) as Hv.
  { induction l' as [| [k v] l' IH]; intros Hin; [done |]. cbn.
    rewrite (Hin k v) by left. f_equal. apply IH. intros k' v' ?. apply Hin. by right. }
  assert ((in_key_order m).*2 = l.*2) as Ev.
  { apply (inj (fmap Some)). rewrite !Hv; [by rewrite Ek | by apply Hl | by apply elem_of_in_key_order]. }
  rewrite <- (zip_fst_snd (in_key_order m)), <- (zip_fst_snd l). by rewrite Ek, Ev.
Qed.

Lemma imap_pair_lookup {A} (L : list A) i x : (i, x) ∈ imap pair L ↔ L !! i = Some x.
Proof.
  rewrite list_elem_of_lookup. setoid_rewrite list_lookup_imap. split.
  - intros (j & (y & Hy & [= <- <-])%fmap_Some). done.
  - intros H. exists i. by rewrite H.
Qed.

Lemma imap_pair_sorted {A} (L : list A) :
  StronglySorted (λ a b : nat * A, (a.1 < b.1)%nat) (imap pair L).
Proof.
  assert (∀ k, StronglySorted (λ a b : nat * A, (a.1 < b.1)%nat) (imap (λ i, pair (k + i)%nat) L) ∧
               Forall (λ a, (k ≤ a.1)%nat) (imap (λ i, pair (k + i)%nat) L)) as H; [| apply (H 0%nat)].
  induction L as [| x L IH]; intros k; cbn; [split; constructor |].
  assert (imap ((λ i, pair (k + i)%nat) ∘ S) L = imap (λ i : nat, @pair nat A (Nat.add (S k) i)) L) as ->.
  { apply imap_ext. intros i y _. cbn. f_equal. lia. }
  destruct (IH (S k)) as [H1 H2]. split.
  - constructor; [done |]. eapply Forall_impl; [exact H2 |]. intros a Ha. cbn in *. lia.
  - constructor; [cbn; lia |]. eapply Forall_impl; [exact H2 |]. intros a Ha. cbn in *. lia.
Qed.

Section order.
Context `{MetadataManager M} (WL BL : list Z) (mm : M) (getLoopContent : Z → Z) (L : list Z).
Context (HL : NoDup L) (Hlen : Z.of_nat (length L) < 2147483648).

(** The entries of the loops seen so far. *)
Definition order_ok (P : list Z) (order : gmap Z Z) : Prop :=
  ∀ k c, order !! k = Some c ↔
    ∃ i l, k = Z.of_nat i ∧ L !! i = Some l ∧ l ∈ P ∧ isSelected WL BL k = true ∧ c = getLoopContent l.

(** A loop either carries its position in [L] as its order, or no order. *)
Definition tagged (l : Z) : Prop :=
  (∃ i, L !! i = Some l ∧ getMetadata mm l looporder = Some (Dec.to_string (Z.of_nat i))) ∨
  ((l ∉ L) ∧ getMetadata mm l looporder = None).

Lemma order_selector_spec P order n :
  order_ok P order → tagged (getLoop n) →
  ∃ order', order_selector WL BL mm getLoopContent order n = Ok order' ∧
            order_ok (P ++ [getLoop n]) order'.
Proof.
  intros Hok Htag. unfold order_selector. set (ls := getLoop n) in *.
  assert (∀ order', (∀ k c, order' !! k = Some c ↔ order !! k = Some c ∨
            ∃ i, k = Z.of_nat i ∧ L !! i = Some ls ∧ isSelected WL BL k = true ∧ c = getLoopContent ls) →
          order_ok (P ++ [ls]) order') as Hext.
  { intros order' Ho k c. rewrite Ho, (Hok k c). setoid_rewrite elem_of_app.
    setoid_rewrite list_elem_of_singleton. split.
    - intros [(i & l & -> & Hi & Hl & Hs & ->) | (i & -> & Hi & Hs & ->)].
      + exists i, l. auto.
      + exists i, ls. auto.
    - intros (i & l & -> & Hi & [Hl | ->] & Hs & ->).
      + left. exists i, l. auto.
      + right. exists i. auto. }
  destruct Htag as [(i & Hi & ->) | [Hnin ->]].
  - pose proof (lookup_lt_Some _ _ _ Hi). rewrite Dec.stoi_to_string by lia. cbn.
    rewrite u32_small by lia.
    assert (∀ j, L !! j = Some ls → j = i) as Huniq by (intros j Hj; by eapply NoDup_lookup).
    destruct (isSelected WL BL (Z.of_nat i)) eqn:Hsel; cbn; eexists; (split; [done |]); apply Hext;
      intros k c.
    + rewrite lookup_insert_Some. split.
      * intros [[<- <-] | [Hne Ho]]; [right; exists i; auto | by left].
      * intros [Ho | (j & -> & Hj & _ & ->)]; [| left; by rewrite (Huniq j Hj)].
        destruct (decide (Z.of_nat i = k)) as [<- | Hne]; [left | by right].
        split; [done |]. apply Hok in Ho as (j & l & Ej & Hj & _ & _ & ->).
        apply Nat2Z.inj in Ej as <-. congruence.
    + split; [by left |]. intros [? | (j & -> & Hj & Hs & _)]; [done |].
      rewrite (Huniq j Hj) in Hs. congruence.
  - eexists. split; [done |]. apply Hext. intros k c. split; [by left |].
    intros [? | (j & _ & Hj & _)]; [done |]. destruct Hnin. by eapply list_elem_of_lookup_2.
Qed.

Lemma collect_order_spec ns : ∀ P order,
  order_ok P order → (∀ l, l ∈ getLoop <$> ns → tagged l) →
  ∃ order', collect_order WL BL mm getLoopContent ns order = Ok order' ∧
            order_ok (P ++ (getLoop <$> ns)) order'.
Proof.
  induction ns as [| n ns IH]; intros P order Hok Htag; cbn.
  - exists order. by rewrite app_nil_r.
  - destruct (order_selector_spec P order n Hok) as (o1 & -> & Hok1); [apply Htag; left |].
    cbn. destruct (IH _ _ Hok1) as (o2 & -> & Hok2); [intros l Hl; apply Htag; by right |].
    exists o2. by rewrite cons_middle, app_assoc.
Qed.

(** The loops are taken in the order of [L], those not selected left out. *)
Lemma in_order_selected order : order_ok L order →
  (in_key_order order).*2 =
  (λ il, getLoopContent il.2) <$> filter (λ il, isSelected WL BL (Z.of_nat il.1) = true) (imap pair L).
Proof.
  intros Hok. set (F := filter _ (imap pair L)).
  rewrite (in_key_order_unique order ((λ il, (Z.of_nat il.1, getLoopContent il.2)) <$> F)).
  - rewrite <- list_fmap_compose. done.
  - rewrite <- list_fmap_compose.
    assert (StronglySorted (λ a b : nat * Z, (a.1 < b.1)%nat) F) as HF
      by (apply StronglySorted_filter, imap_pair_sorted).
    clear - HF. induction HF as [| a F Hs IH Hf]; cbn; [constructor |]. constructor; [done |].
    apply Forall_fmap. eapply Forall_impl; [exact Hf |]. intros b Hb. cbn in *. lia.
  - intros k v. rewrite (Hok k v), list_elem_of_fmap. split.
    + intros ([i l] & [= -> ->] & [Hs Hin%imap_pair_lookup]%list_elem_of_filter). cbn in *.
      exists i, l. split_and!; try done. by eapply list_elem_of_lookup_2.
    + intros (i & l & -> & Hi & _ & Hs & ->). exists (i, l). split; [done |].
      apply list_elem_of_filter. split; [done | by apply imap_pair_lookup].
Qed.
End order.

(** ** Properties *)

(** C12. The parallelizer takes the loops in the order the planner gave them:
    on the metadata a run of the planner leaves, from a program whose loops had
    no order, the loops it goes through are the planned ones in their planned
    order, without those the white list or the black list excludes. *)
Theorem planned_order_respected `{TreeVisit, MetadataManager M} filterOutLoops force h p forest
    (mm : M) pl WL BL getLoopContent :
  Planner.filters_out filterOutLoops →
  NoDup (concat (map loops forest)) →
  Z.of_nat (length (concat (map loops forest))) < 2147483648 →
  (∀ l, l ∈ concat (map loops forest) →
     Planner.getLoopStructure p (Planner.getLoopContent p l) = l ∧ getMetadata mm l looporder = None) →
  Planner.runOnModule filterOutLoops force h p forest mm = Ok pl →
  let planned := Planner.getLoopStructure p <$> Planner.planned pl in
  ∃ order, loopParallelizationOrder WL BL (Planner.metadata pl) getLoopContent forest = Ok order ∧
    (in_key_order order).*2 =
    (λ il, getLoopContent il.2) <$>
      filter (λ il, isSelected WL BL (Z.of_nat il.1) = true) (imap pair planned).
Proof.
  intros Hfl Hnd Hlen Hloops Hrun planned.
  destruct (Planner.runOnModule_spec filterOutLoops force h p forest mm pl Hfl Hnd Hlen
              (λ l Hl, proj1 (Hloops l Hl)) Hrun) as (R1 & R2 & R3 & R4 & _).
  fold planned in R2, R3, R4.
  assert (Z.of_nat (length planned) < 2147483648) as Hpl.
  { pose proof (Planner.NoDup_bounded planned _ R2 (λ l Hl, proj1 (R3 l Hl))). lia. }
  assert (getLoop <$> concat (map visitPreOrder forest) ≡ₚ concat (map loops forest)) as Hperm.
  { clear. induction forest as [| t f IH]; cbn; [done |].
    rewrite fmap_app, IH. unfold loops. by rewrite pre_perm. }
  unfold loopParallelizationOrder.
  destruct (collect_order_spec WL BL (Planner.metadata pl) getLoopContent planned R2 Hpl
              (concat (map visitPreOrder forest)) [] ∅) as (order & -> & Hok).
  - intros k c. rewrite lookup_empty. split; [done |]. by intros (i & l & _ & _ & ?%not_elem_of_nil & _).
  - intros l. rewrite Hperm. intros Hl. destruct (decide (l ∈ planned)) as [Hin | Hnin].
    + left. apply list_elem_of_lookup in Hin as [i Hi]. exists i. split; [done |].
      unfold planned in Hi. rewrite list_lookup_fmap in Hi.
      apply fmap_Some in Hi as (ldi & Hi & ->). by apply R1.
    + right. split; [done |]. rewrite R4 by done. by apply Hloops.
  - exists order. split; [done |]. apply in_order_selected.
    intros k c. rewrite (Hok k c). cbn. split.
    + intros (i & l & -> & Hi & _ & Hs & ->). exists i, l. split_and!; try done.
      by eapply list_elem_of_lookup_2.
    + intros (i & l & -> & Hi & Hl & Hs & ->). exists i, l. split_and!; try done.
      rewrite Hperm. by apply R3.
Qed.

Lemma planned_order_respected_witness :
  match Planner.demo_plan with
  | Ok pl => ∃ order,
      loopParallelizationOrder [] [1] (Planner.metadata pl) (λ l, l + 5000) Planner.demo_forest = Ok order ∧
      (in_key_order order).*2 = [5001; 5002]
  | Fail _ => False
  end.
Proof.
  assert (match Planner.demo_plan with Ok pl => Some (Planner.planned pl) | Fail _ => None end =
          Some [1001; 1003; 1002]) as Ep by by vm_compute.
  destruct Planner.demo_plan as [pl | e] eqn:E; [| done]. injection Ep as Ep.
  destruct (planned_order_respected Planner.prune_forest false Planner.demo_hot Planner.demo_program
    Planner.demo_forest Planner.demo_metadata pl [] [1] (λ l, l + 5000) Planner.prune_filters_out
    ltac:(by apply (bool_decide_unpack _)) ltac:(by vm_compute)
    ltac:(intros l Hl; rewrite list_elem_of_In in Hl; cbn in Hl; split; [cbn; lia | done]) E)
    as (order & Ho & Hk).
  exists order. split; [done |]. rewrite Hk, Ep. by vm_compute.
Defined.

(** C11. Over a whole run, no two parallelized loops share a basic block (so at
    most one loop of a nest is parallelized); they come from the ordered loops,
    in that order; and every other ordered loop shares a block with one of them
    or was declined by the techniques.  The program is reported as modified
    exactly when a loop was parallelized. *)
Theorem parallelized_loops_disjoint `{TreeVisit, MetadataManager M} {W} (p : pass) (mm : M)
    (run : Z → W → outcome (bool * W)) w modified par w' :
  parallelizeLoops p mm run w = Ok (modified, par, w') →
  concat (map loops (p_forest p)) ≠ [] →
  ∃ order,
    loopParallelizationOrder (p_whiteList p) (p_blackList p) mm (p_getLoopContent p) (p_forest p) = Ok order ∧
    sublist par (in_key_order order).*2 ∧
    (∀ i j a b, par !! i = Some a → par !! j = Some b → i ≠ j →
       ¬ shares_block (p_getBasicBlocks p) a b) ∧
    (∀ l, l ∈ (in_key_order order).*2 → l ∈ par ∨
       (∃ q, q ∈ par ∧ shares_block (p_getBasicBlocks p) l q) ∨
       (∃ w1 w2, run l w1 = Ok (false, w2))) ∧
    modified = negb (length par =? 0)%nat.
Proof.
  intros Hrun Hne. unfold parallelizeLoops in Hrun.
  apply bind_Ok_inv in Hrun as (_ & _ & Hrun).
  destruct (Nat.eqb_spec (length (concat (map loops (p_forest p)))) 0) as [E | _];
    [by apply length_zero_iff_nil in E |].
  apply bind_Ok_inv in Hrun as (order & Ho & ([s w1] & Hpar & [= <- <- <-])%bind_Ok_inv).
  exists order. destruct (traversal_spec _ _ _ _ _ _ _ _ _ Hpar) as (par & -> & T1 & _ & T3 & T4 & T5 & _).
  split_and!; try done. intros l Hl.
  destruct (T4 l Hl) as [? | [(bb & Hbb & [?%not_elem_of_empty | (q & Hq & Hqb)]) | ?]]; auto; [done |].
  right. left. exists q. split; [done |]. by exists bb.
Qed.

(** Loops 1 (blocks 10 to 12), 2 (block 11) and 3 (block 12), 2 and 3 nested in
    1; the techniques accept all but loop 1.  The state counts the attempts. *)
Definition demo_pass : pass (W := nat) := {|
  p_getFunction f := Some (Z.of_nat (length f));
  p_argType f := f + 100;
  p_forest := [Planner.demo_tree];
  p_whiteList := []; p_blackList := [];
  p_getLoopContent l := l;
  p_getBasicBlocks l := if l =? 1 then [10; 11; 12] else if l =? 2 then [11] else [12];
  p_getFunctionOf l := 77;
  p_getID w l := Some l;
  p_instructions w f := [];
  p_isLifetimeStartOrEnd w i := false;
  p_eraseFromParent i w := w;
|}.

Definition demo_order : Z → key → option Dec.text :=
  λ l k, if decide (k = looporder) then
           if l =? 1 then Some (text "0") else if l =? 2 then Some (text "1") else Some (text "2")
         else None.

Definition demo_run (ldi : Z) (attempts : nat) : outcome (bool * nat) :=
  Ok (negb (ldi =? 1), S attempts).

Lemma parallelized_loops_disjoint_witness :
  parallelizeLoops demo_pass demo_order demo_run 0%nat = Ok (true, [2; 3], 3%nat) ∧
  ¬ shares_block (p_getBasicBlocks demo_pass) 2 3.
Proof.
  assert (parallelizeLoops demo_pass demo_order demo_run 0%nat = Ok (true, [2; 3], 3%nat)) as E
    by by vm_compute.
  split; [done |].
  destruct (parallelized_loops_disjoint demo_pass demo_order demo_run 0%nat true [2; 3] 3%nat E
    ltac:(done)) as (order & _ & _ & Hd & _).
  by apply (Hd 0%nat 1%nat).
Defined.

Section technique_choice.
Context {W : Type} (n : @noelle W) (doall helix dswp : @technique W).

(** A technique the loop may be parallelized with. *)
Definition usable (t : @technique W) (ldi : Z) (w : W) : bool :=
  isTransformationEnabled n (getParallelizationID t) &&
  ltm_isTransformationEnabled n ldi (getParallelizationID t) &&
  canBeAppliedToLoop t ldi w.

Lemma try_techniques_find ts ldi w :
  try_techniques n ldi ts w =
  match list_find (λ t, usable t ldi w = true) ts with
  | Some (_, t) => (Some t, (apply_ t ldi w).1, (apply_ t ldi w).2)
  | None => (None, false, w)
  end.
Proof.
  induction ts as [| t ts IH]; cbn; [done |]. fold (usable t ldi w).
  destruct (usable t ldi w) eqn:Hu; cbn.
  - rewrite decide_True by done. by destruct (apply_ t ldi w).
  - rewrite decide_False by done. rewrite IH.
    by destruct (list_find _ ts) as [[] |].
Qed.
End technique_choice.

(** C31. A loop of a program the verifier accepts is parallelized with the first
    technique among DOALL, HELIX and DSWP that is enabled and applicable, which
    is the only one applied: without one the program is unchanged, when its
    application fails nothing is linked and no other is tried, and when it
    succeeds the loop is linked with that technique's entry, exit, environment
    and minimum number of cores, and the call returns if the verifier accepts
    the linked program and stops at an assertion if it does not.  A program the
    verifier rejects at the start, a null pointer, or a loop without an ID where
    it has to be printed stop the process before anything is changed. *)
Theorem first_usable_technique {W} (n : @noelle W) doall helix dswp ldi h w :
  if negb (ldi =? 0) && negb (h =? 0) && verifyCode n w &&
     (negb (verbose n) || bool_decide (is_Some (getID n w ldi)))
  then
    match list_find (λ t, usable n t ldi w = true) [doall; helix; dswp] with
    | None => parallelizeLoop n doall helix dswp ldi h w = Ok (false, w)
    | Some (_, t) =>
        let '(changed, w1) := apply_ t ldi w in
        (changed = false → parallelizeLoop n doall helix dswp ldi h w = Ok (false, w1)) ∧
        (changed = true →
         getEnvArray t w1 ≠ 0 → getParLoopEntryPoint t w1 ≠ 0 → getParLoopExitPoint t w1 ≠ 0 →
         let w2 := linkTransformedLoopToOriginalFunction n ldi
                     (getParLoopEntryPoint t w1, getParLoopExitPoint t w1, getEnvArray t w1)
                     (exitIndex n t ldi w1) (getMinimumNumberOfIdleCores t w1) w1 in
         parallelizeLoop n doall helix dswp ldi h w =
         if verifyCode n w2 then Ok (true, w2) else Fail AssertionFailed)
    end
  else parallelizeLoop n doall helix dswp ldi h w = Fail AssertionFailed.
Proof.
  unfold parallelizeLoop. rewrite try_techniques_find.
  destruct (ldi =? 0); [done |]. destruct (h =? 0); [done |]. destruct (verifyCode n w); [| done].
  destruct (negb (verbose n) || _); [| done].
  destruct (list_find _ _) as [[i t] |]; [| done].
  destruct (apply_ t ldi w) as [changed w1]. cbn. split; [by intros -> |].
  intros -> He Hen Hex. cbn. rewrite (proj2 (Z.eqb_neq _ _) He). cbn.
  rewrite (proj2 (Z.eqb_neq _ _) Hen), (proj2 (Z.eqb_neq _ _) Hex). cbn.
  by destruct (verifyCode n _).
Qed.

(** The state counts the changes; a program is well formed up to 5 of them. *)
Definition demo_noelle : @noelle nat := {|
  verifyCode w := (w <=? 5)%nat;
  verbose := true;
  getID _ ldi := Some ldi;
  isTransformationEnabled _ := true;
  ltm_isTransformationEnabled _ id := negb (id =? 1);
  getExitBlockID _ := -1;
  linkTransformedLoopToOriginalFunction _ _ exitIndex _ w := if exitIndex =? 4294967295 then S w else w;
|}.

Definition demo_technique (id : Z) : @technique nat := {|
  getParallelizationID := id;
  canBeAppliedToLoop _ _ := true;
  apply_ _ w := (true, S w);
  getEnvArray _ := 1; getParLoopEntryPoint _ := 2; getParLoopExitPoint _ := 3;
  getIndexOfEnvironmentVariable _ i := i;
  getMinimumNumberOfIdleCores _ := 2;
|}.

(** DOALL is disabled for the loop, so HELIX parallelizes it; from 4 changes the
    linked program is rejected, from 6 nothing is done. *)
Lemma first_usable_technique_witness :
  let run := parallelizeLoop demo_noelle (demo_technique 1) (demo_technique 2) (demo_technique 3) 9 8 in
  run 0%nat = Ok (true, 2%nat) ∧ run 4%nat = Fail AssertionFailed ∧ run 6%nat = Fail AssertionFailed.
Proof.
  pose proof (first_usable_technique demo_noelle (demo_technique 1) (demo_technique 2)
                (demo_technique 3) 9 8) as H.
  split_and!; [| | exact (H 6%nat)].
  - by apply (proj2 (H 0%nat)).
  - by apply (proj2 (H 4%nat)).
Defined.

(** C30. The push and pop functions the parallelizer registers for a queue size
    have the width of the queue the DSWP dispatcher of the runtime allocates
    for that size, for exactly the sizes the dispatcher accepts. *)
Theorem queue_functions_match_runtime getFunction argType q size :
  collectThreadPoolHelperFunctionsAndTypes getFunction argType = Ok q →
  match Dswp.new_queue size with
  | Ok y => ∃ i, queueSizeToIndex q !! size = Some i ∧
      queueElementTypes q !! Z.to_nat i = Some (Dswp.width y) ∧
      queuePushes q !! Z.to_nat i =
        getFunction (text "queuePush" ++ Dec.to_string (Dswp.width y)) ∧
      queuePops q !! Z.to_nat i =
        getFunction (text "queuePop" ++ Dec.to_string (Dswp.width y))
  | Fail _ => queueSizeToIndex q !! size = None
  end.
Proof.
  unfold collectThreadPoolHelperFunctionsAndTypes.
  intros (pu & Hpu & (po & Hpo & [= <-])%bind_Ok_inv)%bind_Ok_inv.
  unfold pushers, poppers in *. cbn [find_functions] in Hpu, Hpo.
  repeat match type of Hpu with
    (match getFunction ?n with _ => _ end ≫= _) = _ => fail
  | context [getFunction ?n] => destruct (getFunction n) eqn:?; cbn in Hpu; try done end.
  repeat match type of Hpo with
  | context [getFunction ?n] => destruct (getFunction n) eqn:?; cbn in Hpo; try done end.
  injection Hpu as <-. injection Hpo as <-. unfold Dswp.new_queue. cbn [queueSizeToIndex].
  repeat (match goal with |- context [size =? ?k] => destruct (Z.eqb_spec size k) as [-> | ?] end;
    [eexists; split_and!; [by vm_compute | done | symmetry; eassumption | symmetry; eassumption] |]).
  by rewrite !lookup_insert_ne by done.
Qed.

Definition demo_getFunction (name : Dec.text) : option Z := Some (Z.of_nat (length name)).

Lemma queue_functions_match_runtime_witness :
  match collectThreadPoolHelperFunctionsAndTypes demo_getFunction (λ f, f) with
  | Ok q => ∃ i, queueSizeToIndex q !! 1 = Some i ∧ queueElementTypes q !! Z.to_nat i = Some 8
  | Fail _ => False
  end.
Proof.
  destruct (collectThreadPoolHelperFunctionsAndTypes demo_getFunction (λ f, f)) as [q | e] eqn:E;
    [| done].
  destruct (queue_functions_match_runtime demo_getFunction (λ f, f) q 1 E) as (i & Hi & Ht & _).
  by exists i.
Defined.
End Parallelizer.
