(* ===== verification/TechniqueGuards.v ===== *)
(** * When HELIX and DSWP apply

    [canBeAppliedToLoop] of
    [ParallelizationTechniqueForLoopsWithLoopCarriedDataDependences] (the parent
    class of both), of [HELIX] ([HELIX_applicabilityGuard.cpp]) and of [DSWP]
    ([DSWP.cpp]), with [DSWP::getClonableSCCs] ([DSWP_clonableSCCs.cpp]) and
    [computeSequentialFractionOfExecution] ([ParallelizationTechnique.cpp]).
    The fractions are computed in [float] and compared in [double], as the code
    does. *)

From S2P Require Import Prelude CppStd SccDag Noelle.

Module Guards.
Import SccDag Profiles.

(** ** The parent class *)

Definition base_canBeAppliedToLoop (L : LoopContent) : bool :=
  let exits := getLoopExitBasicBlocks L in
  if (length exits =? 0)%nat then false
  else negb (existsb (isInvokeInst (ir L)) (getInstructions L)).

(** ** The fraction of the instructions a predicate selects *)

(** One round of the loop over the nodes: the total and the sequential count. *)
Definition count_instructions (L : LoopContent) (doesItRunSequentially : Z → bool)
    (counts : F32.float * F32.float) (scc : Z) : F32.float * F32.float :=
  let '(totalInstructionCount, sequentialInstructionCount) := counts in
  let numInstructionsInSCC := F32.of_Z (numInternalNodes (dag L) scc) in
  (F32.add totalInstructionCount numInstructionsInSCC,
   if doesItRunSequentially (getSCCAttrs (dag L) scc)
   then F32.add sequentialInstructionCount numInstructionsInSCC
   else sequentialInstructionCount).

Definition instruction_counts (L : LoopContent) (doesItRunSequentially : Z → bool)
    : F32.float * F32.float :=
  foldl (count_instructions L doesItRunSequentially) (F32.of_Z 0, F32.of_Z 0) (getNodes (dag L)).

Definition computeSequentialFractionOfExecution (L : LoopContent)
    (doesItRunSequentially : Z → bool) : F32.float :=
  let '(totalInstructionCount, sequentialInstructionCount) :=
    instruction_counts L doesItRunSequentially in
  F32.div sequentialInstructionCount totalInstructionCount.

(** [averageInstructions < averageInstructionThreshold], with the [int] 20. *)
Definition hasLittleExecution (profiles : Hot) (L : LoopContent) : bool :=
  F64.ltb (getAverageTotalInstructionsPerIteration profiles (loopStructure L)) (F64.of_Z 20).

(** ** HELIX *)

(** The literals [.2], [.5] and [.8]. *)
Definition tenths (n : Z) : F64.double := F64.div (F64.of_Z n) (F64.of_Z 10).

Definition helix_canBeAppliedToLoop (forceParallelization : bool) (profiles : Hot)
    (L : LoopContent) : outcome bool :=
  if negb (base_canBeAppliedToLoop L) then Ok false
  else if forceParallelization then Ok true
  else
    assert_that (bool_decide (is_Some (getID L))) ≫= λ _,
    let sequentialFraction :=
      computeSequentialFractionOfExecution L (isLoopCarriedUnknownSCC (info L)) in
    let hasProportionallySignificantSequentialExecution :=
      F64.leb (tenths 2) (F32.to_double sequentialFraction) in
    Ok (negb (hasLittleExecution profiles L && hasProportionallySignificantSequentialExecution)).

(** ** DSWP: the SCCs every stage may have its own copy of *)

(** Only comparisons and terminators (values that are not instructions do not
    count). *)
Definition onlyTerminators (L : LoopContent) (scc : Z) : bool :=
  forallb (λ V, negb (isInstruction (ir L) V && negb (isCmpInst (ir L) V)
                      && negb (isTerminator (ir L) V)))
          (internalNodes (dag L) scc).

(** The scan of the loop-carried dependences, with its assertions. *)
Fixpoint lcFullyContained (L : LoopContent) (deps : list dependence) : outcome bool :=
  match deps with
  | [] => Ok true
  | d :: rest =>
      assert_that (isInstruction (ir L) (getSrc d) && isInstruction (ir L) (getDst d)) ≫= λ _,
      if (getInnermostLoopThatContains L (getSrc d) =? loopStructure L)
         || (getInnermostLoopThatContains L (getDst d) =? loopStructure L)
      then Ok false
      else lcFullyContained L rest
  end.

(** The body of the loop of [getClonableSCCs]: is the SCC inserted? *)
Definition isClonable (L : LoopContent) (currentSCC : Z) : outcome bool :=
  let currentSCCInfo := getSCCAttrs (dag L) currentSCC in
  if onlyTerminators L currentSCC then Ok true
  else if negb (0 <? outDegree (dag L) currentSCC) then Ok false
  else if match internalNodes (dag L) currentSCC with
          | [i] => isPHINode (ir L) i || isGetElementPtrInst (ir L) i || isCastInst (ir L) i
          | _ => false
          end then Ok true
  else if doesHaveMemoryDependencesWithin (info L) currentSCCInfo then Ok false
  else if isLoopIterationSCC (info L) currentSCCInfo then Ok true
  else
    assert_that (isLoopCarriedSCC (info L) currentSCCInfo) ≫= λ _,
    lcFullyContained L (getLoopCarriedDependences (info L) currentSCCInfo).

Fixpoint clonable_among (L : LoopContent) (nodes : list Z) (set : gset Z) : outcome (gset Z) :=
  match nodes with
  | [] => Ok set
  | n :: rest =>
      isClonable L n ≫= λ b : bool,
      clonable_among L rest (if b then {[getSCCAttrs (dag L) n]} ∪ set else set)
  end.

Definition getClonableSCCs (L : LoopContent) : outcome (gset Z) :=
  clonable_among L (getNodes (dag L)) ∅.

(** [DSWP::canBeCloned]: membership in the field [clonableSCCs]. *)
Definition canBeCloned (clonableSCCs : gset Z) (scc : Z) : bool := bool_decide (scc ∈ clonableSCCs).

(** ** DSWP: the guard *)

(** The loop over the SCCs: the size of the biggest one, and whether some SCC
    is not clonable. *)
Definition scan_SCC (profiles : Hot) (L : LoopContent) (clonable : gset Z)
    (acc : Z * bool) (currentSCC : Z) : Z * bool :=
  let '(biggestSCC, doesSequentialSCCExist) := acc in
  let currentSCCTotalInsts := getTotalInstructionsOfSCC profiles currentSCC in
  (if biggestSCC <? currentSCCTotalInsts then currentSCCTotalInsts else biggestSCC,
   if bool_decide (getSCCAttrs (dag L) currentSCC ∈ clonable) then doesSequentialSCCExist else true).

(** [memberClonableSCCs]: the field of the object; [loopTotalInsts]: what the
    profiles say of the loop. *)
Definition dswp_canBeAppliedToLoop (forceParallelization : bool) (memberClonableSCCs : gset Z)
    (profiles : Hot) (loopTotalInsts : Z) (L : LoopContent) : outcome bool :=
  if negb (base_canBeAppliedToLoop L) then Ok false
  else
    getClonableSCCs L ≫= λ clonable,
    let '(biggestSCC, doesSequentialSCCExist) :=
      foldl (scan_SCC profiles L clonable) (0, false) (getNodes (dag L)) in
    if negb doesSequentialSCCExist then Ok false
    else if forceParallelization then Ok true
    else
      let biggestSCCCoverage := F64.div (F64.of_Z biggestSCC) (F64.of_Z loopTotalInsts) in
      if F64.leb (tenths 8) biggestSCCCoverage then Ok false
      else
        assert_that (bool_decide (is_Some (getID L))) ≫= λ _,
        let sequentialFraction :=
          computeSequentialFractionOfExecution L (canBeCloned memberClonableSCCs) in
        let hasProportionallyInsignificantSequentialExecution :=
          F64.ltb (F32.to_double sequentialFraction) (tenths 5) in
        Ok (negb (hasLittleExecution profiles L
                  && hasProportionallyInsignificantSequentialExecution)).

(** ** Which SCCs are clonable *)

Lemma clonable_among_spec L nodes set set' :
  clonable_among L nodes set = Ok set' →
  (∀ n, n ∈ nodes → ∃ b, isClonable L n = Ok b) ∧
  ∀ a, a ∈ set' ↔ a ∈ set ∨ ∃ n, n ∈ nodes ∧ isClonable L n = Ok true ∧ getSCCAttrs (dag L) n = a.
Proof.
  revert set. induction nodes as [| n nodes IH]; intros set E; simpl in E.
  { injection E as <-. split; [by intros ? ?%not_elem_of_nil |]. set_solver. }
  apply bind_Ok_inv in E as (b & Hb & E). apply IH in E as [Hall Hset]. split.
  - intros m [-> | Hm]%elem_of_cons; eauto.
  - intros a. rewrite Hset. setoid_rewrite elem_of_cons. destruct b.
    + rewrite elem_of_union, elem_of_singleton. split.
      * intros [[-> | ?] | (m & ? & ? & ?)]; eauto 7.
      * intros [? | (m & [-> | ?] & ? & <-)]; eauto 6.
    + split; [intros [? | (m & ? & ? & ?)]; eauto 6 |].
      intros [? | (m & [-> | ?] & Hm & <-)]; [eauto | congruence | eauto 6].
Qed.

Lemma elem_of_getClonableSCCs L clonable n :
  wf (dag L) → getClonableSCCs L = Ok clonable → n ∈ getNodes (dag L) →
  getSCCAttrs (dag L) n ∈ clonable ↔ isClonable L n = Ok true.
Proof.
  intros Hwf [_ Hin]%clonable_among_spec Hn. rewrite Hin, elem_of_empty. split.
  - intros [[] | (m & Hm & Hc & Ha)]. apply (wf_attrs _ Hwf) in Ha; [| done | done]. by subst.
  - eauto 6.
Qed.

Lemma lcFullyContained_spec L deps b :
  lcFullyContained L deps = Ok b →
  b = true ↔
  ∀ d, d ∈ deps → getInnermostLoopThatContains L (getSrc d) ≠ loopStructure L ∧
                  getInnermostLoopThatContains L (getDst d) ≠ loopStructure L.
Proof.
  revert b. induction deps as [| d deps IH]; intros b E; simpl in E.
  { injection E as <-. split; [intros _ ? ?%not_elem_of_nil; done | done]. }
  apply bind_Ok_inv in E as (_ & _ & E). setoid_rewrite elem_of_cons.
  destruct ((getInnermostLoopThatContains L (getSrc d) =? loopStructure L)
            || (getInnermostLoopThatContains L (getDst d) =? loopStructure L)) eqn:El.
  - injection E as <-. split; [done |]. intros H.
    destruct (H d (or_introl eq_refl)) as (H1 & H2).
    apply orb_true_iff in El as [El | El]; simplify_tests; done.
  - simplify_tests. rewrite (IH _ E). split; [| auto]. intros Hall e [-> | He]; auto.
Qed.

(** ** The scan of the SCCs *)

Lemma scan_SCC_spec profiles L clonable nodes big seq :
  foldl (scan_SCC profiles L clonable) (big, seq) nodes =
  (foldl Z.max big (getTotalInstructionsOfSCC profiles <$> nodes),
   seq || existsb (λ n, bool_decide (getSCCAttrs (dag L) n ∉ clonable)) nodes).
Proof.
  revert big seq. induction nodes as [| n nodes IH]; intros big seq; simpl.
  - by rewrite orb_false_r.
  - rewrite IH. f_equal.
    + f_equal. case_tests; lia.
    + repeat case_bool_decide; destruct seq; done.
Qed.

(** ** The properties *)

Lemma base_guard_spec L :
  base_canBeAppliedToLoop L = true ↔
  getLoopExitBasicBlocks L ≠ [] ∧ ∀ i, i ∈ getInstructions L → isInvokeInst (ir L) i = false.
Proof.
  unfold base_canBeAppliedToLoop. destruct (getLoopExitBasicBlocks L); simpl; [naive_solver |].
  rewrite negb_true_iff. split.
  - intros He. split; [done |]. intros i Hi. apply not_true_is_false. intros Hv.
    rewrite (proj2 (existsb_exists _ _)) in He; [done |]. exists i.
    by rewrite <- list_elem_of_In.
  - intros [_ Hno]. apply not_true_is_false. intros (i & Hi & Hv)%existsb_exists.
    rewrite Hno in Hv; [done | by apply list_elem_of_In].
Qed.

(** When no SCC is selected the sequential count stays zero. *)
Lemma instruction_counts_none L p :
  (∀ a, p a = false) → (instruction_counts L p).2 = F32.of_Z 0.
Proof.
  intros Hp. unfold instruction_counts. generalize (F32.of_Z 0) at 1 as t.
  induction (getNodes (dag L)) as [| n nodes IH]; intros t; simpl; [done |].
  rewrite Hp. apply IH.
Qed.

(** C27. An SCC of the loop is clonable exactly when it consists of comparisons
    and terminators only, or feeds some other SCC and is either a single PHI,
    address computation or cast, or free of memory dependences with either no
    loop-carried dependence or only ones between instructions of sub-loops. *)
Theorem getClonableSCCs_correct L clonable n :
  wf (dag L) → getClonableSCCs L = Ok clonable → n ∈ getNodes (dag L) →
  let a := getSCCAttrs (dag L) n in
  a ∈ clonable ↔
  onlyTerminators L n = true ∨
  getOutgoingEdges (dag L) n ≠ [] ∧
  ((∃ v, internalNodes (dag L) n = [v] ∧
         (isPHINode (ir L) v || isGetElementPtrInst (ir L) v || isCastInst (ir L) v) = true) ∨
   doesHaveMemoryDependencesWithin (info L) a = false ∧
   (isLoopIterationSCC (info L) a = true ∨
    ∀ d, d ∈ getLoopCarriedDependences (info L) a →
      getInnermostLoopThatContains L (getSrc d) ≠ loopStructure L ∧
      getInnermostLoopThatContains L (getDst d) ≠ loopStructure L)).
Proof.
  intros Hwf Hc Hn a. subst a. rewrite (elem_of_getClonableSCCs _ _ _ Hwf Hc Hn).
  apply clonable_among_spec in Hc as [Hok _]. destruct (Hok n Hn) as [b Hb]. rewrite Hb.
  clear Hok. unfold isClonable in Hb. destruct (onlyTerminators L n); [naive_solver |].
  assert ((0 <? outDegree (dag L) n) = true ↔ getOutgoingEdges (dag L) n ≠ []) as Hdeg.
  { unfold outDegree. destruct (getOutgoingEdges (dag L) n); cbn; [done |].
    split; [done | intros _; apply Z.ltb_lt; lia]. }
  destruct (0 <? outDegree (dag L) n); cbn in Hb; [| naive_solver].
  rewrite <- Hdeg. clear Hdeg.
  destruct (match internalNodes (dag L) n with
            | [i] => isPHINode (ir L) i || isGetElementPtrInst (ir L) i || isCastInst (ir L) i
            | _ => false
            end) eqn:Es.
  { injection Hb as <-. split; [| done]. intros _. right. split; [done |]. left.
    destruct (internalNodes (dag L) n) as [| v [|]]; [done | by exists v | done]. }
  assert (¬ ∃ v, internalNodes (dag L) n = [v] ∧
    (isPHINode (ir L) v || isGetElementPtrInst (ir L) v || isCastInst (ir L) v) = true) as Hno.
  { intros (v & Ev & Hv). rewrite Ev in Es. congruence. }
  destruct (doesHaveMemoryDependencesWithin (info L) _); [naive_solver |].
  destruct (isLoopIterationSCC (info L) _); [naive_solver |].
  apply bind_Ok_inv in Hb as (_ & _ & Hb). pose proof (lcFullyContained_spec _ _ _ Hb) as Hs.
  split.
  - intros [= ->]. right. split; [done |]. right. split; [done |]. right. by apply Hs.
  - intros [? | (_ & [? | (_ & [? | Hd])])]; [done | done | done |].
    f_equal. by apply Hs.
Qed.

(** HELIX accepts exactly the loops that have an exit and no [invoke], and
    that are forced, or execute at least 20 instructions per iteration, or spend
    less than a fifth of them in SCCs that must be synchronized. *)
Theorem helix_guard_iff force profiles L :
  is_Some (getID L) →
  helix_canBeAppliedToLoop force profiles L = Ok true ↔
  (getLoopExitBasicBlocks L ≠ [] ∧ ∀ i, i ∈ getInstructions L → isInvokeInst (ir L) i = false) ∧
  (force = true ∨ hasLittleExecution profiles L = false ∨
   F64.leb (tenths 2) (F32.to_double (computeSequentialFractionOfExecution L
                                        (isLoopCarriedUnknownSCC (info L)))) = false).
Proof.
  intros Hid. rewrite <- base_guard_spec. unfold helix_canBeAppliedToLoop.
  destruct (base_canBeAppliedToLoop L); simpl; [| naive_solver].
  destruct force; [naive_solver |]. rewrite bool_decide_true by done. cbn.
  destruct (hasLittleExecution profiles L), (F64.leb _ _); naive_solver.
Qed.

(** DSWP accepts exactly the loops that have an exit and no [invoke], that
    have an SCC it cannot clone, and that are forced, or whose biggest SCC
    covers less than four fifths of the loop and which pass the test on the size
    of an iteration. *)
Theorem dswp_guard_iff force member profiles insts L clonable :
  getClonableSCCs L = Ok clonable → is_Some (getID L) →
  dswp_canBeAppliedToLoop force member profiles insts L = Ok true ↔
  (getLoopExitBasicBlocks L ≠ [] ∧ ∀ i, i ∈ getInstructions L → isInvokeInst (ir L) i = false) ∧
  (∃ n, n ∈ getNodes (dag L) ∧ getSCCAttrs (dag L) n ∉ clonable) ∧
  (force = true ∨
   F64.leb (tenths 8)
     (F64.div (F64.of_Z (foldl Z.max 0 (getTotalInstructionsOfSCC profiles <$> getNodes (dag L))))
              (F64.of_Z insts)) = false ∧
   (hasLittleExecution profiles L = false ∨
    F64.ltb (F32.to_double (computeSequentialFractionOfExecution L (canBeCloned member)))
            (tenths 5) = false)).
Proof.
  intros Hc Hid. rewrite <- base_guard_spec. unfold dswp_canBeAppliedToLoop.
  destruct (base_canBeAppliedToLoop L); simpl; [| naive_solver].
  rewrite Hc. cbn. rewrite scan_SCC_spec. cbn.
  assert (existsb (λ n, bool_decide (getSCCAttrs (dag L) n ∉ clonable)) (getNodes (dag L)) = true ↔
          ∃ n, n ∈ getNodes (dag L) ∧ getSCCAttrs (dag L) n ∉ clonable) as <-.
  { rewrite existsb_exists. setoid_rewrite bool_decide_eq_true. setoid_rewrite list_elem_of_In. done. }
  destruct (existsb _ _); cbn; [| naive_solver].
  destruct force; [naive_solver |]. destruct (F64.leb _ _); [naive_solver |].
  rewrite bool_decide_true by done. cbn.
  destruct (hasLittleExecution profiles L), (F64.ltb _ _); naive_solver.
Qed.

(** C26. The sequential fraction DSWP's guard looks at is no such thing: the
    predicate it passes selects the SCCs in the field [clonableSCCs], which is
    empty until [apply].  On the object [parallelizeLoop] has just constructed
    the fraction is zero, so every loop with short iterations is rejected, even
    one whose iterations are all sequential. *)
Theorem dswp_sequential_fraction_vacuous profiles insts L :
  let total := (instruction_counts L (canBeCloned ∅)).1 in
  F32.is_zero total = false → F32.is_nan total = false →
  F32.is_zero (computeSequentialFractionOfExecution L (canBeCloned ∅)) = true ∧
  F64.ltb (F32.to_double (computeSequentialFractionOfExecution L (canBeCloned ∅)))
          (tenths 5) = true ∧
  (hasLittleExecution profiles L = true →
   dswp_canBeAppliedToLoop false ∅ profiles insts L ≠ Ok true).
Proof.
  intros total Hz Hn.
  assert (F32.is_zero (computeSequentialFractionOfExecution L (canBeCloned ∅)) = true ∧
          F64.ltb (F32.to_double (computeSequentialFractionOfExecution L (canBeCloned ∅)))
                  (tenths 5) = true) as [Hzero Hlt].
  { unfold computeSequentialFractionOfExecution. subst total.
    pose proof (instruction_counts_none L (canBeCloned ∅)) as Hc.
    destruct (instruction_counts L (canBeCloned ∅)) as [t s]. cbn in *.
    rewrite Hc by (intros a; unfold canBeCloned; by rewrite bool_decide_false).
    change (F32.of_Z 0) with (SpecFloat.S754_zero false).
    rewrite F32.zero_div, Hz, Hn. cbn. by destruct t. }
  split; [done |]. split; [done |]. intros Hlittle. unfold dswp_canBeAppliedToLoop.
  destruct (base_canBeAppliedToLoop L); cbn; [| done].
  destruct (getClonableSCCs L) as [clonable |]; cbn; [| done].
  destruct (foldl _ _ _) as [big []]; cbn; [| done].
  destruct (F64.leb _ _); [done |]. rewrite Hlittle, Hlt. by destruct (bool_decide _).
Qed.

(** A loop of two SCCs, the first one (a call and a store) feeding the second:
    neither is clonable, and an iteration executes ten instructions. *)
Definition demo_loop : LoopContent := {|
  ir := MkIR (λ _, true) (λ _, false) (λ v, v =? 5) (λ _, false) (λ _, false) (λ _, false) (λ _, false);
  dag := MkSCCDAG [1; 2] (λ n, if n =? 1 then [3; 4] else [5; 6])
           (λ _, []) [SccEdge 1 2 [Dep 4 6 VariableDependence]]
           (λ v, if v <? 5 then 1 else 2) (λ n, n + 100);
  info := MkSCCInfo (λ _, false) (λ _, true) (λ _, true) (λ _, true) (λ _, []);
  loopStructure := 9;
  getID := Some 0;
  getInstructions := [3; 4; 5; 6];
  getLoopExitBasicBlocks := [7];
  getInnermostLoopThatContains := λ _, 9;
  getMaximumNumberOfCores := 4;
|}.

Definition demo_profiles (perIteration : Z) : Hot := {|
  isAvailable := true;
  hasBeenExecuted := λ _, true;
  getIterations := λ _, 100;
  getAverageTotalInstructionsPerInvocation := λ _, F64.of_Z (100 * perIteration);
  getAverageLoopIterationsPerInvocation := λ _, F64.of_Z 100;
  getAverageTotalInstructionsPerIteration := λ _, F64.of_Z perIteration;
  getDynamicTotalInstructionCoverage := λ _, F64.of_Z 1;
  getTotalInstructionsOfSCC := λ _, 50 * perIteration;
  getTotalInstructions := 100 * perIteration;
|}.

Lemma demo_loop_wf : wf (dag demo_loop).
Proof.
  split.
  - by apply (bool_decide_unpack _).
  - intros e He. cbn in He. apply list_elem_of_singleton in He as ->. cbn.
    rewrite !elem_of_cons. tauto.
  - cbn. intros. lia.
Defined.

(** The same loop when its first SCC is a single PHI. *)
Definition demo_phi_loop : LoopContent := {|
  ir := MkIR (λ _, true) (λ _, false) (λ v, v =? 5) (λ v, v =? 3) (λ _, false) (λ _, false)
          (λ _, false);
  dag := MkSCCDAG [1; 2] (λ n, if n =? 1 then [3] else [5; 6])
           (λ _, []) [SccEdge 1 2 [Dep 3 6 VariableDependence]]
           (λ v, if v <? 5 then 1 else 2) (λ n, n + 100);
  info := info demo_loop;
  loopStructure := 9;
  getID := Some 0;
  getInstructions := [3; 5; 6];
  getLoopExitBasicBlocks := [7];
  getInnermostLoopThatContains := λ _, 9;
  getMaximumNumberOfCores := 4;
|}.

Lemma demo_phi_loop_wf : wf (dag demo_phi_loop).
Proof.
  split.
  - by apply (bool_decide_unpack _).
  - intros e He. cbn in He. apply list_elem_of_singleton in He as ->. cbn.
    rewrite !elem_of_cons. tauto.
  - cbn. intros. lia.
Defined.

Lemma getClonableSCCs_correct_witness :
  101 ∈ ({[101]} : gset Z) ∧ getClonableSCCs demo_phi_loop = Ok {[101]}.
Proof.
  split; [| by vm_compute].
  apply (getClonableSCCs_correct demo_phi_loop {[101]} 1 demo_phi_loop_wf); [by vm_compute | left |].
  right. split; [by vm_compute |]. left. by exists 3.
Defined.

Lemma helix_guard_iff_witness :
  helix_canBeAppliedToLoop false (demo_profiles 50) demo_loop = Ok true ∧
  helix_canBeAppliedToLoop false (demo_profiles 10) demo_loop ≠ Ok true.
Proof.
  split.
  - apply helix_guard_iff; [by eexists |]. split; [by apply base_guard_spec |].
    right. left. by vm_compute.
  - rewrite helix_guard_iff by by eexists. intros [_ [? | [H | H]]]; [done | |]; by vm_compute in H.
Defined.

Lemma dswp_guard_iff_witness :
  dswp_canBeAppliedToLoop false ∅ (demo_profiles 50) 5000 demo_loop = Ok true.
Proof.
  apply (dswp_guard_iff _ _ _ _ _ ∅); [by vm_compute | by eexists |].
  split; [by apply base_guard_spec |]. split.
  - exists 1. split; [left | set_solver].
  - right. split; [by vm_compute |]. left. by vm_compute.
Defined.

(** Every instruction of this loop is in an SCC that cannot be cloned. *)
Lemma dswp_sequential_fraction_vacuous_witness :
  computeSequentialFractionOfExecution demo_loop (λ a, bool_decide (a ∈ [101; 102])) = F32.of_Z 1 ∧
  dswp_canBeAppliedToLoop false ∅ (demo_profiles 10) 1000 demo_loop ≠ Ok true.
Proof.
  split; [by vm_compute |].
  apply (dswp_sequential_fraction_vacuous (demo_profiles 10) 1000 demo_loop); by vm_compute.
Defined.
End Guards.
