(* ===== verification/DswpStages.v ===== *)
(** * The stages of a DSWP pipeline

    [DSWP::partitionSCCDAG] ([Partition.cpp]), the stages made from the
    partition, the clonable SCCs added to them and the check of the result
    ([Pipeline.cpp] of [src/src/core/dswp/src]).  The partitioner is NOELLE's;
    merging sets of SCCs is its business, and it keeps the SCCs it was given. *)

From S2P Require Import Prelude CppStd Worklist SccDag Noelle TechniqueGuards.

Module Stages.
Import SccDag Guards.

(** [DSWPTask]: a stage, its SCCs and the queues it uses. *)
Record DSWPTask := MkTask {
  taskID : Z;
  stageSCCs : gset Z;
  clonableSCCs : gset Z;
  producerToQueues : gmap Z (gset nat);
  producedPopQueue : gmap Z nat;
  pushValueQueues : gset nat;
  popValueQueues : gset nat;
}.

Definition new_task (id : Z) : DSWPTask := MkTask id ∅ ∅ ∅ ∅ ∅ ∅.

(** [QueueInfo], but for its fields the code never reads. *)
Record QueueInfo := MkQueueInfo {
  fromStage : Z;
  toStage : Z;
  isMemoryDependence : bool;
  bitLength : Z;
  producer : Z;
  consumers : gset Z;
}.

(** The [DSWP] object.  A pointer to a task is its position in [tasks]; [None]
    is the null pointer [operator[]] inserts for a missing key. *)
Record DSWP := MkDSWP {
  tasks : list DSWPTask;
  sccToStage : gmap Z (option nat);
  queues : list QueueInfo;
  fromTaskIDToUserID : gmap Z Z;
  numTaskInstances : Z;
  memberClonableSCCs : gset Z;
}.

(** The object a loop starts with. *)
Definition new_DSWP : DSWP := MkDSWP [] ∅ [] ∅ 0 ∅.

Definition set_tasks (ts : list DSWPTask) (d : DSWP) : DSWP :=
  MkDSWP ts (sccToStage d) (queues d) (fromTaskIDToUserID d) (numTaskInstances d)
         (memberClonableSCCs d).

Definition set_memberClonableSCCs (s : gset Z) (d : DSWP) : DSWP :=
  MkDSWP (tasks d) (sccToStage d) (queues d) (fromTaskIDToUserID d) (numTaskInstances d) s.

(** Can the SCC [n] of the loop be cloned? *)
Definition clonable (L : LoopContent) (d : DSWP) (n : Z) : bool :=
  canBeCloned (memberClonableSCCs d) (getSCCAttrs (dag L) n).

(** ** partitionSCCDAG *)

(** The sets the partitioner starts from: every SCC that cannot be cloned on
    its own. *)
Definition initialSets (L : LoopContent) (d : DSWP) : list (list Z) :=
  (λ n, [n]) <$> filter (λ n, clonable L d n = false) (getNodes (dag L)).

(** NOELLE's [SCCDAGPartitioner] at work on these sets: their merges, and the
    depth-first order of the result. *)
Class SCCDAGPartitioner := {
  getDepthOrderedSets : LoopContent → list (list Z) → list (list Z);
  merges_keep_SCCs L sets : concat (getDepthOrderedSets L sets) ≡ₚ concat sets;
  merges_add_no_set L sets : (length (getDepthOrderedSets L sets) ≤ length sets)%nat;
}.

Definition numberOfPartitions `{SCCDAGPartitioner} (L : LoopContent) (sets : list (list Z)) : Z :=
  Z.of_nat (length (getDepthOrderedSets L sets)).

(** ** generateStagesFromPartitionedSCCs *)

(** The loop over the subsets; [newID i] is the identifier NOELLE gives to the
    [i]-th task created, [position] the index of the next task. *)
Fixpoint make_tasks (newID : nat → Z) (position : nat) (depthOrdered : list (list Z))
    (techniqueTasks : list DSWPTask) (toStage : gmap Z (option nat)) (toUser : gmap Z Z)
    : list DSWPTask * gmap Z (option nat) * gmap Z Z :=
  match depthOrdered with
  | [] => (techniqueTasks, toStage, toUser)
  | subset :: rest =>
      let task := new_task (newID position) in
      make_tasks newID (S position) rest
        (techniqueTasks ++ [MkTask (taskID task) (list_to_set subset) ∅ ∅ ∅ ∅ ∅])
        (foldl (λ m scc, <[scc:=Some position]> m) toStage subset)
        (<[taskID task:=Z.of_nat position]> toUser)
  end.

Definition generateStagesFromPartitionedSCCs (newID : nat → Z) (depthOrdered : list (list Z))
    (numberOfPartitions : Z) (d : DSWP) : outcome DSWP :=
  let '(techniqueTasks, toStage, toUser) :=
    make_tasks newID 0 depthOrdered [] (sccToStage d) (fromTaskIDToUserID d) in
  (* [addPredecessorAndSuccessorsBasicBlocksToTasks] adopts the tasks *)
  assert_that (length (tasks d) =? 0)%nat ≫= λ _,
  let numInstances := Z.of_nat (length techniqueTasks) in
  assert_that (numInstances =? numberOfPartitions) ≫= λ _,
  Ok (MkDSWP techniqueTasks toStage (queues d) toUser numInstances (memberClonableSCCs d)).

(** ** addClonableSCCsToStages *)

Definition add_clonable (L : LoopContent) (d : DSWP) (_ fromSCC : Z) (fresh : bool) (s : gset Z)
    : gset Z :=
  if fresh && clonable L d fromSCC then {[fromSCC]} ∪ s else s.

(** The body of the loop over the tasks. *)
Definition addClonableSCCsToStage (fuel : nat) (L : LoopContent) (d : DSWP) (task : DSWPTask)
    : option DSWPTask :=
  '(_, s) ← Worklist.discover (parents (dag L)) (add_clonable L d) fuel
              (in_address_order (stageSCCs task)) ∅ (clonableSCCs task);
  Some (MkTask (taskID task) (stageSCCs task) s (producerToQueues task) (producedPopQueue task)
               (pushValueQueues task) (popValueQueues task)).

Definition addClonableSCCsToStages (fuel : nat) (L : LoopContent) (d : DSWP) : option DSWP :=
  ts ← mapM (addClonableSCCsToStage fuel L d) (tasks d);
  Some (set_tasks ts d).

(** ** isCompleteAndValidStageStructure *)

(** The SCCs of the stages; [None]: an SCC was met a second time. *)
Fixpoint insert_distinct (sccs : list Z) (allSCCs : gset Z) : option (gset Z) :=
  match sccs with
  | [] => Some allSCCs
  | scc :: rest =>
      if bool_decide (scc ∈ allSCCs) then None else insert_distinct rest ({[scc]} ∪ allSCCs)
  end.

Fixpoint collect_stages (ts : list DSWPTask) (allSCCs : gset Z) : option (gset Z) :=
  match ts with
  | [] => Some allSCCs
  | task :: rest =>
      allSCCs ← insert_distinct (in_address_order (stageSCCs task)) allSCCs;
      collect_stages rest (clonableSCCs task ∪ allSCCs)
  end.

Definition isCompleteAndValidStageStructure (L : LoopContent) (d : DSWP) : bool :=
  match collect_stages (tasks d) ∅ with
  | None => false
  | Some allSCCs =>
      forallb (λ n, clonable L d n || bool_decide (n ∈ allSCCs)) (getNodes (dag L))
  end.

(** ** The tasks that are made *)

Lemma make_tasks_spec newID sets position ts toStage toUser ts' toStage' toUser' :
  make_tasks newID position sets ts toStage toUser = (ts', toStage', toUser') →
  ts' = ts ++ imap (λ i s, MkTask (newID (position + i)%nat) (list_to_set s) ∅ ∅ ∅ ∅ ∅) sets.
Proof.
  revert position ts toStage toUser.
  induction sets as [| s sets IH]; intros position ts toStage toUser E; simpl in E.
  - injection E as <- _ _. by rewrite app_nil_r.
  - apply IH in E as ->. rewrite <- app_assoc. f_equal. simpl. f_equal; [by rewrite Nat.add_0_r |].
    apply imap_ext. intros i x _. simpl. by rewrite Nat.add_succ_r.
Qed.

Lemma insert_all_lookup (subset : list Z) (p : nat) (m : gmap Z (option nat)) n :
  foldl (λ m scc, <[scc:=Some p]> m) m subset !! n =
  if decide (n ∈ subset) then Some (Some p) else m !! n.
Proof.
  revert m. induction subset as [| x subset IH]; intros m; simpl; [done |].
  rewrite IH. destruct (decide (n ∈ subset)) as [Hn | Hn].
  - by rewrite decide_True by (by right).
  - destruct (decide (n = x)) as [-> | Hx].
    + by rewrite lookup_insert_eq, decide_True by left.
    + rewrite lookup_insert_ne by done. rewrite decide_False; [done | set_solver].
Qed.

(** An SCC of the partition is mapped to the stage that has it. *)
Lemma make_tasks_stage newID sets position ts toStage toUser ts' toStage' toUser' :
  make_tasks newID position sets ts toStage toUser = (ts', toStage', toUser') →
  NoDup (concat sets) →
  (∀ i s n, sets !! i = Some s → n ∈ s → toStage' !! n = Some (Some (position + i)%nat)) ∧
  (∀ n, n ∉ concat sets → toStage' !! n = toStage !! n).
Proof.
  revert position ts toStage toUser.
  induction sets as [| s sets IH]; intros position ts toStage toUser E Hnd; simpl in *.
  { injection E as _ <- _. split; [done | done]. }
  apply NoDup_app in Hnd as (_ & Hdisj & Hnd). destruct (IH _ _ _ _ E Hnd) as [H1 H2]. split.
  - intros [| i] s' n Hs Hn; simpl in Hs.
    + injection Hs as ->. rewrite H2 by (by apply Hdisj). rewrite insert_all_lookup.
      by rewrite decide_True, Nat.add_0_r.
    + rewrite (H1 _ _ _ Hs Hn). do 2 f_equal. lia.
  - intros n [Hn1 Hn2]%not_elem_of_app. rewrite H2 by done. rewrite insert_all_lookup.
    by rewrite decide_False.
Qed.

(** ** The clonable SCCs of a stage *)

(** [m] has a path of one or more edges to [n]. *)
Definition ancestor (L : LoopContent) (n m : Z) : Prop :=
  tc (Worklist.edge (parents (dag L))) n m.

Lemma ancestor_once L e : e ∈ sccEdges (dag L) → ancestor L (toSCC e) (fromSCC e).
Proof. intros He. apply tc_once. unfold Worklist.edge. apply elem_of_parents. eauto. Qed.

Lemma ancestor_trans L n m k : ancestor L n m → ancestor L m k → ancestor L n k.
Proof. apply tc_transitive. Qed.

(** What the traversal inserts: the newly marked clonable SCCs. *)
Lemma add_clonable_collects L d fuel queue visited s visited' s' :
  Worklist.discover (parents (dag L)) (add_clonable L d) fuel queue visited s = Some (visited', s') →
  (∀ n, n ∈ visited → clonable L d n = true → n ∈ s) →
  (∀ n, n ∈ visited' → clonable L d n = true → n ∈ s') ∧
  (∀ n, n ∈ s' → n ∈ s ∨ n ∈ visited' ∧ clonable L d n = true).
Proof.
  revert queue visited s. induction fuel as [| fuel IH]; intros queue visited s E Hs;
    destruct queue as [| x queue]; simplify_eq/=; try by split; auto.
  destruct (Worklist.push_targets (add_clonable L d) x (parents (dag L) x) queue visited s)
    as [[queue1 visited1] s1] eqn:Ep.
  assert ((∀ n, n ∈ visited1 → clonable L d n = true → n ∈ s1) ∧
          (∀ n, n ∈ s1 → n ∈ s ∨ n ∈ visited1 ∧ clonable L d n = true)) as [H1 H2].
  { clear IH E. revert queue visited s Ep Hs.
    induction (parents (dag L) x) as [| y ys IHy]; intros queue visited s Ep Hs; simpl in Ep.
    { simplify_eq. auto. }
    case_bool_decide as Hy.
    - pose proof Ep as (new & _ & Hv & _)%Worklist.push_targets_spec.
      apply IHy in Ep as [H1 H2]; unfold add_clonable in *; simpl in *.
      + split; [done |]. intros n Hn. destruct (H2 n Hn) as [Hn' | ?]; [| auto].
        destruct (clonable L d y) eqn:Ey; [| auto].
        apply elem_of_union in Hn' as [->%elem_of_singleton | ?]; [right | auto].
        split; [set_solver | done].
      + intros n [->%elem_of_singleton | Hn]%elem_of_union Hc.
        * rewrite Hc. by apply elem_of_union_l, elem_of_singleton.
        * case_match; [apply elem_of_union_r |]; by apply Hs.
    - apply IHy in Ep; [done | done]. }
  destruct (IH _ _ _ E H1) as [H3 H4]. split; [done |].
  intros n Hn. destruct (H4 n Hn) as [Hn' | ?]; [| auto].
  destruct (H2 n Hn') as [? | [? ?]]; [auto |]. right. split; [| done].
  by eapply Worklist.discover_grows.
Qed.

(** The fuel that is enough for every stage. *)
Definition enough_fuel (L : LoopContent) : nat := 2 * length (getNodes (dag L)).

Definition stages_in_dag (L : LoopContent) (d : DSWP) : Prop :=
  ∀ t n, t ∈ tasks d → n ∈ stageSCCs t → n ∈ getNodes (dag L).

Lemma parents_closed L : wf (dag L) →
  ∀ n m : Z, n ∈ (list_to_set (getNodes (dag L)) : gset Z) →
  Worklist.edge (parents (dag L)) n m → m ∈ (list_to_set (getNodes (dag L)) : gset Z).
Proof.
  intros Hwf n m _ (e & He & <- & _)%elem_of_parents. apply elem_of_list_to_set.
  by apply (wf_edges _ Hwf).
Qed.

Lemma addClonable_stage_spec L d task fuel :
  wf (dag L) → (∀ n, n ∈ stageSCCs task → n ∈ getNodes (dag L)) →
  (enough_fuel L ≤ fuel)%nat → clonableSCCs task = ∅ →
  ∃ s, addClonableSCCsToStage fuel L d task =
       Some (MkTask (taskID task) (stageSCCs task) s (producerToQueues task)
                    (producedPopQueue task) (pushValueQueues task) (popValueQueues task)) ∧
    ∀ m, m ∈ s ↔ clonable L d m = true ∧ ∃ n, n ∈ stageSCCs task ∧ ancestor L n m.
Proof.
  intros Hwf Hin Hf Hempty. unfold addClonableSCCsToStage.
  destruct (Worklist.discover_total (parents (dag L)) (list_to_set (getNodes (dag L)))
              (parents_closed L Hwf) (add_clonable L d) fuel (in_address_order (stageSCCs task))
              ∅ (clonableSCCs task)) as (visited & s & E).
  - intros n Hn%elem_of_list_to_set. apply elem_of_list_to_set. apply Hin. set_solver.
  - unfold enough_fuel in Hf. unfold in_address_order. rewrite std_sort_perm.
    change (length (elements (stageSCCs task))) with (size (stageSCCs task)).
    assert (size (stageSCCs task) ≤ size (list_to_set (getNodes (dag L)) : gset Z))%nat.
    { apply subseteq_size. intros n Hn. apply elem_of_list_to_set. by apply Hin. }
    assert (size (list_to_set (getNodes (dag L)) ∖ ∅ : gset Z)
            ≤ size (list_to_set (getNodes (dag L)) : gset Z))%nat by (apply subseteq_size; set_solver).
    rewrite (size_list_to_set (C := gset Z)) in * by apply Hwf. lia.
  - rewrite E. cbn. exists s. split; [done |]. intros m.
    assert (Worklist.closed (parents (dag L)) (in_address_order (stageSCCs task)) ∅) as Hcl
      by (intros ? ?; set_solver).
    pose proof (Worklist.discover_visited _ _ _ _ _ _ _ _ Hcl E) as Hv.
    apply add_clonable_collects in E as [H1 H2]; [| set_solver].
    rewrite Hempty in H2. unfold ancestor. split.
    + intros [? | [Hm Hc]]%H2; [set_solver |]. split; [done |].
      apply Hv in Hm as [? | (n & Hn & Ht)]; [set_solver |]. exists n. split; [set_solver | done].
    + intros [Hc (n & Hn & Ht)]. apply H1; [| done]. apply Hv. right. exists n.
      split; [set_solver | done].
Qed.

(** What [addClonableSCCsToStages] makes of a stage. *)
Definition extended (L : LoopContent) (d : DSWP) (t t' : DSWPTask) : Prop :=
  t' = MkTask (taskID t) (stageSCCs t) (clonableSCCs t') (producerToQueues t)
              (producedPopQueue t) (pushValueQueues t) (popValueQueues t) ∧
  ∀ m, m ∈ clonableSCCs t' ↔ clonable L d m = true ∧ ∃ n, n ∈ stageSCCs t ∧ ancestor L n m.

Lemma addClonable_spec L d fuel :
  wf (dag L) → stages_in_dag L d → (∀ t, t ∈ tasks d → clonableSCCs t = ∅) →
  (enough_fuel L ≤ fuel)%nat →
  ∃ ts, addClonableSCCsToStages fuel L d = Some (set_tasks ts d) ∧
        Forall2 (extended L d) (tasks d) ts.
Proof.
  intros Hwf Hin Hempty Hf.
  assert (∃ ts, mapM (addClonableSCCsToStage fuel L d) (tasks d) = Some ts ∧
                Forall2 (extended L d) (tasks d) ts) as (ts & E & Hts).
  { unfold stages_in_dag in Hin. induction (tasks d) as [| t ts IH]; [by exists [] |].
    destruct (addClonable_stage_spec L d t fuel) as (s & Es & Hs); [done | | done | |].
    - intros n. apply Hin. by left.
    - apply Hempty. by left.
    - destruct IH as (ts' & E & Hts'); [intros u n Hu; apply Hin; by right | |].
      + intros u Hu. apply Hempty. by right.
      + eexists. simpl. rewrite Es. cbn. rewrite E. cbn. split; [done |].
        constructor; [| done]. split; [done |]. exact Hs. }
  exists ts. split; [| done]. unfold addClonableSCCsToStages. by rewrite E.
Qed.

(** ** The check of the stage structure *)

Lemma insert_distinct_spec sccs all :
  NoDup sccs → (∀ n, n ∈ sccs → n ∉ all) →
  insert_distinct sccs all = Some (list_to_set sccs ∪ all).
Proof.
  revert all. induction sccs as [| x sccs IH]; intros all Hnd Hno; simpl.
  - f_equal. set_solver.
  - apply NoDup_cons in Hnd as [Hx Hnd]. rewrite bool_decide_false by (apply Hno; by left).
    rewrite IH; [f_equal; set_solver | done |].
    intros n Hn [->%elem_of_singleton | ?]%elem_of_union; [done |]. by apply (Hno n); [right |].
Qed.

(** Stages with pairwise disjoint SCCs, none of which is cloned anywhere, pass
    the scan. *)
Lemma collect_stages_spec (ts : list DSWPTask) all :
  (∀ i j t u n, ts !! i = Some t → ts !! j = Some u → n ∈ stageSCCs t → n ∈ stageSCCs u → i = j) →
  (∀ t u n, t ∈ ts → u ∈ ts → n ∈ clonableSCCs t → n ∉ stageSCCs u) →
  (∀ t n, t ∈ ts → n ∈ stageSCCs t → n ∉ all) →
  ∃ all', collect_stages ts all = Some all' ∧ ∀ t n, t ∈ ts → n ∈ stageSCCs t → n ∈ all'.
Proof.
  intros Hd Hc Hall.
  assert (∃ all', collect_stages ts all = Some all' ∧ all ⊆ all' ∧
            ∀ t n, t ∈ ts → n ∈ stageSCCs t → n ∈ all') as (all' & ? & _ & ?); [| by exists all'].
  revert all Hall. induction ts as [| t ts IH]; intros all Hall.
  { exists all. split_and!; [done | done |]. by intros ? ? ?%not_elem_of_nil. }
  simpl. rewrite insert_distinct_spec; cbn.
  - edestruct IH as (all' & -> & Hsub & Hin); [| | | exists all'; split_and!; [done | |]].
    + intros i j u v n Hu Hv Hn Hm. by pose proof (Hd (S i) (S j) u v n Hu Hv Hn Hm) as [= ->].
    + intros u v n Hu Hv. apply Hc; by right.
    + intros u n Hu Hn [Hn' | [Hn' | Hn']%elem_of_union]%elem_of_union.
      * revert Hn'. intros Hn'. eapply (Hc t u n); [by left | by right | done | done].
      * apply elem_of_list_to_set, elem_of_in_address_order in Hn'.
        apply list_elem_of_lookup in Hu as [i Hi].
        by pose proof (Hd 0%nat (S i) t u n eq_refl Hi Hn' Hn).
      * by apply (Hall u n); [right | |].
    + set_solver.
    + intros u n [-> | Hu]%elem_of_cons Hn; [| by eapply Hin].
      apply Hsub. apply elem_of_union_r, elem_of_union_l, elem_of_list_to_set. set_solver.
  - unfold in_address_order. rewrite std_sort_perm. apply NoDup_elements.
  - intros n Hn. apply (Hall t); [by left | set_solver].
Qed.

(** The SCCs of the partition are the ones that cannot be cloned. *)
Lemma concat_initialSets L d :
  concat (initialSets L d) = filter (λ n, clonable L d n = false) (getNodes (dag L)).
Proof.
  unfold initialSets. induction (filter _ _) as [| n l IH]; simpl; [done |].
  change (n :: concat ((λ n, [n]) <$> l) = n :: l). by rewrite IH.
Qed.

Section partition.
Context `{SCCDAGPartitioner} (L : LoopContent) (d : DSWP).
Hypothesis Hwf : wf (dag L).

Lemma partition_NoDup : NoDup (concat (getDepthOrderedSets L (initialSets L d))).
Proof. rewrite merges_keep_SCCs, concat_initialSets. apply NoDup_filter, Hwf. Qed.

Lemma elem_of_partition n :
  n ∈ concat (getDepthOrderedSets L (initialSets L d)) ↔
  n ∈ getNodes (dag L) ∧ clonable L d n = false.
Proof. rewrite merges_keep_SCCs, concat_initialSets, list_elem_of_filter. tauto. Qed.

(** The stages of the object [d2], made from the partition [ordered]. *)
Record staged (newID : nat → Z) (ordered : list (list Z)) (d2 : DSWP) : Prop := {
  staged_queues : queues d2 = queues d;
  staged_member : memberClonableSCCs d2 = memberClonableSCCs d;
  staged_task i u : tasks d2 !! i = Some u → ∃ s, ordered !! i = Some s ∧
    u = MkTask (newID i) (list_to_set s) (clonableSCCs u) ∅ ∅ ∅ ∅ ∧
    ∀ m, m ∈ clonableSCCs u ↔ clonable L d m = true ∧ ∃ n, n ∈ s ∧ ancestor L n m;
  staged_at i s n : ordered !! i = Some s → n ∈ s →
    sccToStage d2 !! n = Some (Some i) ∧ ∃ u, tasks d2 !! i = Some u ∧ n ∈ stageSCCs u;
}.

Lemma stages_made newID fuel :
  tasks d = [] → (enough_fuel L ≤ fuel)%nat →
  let sets := initialSets L d in
  ∃ d1 d2,
    generateStagesFromPartitionedSCCs newID (getDepthOrderedSets L sets)
      (numberOfPartitions L sets) d = Ok d1 ∧
    addClonableSCCsToStages fuel L d1 = Some d2 ∧ staged newID (getDepthOrderedSets L sets) d2.
Proof.
  intros Hnil Hf sets. pose proof partition_NoDup as Hnd. pose proof elem_of_partition as Hpart.
  fold sets in Hnd, Hpart. unfold numberOfPartitions.
  set (ordered := getDepthOrderedSets L sets) in *. clearbody ordered.
  unfold generateStagesFromPartitionedSCCs.
  destruct (make_tasks newID 0 ordered [] (sccToStage d) (fromTaskIDToUserID d))
    as [[ts toStage] toUser] eqn:Em.
  pose proof (make_tasks_stage _ _ _ _ _ _ _ _ _ Em Hnd) as [Hstage _].
  apply make_tasks_spec in Em as Hts. simpl in Hts. rewrite Hnil. cbn.
  rewrite (proj2 (Z.eqb_eq _ _)) by (by rewrite Hts, length_imap). cbn.
  set (d1 := MkDSWP ts toStage (queues d) toUser (Z.of_nat (length ts)) (memberClonableSCCs d)).
  assert (∀ i t, ts !! i = Some t → ∃ s, ordered !! i = Some s ∧
            t = MkTask (newID i) (list_to_set s) ∅ ∅ ∅ ∅ ∅) as Htask.
  { intros i t. rewrite Hts, list_lookup_imap. by intros (s & Hs & ->)%fmap_Some; eauto. }
  destruct (addClonable_spec L d1 fuel Hwf) as (ts2 & E2 & Hext); [| | done |].
  { intros t n Ht Hn. apply list_elem_of_lookup in Ht as [i Hi].
    destruct (Htask i t Hi) as (s & Hs & ->). apply Hpart, Loops.elem_of_concat.
    exists s. split; [by eapply list_elem_of_lookup_2 | set_solver]. }
  { intros t Ht. apply list_elem_of_lookup in Ht as [i Hi]. by destruct (Htask i t Hi) as (s & _ & ->). }
  exists d1, (set_tasks ts2 d1). split; [done |]. split; [done |]. split; [done | done | |].
  - intros i u Hi. destruct (Forall2_lookup_r _ _ _ _ _ Hext Hi) as (t & Ht & Hu & Hc).
    destruct (Htask i t Ht) as (s & Hs & ->). exists s. split_and!; [done | done |].
    intros m. rewrite Hc. cbn. by setoid_rewrite elem_of_list_to_set.
  - intros i s n Hs Hn. split; [by apply (Hstage i s) |].
    assert (ts !! i = Some (MkTask (newID i) (list_to_set s) ∅ ∅ ∅ ∅ ∅)) as Ht.
    { by rewrite Hts, list_lookup_imap, Hs. }
    destruct (Forall2_lookup_l _ _ _ _ _ Hext Ht) as (u & Hu & Hx & _).
    exists u. split; [done |]. rewrite Hx. cbn. by apply elem_of_list_to_set.
Qed.

(** What a staged object has in its stages. *)
Lemma staged_SCCs newID d2 i u n :
  staged newID (getDepthOrderedSets L (initialSets L d)) d2 →
  tasks d2 !! i = Some u → n ∈ stageSCCs u →
  n ∈ getNodes (dag L) ∧ clonable L d n = false ∧ sccToStage d2 !! n = Some (Some i).
Proof.
  intros Hs Hi Hn. destruct (staged_task _ _ _ Hs i u Hi) as (s & Ho & Hu & _).
  rewrite Hu in Hn. apply elem_of_list_to_set in Hn.
  assert (n ∈ getNodes (dag L) ∧ clonable L d n = false) as [? ?].
  { apply elem_of_partition, Loops.elem_of_concat. exists s. split; [| done].
    by eapply list_elem_of_lookup_2. }
  split_and!; [done | done |]. by apply (staged_at _ _ _ Hs i s).
Qed.

Lemma staged_covers newID d2 n :
  staged newID (getDepthOrderedSets L (initialSets L d)) d2 →
  n ∈ getNodes (dag L) → clonable L d n = false →
  ∃ i u, sccToStage d2 !! n = Some (Some i) ∧ tasks d2 !! i = Some u ∧ n ∈ stageSCCs u.
Proof.
  intros Hs Hn Hc.
  pose proof (proj2 (elem_of_partition n) (conj Hn Hc)) as (s & Hin & Hns)%Loops.elem_of_concat.
  apply list_elem_of_lookup in Hin as [i Hi].
  destruct (staged_at _ _ _ Hs i s n Hi Hns) as (? & u & ? & ?). eauto.
Qed.

Lemma staged_valid newID d2 :
  staged newID (getDepthOrderedSets L (initialSets L d)) d2 →
  isCompleteAndValidStageStructure L d2 = true.
Proof.
  intros Hs. unfold isCompleteAndValidStageStructure.
  destruct (collect_stages_spec (tasks d2) ∅) as (all & -> & Hall); [| | set_solver |].
  - intros i j u v n Hi Hj Hn Hm.
    destruct (staged_SCCs _ _ _ _ _ Hs Hi Hn) as (_ & _ & E).
    destruct (staged_SCCs _ _ _ _ _ Hs Hj Hm) as (_ & _ & E'). congruence.
  - intros t u n Ht Hu Hn Hn'. apply list_elem_of_lookup in Ht as [i Hi], Hu as [j Hj].
    destruct (staged_task _ _ _ Hs i t Hi) as (s & _ & _ & Hcl). apply Hcl in Hn as [Hc _].
    destruct (staged_SCCs _ _ _ _ _ Hs Hj Hn') as (_ & Hc' & _). congruence.
  - apply forallb_forall. intros n Hn%list_elem_of_In. unfold clonable.
    rewrite (staged_member _ _ _ Hs). destruct (canBeCloned _ _) eqn:Hc; [done |].
    destruct (staged_covers _ _ _ Hs Hn Hc) as (i & u & _ & Hi & Hnu). apply bool_decide_eq_true.
    apply (Hall u); [by eapply list_elem_of_lookup_2 | done].
Qed.
End partition.

(** ** The properties *)

(** C24. The traversal of [addClonableSCCsToStages] terminates, and gives every
    stage exactly the clonable SCCs from which a path of dependences leads to an
    SCC of the stage; nothing else of the stage changes. *)
Theorem addClonableSCCsToStages_correct L d fuel :
  wf (dag L) → stages_in_dag L d → (∀ t, t ∈ tasks d → clonableSCCs t = ∅) →
  (enough_fuel L ≤ fuel)%nat →
  ∃ d', addClonableSCCsToStages fuel L d = Some d' ∧
    Forall2 (λ t t', stageSCCs t' = stageSCCs t ∧ taskID t' = taskID t ∧
      ∀ m, m ∈ clonableSCCs t' ↔
           clonable L d m = true ∧ ∃ n, n ∈ stageSCCs t ∧ ancestor L n m)
      (tasks d) (tasks d').
Proof.
  intros Hwf Hin Hempty Hf.
  destruct (addClonable_spec L d fuel Hwf Hin Hempty Hf) as (ts & E & Hts).
  exists (set_tasks ts d). split; [done |]. eapply Forall2_impl; [exact Hts |].
  intros t t' [Ht Hc]. split_and!; [| | done]; by rewrite Ht.
Qed.

(** C20. The assertion [isCompleteAndValidStageStructure] never fails: the
    stages made from any partition the partitioner returns, with the clonable
    SCCs added, have every SCC that cannot be cloned in exactly one of them. *)
Theorem stage_structure_valid `{SCCDAGPartitioner} newID L d fuel :
  wf (dag L) → tasks d = [] → (enough_fuel L ≤ fuel)%nat →
  let sets := initialSets L d in
  ∃ d1 d2,
    generateStagesFromPartitionedSCCs newID (getDepthOrderedSets L sets)
      (numberOfPartitions L sets) d = Ok d1 ∧
    addClonableSCCsToStages fuel L d1 = Some d2 ∧
    isCompleteAndValidStageStructure L d2 = true ∧
    (∀ n, n ∈ getNodes (dag L) → clonable L d n = false →
       ∃ i t, sccToStage d2 !! n = Some (Some i) ∧ tasks d2 !! i = Some t ∧ n ∈ stageSCCs t ∧
         ∀ j u, tasks d2 !! j = Some u → n ∈ stageSCCs u → j = i).
Proof.
  intros Hwf Hnil Hf sets.
  destruct (stages_made L d Hwf newID fuel Hnil Hf) as (d1 & d2 & E1 & E2 & Hs).
  exists d1, d2. split_and!; [done | done | by eapply staged_valid |].
  intros n Hn Hc. destruct (staged_covers L d newID d2 n Hs Hn Hc) as (i & t & Hto & Hi & Hnt).
  exists i, t. split_and!; [done | done | done |]. intros j u Hj Hm.
  destruct (staged_SCCs L d newID d2 j u n Hs Hj Hm) as (_ & _ & E). congruence.
Qed.

(** The partitioner that merges nothing. *)
#[export] Instance trivial_partitioner : SCCDAGPartitioner := {|
  getDepthOrderedSets _ sets := sets;
  merges_keep_SCCs _ _ := Permutation_refl _;
  merges_add_no_set _ _ := le_n _;
|}.

(** In the loop with a PHI, the PHI joins the only stage. *)
Definition demo_object : DSWP := set_memberClonableSCCs {[101]} new_DSWP.

Definition demo_tasks : list DSWPTask := [MkTask 0 {[2]} ∅ ∅ ∅ ∅ ∅].

Lemma addClonableSCCsToStages_correct_witness :
  ∃ d', addClonableSCCsToStages 4 demo_phi_loop (set_tasks demo_tasks demo_object) = Some d' ∧
        clonableSCCs <$> tasks d' = [{[1]}].
Proof.
  destruct (addClonableSCCsToStages_correct demo_phi_loop (set_tasks demo_tasks demo_object) 4)
    as (d' & E & _).
  - apply demo_phi_loop_wf.
  - intros t n ->%list_elem_of_singleton Hn. cbn in Hn. set_solver.
  - by intros t ->%list_elem_of_singleton.
  - cbn. lia.
  - exists d'. split; [done |]. vm_compute in E. by injection E as <-.
Defined.

Lemma stage_structure_valid_witness :
  ∃ d1 d2,
    generateStagesFromPartitionedSCCs Z.of_nat [[2]] 1 demo_object = Ok d1 ∧
    addClonableSCCsToStages 4 demo_phi_loop d1 = Some d2 ∧
    isCompleteAndValidStageStructure demo_phi_loop d2 = true.
Proof.
  destruct (stage_structure_valid Z.of_nat demo_phi_loop demo_object 4 demo_phi_loop_wf eq_refl)
    as (d1 & d2 & E1 & E2 & E3 & _); [cbn; lia |].
  exists d1, d2. done.
Defined.
End Stages.
