(* ===== verification/DswpQueues.v ===== *)
(** * The queues between the stages of a DSWP pipeline

    [Queue.cpp] of [src/src/core/dswp/src], with the constructor of [QueueInfo]
    ([DSWPTask.hpp]) and [createQueueSizesArrayFromStages] ([Pipeline.cpp]):
    which values the stages send to each other, through which queues, and at
    which width.  [DswpApply] composes it with the stages of [DswpStages]; the
    generation of the pushes and pops is not modelled. *)

From S2P Require Import Prelude CppStd Worklist SccDag Noelle TechniqueGuards DswpStages.

Module Queues.
Import SccDag Guards Stages.

(** A [for] loop whose body changes a state or ends the process. *)
Fixpoint for_each {A St : Type} (body : A → St → outcome St) (l : list A) (st : St) : outcome St :=
  match l with
  | [] => Ok st
  | x :: rest => body x st ≫= λ st, for_each body rest st
  end.

(** ** The size of a queue *)

(** What the code asks LLVM about the type of a value, about a branch and about
    the addresses of its own objects. *)
Record Target := MkTarget {
  isPointerTy : Z → bool;
  getTypeAllocSize : Z → Z;
  getPrimitiveSizeInBits : Z → Z;
  blockSuccessors : Z → list Z;   (* of the block of an instruction *)
  nodeAddress : Z * Z → Z;        (* of a value in the graph of an SCC *)
  taskAddress : nat → Z;
}.

(** [pow(2, ceil(log2(n)))]; [log2(0)] is minus infinity, and its power 0. *)
Definition round_up_to_power_of_2 (n : Z) : Z := if n =? 0 then 0 else 2 ^ Z.log2_up n.

Definition queue_bits (T : Target) (producer : Z) (isMemoryDependence : bool) : Z :=
  if isMemoryDependence then 1
  else if isPointerTy T producer then getTypeAllocSize T producer * 8
  else round_up_to_power_of_2 (getPrimitiveSizeInBits T producer).

(** The bits of what goes through a queue: a token for a dependence through
    memory, else the value of the producer. *)
Definition value_bits (T : Target) (q : QueueInfo) : Z :=
  if isMemoryDependence q then 1
  else if isPointerTy T (producer q) then getTypeAllocSize T (producer q) * 8
  else getPrimitiveSizeInBits T (producer q).

Lemma round_up_ge n : n ≤ round_up_to_power_of_2 n.
Proof.
  unfold round_up_to_power_of_2. destruct (Z.eqb_spec n 0) as [-> |]; [done |].
  destruct (Z.leb_spec n 1).
  - pose proof (Z.pow_pos_nonneg 2 (Z.log2_up n) ltac:(lia) (Z.log2_up_nonneg n)). lia.
  - by apply Z.log2_up_spec.
Qed.

Lemma queue_bits_enough T q :
  bitLength q = queue_bits T (producer q) (isMemoryDependence q) → value_bits T q ≤ bitLength q.
Proof.
  intros ->. unfold value_bits, queue_bits. destruct (isMemoryDependence q); [done |].
  destruct (isPointerTy T (producer q)); [done | apply round_up_ge].
Qed.

(** ** registerQueue *)

Definition queues_of (p : Z) (t : DSWPTask) : gset nat := default ∅ (producerToQueues t !! p).

(** A [std::set<int>] is iterated in increasing order. *)
Definition nat_lt (a b : nat) : bool := bool_decide (a < b)%nat.
Definition in_order (s : gset nat) : list nat := std_sort nat_lt (elements s).

(** The first queue of the producer that already goes to the stage. *)
Definition find_queue (qs : list QueueInfo) (to_ : Z) (candidates : list nat) : option nat :=
  head (filter (λ i, toStage <$> qs !! i = Some to_) candidates).

Definition add_push (p : Z) (i : nat) (t : DSWPTask) : DSWPTask :=
  MkTask (taskID t) (stageSCCs t) (Stages.clonableSCCs t)
         (<[p:={[i]} ∪ queues_of p t]> (producerToQueues t))
         (producedPopQueue t) ({[i]} ∪ pushValueQueues t) (popValueQueues t).

Definition add_pop (p : Z) (i : nat) (t : DSWPTask) : DSWPTask :=
  MkTask (taskID t) (stageSCCs t) (Stages.clonableSCCs t) (producerToQueues t)
         (<[p:=i]> (producedPopQueue t)) (pushValueQueues t) ({[i]} ∪ popValueQueues t).

Definition add_consumer (from_ to_ c : Z) (q : QueueInfo) : QueueInfo :=
  MkQueueInfo from_ to_ (isMemoryDependence q) (bitLength q) (producer q) ({[c]} ∪ consumers q).

(** The stages are given by their positions; [queueTypes] is the map of the
    parallelizer from queue sizes. *)
Definition registerQueue (queueTypes : gmap Z Z) (T : Target) (fromI toI : nat) (p c : Z)
    (isMemory : bool) (d : DSWP) : outcome DSWP :=
  match tasks d !! fromI, tasks d !! toI with
  | Some from, Some to =>
      let from_ := s32 (taskID from) in
      let to_ := s32 (taskID to) in
      (match find_queue (queues d) to_ (in_order (queues_of p from)) with
       | Some queueI => Ok (queueI, queues d)
       | None =>
           let q := MkQueueInfo from_ to_ isMemory (queue_bits T p isMemory) p {[c]} in
           if bool_decide (is_Some (queueTypes !! bitLength q))
           then Ok (length (queues d), queues d ++ [q])
           else Fail Aborted
       end) ≫= λ '(queueIndex, qs),
      Ok (MkDSWP (alter (add_pop p queueIndex) toI (alter (add_push p queueIndex) fromI (tasks d)))
                 (sccToStage d) (alter (add_consumer from_ to_ c) queueIndex qs)
                 (fromTaskIDToUserID d) (numTaskInstances d) (memberClonableSCCs d))
  | _, _ => Fail UndefinedBehaviour
  end.

(** ** collectDataAndMemoryQueueInfo *)

(** [sccToStage[scc]]: a missing key is inserted, with the null pointer. *)
Definition stage_of (scc : Z) (d : DSWP) : option nat * DSWP :=
  match sccToStage d !! scc with
  | Some s => (s, d)
  | None => (None, MkDSWP (tasks d) (<[scc:=None]> (sccToStage d)) (queues d)
                          (fromTaskIDToUserID d) (numTaskInstances d) (memberClonableSCCs d))
  end.

Section collect.
Context (queueTypes : gmap Z Z) (T : Target) (L : LoopContent).

Definition collect_dependence (from : option nat) (toI : nat) (dep : dependence) (d : DSWP)
    : outcome DSWP :=
  if isControl dep then Ok d
  else
    assert_that (isInstruction (ir L) (getSrc dep) && isInstruction (ir L) (getDst dep)) ≫= λ _,
    assert_that (negb (isMemory dep)) ≫= λ _,
    match from with
    | None => Fail UndefinedBehaviour
    | Some fromI => registerQueue queueTypes T fromI toI (getSrc dep) (getDst dep) (isMemory dep) d
    end.

Definition collect_edge (toI : nat) (e : scc_edge) (d : DSWP) : outcome DSWP :=
  if clonable L d (fromSCC e) then Ok d
  else
    let '(from, d) := stage_of (fromSCC e) d in
    if bool_decide (from = Some toI) then Ok d
    else for_each (collect_dependence from toI) (getSubEdges e) d.

Definition collect_stage (toI : nat) (d : DSWP) : outcome DSWP :=
  match tasks d !! toI with
  | None => Ok d
  | Some to =>
      for_each (λ scc, for_each (collect_edge toI) (getIncomingEdges (dag L) scc))
               (in_address_order (Stages.clonableSCCs to ∪ stageSCCs to)) d
  end.

Definition collectDataAndMemoryQueueInfo (d : DSWP) : outcome DSWP :=
  for_each collect_stage (seq 0 (length (tasks d))) d.

(** ** collectTransitivelyControlledTasks *)

(** [sccToStage.at(scc)]. *)
Definition stage_at (scc : Z) (d : DSWP) : outcome (option nat) :=
  match sccToStage d !! scc with Some s => Ok s | None => Fail Thrown end.

Definition getTaskOfNode (d : DSWP) (n : Z) : outcome (option nat) :=
  if clonable L d n then Ok None else stage_at n d.

Definition control_edge (d : DSWP) (_ dependent : Z) (found : outcome (gset nat))
    : outcome (gset nat) :=
  found ≫= λ s : gset nat,
  getTaskOfNode d dependent ≫= λ t : option nat,
  Ok (match t with Some i => {[i]} ∪ s | None => s end).

(** [None]: out of fuel. *)
Definition collectTransitivelyControlledTasks (fuel : nat) (branch : Z) (d : DSWP)
    : option (outcome (gset nat)) :=
  let controllingNode := sccOfValue (dag L) branch in
  match getTaskOfNode d controllingNode with
  | Fail e => Some (Fail e)
  | Ok controllingTask =>
      '(_, found) ← Worklist.expand (children (dag L)) (control_edge d) fuel [controllingNode] ∅ (Ok ∅);
      Some (found ≫= λ s : gset nat,
            Ok (match controllingTask with Some i => s ∖ {[i]} | None => s end))
  end.

(** ** collectControlQueueInfo *)

(** A value in the graph of an SCC. *)
Definition incoming (n : Z * Z) : list dependence :=
  filter (λ e, getDst e = n.2) (getEdges (dag L) n.1).

(** The controlling nodes with data dependences. *)
Definition conditional_branch (d : DSWP) (scc : Z) (e : dependence) : option (Z * Z) :=
  if negb (isControl e) then None
  else
    let controlNode := (scc, getSrc e) in
    if clonable L d (sccOfValue (dag L) (getSrc e)) then None
    else if existsb (λ i, negb (isControl i)) (incoming controlNode) then Some controlNode
    else None.

Definition conditionalBranchNodes (d : DSWP) : gset (Z * Z) :=
  list_to_set (concat ((λ scc, omap (conditional_branch d scc) (getEdges (dag L) scc))
                         <$> getNodes (dag L))).

Fixpoint conditions (d : DSWP) (deps : list dependence) (found : gset Z) : outcome (gset Z) :=
  match deps with
  | [] => Ok found
  | e :: rest =>
      assert_that (negb (isMemory e)) ≫= λ _,
      if isControl e then conditions d rest found
      else if clonable L d (sccOfValue (dag L) (getSrc e)) then conditions d rest found
      else assert_that (isInstruction (ir L) (getSrc e)) ≫= λ _,
           conditions d rest ({[getSrc e]} ∪ found)
  end.

Definition isControllingLoopExit (branch : Z) : bool :=
  existsb (λ b, bool_decide (b ∈ getLoopExitBasicBlocks L)) (blockSuccessors T branch).

Definition tasksControlledByCondition (fuel : nat) (branch : Z) (d : DSWP)
    : option (outcome (gset nat)) :=
  if isControllingLoopExit branch
  then Some (Ok (list_to_set (seq 0 (length (tasks d)))))
  else collectTransitivelyControlledTasks fuel branch d.

(** A [std::set<Task *>] is iterated in the order of the addresses. *)
Definition tasks_in_order (s : gset nat) : list nat :=
  std_sort (λ i j, taskAddress T i <? taskAddress T j) (elements s).

Definition register_control (taskOfCondition : option nat) (conds : gset Z) (branch : Z)
    (taskControlled : nat) (d : DSWP) : outcome DSWP :=
  if bool_decide (taskOfCondition = Some taskControlled) then Ok d
  else
    match taskOfCondition with
    | None => Fail UndefinedBehaviour
    | Some i => for_each (λ condition, registerQueue queueTypes T i taskControlled condition branch false)
                         (in_address_order conds) d
    end.

Definition collect_branch (fuel : nat) (n : Z * Z) (d : DSWP) : option (outcome DSWP) :=
  match conditions d (incoming n) ∅ ≫= λ conds : gset Z,
        assert_that (size conds =? 1)%nat ≫= λ _, Ok conds with
  | Fail e => Some (Fail e)
  | Ok conds =>
      controlled ← tasksControlledByCondition fuel n.2 d;
      Some (controlled ≫= λ tasksControlled : gset nat,
            stage_at (sccOfValue (dag L) n.2) d ≫= λ taskOfCondition : option nat,
            for_each (register_control taskOfCondition conds n.2) (tasks_in_order tasksControlled) d)
  end.

(** The loop over the branches. *)
Fixpoint collect_branches (fuel : nat) (nodes : list (Z * Z)) (d : DSWP) : option (outcome DSWP) :=
  match nodes with
  | [] => Some (Ok d)
  | n :: rest =>
      r ← collect_branch fuel n d;
      match r with Ok d => collect_branches fuel rest d | Fail e => Some (Fail e) end
  end.

Definition collectControlQueueInfo (fuel : nat) (d : DSWP) : option (outcome DSWP) :=
  collect_branches fuel
    (std_sort (λ a b, nodeAddress T a <? nodeAddress T b) (elements (conditionalBranchNodes d))) d.
End collect.

(** ** areQueuesAcyclical *)

(** The scans of the push and of the pop queues of the task at position [i]. *)
Definition queues_of_task_acyclical (qs : list QueueInfo) (i : nat) (t : DSWPTask) : bool :=
  forallb (λ q, match qs !! q with
                | Some x => negb (u64 (toStage x) <=? Z.of_nat i) | None => false end)
          (in_order (pushValueQueues t)) &&
  forallb (λ q, match qs !! q with
                | Some x => negb (Z.of_nat i <=? u64 (fromStage x)) | None => false end)
          (in_order (popValueQueues t)).

Definition areQueuesAcyclical (d : DSWP) : bool :=
  forallb id (imap (queues_of_task_acyclical (queues d)) (tasks d)).

(** ** createQueueSizesArrayFromStages *)

Definition createQueueSizesArrayFromStages (d : DSWP) : list Z := bitLength <$> queues d.

(** ** Loops *)

Lemma for_each_inv {A St} (body : A → St → outcome St) (I : St → Prop) l st st' :
  (∀ x s s', x ∈ l → I s → body x s = Ok s' → I s') →
  for_each body l st = Ok st' → I st → I st'.
Proof.
  revert st. induction l as [| x l IH]; intros st Hb E Hi; simpl in E; [by injection E as <- |].
  apply bind_Ok_inv in E as (s & Es & E). apply (IH s); [| done |].
  - intros y s1 s2 Hy. apply Hb. by right.
  - eapply Hb; [by left | done | done].
Qed.

(** Every round establishes its fact, and no round destroys one. *)
Lemma for_each_establishes {A St} (body : A → St → outcome St) (I : St → Prop) (Q : A → St → Prop)
    l st st' :
  (∀ x s s', x ∈ l → I s → body x s = Ok s' → I s' ∧ Q x s') →
  (∀ x y s s', x ∈ l → y ∈ l → I s → body x s = Ok s' → Q y s → Q y s') →
  for_each body l st = Ok st' → I st → I st' ∧ ∀ x, x ∈ l → Q x st'.
Proof.
  revert st. induction l as [| x l IH]; intros st Hb Hp E Hi; simpl in E.
  { injection E as <-. split; [done |]. by intros ? ?%not_elem_of_nil. }
  apply bind_Ok_inv in E as (s & Es & E).
  destruct (Hb x st s) as [Hs Hx]; [by left | done | done |].
  destruct (IH s) as [Hst' Hl]; [| | done | done |].
  - intros y s1 s2 Hy. apply Hb. by right.
  - intros y z s1 s2 Hy Hz. apply Hp; by right.
  - split; [done |]. intros y [-> | Hy]%elem_of_cons; [| by apply Hl].
    apply (for_each_inv body (λ s, I s ∧ Q x s) l s st'); [| done | done].
    intros z s1 s2 Hz [H1 H2] Hb'. split.
    + eapply (Hb z s1); [by right | done | done].
    + eapply (Hp z x s1 s2); [by right | by left | done | done | done].
Qed.

(** ** The tables of the stages and of the queues agree *)

(** What no queue operation changes. *)
Definition shape (d : DSWP) :=
  ((λ t, (taskID t, stageSCCs t, Stages.clonableSCCs t)) <$> tasks d, memberClonableSCCs d).

(** NOELLE's identifiers tell the stages apart, also as [int]s. *)
Definition distinct_IDs (d : DSWP) : Prop :=
  ∀ i j t u, tasks d !! i = Some t → tasks d !! j = Some u →
    s32 (taskID t) = s32 (taskID u) → i = j.

Section wf.
Context (queueTypes : gmap Z Z) (T : Target).

(** A queue is pushed by one stage, which lists it under its producer, and popped
    by another one, which has a queue for that producer; its size is one of the
    runtime's. *)
Record queue_wf (d : DSWP) (idx : nat) (q : QueueInfo) : Prop := {
  qw_ends : ∃ i j t u, i ≠ j ∧ tasks d !! i = Some t ∧ tasks d !! j = Some u ∧
    fromStage q = s32 (taskID t) ∧ toStage q = s32 (taskID u) ∧
    idx ∈ pushValueQueues t ∧ idx ∈ popValueQueues u ∧ idx ∈ queues_of (producer q) t ∧
    is_Some (producedPopQueue u !! producer q);
  qw_bits : is_Some (queueTypes !! bitLength q);
  qw_size : bitLength q = queue_bits T (producer q) (isMemoryDependence q);
}.

(** What a stage says of a queue is true of the queue. *)
Record task_wf (d : DSWP) (t : DSWPTask) : Prop := {
  tw_push idx : idx ∈ pushValueQueues t →
    ∃ q, queues d !! idx = Some q ∧ fromStage q = s32 (taskID t);
  tw_pop idx : idx ∈ popValueQueues t →
    ∃ q, queues d !! idx = Some q ∧ toStage q = s32 (taskID t);
  tw_producer p idx : idx ∈ queues_of p t →
    ∃ q, queues d !! idx = Some q ∧ fromStage q = s32 (taskID t) ∧ producer q = p;
  tw_popped p idx : producedPopQueue t !! p = Some idx →
    ∃ q, queues d !! idx = Some q ∧ toStage q = s32 (taskID t) ∧ producer q = p;
}.

Record queues_wf (d : DSWP) : Prop := {
  wf_queue idx q : queues d !! idx = Some q → queue_wf d idx q;
  wf_task i t : tasks d !! i = Some t → task_wf d t;
  wf_unique i j q x : queues d !! i = Some q → queues d !! j = Some x →
    producer q = producer x → fromStage q = fromStage x → toStage q = toStage x → i = j;
}.

(** A new object has no queues. *)
Lemma no_queues_wf d : queues d = [] →
  (∀ i t, tasks d !! i = Some t →
     producerToQueues t = ∅ ∧ producedPopQueue t = ∅ ∧ pushValueQueues t = ∅ ∧ popValueQueues t = ∅) →
  queues_wf d.
Proof.
  intros Hq Ht. split; rewrite ?Hq; [done | | done].
  intros i t Hi. destruct (Ht i t Hi) as (H1 & H2 & H3 & H4).
  split; unfold queues_of; rewrite ?H1, ?H2, ?H3, ?H4; intros *; rewrite ?lookup_empty; set_solver.
Qed.

(** The queue under which the stage that pops a queue knows its producer: that
    queue, unless the producer reaches the stage through another stage too. *)
Lemma popped_under_producer d idx q j u :
  distinct_IDs d → queues_wf d → queues d !! idx = Some q → tasks d !! j = Some u →
  idx ∈ popValueQueues u →
  ∃ k x, producedPopQueue u !! producer q = Some k ∧ queues d !! k = Some x ∧
    producer x = producer q ∧ toStage x = toStage q ∧ (fromStage x = fromStage q → k = idx).
Proof.
  intros Hids Hwf Hq Hu Hpop.
  destruct (tw_pop _ _ (wf_task _ Hwf j u Hu) idx Hpop) as (q' & Hq' & Et). simplify_eq.
  destruct (qw_ends _ _ _ (wf_queue _ Hwf idx q Hq)) as
    (i & j' & t & u' & _ & _ & Hu' & _ & Et' & _ & _ & _ & [k Hk]).
  assert (j' = j) as -> by (eapply Hids; [done | done | congruence]). simplify_eq.
  destruct (tw_popped _ _ (wf_task _ Hwf j u Hu) _ _ Hk) as (x & Hx & Ex & Ep).
  exists k, x. split_and!; [done | done | done | congruence |].
  intros Ef. eapply (wf_unique _ Hwf); [done | done | done | done | congruence].
Qed.

(** ** registerQueue *)

Lemma elem_of_in_order s i : i ∈ in_order s ↔ i ∈ s.
Proof. unfold in_order. by rewrite std_sort_perm, elem_of_elements. Qed.

Lemma find_queue_Some qs to_ l i :
  find_queue qs to_ l = Some i → i ∈ l ∧ ∃ q, qs !! i = Some q ∧ toStage q = to_.
Proof.
  unfold find_queue. intros H.
  assert (i ∈ filter (λ i, toStage <$> qs !! i = Some to_) l) as [Hq Hi]%list_elem_of_filter.
  { destruct (filter _ l); simplify_eq/=. left. }
  split; [done |]. apply fmap_Some in Hq as (q & ? & ->). eauto.
Qed.

Lemma find_queue_None qs to_ l i q :
  find_queue qs to_ l = None → i ∈ l → qs !! i = Some q → toStage q ≠ to_.
Proof.
  unfold find_queue. intros H Hi Hq Ht.
  assert (i ∈ filter (λ i, toStage <$> qs !! i = Some to_) l) as Hf.
  { apply list_elem_of_filter. split; [by rewrite Hq, <- Ht | done]. }
  destruct (filter _ l); [by apply not_elem_of_nil in Hf | done].
Qed.

Lemma alter_as_insert {A} (f : A → A) (l : list A) (i : nat) x : l !! i = Some x → alter f i l = <[i:=f x]> l.
Proof. intros Hx. rewrite list_insert_alter. apply list_alter_ext; [| done]. congruence. Qed.

(** The two ways [registerQueue] goes: the queue [idx] is extended by a
    consumer, or appended. *)
Lemma registerQueue_inv fromI toI p c isMem d d' :
  distinct_IDs d → queues_wf d → registerQueue queueTypes T fromI toI p c isMem d = Ok d' →
  ∃ from to idx qs q, tasks d !! fromI = Some from ∧ tasks d !! toI = Some to ∧
    d' = MkDSWP (alter (add_pop p idx) toI (alter (add_push p idx) fromI (tasks d)))
           (sccToStage d) qs (fromTaskIDToUserID d) (numTaskInstances d) (memberClonableSCCs d) ∧
    qs !! idx = Some q ∧ fromStage q = s32 (taskID from) ∧ toStage q = s32 (taskID to) ∧
    producer q = p ∧ c ∈ consumers q ∧ is_Some (queueTypes !! bitLength q) ∧
    bitLength q = queue_bits T p (isMemoryDependence q) ∧
    ((∃ q0, queues d !! idx = Some q0 ∧ qs = <[idx:=q]> (queues d) ∧ producer q0 = p ∧
        fromStage q0 = fromStage q ∧ toStage q0 = toStage q ∧ consumers q0 ⊆ consumers q) ∨
     (idx = length (queues d) ∧ qs = queues d ++ [q] ∧
        ∀ i q0, queues d !! i = Some q0 → fromStage q0 = fromStage q → toStage q0 = toStage q →
                producer q0 ≠ p)).
Proof.
  intros Hids Hwf E. unfold registerQueue in E.
  destruct (tasks d !! fromI) as [from |] eqn:Hfrom; [| done].
  destruct (tasks d !! toI) as [to |] eqn:Hto; [| done].
  apply bind_Ok_inv in E as ([idx qs] & Ef & [= <-]). exists from, to, idx.
  destruct (find_queue _ _ _) as [i |] eqn:Hfind.
  - injection Ef as <- <-.
    apply find_queue_Some in Hfind as (Hi%elem_of_in_order & q & Hq & Hto').
    destruct (tw_producer _ _ (wf_task _ Hwf _ _ Hfrom) _ _ Hi) as (q' & Hq' & Hf & Hp).
    rewrite Hq in Hq'. injection Hq' as <-.
    exists (<[i:=add_consumer (s32 (taskID from)) (s32 (taskID to)) c q]> (queues d)),
      (add_consumer (s32 (taskID from)) (s32 (taskID to)) c q).
    split_and!; try done.
    + by rewrite (alter_as_insert _ _ _ _ Hq).
    + by rewrite list_lookup_insert_eq by (by eapply lookup_lt_Some).
    + set_solver.
    + apply (wf_queue _ Hwf i q Hq).
    + cbn. rewrite <- Hp. apply (wf_queue _ Hwf i q Hq).
    + left. exists q. split_and!; try done. set_solver.
  - case_bool_decide as Hb; [| done]. injection Ef as <- <-.
    set (q := MkQueueInfo _ _ _ _ _ _).
    exists (queues d ++ [q]), q. split_and!; try done.
    + f_equal. rewrite alter_app_r_alt, Nat.sub_diag by done. do 2 f_equal. subst q.
      unfold add_consumer. cbn. by rewrite union_idemp_L.
    + by rewrite list_lookup_middle.
    + set_solver.
    + right. split_and!; [done | done |]. intros i q0 Hq0 Hf Ht Hp.
      destruct (wf_queue _ Hwf i q0 Hq0) as [(i1 & j1 & t & u & _ & Ht1 & _ & Hf' & _ & _ & _ & Hin & _) _ _].
      assert (i1 = fromI) as ->. { eapply Hids; [done | done |]. by rewrite <- Hf', Hf. }
      simplify_eq/=. eapply find_queue_None; [done | by apply elem_of_in_order | done | done].
Qed.

(** What [registerQueue] does to the task at position [k]. *)
Definition upd_task (fromI toI : nat) (p : Z) (idx k : nat) (t : DSWPTask) : DSWPTask :=
  let t := if decide (k = fromI) then add_push p idx t else t in
  if decide (k = toI) then add_pop p idx t else t.

(** The effect of a successful [registerQueue], with the queue [idx] it used. *)
Record registered (fromI toI : nat) (p c : Z) (d d' : DSWP) (idx : nat) : Prop := {
  rg_tasks k : tasks d' !! k = upd_task fromI toI p idx k <$> tasks d !! k;
  rg_keep i q : queues d !! i = Some q → ∃ q', queues d' !! i = Some q' ∧
    producer q' = producer q ∧ fromStage q' = fromStage q ∧ toStage q' = toStage q ∧
    consumers q ⊆ consumers q';
  rg_old i q : queues d' !! i = Some q → i = idx ∨ queues d !! i = Some q;
  rg_queue : ∃ q from to, queues d' !! idx = Some q ∧ tasks d !! fromI = Some from ∧
    tasks d !! toI = Some to ∧ fromStage q = s32 (taskID from) ∧ toStage q = s32 (taskID to) ∧
    producer q = p ∧ c ∈ consumers q ∧ is_Some (queueTypes !! bitLength q) ∧
    bitLength q = queue_bits T p (isMemoryDependence q) ∧
    ∀ i q0, queues d !! i = Some q0 → producer q0 = p → fromStage q0 = fromStage q →
            toStage q0 = toStage q → i = idx;
  rg_rest : sccToStage d' = sccToStage d ∧ memberClonableSCCs d' = memberClonableSCCs d;
}.

Lemma registerQueue_registered fromI toI p c isMem d d' :
  distinct_IDs d → queues_wf d → registerQueue queueTypes T fromI toI p c isMem d = Ok d' →
  ∃ idx, registered fromI toI p c d d' idx.
Proof.
  intros Hids Hwf E. apply registerQueue_inv in E as
    (from & to & idx & qs & q & Hfrom & Hto & -> & Hq & Hf & Ht & Hp & Hc & Hb & Hs & Hcase);
    [| done | done].
  exists idx. split; cbn; [| | | | done].
  - intros k. unfold upd_task. destruct (decide (k = toI)) as [-> | Hk].
    + rewrite list_lookup_alter_eq. destruct (decide (toI = fromI)) as [-> | Hk'].
      * rewrite list_lookup_alter_eq. by rewrite Hfrom.
      * rewrite list_lookup_alter_ne by done. by rewrite Hto.
    + rewrite list_lookup_alter_ne by done. destruct (decide (k = fromI)) as [-> | Hk'].
      * rewrite list_lookup_alter_eq. by rewrite Hfrom.
      * rewrite list_lookup_alter_ne by done. by destruct (tasks d !! k).
  - intros i q0 Hi. destruct Hcase as [(q1 & Hq1 & -> & Hp1 & Hf1 & Ht1 & Hc1) | (-> & -> & _)].
    + destruct (decide (i = idx)) as [-> | Hne]; [| exists q0; by rewrite list_lookup_insert_ne].
      simplify_eq. exists q. split_and!; try done; congruence.
    + exists q0. by rewrite (lookup_app_l_Some _ _ _ _ Hi).
  - intros i q0 Hi. destruct Hcase as [(q1 & Hq1 & -> & _) | (-> & -> & _)].
    + destruct (decide (i = idx)) as [-> | Hne]; [by left | right]. by rewrite list_lookup_insert_ne in Hi.
    + apply lookup_app_Some in Hi as [Hi | [Hle Hi]]; [by right |].
      left. apply list_lookup_singleton_Some in Hi as [Hi _]. lia.
  - exists q, from, to. split_and!; try done. intros i q0 Hi Hp0 Hf0 Ht0.
    destruct Hcase as [(q1 & Hq1 & _ & Hp1 & Hf1 & Ht1 & _) | (_ & _ & Hno)].
    + eapply wf_unique; [exact Hwf | exact Hi | exact Hq1 | congruence | congruence | congruence].
    + by destruct (Hno i q0 Hi Hf0 Ht0).
Qed.

(** The parts of an updated task. *)
Lemma upd_task_ID fromI toI p idx k t : taskID (upd_task fromI toI p idx k t) = taskID t.
Proof. unfold upd_task. by repeat case_decide. Qed.

Lemma upd_task_push fromI toI p idx k t i :
  i ∈ pushValueQueues (upd_task fromI toI p idx k t) ↔ (k = fromI ∧ i = idx) ∨ i ∈ pushValueQueues t.
Proof. unfold upd_task. repeat case_decide; cbn; set_solver. Qed.

Lemma upd_task_pop fromI toI p idx k t i :
  i ∈ popValueQueues (upd_task fromI toI p idx k t) ↔ (k = toI ∧ i = idx) ∨ i ∈ popValueQueues t.
Proof. unfold upd_task. repeat case_decide; cbn; set_solver. Qed.

Lemma upd_task_producer fromI toI p idx k t p' i :
  i ∈ queues_of p' (upd_task fromI toI p idx k t) ↔
  (k = fromI ∧ p' = p ∧ i = idx) ∨ i ∈ queues_of p' t.
Proof.
  assert (∀ u, i ∈ queues_of p' (add_push p idx u) ↔ (p' = p ∧ i = idx) ∨ i ∈ queues_of p' u) as Hpush.
  { intros u. unfold queues_of at 1. cbn. destruct (decide (p' = p)) as [-> | Hne].
    - rewrite lookup_insert_eq. cbn. set_solver.
    - rewrite lookup_insert_ne by done. unfold queues_of. naive_solver. }
  assert (∀ u, queues_of p' (add_pop p idx u) = queues_of p' u) as Hpop by done.
  unfold upd_task. destruct (decide (k = fromI)), (decide (k = toI));
    rewrite ?Hpop, ?Hpush; tauto.
Qed.

Lemma upd_task_popped fromI toI p idx k t p' i :
  producedPopQueue (upd_task fromI toI p idx k t) !! p' = Some i →
  (k = toI ∧ p' = p ∧ i = idx) ∨ producedPopQueue t !! p' = Some i.
Proof.
  unfold upd_task. repeat case_decide; subst; cbn; auto;
    (destruct (decide (p' = p)) as [-> |]; [rewrite lookup_insert_eq | rewrite lookup_insert_ne by done];
     [intros [= ->]; auto | auto]).
Qed.

(** A stage never forgets that it has a queue for a producer. *)
Lemma upd_task_popped_Some fromI toI p idx k t p' :
  (k = toI ∧ p' = p) ∨ is_Some (producedPopQueue t !! p') →
  is_Some (producedPopQueue (upd_task fromI toI p idx k t) !! p').
Proof.
  unfold upd_task. intros Hcase.
  assert (producedPopQueue (if decide (k = fromI) then add_push p idx t else t) = producedPopQueue t)
    as E by by case_decide.
  destruct (decide (k = toI)) as [-> | Hk]; cbn; rewrite E; [| naive_solver].
  destruct (decide (p' = p)) as [-> |]; [by rewrite lookup_insert_eq |].
  rewrite lookup_insert_ne by done. naive_solver.
Qed.

(** A queue of the object before the call is still known after it. *)
Lemma registered_keeps fromI toI p c d d' idx i q :
  registered fromI toI p c d d' idx → queues d !! i = Some q →
  ∃ q', queues d' !! i = Some q' ∧ producer q' = producer q ∧ fromStage q' = fromStage q ∧
        toStage q' = toStage q.
Proof. intros Hr Hq. destruct (rg_keep _ _ _ _ _ _ _ Hr i q Hq) as (q' & ? & ? & ? & ? & _). eauto. Qed.

Lemma registered_task_wf fromI toI p c d d' idx k t :
  registered fromI toI p c d d' idx → tasks d !! k = Some t → task_wf d t →
  task_wf d' (upd_task fromI toI p idx k t).
Proof.
  intros Hr Hk Ht.
  destruct (rg_queue _ _ _ _ _ _ _ Hr) as (q & from & to & Hq & Hfrom & Hto & Hqf & Hqt & Hqp & _).
  split; rewrite ?upd_task_ID.
  - intros i [[-> ->] | Hi]%upd_task_push; [simplify_eq; eauto |].
    destruct (tw_push _ _ Ht i Hi) as (q0 & Hq0 & Hf0).
    destruct (registered_keeps _ _ _ _ _ _ _ _ _ Hr Hq0) as (q' & ? & _ & Hf' & _).
    exists q'. by rewrite Hf'.
  - intros i [[-> ->] | Hi]%upd_task_pop; [simplify_eq; eauto |].
    destruct (tw_pop _ _ Ht i Hi) as (q0 & Hq0 & Hf0).
    destruct (registered_keeps _ _ _ _ _ _ _ _ _ Hr Hq0) as (q' & ? & _ & _ & Ht').
    exists q'. by rewrite Ht'.
  - intros p' i [(-> & -> & ->) | Hi]%upd_task_producer; [simplify_eq; eauto |].
    destruct (tw_producer _ _ Ht p' i Hi) as (q0 & Hq0 & Hf0 & Hp0).
    destruct (registered_keeps _ _ _ _ _ _ _ _ _ Hr Hq0) as (q' & ? & Hp' & Hf' & _).
    exists q'. by rewrite Hf', Hp'.
  - intros p' i [(-> & -> & ->) | Hi]%upd_task_popped; [simplify_eq; eauto |].
    destruct (tw_popped _ _ Ht p' i Hi) as (q0 & Hq0 & Hf0 & Hp0).
    destruct (registered_keeps _ _ _ _ _ _ _ _ _ Hr Hq0) as (q' & ? & Hp' & _ & Ht').
    exists q'. by rewrite Ht', Hp'.
Qed.

Lemma registered_queue_wf fromI toI p c d d' idx i q :
  fromI ≠ toI → registered fromI toI p c d d' idx → queues d' !! i = Some q →
  (queues d !! i = Some q → queue_wf d i q) → queue_wf d' i q.
Proof.
  intros Hne Hr Hi Hold.
  destruct (rg_old _ _ _ _ _ _ _ Hr i q Hi) as [-> | Hi'].
  - destruct (rg_queue _ _ _ _ _ _ _ Hr) as
      (q' & from & to & Hq & Hfrom & Hto & Hqf & Hqt & Hqp & _ & Hb & Hs & _).
    simplify_eq. split; [| done | done].
    exists fromI, toI, (upd_task fromI toI (producer q) idx fromI from),
      (upd_task fromI toI (producer q) idx toI to).
    rewrite !(rg_tasks _ _ _ _ _ _ _ Hr), Hfrom, Hto, !upd_task_ID.
    rewrite upd_task_push, upd_task_pop, upd_task_producer. split_and!; auto using upd_task_popped_Some.
  - destruct (Hold Hi') as [(i1 & j1 & t & u & Hij & Ht & Hu & Hf & Hto & Hpu & Hpo & Hpr & Hpp) Hb Hs].
    split; [| done | done].
    exists i1, j1, (upd_task fromI toI p idx i1 t), (upd_task fromI toI p idx j1 u).
    rewrite !(rg_tasks _ _ _ _ _ _ _ Hr), Ht, Hu, !upd_task_ID.
    rewrite upd_task_push, upd_task_pop, upd_task_producer. split_and!; auto using upd_task_popped_Some.
Qed.

Lemma registered_wf fromI toI p c d d' idx :
  fromI ≠ toI → queues_wf d → registered fromI toI p c d d' idx → queues_wf d'.
Proof.
  intros Hne Hwf Hr. split.
  - intros i q Hi. eapply registered_queue_wf; [done | done | done | apply (wf_queue _ Hwf)].
  - intros k t'. rewrite (rg_tasks _ _ _ _ _ _ _ Hr). intros (t & Hk & ->)%fmap_Some.
    eapply registered_task_wf; [done | done |]. by apply (wf_task _ Hwf k).
  - assert (∀ j q x, queues d' !! idx = Some q → queues d !! j = Some x →
              producer q = producer x → fromStage q = fromStage x → toStage q = toStage x →
              j = idx) as Hidx.
    { intros j q x Hq Hx Hp Hf Ht. destruct (rg_queue _ _ _ _ _ _ _ Hr) as
        (q' & from & to & Hq' & _ & _ & Hqf & Hqt & Hqp & _ & _ & _ & Hu).
      simplify_eq. by eapply Hu. }
    intros i j q x Hi Hj Hp Hf Ht.
    destruct (rg_old _ _ _ _ _ _ _ Hr i q Hi) as [-> | Hi'],
      (rg_old _ _ _ _ _ _ _ Hr j x Hj) as [-> | Hj']; [done | | |].
    + symmetry. by eapply Hidx.
    + by eapply Hidx.
    + by eapply (wf_unique _ Hwf i j).
Qed.

Lemma registered_shape fromI toI p c d d' idx :
  registered fromI toI p c d d' idx → shape d' = shape d ∧ sccToStage d' = sccToStage d.
Proof.
  intros Hr. destruct (rg_rest _ _ _ _ _ _ _ Hr) as [? Hm]. split; [| done].
  unfold shape. f_equal; [| done]. apply list_eq. intros k.
  rewrite !list_lookup_fmap, (rg_tasks _ _ _ _ _ _ _ Hr).
  destruct (tasks d !! k) as [t |]; [| done]. cbn. f_equal. unfold upd_task.
  by repeat case_decide.
Qed.

Lemma shape_distinct d d' : shape d' = shape d → distinct_IDs d → distinct_IDs d'.
Proof.
  unfold shape. intros [= Hs _] Hids i j t u Hi Hj Heq.
  assert (∀ k x, tasks d' !! k = Some x → ∃ y, tasks d !! k = Some y ∧ taskID y = taskID x) as Hk.
  { intros k x Hx. apply (f_equal (.!! k)) in Hs. rewrite !list_lookup_fmap, Hx in Hs. cbn in Hs.
    symmetry in Hs. apply fmap_Some in Hs as (y & ? & [= -> _ _]). eauto. }
  destruct (Hk i t Hi) as (t0 & Ht0 & E0), (Hk j u Hj) as (u0 & Hu0 & E1).
  eapply Hids; [exact Ht0 | exact Hu0 | congruence].
Qed.

(** The value [p] reaches its consumer [c]: the stage [i] pushes it on a queue
    the stage [j] pops. *)
Definition served (d : DSWP) (i j : nat) (p c : Z) : Prop :=
  ∃ idx q t u, queues d !! idx = Some q ∧ tasks d !! i = Some t ∧ tasks d !! j = Some u ∧
    producer q = p ∧ c ∈ consumers q ∧ fromStage q = s32 (taskID t) ∧ toStage q = s32 (taskID u) ∧
    idx ∈ pushValueQueues t ∧ idx ∈ popValueQueues u.

Lemma registered_serves fromI toI p c d d' idx :
  registered fromI toI p c d d' idx → served d' fromI toI p c.
Proof.
  intros Hr. destruct (rg_queue _ _ _ _ _ _ _ Hr) as
    (q & from & to & Hq & Hfrom & Hto & Hqf & Hqt & Hqp & Hc & _).
  exists idx, q, (upd_task fromI toI p idx fromI from), (upd_task fromI toI p idx toI to).
  rewrite !(rg_tasks _ _ _ _ _ _ _ Hr), Hfrom, Hto, !upd_task_ID, upd_task_push, upd_task_pop.
  split_and!; auto.
Qed.

Lemma registered_served fromI toI p c d d' idx i j p' c' :
  registered fromI toI p c d d' idx → served d i j p' c' → served d' i j p' c'.
Proof.
  intros Hr (k & q & t & u & Hq & Ht & Hu & Hp & Hc & Hf & Hto & Hpu & Hpo).
  destruct (rg_keep _ _ _ _ _ _ _ Hr k q Hq) as (q' & Hq' & Hp' & Hf' & Ht' & Hc').
  exists k, q', (upd_task fromI toI p idx i t), (upd_task fromI toI p idx j u).
  rewrite !(rg_tasks _ _ _ _ _ _ _ Hr), Ht, Hu, !upd_task_ID, upd_task_push, upd_task_pop.
  split_and!; auto; congruence || set_solver.
Qed.

(** ** The loops that register queues *)

Context (L : LoopContent).

(** What every round keeps: the tables agree, and the stages are the ones of
    the object [d0] the loops started from. *)
Record good (d0 d : DSWP) : Prop := {
  gd_wf : queues_wf d;
  gd_shape : shape d = shape d0;
  gd_stage : sccToStage d = sccToStage d0;
}.

(** Every SCC of the graph that cannot be cloned has a stage. *)
Definition all_staged (d0 : DSWP) : Prop :=
  ∀ n, n ∈ getNodes (dag L) → clonable L d0 n = false →
       ∃ i, sccToStage d0 !! n = Some (Some i).

Lemma good_clonable d0 d n : good d0 d → clonable L d n = clonable L d0 n.
Proof. intros Hg. unfold clonable. pose proof (gd_shape _ _ Hg) as [= _ ->]. done. Qed.

Lemma good_length d0 d : good d0 d → length (tasks d) = length (tasks d0).
Proof.
  intros Hg. pose proof (gd_shape _ _ Hg) as [= Hs _].
  by rewrite <- (length_fmap (λ t, (taskID t, stageSCCs t, Stages.clonableSCCs t)) (tasks d)), Hs,
    length_fmap.
Qed.

Lemma good_task d0 d i u : good d0 d → tasks d0 !! i = Some u →
  ∃ t, tasks d !! i = Some t ∧ stageSCCs t = stageSCCs u ∧
       Stages.clonableSCCs t = Stages.clonableSCCs u ∧ taskID t = taskID u.
Proof.
  intros Hg Hi. pose proof (gd_shape _ _ Hg) as [= Hs _].
  apply (f_equal (.!! i)) in Hs. rewrite !list_lookup_fmap, Hi in Hs.
  apply fmap_Some in Hs as (t & ? & [= -> -> ->]). eauto.
Qed.

Lemma register_good d0 d d' fromI toI p c isMem :
  distinct_IDs d0 → fromI ≠ toI → good d0 d →
  registerQueue queueTypes T fromI toI p c isMem d = Ok d' →
  good d0 d' ∧ served d' fromI toI p c ∧
  ∀ i j p' c', served d i j p' c' → served d' i j p' c'.
Proof.
  intros Hids Hne Hg E.
  assert (distinct_IDs d) as Hids' by (by eapply shape_distinct; [apply Hg |]).
  destruct (registerQueue_registered _ _ _ _ _ _ _ Hids' (gd_wf _ _ Hg) E) as [idx Hr].
  destruct (registered_shape _ _ _ _ _ _ _ Hr) as [Hs Hm]. split_and!.
  - split; [by eapply registered_wf, Hr; [| apply Hg] | | ].
    + rewrite Hs. apply Hg.
    + rewrite Hm. apply Hg.
  - by eapply registered_serves.
  - intros i j p' c'. by eapply registered_served.
Qed.

Lemma stage_of_staged d0 d n i :
  good d0 d → sccToStage d0 !! n = Some i → stage_of n d = (i, d).
Proof. intros Hg Hn. unfold stage_of. by rewrite (gd_stage _ _ Hg), Hn. Qed.

(** Everything served before is served after. *)
Definition keeps (d d' : DSWP) : Prop := ∀ i j p c, served d i j p c → served d' i j p c.

Lemma keeps_refl d : keeps d d.
Proof. by unfold keeps. Qed.
#[local] Hint Resolve keeps_refl : core.

(** Rounds that keep the tables good and what is served, and establish [Q]. *)
Lemma for_each_good {A} (body : A → DSWP → outcome DSWP) (Q : A → DSWP → Prop) d0 l d d' :
  (∀ x s s', x ∈ l → good d0 s → body x s = Ok s' → good d0 s' ∧ Q x s' ∧ keeps s s') →
  (∀ x s s', keeps s s' → Q x s → Q x s') →
  for_each body l d = Ok d' → good d0 d → good d0 d' ∧ (∀ x, x ∈ l → Q x d') ∧ keeps d d'.
Proof.
  intros Hb Hm E Hg. split_and!.
  - apply (for_each_inv _ (good d0) _ _ _) in E; [done | | done]. intros x s s' Hx Hs Es.
    by destruct (Hb x s s' Hx Hs Es) as [? _].
  - apply (for_each_establishes _ (good d0) Q) in E as [_ H2]; [done | | | done].
    + intros x s s' Hx Hs Es. destruct (Hb x s s' Hx Hs Es) as (? & ? & _). done.
    + intros x y s s' Hx _ Hs Es Hq. destruct (Hb x s s' Hx Hs Es) as (_ & _ & Hk).
      exact (Hm y s s' Hk Hq).
  - apply (for_each_inv _ (λ s, good d0 s ∧ keeps d s)) in E as [_ H2]; [done | | by unfold keeps].
    intros x s s' Hx [Hs Hk] Es. destruct (Hb x s s' Hx Hs Es) as (? & _ & Hk').
    split; [done |]. intros i j p c Hsv. by apply Hk', Hk.
Qed.

(** *** The data dependences *)

Lemma collect_dependence_good d0 d d' fromI toI dep :
  distinct_IDs d0 → fromI ≠ toI → good d0 d →
  collect_dependence queueTypes T L (Some fromI) toI dep d = Ok d' →
  good d0 d' ∧ (isControl dep = false → served d' fromI toI (getSrc dep) (getDst dep)) ∧ keeps d d'.
Proof.
  intros Hids Hne Hg E. unfold collect_dependence in E.
  destruct (isControl dep); [by injection E as <- |].
  apply bind_Ok_inv in E as (_ & _ & E). apply bind_Ok_inv in E as (_ & _ & E).
  destruct (register_good _ _ _ _ _ _ _ _ Hids Hne Hg E) as (H1 & H2 & H3). auto.
Qed.

(** The data dependences of an edge into an SCC of the stage [toI] are served. *)
Definition edge_served (d0 : DSWP) (toI : nat) (e : scc_edge) (d : DSWP) : Prop :=
  clonable L d0 (fromSCC e) = false →
  ∃ fromI, sccToStage d0 !! fromSCC e = Some (Some fromI) ∧
    (fromI = toI ∨ ∀ dep, dep ∈ getSubEdges e → isControl dep = false →
                          served d fromI toI (getSrc dep) (getDst dep)).

Lemma edge_served_mono d0 d d' toI e :
  keeps d d' → edge_served d0 toI e d → edge_served d0 toI e d'.
Proof. unfold keeps. intros Hm He Hc. destruct (He Hc) as (i & Hi & [-> | Hd]); eauto 7. Qed.

Lemma collect_edge_good d0 d d' toI e :
  distinct_IDs d0 → all_staged d0 → fromSCC e ∈ getNodes (dag L) → good d0 d →
  collect_edge queueTypes T L toI e d = Ok d' →
  good d0 d' ∧ edge_served d0 toI e d' ∧ keeps d d'.
Proof.
  intros Hids Hst Hin Hg E. unfold collect_edge in E.
  rewrite (good_clonable _ _ _ Hg) in E. unfold edge_served.
  destruct (clonable L d0 (fromSCC e)) eqn:Hc; [by injection E as <- |].
  destruct (Hst _ Hin Hc) as [i Hi]. rewrite (stage_of_staged _ _ _ _ Hg Hi) in E.
  case_bool_decide as Hto.
  { injection E as <-. split_and!; [done | | done]. intros _. exists i. split; [done |].
    left. congruence. }
  assert (i ≠ toI) as Hne by congruence.
  apply (for_each_good _ (λ dep d, isControl dep = false → served d i toI (getSrc dep) (getDst dep))
           d0) in E as (H1 & H2 & H3); [| | | done].
  - split_and!; [done | | done]. intros _. exists i. split; [done |]. by right.
  - intros dep s s' _ Hs Es. by eapply collect_dependence_good.
  - intros dep s s' Hk Hsv Hd. by apply Hk, Hsv.
Qed.

Definition stage_served (d0 : DSWP) (toI : nat) (d : DSWP) : Prop :=
  ∀ u e, tasks d0 !! toI = Some u → e ∈ sccEdges (dag L) →
    toSCC e ∈ Stages.clonableSCCs u ∪ stageSCCs u → edge_served d0 toI e d.

Lemma collect_stage_good d0 d d' toI :
  distinct_IDs d0 → wf (dag L) → all_staged d0 → good d0 d →
  collect_stage queueTypes T L toI d = Ok d' →
  good d0 d' ∧ stage_served d0 toI d' ∧ keeps d d'.
Proof.
  intros Hids Hdag Hst Hg E. unfold collect_stage in E. unfold stage_served.
  destruct (tasks d !! toI) as [to |] eqn:Hto.
  - apply (for_each_good _ (λ scc d, ∀ e, e ∈ getIncomingEdges (dag L) scc → edge_served d0 toI e d)
             d0) in E as (H1 & H2 & H3); [| | | done].
    + split_and!; [done | | done]. intros u e Hu He Hin.
      destruct (good_task _ _ _ _ Hg Hu) as (t & Ht & Hts & Htc & _). simplify_eq.
      apply (H2 (toSCC e)); [set_solver |]. by apply list_elem_of_filter.
    + intros scc s s' _ Hs Es.
      apply (for_each_good _ (edge_served d0 toI) d0) in Es; [done | | | done].
      * intros e s1 s2 [_ He]%list_elem_of_filter H1 E1. eapply collect_edge_good; try done.
        by apply (wf_edges _ Hdag).
      * intros e s1 s2. apply edge_served_mono.
    + intros scc s s' Hk Hsv e He. by eapply edge_served_mono, Hsv.
  - injection E as <-. split_and!; [done | | done]. intros u e Hu.
    destruct (good_task _ _ _ _ Hg Hu) as (t & Ht & _). congruence.
Qed.

Lemma collectData_good d0 d d' :
  distinct_IDs d0 → wf (dag L) → all_staged d0 → good d0 d →
  collectDataAndMemoryQueueInfo queueTypes T L d = Ok d' →
  good d0 d' ∧ (∀ toI, stage_served d0 toI d') ∧ keeps d d'.
Proof.
  intros Hids Hdag Hst Hg E.
  apply (for_each_good _ (stage_served d0) d0) in E as (H1 & H2 & H3); [| | | done].
  - split_and!; [done | | done]. intros toI u e Hu. apply (H2 toI); [| done].
    apply elem_of_seq. rewrite (good_length _ _ Hg). apply lookup_lt_Some in Hu. lia.
  - intros toI s s' _ Hs Es. by apply collect_stage_good.
  - intros toI s s' Hk Hsv u e Hu He Hin. eapply edge_served_mono; [exact Hk | by eapply Hsv].
Qed.

(** *** The control dependences *)

(** [n] controls [m], through one or more edges. *)
Definition descendant (n m : Z) : Prop := tc (Worklist.edge (children (dag L))) n m.

(** The fuel that is enough: every edge of the SCCDAG is pushed once. *)
Definition control_fuel : nat :=
  S (Worklist.out_degree (children (dag L)) (list_to_set (getNodes (dag L)))).

Lemma children_closed : wf (dag L) →
  ∀ n m : Z, n ∈ (list_to_set (getNodes (dag L)) : gset Z) →
  Worklist.edge (children (dag L)) n m → m ∈ (list_to_set (getNodes (dag L)) : gset Z).
Proof.
  intros Hwf n m _ (e & He & _ & <-)%elem_of_children. apply elem_of_list_to_set.
  by apply (wf_edges _ Hwf).
Qed.

Lemma getTaskOfNode_staged d n :
  all_staged d → n ∈ getNodes (dag L) →
  ∃ t, getTaskOfNode L d n = Ok t ∧
       ∀ i, t = Some i ↔ clonable L d n = false ∧ sccToStage d !! n = Some (Some i).
Proof.
  intros Hst Hn. unfold getTaskOfNode, stage_at. destruct (clonable L d n) eqn:Hc.
  - exists None. split; [done |]. naive_solver.
  - destruct (Hst n Hn Hc) as [i ->]. exists (Some i). split; [done |]. naive_solver.
Qed.

(** The tasks found on the edges that were looked at. *)
Lemma control_edges_found d es s :
  all_staged d → (∀ n m, (n, m) ∈ es → m ∈ getNodes (dag L)) →
  ∃ s', foldl (λ st e, control_edge L d e.1 e.2 st) (Ok s) es = Ok s' ∧
    ∀ i, i ∈ s' ↔ i ∈ s ∨ ∃ n m, (n, m) ∈ es ∧ clonable L d m = false ∧
                             sccToStage d !! m = Some (Some i).
Proof.
  intros Hst. revert s. induction es as [| [n m] es IH]; intros s Hin; cbn [foldl fst snd].
  { exists s. split; [done |]. intros i. split; [by left |].
    intros [? | (? & ? & ?%not_elem_of_nil & _)]; done. }
  destruct (getTaskOfNode_staged d m Hst) as (t & Et & Ht); [eapply Hin; by left |].
  assert (control_edge L d n m (Ok s) = Ok (match t with Some i => {[i]} ∪ s | None => s end)) as ->.
  { unfold control_edge. cbn. by rewrite Et. }
  destruct (IH (match t with Some i => {[i]} ∪ s | None => s end)) as (s' & Es & Hs').
  { intros n' m' H. eapply Hin. by right. }
  exists s'. split; [done |]. intros i. rewrite Hs'.
  assert (i ∈ (match t with Some i => {[i]} ∪ s | None => s end) ↔ i ∈ s ∨ t = Some i) as ->.
  { destruct t; set_solver. }
  rewrite Ht. setoid_rewrite elem_of_cons. split.
  - intros [[? | [? ?]] | (n' & m' & ? & ?)]; eauto 8.
  - intros [? | (n' & m' & [[= -> ->] | ?] & ? & ?)]; eauto 8.
Qed.

Lemma transitively_spec fuel branch d :
  wf (dag L) → all_staged d → sccOfValue (dag L) branch ∈ getNodes (dag L) →
  (control_fuel ≤ fuel)%nat →
  ∃ s, collectTransitivelyControlledTasks L fuel branch d = Some (Ok s) ∧
    ∀ i, i ∈ s ↔
      getTaskOfNode L d (sccOfValue (dag L) branch) ≠ Ok (Some i) ∧
      ∃ m, descendant (sccOfValue (dag L) branch) m ∧ clonable L d m = false ∧
           sccToStage d !! m = Some (Some i).
Proof.
  intros Hwf Hst Hb Hf. unfold collectTransitivelyControlledTasks.
  set (n0 := sccOfValue (dag L) branch) in *.
  destruct (getTaskOfNode_staged d n0 Hst Hb) as (t & Et & _). rewrite Et.
  destruct (Worklist.expand_total (children (dag L)) (list_to_set (getNodes (dag L)))
              (children_closed Hwf) (control_edge L d) fuel [n0] ∅ (Ok ∅)) as (visited & r & E).
  { set_solver. }
  { rewrite difference_empty_L. unfold control_fuel in Hf. simpl. lia. }
  rewrite E. cbn.
  assert (Worklist.covered (children (dag L)) [n0] ∅) as Hcov by (intros ? ?; set_solver).
  pose proof (Worklist.expand_visited _ _ _ _ _ _ _ _ Hcov E) as Hv.
  destruct (Worklist.expand_trace _ _ _ _ _ _ _ _ E) as (_ & es & -> & Hes).
  assert (∀ n m, (n, m) ∈ es ↔ rtc (Worklist.edge (children (dag L))) n0 n ∧
                               Worklist.edge (children (dag L)) n m) as Hes'.
  { intros n m. rewrite Hes, difference_empty_L, Hv. unfold Worklist.edge.
    split; [intros [[? | (k & Hk & Hr)] Hm] | intros [Hr Hm]]; [set_solver | | set_solver].
    apply list_elem_of_singleton in Hk as ->. done. }
  destruct (control_edges_found d es ∅ Hst) as (s & -> & Hs).
  { intros n m [_ (e & He & _ & <-)%elem_of_children]%Hes'. by apply (wf_edges _ Hwf). }
  cbn. eexists. split; [done |]. intros i.
  assert (i ∈ s ↔ ∃ m, descendant n0 m ∧ clonable L d m = false ∧ sccToStage d !! m = Some (Some i))
    as Hi.
  { rewrite Hs. split.
    - intros [? | (n & m & [Hr Hm]%Hes' & ?)]; [set_solver |]. exists m. split; [| done].
      apply tc_rtc_l with n; [done | by apply tc_once].
    - intros (m & Hm & ?). right. unfold descendant in Hm.
      apply Worklist.tc_last in Hm as (n & Hr & Hm). exists n, m. split; [by apply Hes' | done]. }
  destruct t as [k |]; cbn.
  - rewrite elem_of_difference, elem_of_singleton, Hi. naive_solver.
  - rewrite Hi. naive_solver.
Qed.

Lemma conditions_spec d deps found s :
  conditions L d deps found = Ok s →
  ∀ c, c ∈ s ↔ c ∈ found ∨ ∃ e, e ∈ deps ∧ isControl e = false ∧
                             clonable L d (sccOfValue (dag L) (getSrc e)) = false ∧ getSrc e = c.
Proof.
  revert found. induction deps as [| e deps IH]; intros found E c; simpl in E.
  { injection E as <-. split; [by left | by intros [? | (? & ?%not_elem_of_nil & _)]]. }
  apply bind_Ok_inv in E as (_ & _ & E). setoid_rewrite elem_of_cons.
  destruct (isControl e) eqn:Hc; [| destruct (clonable L d _) eqn:Hcl].
  - rewrite (IH _ E). split; [naive_solver |].
    intros [? | (e' & [-> | ?] & ? & ?)]; [by left | congruence | eauto 6].
  - rewrite (IH _ E). split; [naive_solver |].
    intros [? | (e' & [-> | ?] & ? & ? & ?)]; [by left | congruence | eauto 6].
  - apply bind_Ok_inv in E as (_ & _ & E). rewrite (IH _ E), elem_of_union, elem_of_singleton.
    split; [naive_solver |]. intros [? | (e' & [-> | ?] & ? & ? & <-)]; eauto 7.
Qed.

(** The stages a branch controls: all of them when it may leave the loop. *)
Definition controls (d0 : DSWP) (branch : Z) (j : nat) : Prop :=
  if isControllingLoopExit T L branch then (j < length (tasks d0))%nat
  else ∃ m, descendant (sccOfValue (dag L) branch) m ∧ clonable L d0 m = false ∧
            sccToStage d0 !! m = Some (Some j).

(** The conditions of a branch reach the other stages it controls. *)
Definition branch_served (d0 : DSWP) (n : Z * Z) (d : DSWP) : Prop :=
  ∀ e i j, e ∈ incoming L n → isControl e = false →
    clonable L d0 (sccOfValue (dag L) (getSrc e)) = false →
    sccToStage d0 !! sccOfValue (dag L) n.2 = Some (Some i) → controls d0 n.2 j → i ≠ j →
    served d i j (getSrc e) n.2.

Lemma good_staged d0 d : good d0 d → all_staged d0 → all_staged d.
Proof.
  intros Hg Hst n Hn Hc. rewrite (good_clonable _ _ _ Hg) in Hc.
  rewrite (gd_stage _ _ Hg). by apply Hst.
Qed.

Lemma good_controls d0 d branch j : good d0 d → controls d branch j → controls d0 branch j.
Proof.
  intros Hg. unfold controls. rewrite (good_length _ _ Hg), (gd_stage _ _ Hg).
  destruct (isControllingLoopExit T L branch); [done |].
  intros (m & ? & Hm & ?). exists m. by rewrite (good_clonable _ _ _ Hg) in Hm.
Qed.

Lemma controlled_spec fuel d0 d branch i :
  wf (dag L) → good d0 d → all_staged d0 → (control_fuel ≤ fuel)%nat →
  sccOfValue (dag L) branch ∈ getNodes (dag L) →
  clonable L d0 (sccOfValue (dag L) branch) = false →
  sccToStage d0 !! sccOfValue (dag L) branch = Some (Some i) →
  ∃ s, tasksControlledByCondition T L fuel branch d = Some (Ok s) ∧
       ∀ j, i ≠ j → j ∈ s ↔ controls d0 branch j.
Proof.
  intros Hwf Hg Hst Hf Hb Hc Hi. unfold tasksControlledByCondition, controls.
  destruct (isControllingLoopExit T L branch).
  - eexists. split; [done |]. intros j _.
    rewrite elem_of_list_to_set, elem_of_seq, (good_length _ _ Hg). lia.
  - destruct (transitively_spec fuel branch d Hwf (good_staged _ _ Hg Hst) Hb Hf) as (s & E & Hs).
    exists s. split; [done |]. intros j Hij. rewrite Hs, (gd_stage _ _ Hg).
    unfold getTaskOfNode, stage_at. rewrite (good_clonable _ _ _ Hg), Hc, (gd_stage _ _ Hg), Hi.
    setoid_rewrite (good_clonable _ _ _ Hg). split; [tauto |]. intros ?. split; [congruence | done].
Qed.

Lemma register_control_good d0 d d' i conds branch j :
  distinct_IDs d0 → good d0 d →
  register_control queueTypes T (Some i) conds branch j d = Ok d' →
  good d0 d' ∧ (∀ c, c ∈ conds → i ≠ j → served d' i j c branch) ∧ keeps d d'.
Proof.
  intros Hids Hg E. unfold register_control in E. case_bool_decide as Hij.
  { injection E as <-. split_and!; [done | | done]. congruence. }
  assert (i ≠ j) as Hne by congruence.
  apply (for_each_good _ (λ c d, served d i j c branch) d0) in E as (H1 & H2 & H3); [| | | done].
  - split_and!; [done | | done]. intros c Hc _. apply H2. set_solver.
  - intros c s s' _ Hs Es. by eapply register_good.
  - intros c s s' Hk Hsv. by apply Hk.
Qed.

Lemma collect_branch_good fuel d0 d n :
  distinct_IDs d0 → wf (dag L) → all_staged d0 → (control_fuel ≤ fuel)%nat → good d0 d →
  sccOfValue (dag L) n.2 ∈ getNodes (dag L) → clonable L d0 (sccOfValue (dag L) n.2) = false →
  ∃ r, collect_branch queueTypes T L fuel n d = Some r ∧
       ∀ d', r = Ok d' → good d0 d' ∧ branch_served d0 n d' ∧ keeps d d'.
Proof.
  intros Hids Hwf Hst Hf Hg Hin Hc. unfold collect_branch.
  destruct (conditions L d (incoming L n) ∅) as [conds |] eqn:Econds; cbn; [| by eexists].
  destruct (assert_that _); cbn; [| by eexists].
  destruct (Hst _ Hin Hc) as [i Hi].
  destruct (controlled_spec fuel d0 d n.2 i Hwf Hg Hst Hf Hin Hc Hi) as (s & -> & Hs).
  unfold stage_at. rewrite (gd_stage _ _ Hg), Hi. cbn. eexists. split; [done |].
  intros d' E.
  apply (for_each_good _ (λ j d, ∀ c, c ∈ conds → i ≠ j → served d i j c n.2) d0) in E
    as (H1 & H2 & H3); [| | | done].
  - split_and!; [done | | done]. intros e i' j He Hec Hcl Hi' Hj Hij.
    rewrite Hi in Hi'. injection Hi' as <-. apply H2; [| | done].
    + unfold tasks_in_order. rewrite std_sort_perm, elem_of_elements. by apply Hs.
    + apply (conditions_spec _ _ _ _ Econds). right. exists e.
      rewrite (good_clonable _ _ _ Hg). done.
  - intros j s1 s2 _ Hg1 E1. by apply register_control_good.
  - intros j s1 s2 Hk Hsv c Hcin Hij. by apply Hk, Hsv.
Qed.

Lemma branch_served_mono d0 n d d' : keeps d d' → branch_served d0 n d → branch_served d0 n d'.
Proof. intros Hk Hb e i j He Hc Hcl Hi Hj Hij. by apply Hk, Hb. Qed.

Lemma collect_branches_good fuel d0 nodes d :
  distinct_IDs d0 → wf (dag L) → all_staged d0 → (control_fuel ≤ fuel)%nat → good d0 d →
  (∀ n, n ∈ nodes → sccOfValue (dag L) n.2 ∈ getNodes (dag L) ∧
                    clonable L d0 (sccOfValue (dag L) n.2) = false) →
  ∃ r, collect_branches queueTypes T L fuel nodes d = Some r ∧
       ∀ d', r = Ok d' → good d0 d' ∧ (∀ n, n ∈ nodes → branch_served d0 n d') ∧ keeps d d'.
Proof.
  intros Hids Hwf Hst Hf. revert d. induction nodes as [| n nodes IH]; intros d Hg Hn; simpl.
  { eexists. split; [done |]. intros d' [= <-]. split_and!; [done | | done].
    by intros ? ?%not_elem_of_nil. }
  destruct (Hn n) as [Hn1 Hn2]; [by left |].
  destruct (collect_branch_good fuel d0 d n Hids Hwf Hst Hf Hg Hn1 Hn2) as (r & -> & Hr). cbn.
  destruct r as [d1 | e]; [| by eexists].
  destruct (Hr d1 eq_refl) as (Hg1 & Hb1 & Hk1).
  destruct (IH d1 Hg1) as (r & -> & Hr'); [intros m Hm; apply Hn; by right |].
  eexists. split; [done |]. intros d' E. destruct (Hr' d' E) as (Hg2 & Hb2 & Hk2).
  split_and!; [done | |].
  - intros m [-> | Hm]%elem_of_cons; [by eapply branch_served_mono | by apply Hb2].
  - intros i j p c Hsv. by apply Hk2, Hk1.
Qed.

(** The values of the graphs of the SCCs belong to SCCs of the loop. *)
Definition values_in_dag : Prop :=
  ∀ scc e, scc ∈ getNodes (dag L) → e ∈ getEdges (dag L) scc →
           sccOfValue (dag L) (getSrc e) ∈ getNodes (dag L).

Lemma elem_of_conditionalBranchNodes d n :
  n ∈ conditionalBranchNodes L d ↔
  n.1 ∈ getNodes (dag L) ∧ (∃ e, e ∈ getEdges (dag L) n.1 ∧ getSrc e = n.2 ∧ isControl e = true) ∧
  clonable L d (sccOfValue (dag L) n.2) = false ∧
  ∃ e, e ∈ incoming L n ∧ isControl e = false.
Proof.
  unfold conditionalBranchNodes. rewrite elem_of_list_to_set, Loops.elem_of_concat.
  setoid_rewrite list_elem_of_fmap. split.
  - intros (l & (scc & -> & Hscc) & (e & He & E)%list_elem_of_omap).
    unfold conditional_branch in E. destruct (isControl e) eqn:Hc; simpl in E; [| done].
    destruct (clonable L d _) eqn:Hcl; [done |].
    destruct (existsb _ _) eqn:Hex; [| done]. injection E as <-. cbn.
    split_and!; [done | by exists e | done |].
    apply existsb_exists in Hex as (e' & He' & Hc'). exists e'.
    split; [by apply list_elem_of_In | by apply negb_true_iff].
  - intros (Hn & (e & He & Hs & Hc) & Hcl & (e' & He' & Hc')). eexists. split; [by exists n.1 |].
    apply list_elem_of_omap. exists e. split; [done |]. unfold conditional_branch.
    rewrite Hc, Hs, Hcl. cbn. rewrite <- surjective_pairing.
    rewrite (proj2 (existsb_exists _ _)); [done |]. exists e'.
    split; [by apply list_elem_of_In | by rewrite Hc'].
Qed.

Lemma collectControl_good fuel d0 d :
  distinct_IDs d0 → wf (dag L) → values_in_dag → all_staged d0 → (control_fuel ≤ fuel)%nat →
  good d0 d →
  ∃ r, collectControlQueueInfo queueTypes T L fuel d = Some r ∧
       ∀ d', r = Ok d' → good d0 d' ∧
         (∀ n, n ∈ conditionalBranchNodes L d → branch_served d0 n d') ∧ keeps d d'.
Proof.
  intros Hids Hwf Hval Hst Hf Hg. unfold collectControlQueueInfo.
  destruct (collect_branches_good fuel d0
    (std_sort (λ a b, nodeAddress T a <? nodeAddress T b) (elements (conditionalBranchNodes L d))) d)
    as (r & -> & Hr); [done | done | done | done | done | |].
  - intros n. rewrite std_sort_perm, elem_of_elements, elem_of_conditionalBranchNodes.
    intros (Hn & (e & He & <- & _) & Hcl & _). split; [by eapply Hval |].
    by rewrite <- (good_clonable _ _ _ Hg).
  - exists r. split; [done |]. intros d' E. destruct (Hr d' E) as (H1 & H2 & H3).
    split_and!; [done | | done]. intros n Hn. apply H2. by rewrite std_sort_perm, elem_of_elements.
Qed.
End wf.
End Queues.
