(* ===== verification/DswpApply.v ===== *)
(** * The analysis part of [DSWP::apply]

    [DSWP.cpp] of [src/src/core/dswp/src] up to the code generation: the SCCs
    that can be cloned, the partition, the stages ([DswpStages]) and the queues
    between them ([DswpQueues]).  The theorems join it to the parallelizer's
    table of queue functions and to the dispatcher of the runtime, and evaluate
    it on a pipeline of two stages. *)

From S2P Require Import Prelude CppStd Worklist SccDag Noelle TechniqueGuards DswpStages DswpQueues.
From S2P Require Import RuntimeCores RuntimeDswp Parallelizer.

Module Apply.
Import SccDag Guards Stages Queues.

(** ** The analysis part of apply *)

(** [None]: out of fuel; [Ok None]: [apply] returns false. *)
Definition apply_analysis `{SCCDAGPartitioner} (queueTypes : gmap Z Z) (T : Target)
    (newID : nat → Z) (fuel : nat) (forceParallelization : bool) (L : LoopContent) (d : DSWP)
    : option (outcome (option DSWP)) :=
  match getClonableSCCs L with
  | Fail e => Some (Fail e)
  | Ok clonable =>
      let d := set_memberClonableSCCs clonable d in
      let sets := initialSets L d in
      if negb forceParallelization && (numberOfPartitions L sets =? 1) then Some (Ok None)
      else
        match generateStagesFromPartitionedSCCs newID (getDepthOrderedSets L sets)
                (numberOfPartitions L sets) d with
        | Fail e => Some (Fail e)
        | Ok d =>
            d ← addClonableSCCsToStages fuel L d;
            match assert_that (isCompleteAndValidStageStructure L d) ≫= λ _,
                  collectDataAndMemoryQueueInfo queueTypes T L d with
            | Fail e => Some (Fail e)
            | Ok d =>
                r ← collectControlQueueInfo queueTypes T L fuel d;
                Some (r ≫= λ d : DSWP, Ok (Some d))
            end
        end
  end.

(** ** Every object it builds *)

Section apply.
Context `{SCCDAGPartitioner} (queueTypes : gmap Z Z) (T : Target) (L : LoopContent).
Context (newID : nat → Z).
Hypothesis Hwf : wf (dag L).
Hypothesis Hval : values_in_dag L.
(** NOELLE's task identifiers are distinct. *)
Hypothesis HnewID : ∀ i j, (i < length (getNodes (dag L)))%nat → (j < length (getNodes (dag L)))%nat →
  s32 (newID i) = s32 (newID j) → i = j.

Definition apply_fuel : nat := Nat.max (enough_fuel L) (control_fuel L).

Lemma staged_good d d2 :
  queues d = [] → staged L d newID (getDepthOrderedSets L (initialSets L d)) d2 →
  distinct_IDs d2 ∧ all_staged L d2 ∧ good queueTypes T d2 d2.
Proof.
  intros Hq Hs. split_and!.
  - intros i j t u Hi Hj E.
    destruct (staged_task _ _ _ _ _ Hs i t Hi) as (s & Hsi & Ht & _).
    destruct (staged_task _ _ _ _ _ Hs j u Hj) as (s' & Hsj & Hu & _).
    rewrite Ht, Hu in E. cbn in E.
    assert (∀ k l, getDepthOrderedSets L (initialSets L d) !! k = Some l →
                   (k < length (getNodes (dag L)))%nat) as Hlt.
    { intros k l Hk%lookup_lt_Some. pose proof (merges_add_no_set L (initialSets L d)) as Hm.
      unfold initialSets in Hm at 2. rewrite length_fmap in Hm.
      pose proof (length_filter (λ n, clonable L d n = false) (getNodes (dag L))). lia. }
    apply HnewID; [by eapply Hlt | by eapply Hlt | done].
  - intros n Hn Hc. unfold clonable in Hc. rewrite (staged_member _ _ _ _ _ Hs) in Hc.
    destruct (staged_covers L d newID d2 n Hs Hn Hc) as (i & u & ? & _). by exists i.
  - split; [| done | done]. apply no_queues_wf; [by rewrite (staged_queues _ _ _ _ _ Hs) |].
    intros i t Hi. destruct (staged_task _ _ _ _ _ Hs i t Hi) as (s & _ & -> & _). done.
Qed.

(** What is known of the object [apply] goes on with. *)
Record analysed (d2 d3 d' : DSWP) : Prop := {
  an_ids : distinct_IDs d2;
  an_good : good queueTypes T d2 d';
  an_data toI : stage_served L d2 toI d';
  an_control n : n ∈ conditionalBranchNodes L d3 → branch_served T L d2 n d';
  an_good3 : good queueTypes T d2 d3;
}.

Lemma apply_analysis_spec fuel force :
  (apply_fuel ≤ fuel)%nat →
  ∃ r, apply_analysis queueTypes T newID fuel force L new_DSWP = Some r ∧
       ∀ d', r = Ok (Some d') → ∃ d2 d3, analysed d2 d3 d'.
Proof.
  unfold apply_fuel. intros Hf. unfold apply_analysis.
  destruct (getClonableSCCs L) as [clon |]; [| by eexists].
  set (d := set_memberClonableSCCs clon new_DSWP).
  destruct (negb force && _); [by eexists |].
  destruct (stages_made L d Hwf newID fuel eq_refl ltac:(lia)) as (d1 & d2 & -> & -> & Hs). cbn.
  destruct (assert_that _); [| by eexists]. cbn.
  destruct (staged_good d d2 eq_refl Hs) as (Hids & Hst & Hg).
  destruct (collectDataAndMemoryQueueInfo queueTypes T L d2) as [d3 |] eqn:E3; [| by eexists].
  destruct (collectData_good queueTypes T L d2 d2 d3 Hids Hwf Hst Hg E3) as (Hg3 & Hd3 & _).
  destruct (collectControl_good queueTypes T L fuel d2 d3 Hids Hwf Hval Hst ltac:(lia) Hg3)
    as (r & -> & Hr).
  cbn. eexists. split; [done |]. intros d' E.
  destruct r as [d4 |]; cbn in E; [| done]. injection E as ->.
  destruct (Hr d' eq_refl) as (Hg4 & Hc4 & Hk4). exists d2, d3. split; [done | done | | done | done].
  intros toI u e Hu He Hin. eapply edge_served_mono; [exact Hk4 | by eapply Hd3].
Qed.

Lemma analysed_task d2 d3 d' i u : analysed d2 d3 d' → tasks d' !! i = Some u →
  ∃ t, tasks d2 !! i = Some t ∧ stageSCCs t = stageSCCs u ∧
       Stages.clonableSCCs t = Stages.clonableSCCs u.
Proof.
  intros Ha Hi. pose proof (gd_shape _ _ _ _ (an_good _ _ _ Ha)) as [= Hs _].
  apply (f_equal (.!! i)) in Hs. rewrite !list_lookup_fmap, Hi in Hs. cbn in Hs. symmetry in Hs.
  apply fmap_Some in Hs as (t & ? & [= _ -> ->]). eauto.
Qed.

(** ** The properties *)


(** C7. Every value a stage needs reaches it: for each data dependence into an
    SCC of the stage, its clonable SCCs included, from an SCC that is not
    cloned, either the producer is in the stage or the producer's stage pushes
    the value on a queue the stage pops. *)
Theorem data_dependences_served fuel force d' toI u e dep :
  (apply_fuel ≤ fuel)%nat →
  apply_analysis queueTypes T newID fuel force L new_DSWP = Some (Ok (Some d')) →
  tasks d' !! toI = Some u → e ∈ sccEdges (dag L) →
  toSCC e ∈ Stages.clonableSCCs u ∪ stageSCCs u → clonable L d' (fromSCC e) = false →
  dep ∈ getSubEdges e → isControl dep = false →
  ∃ fromI, sccToStage d' !! fromSCC e = Some (Some fromI) ∧
           (fromI = toI ∨ served d' fromI toI (getSrc dep) (getDst dep)).
Proof.
  intros Hf E Hu He Hin Hc Hdep Hctl.
  destruct (apply_analysis_spec fuel force Hf) as (r & E' & Hr).
  rewrite E in E'. injection E' as <-. destruct (Hr d' eq_refl) as (d2 & d3 & Ha).
  destruct (analysed_task _ _ _ _ _ Ha Hu) as (t & Ht & Es & Ec).
  rewrite <- Es, <- Ec in Hin. pose proof (an_good _ _ _ Ha) as Hg.
  rewrite (good_clonable _ _ _ _ _ _ Hg) in Hc.
  destruct (an_data _ _ _ Ha toI t e Ht He Hin Hc) as (i & Hi & Hcase).
  exists i. rewrite (gd_stage _ _ _ _ Hg). split; [done |].
  destruct Hcase as [-> | Hsv]; [by left | right]. by apply Hsv.
Qed.

(** C8. Every decision reaches the stages it matters to: the condition of a
    branch with data dependences, when it is not cloned, is pushed by the stage
    of the branch for every other stage the branch controls: all of them if it
    may leave the loop, otherwise those having an SCC that depends on it. *)
Theorem control_dependences_served fuel force d' n e i j :
  (apply_fuel ≤ fuel)%nat →
  apply_analysis queueTypes T newID fuel force L new_DSWP = Some (Ok (Some d')) →
  n ∈ conditionalBranchNodes L d' → e ∈ incoming L n → isControl e = false →
  clonable L d' (sccOfValue (dag L) (getSrc e)) = false →
  sccToStage d' !! sccOfValue (dag L) n.2 = Some (Some i) → controls T L d' n.2 j → i ≠ j →
  served d' i j (getSrc e) n.2.
Proof.
  intros Hf E Hn He Hctl Hc Hi Hj Hij.
  destruct (apply_analysis_spec fuel force Hf) as (r & E' & Hr).
  rewrite E in E'. injection E' as <-. destruct (Hr d' eq_refl) as (d2 & d3 & Ha).
  pose proof (an_good _ _ _ Ha) as Hg.
  rewrite (good_clonable _ _ _ _ _ _ Hg) in Hc. rewrite (gd_stage _ _ _ _ Hg) in Hi.
  assert (controls T L d2 n.2 j) as Hj2.
  { by apply (good_controls queueTypes T L d2 d'). }
  apply (an_control _ _ _ Ha); try done.
  rewrite elem_of_conditionalBranchNodes in Hn |- *.
  by rewrite (good_clonable _ _ _ _ _ _ (an_good3 _ _ _ Ha)), <- (good_clonable _ _ _ _ _ _ Hg).
Qed.
End apply.

(** ** The queues at run time *)

Lemma parallelizer_queue_sizes getFunction argType q size :
  Parallelizer.collectThreadPoolHelperFunctionsAndTypes getFunction argType = Ok q →
  is_Some (Parallelizer.queueSizeToIndex q !! size) ↔ size ∈ [1; 8; 16; 32; 64].
Proof.
  intros (pu & _ & (po & _ & [= <-])%bind_Ok_inv)%bind_Ok_inv. cbn [Parallelizer.queueSizeToIndex].
  split.
  - intros [i Hi]. cbn in Hi. rewrite !lookup_insert_Some, lookup_empty in Hi.
    rewrite !elem_of_cons. naive_solver.
  - rewrite !elem_of_cons. intros [-> | [-> | [-> | [-> | [-> | ?%not_elem_of_nil]]]]];
      [by eexists.. | done].
Qed.

Lemma new_queues_widths sizes qs :
  Dswp.new_queues sizes = Ok qs → Forall2 (λ size y, size ≤ Dswp.width y) sizes qs.
Proof.
  revert qs. induction sizes as [| size sizes IH]; intros qs E; simpl in E; [by injection E as <- |].
  apply bind_Ok_inv in E as (y & Ey & (ys & Eys & [= <-])%bind_Ok_inv).
  constructor; [| by apply IH]. unfold Dswp.new_queue in Ey.
  repeat case_match; simplify_tests; simplify_eq/=; lia.
Qed.

Section sizes.
Context `{SCCDAGPartitioner}.

(** C21. The dispatcher accepts the pipeline: it can allocate a queue for every
    size in the array the code passes to it, and the values sent through a queue
    fit: a queue has at least as many bits as a value of its producer (a pointer
    counts with the size of its allocation, a dependence through memory as one
    bit), and the elements the dispatcher allocates are at least as wide. *)
Theorem queue_sizes_accepted getFunction argType pq T newID L fuel force d' :
  Parallelizer.collectThreadPoolHelperFunctionsAndTypes getFunction argType = Ok pq →
  wf (dag L) → values_in_dag L →
  (∀ i j, (i < length (getNodes (dag L)))%nat → (j < length (getNodes (dag L)))%nat →
     s32 (newID i) = s32 (newID j) → i = j) →
  (apply_fuel L ≤ fuel)%nat →
  apply_analysis (Parallelizer.queueSizeToIndex pq) T newID fuel force L new_DSWP
    = Some (Ok (Some d')) →
  ∃ qs, Dswp.new_queues (createQueueSizesArrayFromStages d') = Ok qs ∧
    Forall2 (λ x y, bitLength x = queue_bits T (producer x) (isMemoryDependence x) ∧
                    value_bits T x ≤ bitLength x ≤ Dswp.width y) (queues d') qs.
Proof.
  intros Hpq Hwf Hval Hid Hf E.
  destruct (apply_analysis_spec (Parallelizer.queueSizeToIndex pq) T L newID Hwf Hval Hid fuel force Hf)
    as (r & E' & Hr).
  rewrite E in E'. injection E' as <-. destruct (Hr d' eq_refl) as (d2 & d3 & Ha).
  pose proof (gd_wf _ _ _ _ (an_good _ _ _ _ _ _ Ha)) as Hw.
  assert (∃ qs, Dswp.new_queues (createQueueSizesArrayFromStages d') = Ok qs) as [qs Eqs].
  { apply Dswp.new_queues_ok, forallb_forall. intros size Hs%list_elem_of_In.
    unfold createQueueSizesArrayFromStages in Hs.
    apply list_elem_of_fmap in Hs as (x & -> & [idx Hx]%list_elem_of_lookup).
    apply bool_decide_eq_true. eapply (parallelizer_queue_sizes _ _ _ _ Hpq).
    apply (wf_queue _ _ _ Hw idx x Hx). }
  exists qs. split; [done |]. apply new_queues_widths in Eqs.
  unfold createQueueSizesArrayFromStages in Eqs. apply Forall2_fmap_l in Eqs.
  apply Forall2_same_length_lookup in Eqs as [Hl Hk]. apply Forall2_same_length_lookup.
  split; [done |]. intros idx x y Hx Hy. pose proof (qw_size _ _ _ _ _ (wf_queue _ _ _ Hw idx x Hx)).
  split; [done |]. split; [by apply queue_bits_enough | by eapply Hk].
Qed.
End sizes.

(** C36. A value of a primitive type can be sent between stages exactly when it
    has one bit, or between five and sixty-four; pointers go by the size of
    their allocation, and everything else ends the compilation. *)
Theorem value_width_supported getFunction argType pq T p :
  Parallelizer.collectThreadPoolHelperFunctionsAndTypes getFunction argType = Ok pq →
  isPointerTy T p = false → 0 ≤ getPrimitiveSizeInBits T p →
  is_Some (Parallelizer.queueSizeToIndex pq !! queue_bits T p false) ↔
  getPrimitiveSizeInBits T p = 1 ∨ 5 ≤ getPrimitiveSizeInBits T p ≤ 64.
Proof.
  intros Hpq Hp Hn. rewrite (parallelizer_queue_sizes _ _ _ _ Hpq). unfold queue_bits. rewrite Hp.
  generalize dependent (getPrimitiveSizeInBits T p). intros n Hn.
  unfold round_up_to_power_of_2. destruct (Z.eqb_spec n 0) as [-> | H0].
  { rewrite !elem_of_cons, elem_of_nil. lia. }
  assert (n ≤ 64 ∨ 65 ≤ n) as [Hle | Hge] by lia.
  - assert (n ∈ seqZ 1 64) as Hin by (apply elem_of_seqZ; lia).
    assert (Forall (λ n, bool_decide (2 ^ Z.log2_up n ∈ [1; 8; 16; 32; 64]) =
                         ((n =? 1) || ((5 <=? n) && (n <=? 64)))) (seqZ 1 64)) as Hall
      by (by repeat constructor).
    rewrite Forall_forall in Hall. specialize (Hall n Hin).
    rewrite <- (bool_decide_eq_true (_ ∈ _)), Hall, orb_true_iff, andb_true_iff. lia.
  - assert (7 ≤ Z.log2_up n) as Hlog.
    { change 7 with (Z.log2_up 65). by apply Z.log2_up_le_mono. }
    assert (2 ^ 7 ≤ 2 ^ Z.log2_up n) by (apply Z.pow_le_mono_r; lia).
    change (2 ^ 7) with 128 in *. rewrite !elem_of_cons, elem_of_nil. lia.
Qed.

(** ** areQueuesAcyclical *)

Lemma forallb_imap {A} (f : nat → A → bool) l :
  forallb id (imap f l) = true ↔ ∀ i x, l !! i = Some x → f i x = true.
Proof.
  rewrite forallb_forall. split.
  - intros Hall i x Hi. apply Hall, list_elem_of_In, elem_of_lookup_imap. eauto.
  - intros Hall b (i & x & -> & Hi)%list_elem_of_In%elem_of_lookup_imap. by apply Hall.
Qed.

Lemma forallb_in_order f s : forallb f (in_order s) = true ↔ ∀ i, i ∈ s → f i = true.
Proof.
  rewrite forallb_forall. setoid_rewrite <- list_elem_of_In. by setoid_rewrite elem_of_in_order.
Qed.

(** C37. When the identifiers of the tasks are their positions, the check
    [areQueuesAcyclical] accepts exactly the pipelines in which every queue goes
    from a stage to a later one. *)
Theorem areQueuesAcyclical_iff queueTypes T d :
  queues_wf queueTypes T d → Z.of_nat (length (tasks d)) < 2 ^ 31 →
  (∀ i t, tasks d !! i = Some t → taskID t = Z.of_nat i) →
  areQueuesAcyclical d = true ↔ ∀ idx q, queues d !! idx = Some q → fromStage q < toStage q.
Proof.
  intros Hwf Hlen Hpos. change (2 ^ 31) with 2147483648 in Hlen.
  assert (∀ i t, tasks d !! i = Some t → s32 (taskID t) = Z.of_nat i ∧ u64 (s32 (taskID t)) = Z.of_nat i)
    as Hid.
  { intros i t Hi. rewrite (Hpos i t Hi). apply lookup_lt_Some in Hi.
    rewrite s32_small by lia. split; [done | apply u64_small; lia]. }
  unfold areQueuesAcyclical. rewrite forallb_imap. split.
  - intros Hall idx q Hq.
    destruct (qw_ends _ _ _ _ _ (wf_queue _ _ _ Hwf idx q Hq)) as
      (i & j & t & u & _ & Ht & Hu & Ef & Et & Hpush & _).
    specialize (Hall i t Ht). apply andb_true_iff in Hall as [Hall _].
    pose proof (proj1 (forallb_in_order _ _) Hall idx Hpush) as Hlt. cbn in Hlt.
    rewrite Hq, Et in Hlt. destruct (Hid j u Hu) as [E1 E2], (Hid i t Ht) as [E3 _].
    rewrite E2 in Hlt. rewrite Ef, Et, E1, E3. simplify_tests. lia.
  - intros Hall i t Ht. pose proof (wf_task _ _ _ Hwf i t Ht) as Hw. destruct (Hid i t Ht) as [E1 E2].
    assert (∀ k q, queues d !! k = Some q → ∃ a b, fromStage q = Z.of_nat a ∧ toStage q = Z.of_nat b ∧
              u64 (fromStage q) = Z.of_nat a ∧ u64 (toStage q) = Z.of_nat b) as Hends.
    { intros k q Hq. destruct (qw_ends _ _ _ _ _ (wf_queue _ _ _ Hwf k q Hq)) as
        (a & b & x & y & _ & Hx & Hy & -> & -> & _).
      destruct (Hid a x Hx) as [Ea1 Ea2], (Hid b y Hy) as [Eb1 Eb2]. exists a, b. auto. }
    apply andb_true_iff. split; apply forallb_in_order.
    + intros k (q & Hq & Ef)%(tw_push _ _ Hw). rewrite Hq. pose proof (Hall k q Hq).
      destruct (Hends k q Hq) as (a & b & ? & ? & ? & ?). apply negb_true_iff, Z.leb_gt. lia.
    + intros k (q & Hq & Et)%(tw_pop _ _ Hw). rewrite Hq. pose proof (Hall k q Hq).
      destruct (Hends k q Hq) as (a & b & ? & ? & ? & ?). apply negb_true_iff, Z.leb_gt. lia.
Qed.

(** ** A concrete pipeline

    Two SCCs.  The first (a call 3, a comparison 4 and the branch 7 on it) feeds
    the instruction 6 of the second with a 32-bit value, and its branch, which
    stays in the loop, controls it. *)
Definition demo_pipeline : LoopContent := {|
  ir := MkIR (λ _, true) (λ v, v =? 4) (λ v, v =? 7) (λ _, false) (λ _, false) (λ _, false)
          (λ _, false);
  dag := MkSCCDAG [1; 2] (λ n, if n =? 1 then [3; 4; 7] else [5; 6])
           (λ n, if n =? 1 then [Dep 4 7 VariableDependence; Dep 7 3 ControlDependence] else [])
           [SccEdge 1 2 [Dep 3 6 VariableDependence; Dep 7 6 ControlDependence]]
           (λ v, if bool_decide (v ∈ [3; 4; 7]) then 1 else 2) (λ n, n + 100);
  info := MkSCCInfo (λ _, false) (λ _, true) (λ _, true) (λ _, true) (λ _, []);
  loopStructure := 20;
  getID := Some 0;
  getInstructions := [3; 4; 5; 6; 7];
  getLoopExitBasicBlocks := [9];
  getInnermostLoopThatContains := λ _, 20;
  getMaximumNumberOfCores := 4;
|}.

Definition demo_target : Target := {|
  isPointerTy := λ _, false;
  getTypeAllocSize := λ _, 8;
  getPrimitiveSizeInBits := λ v, if v =? 4 then 1 else 32;
  blockSuccessors := λ _, [8; 10];
  nodeAddress := λ n, n.2;
  taskAddress := λ i, Z.of_nat i;
|}.

Definition demo_queueTypes : gmap Z Z := list_to_map [(1, 0); (8, 0); (16, 1); (32, 2); (64, 3)].

Definition demo_apply : option (outcome (option DSWP)) :=
  apply_analysis demo_queueTypes demo_target Z.of_nat (apply_fuel demo_pipeline) false demo_pipeline
    new_DSWP.

(** The value goes through a queue of 32 bits, the decision through one of 1. *)
Definition demo_result : DSWP :=
  match demo_apply with Some (Ok (Some d)) => d | _ => new_DSWP end.

Example demo_apply_ok :
  demo_apply = Some (Ok (Some demo_result)) ∧
  (λ q, (fromStage q, toStage q, bitLength q, producer q)) <$> queues demo_result
    = [(0, 1, 32, 3); (0, 1, 1, 4)].
Proof. by vm_compute. Qed.

Lemma demo_pipeline_wf : wf (dag demo_pipeline).
Proof.
  split.
  - by apply (bool_decide_unpack _).
  - intros e He. cbn in He. apply list_elem_of_singleton in He as ->. cbn.
    rewrite !elem_of_cons. tauto.
  - cbn. intros. lia.
Qed.

Lemma demo_pipeline_values : values_in_dag demo_pipeline.
Proof.
  intros scc e _ _. cbn. destruct (bool_decide _); [by left | by right; left].
Qed.

Lemma demo_IDs i j : (i < length (getNodes (dag demo_pipeline)))%nat →
  (j < length (getNodes (dag demo_pipeline)))%nat → s32 (Z.of_nat i) = s32 (Z.of_nat j) → i = j.
Proof. cbn. intros Hi Hj. rewrite !s32_small by lia. lia. Qed.


Lemma data_dependences_served_witness : served demo_result 0 1 3 6.
Proof.
  destruct (data_dependences_served demo_queueTypes demo_target demo_pipeline Z.of_nat demo_pipeline_wf
    demo_pipeline_values demo_IDs (apply_fuel demo_pipeline) false demo_result 1
    (default (new_task 0) (tasks demo_result !! 1%nat))
    (SccEdge 1 2 [Dep 3 6 VariableDependence; Dep 7 6 ControlDependence]) (Dep 3 6 VariableDependence)
    (le_n _) (proj1 demo_apply_ok)) as (i & Hi & [-> | Hs]).
  - by vm_compute.
  - left.
  - apply (bool_decide_unpack _). by vm_compute.
  - by vm_compute.
  - left.
  - done.
  - by vm_compute in Hi.
  - assert (i = 0%nat) as -> by (vm_compute in Hi; congruence). exact Hs.
Defined.

Lemma control_dependences_served_witness : served demo_result 0 1 4 7.
Proof.
  apply (control_dependences_served demo_queueTypes demo_target demo_pipeline Z.of_nat demo_pipeline_wf
    demo_pipeline_values demo_IDs (apply_fuel demo_pipeline) false demo_result (1, 7)
    (Dep 4 7 VariableDependence) 0 1 (le_n _) (proj1 demo_apply_ok)).
  - apply (bool_decide_unpack _). by vm_compute.
  - apply (bool_decide_unpack _). by vm_compute.
  - done.
  - by vm_compute.
  - by vm_compute.
  - exists 2. split; [| by vm_compute]. apply tc_once.
    unfold Worklist.edge. apply (bool_decide_unpack _). by vm_compute.
  - done.
Defined.

Lemma queue_sizes_accepted_witness :
  ∃ qs, Dswp.new_queues [32; 1] = Ok qs ∧ Dswp.width <$> qs = [32; 8].
Proof.
  destruct (queue_sizes_accepted Parallelizer.demo_getFunction (λ f, f)
    (match Parallelizer.collectThreadPoolHelperFunctionsAndTypes Parallelizer.demo_getFunction (λ f, f)
     with Ok q => q | _ => Parallelizer.Queues [] [] [] ∅ [] end)
    demo_target Z.of_nat demo_pipeline (apply_fuel demo_pipeline) false demo_result eq_refl
    demo_pipeline_wf demo_pipeline_values demo_IDs (le_n _)) as (qs & E & _).
  - by vm_compute.
  - exists qs. vm_compute in E. by injection E as <-.
Defined.

Lemma value_width_supported_witness :
  is_Some (demo_queueTypes !! queue_bits demo_target 4 false) ∧
  ¬ is_Some (demo_queueTypes !! queue_bits (MkTarget (λ _, false) (λ _, 8) (λ _, 3) (λ _, []) (λ n, n.1)
                                              (λ _, 0)) 4 false).
Proof.
  split.
  - apply (value_width_supported Parallelizer.demo_getFunction (λ f, f)
      (Parallelizer.Queues [10; 11; 11; 11] [9; 10; 10; 10] [10; 11; 11; 11] demo_queueTypes
         [8; 16; 32; 64]));
      [by vm_compute | done | done |]. by left.
  - rewrite (value_width_supported Parallelizer.demo_getFunction (λ f, f)
      (Parallelizer.Queues [10; 11; 11; 11] [9; 10; 10; 10] [10; 11; 11; 11] demo_queueTypes
         [8; 16; 32; 64]));
      [cbn; lia | by vm_compute | done | done].
Defined.

Lemma demo_result_wf : queues_wf demo_queueTypes demo_target demo_result.
Proof.
  destruct (apply_analysis_spec demo_queueTypes demo_target demo_pipeline Z.of_nat demo_pipeline_wf
    demo_pipeline_values demo_IDs (apply_fuel demo_pipeline) false (le_n _)) as (r & E & Hr).
  destruct (Hr demo_result) as (d2 & d3 & Ha); [| apply Ha].
  destruct demo_apply_ok as [Ed _]. unfold demo_apply in Ed. rewrite E in Ed. by injection Ed.
Qed.

Lemma areQueuesAcyclical_iff_witness : areQueuesAcyclical demo_result = true.
Proof.
  apply (areQueuesAcyclical_iff demo_queueTypes demo_target); [apply demo_result_wf | by vm_compute | |].
  - assert (taskID <$> tasks demo_result = [0; 1]) as E by by vm_compute.
    intros i t Hi. apply (f_equal (.!! i)) in E. rewrite list_lookup_fmap, Hi in E.
    destruct i as [| [| i]]; by simplify_eq/=.
  - assert ((λ q, (fromStage q, toStage q)) <$> queues demo_result = [(0, 1); (0, 1)]) as E
      by by vm_compute.
    intros i q Hi. apply (f_equal (.!! i)) in E. rewrite list_lookup_fmap, Hi in E.
    destruct i as [| [| i]]; simplify_eq/=; lia.
Defined.
End Apply.
