(* ===== verification/Heuristics.v ===== *)
(** * The heuristics that partition the SCCs for DSWP

    [src/src/core/heuristics/src]: the cost model with its memo tables
    ([InvocationLatency.cpp]), the search for the cheapest merge
    ([PartitionCostAnalysis.cpp], [MinMaxSizePartitionAnalysis.cpp],
    [SmallestSizePartitionAnalysis.cpp]) and the loop that merges until there
    are no more sets than cores ([Heuristics.cpp]).  The partition itself is
    NOELLE's: an interface with the laws of merging. *)

From S2P Require Import Prelude CppStd Worklist SccDag Noelle.

Module Heuristics.
Import SccDag Profiles.

(** ** InvocationLatency *)

(** The memo tables. *)
Record InvocationLatency := MkIL {
  sccToCost : gmap Z Z;
  incomingExternals : gmap Z (gset Z);
  clonableParents : gmap Z (gset Z);
}.

Section latency.
Context (profiles : Hot).
(** [canBeRematerialized] on the attributes of an SCC, and the two maps of
    [computeSCCDAGWhenSCCsAreIgnored]. *)
Context (canBeRematerialized : Z → bool) (getSCCAttrs : Z → Z).
Context (parentsViaClones : Z → list Z) (edgesViaClones : Z → list scc_edge).

Definition latencyPerInvocation_SCC (scc : Z) (il : InvocationLatency) : Z * InvocationLatency :=
  match sccToCost il !! scc with
  | Some cost => (cost, il)
  | None =>
      let cost := getTotalInstructionsOfSCC profiles scc in
      (cost, MkIL (<[scc:=cost]> (sccToCost il)) (incomingExternals il) (clonableParents il))
  end.

(** The values an SCC gets from SCCs that are not cloned. *)
Definition externals_of (scc : Z) : gset Z :=
  list_to_set (concat ((λ e, getDst <$> getSubEdges e) <$>
    filter (λ e, canBeRematerialized (getSCCAttrs (toSCC e)) = false) (edgesViaClones scc))).

Definition memoizeExternals (scc : Z) (il : InvocationLatency) : gset Z * InvocationLatency :=
  match incomingExternals il !! scc with
  | Some s => (s, il)
  | None =>
      let s := externals_of scc in
      (s, MkIL (sccToCost il) (<[scc:=s]> (incomingExternals il)) (clonableParents il))
  end.

(** The parents of an SCC that are cloned. *)
Definition parents_of (scc : Z) : gset Z :=
  list_to_set (filter (λ p, canBeRematerialized (getSCCAttrs p) = true) (parentsViaClones scc)).

Definition memoizeParents (scc : Z) (il : InvocationLatency) : gset Z * InvocationLatency :=
  match clonableParents il !! scc with
  | Some s => (s, il)
  | None =>
      let s := parents_of scc in
      (s, MkIL (sccToCost il) (incomingExternals il) (<[scc:=s]> (clonableParents il)))
  end.

Definition queueLatency : Z := 100.

(** The loops over the SCCs of a set, over them with their cloned parents, and
    over the sets. *)
Definition add_parents (acc : gset Z * InvocationLatency) (scc : Z) : gset Z * InvocationLatency :=
  let '(subsetSCCs, il) := acc in
  let '(parents, il) := memoizeParents scc il in
  (parents ∪ subsetSCCs, il).

Definition add_cost (acc : gset Z * Z * InvocationLatency) (scc : Z)
    : gset Z * Z * InvocationLatency :=
  let '(queueValues, internalCost, il) := acc in
  let '(externals, il) := memoizeExternals scc il in
  let '(cost, il) := latencyPerInvocation_SCC scc il in
  (externals ∪ queueValues, u64 (internalCost + cost), il).

Definition add_set (acc : Z * gset Z * InvocationLatency) (sccs : list Z)
    : Z * gset Z * InvocationLatency :=
  let '(maxInternalCost, queueValues, il) := acc in
  let '(subsetSCCs, il) := foldl add_parents (list_to_set sccs, il) sccs in
  let '(queueValues, internalCost, il) :=
    foldl add_cost (queueValues, 0, il) (in_address_order subsetSCCs) in
  (if maxInternalCost <? internalCost then internalCost else maxInternalCost, queueValues, il).

Definition latencyPerInvocation (sets : list (list Z)) (il : InvocationLatency)
    : Z * InvocationLatency :=
  let '(maxInternalCost, queueValues, il) := foldl add_set (0, ∅, il) sets in
  (foldl (λ cost _, u64 (cost + queueLatency)) maxInternalCost (in_address_order queueValues), il).

(** ** What the tables may hold, and the cost without them *)

Record valid (il : InvocationLatency) : Prop := {
  v_cost scc c : sccToCost il !! scc = Some c → c = getTotalInstructionsOfSCC profiles scc;
  v_externals scc s : incomingExternals il !! scc = Some s → s = externals_of scc;
  v_parents scc s : clonableParents il !! scc = Some s → s = parents_of scc;
}.

(** The SCCs executed by the stage of a set. *)
Definition members (sccs : list Z) : gset Z := list_to_set sccs ∪ ⋃ (parents_of <$> sccs).

(** The instructions they execute. *)
Definition internal_cost (sccs : list Z) : Z :=
  u64 (zsum (getTotalInstructionsOfSCC profiles <$> elements (members sccs))).

(** The values that go through queues. *)
Definition queue_values (sets : list (list Z)) : gset Z :=
  ⋃ ((λ sccs, ⋃ (externals_of <$> elements (members sccs))) <$> sets).

Definition pure_latency (sets : list (list Z)) : Z :=
  u64 (foldr Z.max 0 (internal_cost <$> sets) + queueLatency * Z.of_nat (size (queue_values sets))).

(** A stage executes its SCCs and the clonable parents they have. *)
Lemma elem_of_members scc sccs :
  scc ∈ members sccs ↔
  scc ∈ sccs ∨ ∃ s, s ∈ sccs ∧ scc ∈ parentsViaClones s ∧ canBeRematerialized (getSCCAttrs scc) = true.
Proof using.
  clear profiles edgesViaClones. unfold members, parents_of. rewrite elem_of_union, elem_of_list_to_set, elem_of_union_list.
  apply or_iff_compat_l. split.
  - intros (X & (s & -> & Hs)%list_elem_of_fmap & H). exists s. split; [done |].
    rewrite elem_of_list_to_set, list_elem_of_filter in H. tauto.
  - intros (s & Hs & Hp & Hc). eexists. split; [by apply list_elem_of_fmap_2 |].
    by rewrite elem_of_list_to_set, list_elem_of_filter.
Qed.

(** A queued value is the end of a dependence of such an SCC on one that is not
    cloned. *)
Lemma elem_of_queue_values v sets :
  v ∈ queue_values sets ↔
  ∃ sccs scc e dep, sccs ∈ sets ∧ scc ∈ members sccs ∧ e ∈ edgesViaClones scc ∧
    canBeRematerialized (getSCCAttrs (toSCC e)) = false ∧ dep ∈ getSubEdges e ∧ v = getDst dep.
Proof using.
  unfold queue_values, externals_of. rewrite elem_of_union_list. split.
  - intros (X & (sccs & -> & Hs)%list_elem_of_fmap & H).
    apply elem_of_union_list in H as (Y & (scc & -> & Hscc%elem_of_elements)%list_elem_of_fmap & H).
    apply elem_of_list_to_set, Loops.elem_of_concat in H as (l & (e & -> & He)%list_elem_of_fmap & H).
    apply list_elem_of_filter in He as [Hc He]. apply list_elem_of_fmap in H as (dep & -> & Hd).
    by exists sccs, scc, e, dep.
  - intros (sccs & scc & e & dep & Hs & Hscc & He & Hc & Hd & ->).
    eexists. split; [by apply list_elem_of_fmap_2 |]. apply elem_of_union_list.
    eexists. split; [by apply list_elem_of_fmap_2, elem_of_elements |].
    apply elem_of_list_to_set, Loops.elem_of_concat.
    eexists. split; [| by apply list_elem_of_fmap_2].
    apply (list_elem_of_fmap_2 (λ e, getDst <$> getSubEdges e)). by apply list_elem_of_filter.
Qed.

Lemma valid_empty : valid (MkIL ∅ ∅ ∅).
Proof. split; intros *; cbn; by rewrite lookup_empty. Qed.

Lemma latency_SCC_spec scc il : valid il →
  (latencyPerInvocation_SCC scc il).1 = getTotalInstructionsOfSCC profiles scc ∧
  valid (latencyPerInvocation_SCC scc il).2.
Proof.
  intros Hv. unfold latencyPerInvocation_SCC.
  destruct (sccToCost il !! scc) as [c |] eqn:E; [by rewrite (v_cost _ Hv _ _ E) |].
  split; [done |]. split; cbn; [| apply Hv | apply Hv].
  intros x c [[<- <-] | [_ Hx]]%lookup_insert_Some; [done | by apply Hv].
Qed.

Lemma memoizeExternals_spec scc il : valid il →
  (memoizeExternals scc il).1 = externals_of scc ∧ valid (memoizeExternals scc il).2.
Proof.
  intros Hv. unfold memoizeExternals.
  destruct (incomingExternals il !! scc) as [c |] eqn:E; [by rewrite (v_externals _ Hv _ _ E) |].
  split; [done |]. split; cbn; [apply Hv | | apply Hv].
  intros x c [[<- <-] | [_ Hx]]%lookup_insert_Some; [done | by apply Hv].
Qed.

Lemma memoizeParents_spec scc il : valid il →
  (memoizeParents scc il).1 = parents_of scc ∧ valid (memoizeParents scc il).2.
Proof.
  intros Hv. unfold memoizeParents.
  destruct (clonableParents il !! scc) as [c |] eqn:E; [by rewrite (v_parents _ Hv _ _ E) |].
  split; [done |]. split; cbn; [apply Hv | apply Hv |].
  intros x c [[<- <-] | [_ Hx]]%lookup_insert_Some; [done | by apply Hv].
Qed.

Lemma add_parents_spec l s il : valid il →
  (foldl add_parents (s, il) l).1 = s ∪ ⋃ (parents_of <$> l) ∧ valid (foldl add_parents (s, il) l).2.
Proof.
  revert s il. induction l as [| x l IH]; intros s il Hv.
  { split; [| done]. cbn. by rewrite union_empty_r_L. }
  cbn [foldl]. unfold add_parents at 2 4.
  destruct (memoizeParents_spec x il Hv) as [E Hv'].
  destruct (memoizeParents x il) as [ps il']. cbn in E, Hv'. subst ps.
  destruct (IH (parents_of x ∪ s) il' Hv') as [-> ?]. split; [| done].
  cbn. by rewrite (comm_L (∪) _ s), (assoc_L (∪)).
Qed.

Lemma wrapped_sum_step a b : u64 (u64 a + b) = u64 (a + b).
Proof.
  apply (eqm_unsigned_eq 64); [by apply u64_range | by apply u64_range |].
  unfold u64. by rewrite !wrap_eqm.
Qed.

Lemma add_cost_spec l qv c il : valid il →
  ∃ il', foldl add_cost (qv, u64 c, il) l =
    (qv ∪ ⋃ (externals_of <$> l), u64 (c + zsum (getTotalInstructionsOfSCC profiles <$> l)), il') ∧
    valid il'.
Proof.
  revert qv c il. induction l as [| x l IH]; intros qv c il Hv; cbn [foldl].
  { exists il. split; [| done]. cbn. by rewrite Z.add_0_r, union_empty_r_L. }
  unfold add_cost at 2.
  destruct (memoizeExternals_spec x il Hv) as [E1 Hv1].
  destruct (memoizeExternals x il) as [ext il1]. cbn in E1, Hv1. subst ext.
  destruct (latency_SCC_spec x il1 Hv1) as [E2 Hv2].
  destruct (latencyPerInvocation_SCC x il1) as [k il2]. cbn in E2, Hv2. subst k.
  rewrite wrapped_sum_step.
  destruct (IH (externals_of x ∪ qv) (c + getTotalInstructionsOfSCC profiles x) il2 Hv2)
    as (il' & -> & ?). exists il'. split; [| done]. cbn.
  by rewrite (comm_L (∪) _ qv), (assoc_L (∪)), Z.add_assoc.
Qed.

Lemma internal_cost_in_order sccs :
  u64 (0 + zsum (getTotalInstructionsOfSCC profiles <$> in_address_order (members sccs)))
  = internal_cost sccs.
Proof. unfold internal_cost. f_equal. apply zsum_perm. unfold in_address_order. by rewrite std_sort_perm. Qed.

Lemma add_set_spec m qv sccs il : valid il →
  ∃ il', add_set (m, qv, il) sccs =
    (Z.max m (internal_cost sccs), qv ∪ ⋃ (externals_of <$> elements (members sccs)), il') ∧ valid il'.
Proof.
  intros Hv. unfold add_set.
  destruct (add_parents_spec sccs (list_to_set sccs) il Hv) as [E Hv1].
  destruct (foldl add_parents _ sccs) as [subset il1]. cbn in E, Hv1. subst subset.
  change (list_to_set sccs ∪ ⋃ (parents_of <$> sccs)) with (members sccs).
  destruct (add_cost_spec (in_address_order (members sccs)) qv 0 il1 Hv1) as (il2 & E2 & Hv2).
  change (u64 0) with 0 in E2. rewrite E2, internal_cost_in_order. exists il2. split; [| done].
  assert ((if m <? internal_cost sccs then internal_cost sccs else m)
          = Z.max m (internal_cost sccs)) as -> by (case_tests; lia).
  assert (⋃ (externals_of <$> in_address_order (members sccs))
          = ⋃ (externals_of <$> elements (members sccs))) as ->; [| done].
  apply leibniz_equiv. intros x. rewrite !elem_of_union_list. setoid_rewrite list_elem_of_fmap.
  by setoid_rewrite elem_of_in_address_order; setoid_rewrite elem_of_elements.
Qed.

Lemma add_sets_spec sets m qv il : valid il → 0 ≤ m →
  ∃ il', foldl add_set (m, qv, il) sets =
    (Z.max m (foldr Z.max 0 (internal_cost <$> sets)), qv ∪ queue_values sets, il') ∧ valid il'.
Proof.
  revert m qv il. induction sets as [| x sets IH]; intros m qv il Hv Hm.
  { exists il. split; [| done]. cbn. by rewrite Z.max_l, union_empty_r_L by done. }
  cbn [foldl]. destruct (add_set_spec m qv x il Hv) as (il1 & -> & Hv1).
  edestruct IH as (il2 & -> & Hv2); [done | |].
  - apply Z.le_trans with m; [done | apply Z.le_max_l].
  - exists il2. split; [| done]. cbn. by rewrite Z.max_assoc, (assoc_L (∪)).
Qed.

Lemma internal_costs_range sets : 0 ≤ foldr Z.max 0 (internal_cost <$> sets) < 2 ^ 64.
Proof.
  induction sets as [| x sets IH]; cbn [fmap list_fmap foldr]; [done |].
  pose proof (u64_range (zsum (getTotalInstructionsOfSCC profiles <$> elements (members x)))) as Hr.
  change (u64 _) with (internal_cost x) in Hr. change (2 ^ 64) with 18446744073709551616 in *. lia.
Qed.

Lemma queue_latencies l c :
  foldl (λ cost (_ : Z), u64 (cost + queueLatency)) (u64 c) l
  = u64 (c + queueLatency * Z.of_nat (length l)).
Proof.
  revert c. induction l as [| x l IH]; intros c; cbn [foldl length]; [f_equal; lia |].
  rewrite wrapped_sum_step, IH. f_equal. lia.
Qed.

Lemma latencyPerInvocation_spec sets il : valid il →
  ∃ il', latencyPerInvocation sets il = (pure_latency sets, il') ∧ valid il'.
Proof.
  intros Hv. unfold latencyPerInvocation.
  destruct (add_sets_spec sets 0 ∅ il Hv) as (il' & -> & Hv'); [done |].
  exists il'. split; [| done]. pose proof (internal_costs_range sets) as Hr.
  rewrite Z.max_r, union_empty_l_L by lia.
  rewrite <- (u64_small (foldr _ _ _)) by exact Hr. rewrite queue_latencies. unfold pure_latency.
  f_equal. f_equal. unfold in_address_order. by rewrite std_sort_perm.
Qed.
End latency.

(** ** PartitionCostAnalysis *)

(** NOELLE's [SCCDAGPartitioner]: the partition [P], its sets by their
    addresses, and what merging does. *)
Class Partitioner (P : Type) := {
  getSets : P → list Z;
  sccs : P → Z → list Z;
  getRoots : P → list Z;
  getChildren : P → Z → list Z;
  getCycleIntroducedByMerging : P → Z → Z → gset Z;
  mergeSetsAndCollapseResultingCycles : gset Z → P → P;
  sets_NoDup p : NoDup (getSets p);
  roots_NoDup p : NoDup (getRoots p);
  roots_sets p r : r ∈ getRoots p → r ∈ getSets p;
  children_sets p s c : s ∈ getSets p → c ∈ getChildren p s → c ∈ getSets p ∧ c ≠ s;
  cycle_sets p a b : a ∈ getSets p → b ∈ getChildren p a →
    a ∈ getCycleIntroducedByMerging p a b ∧ b ∈ getCycleIntroducedByMerging p a b ∧
    ∀ s, s ∈ getCycleIntroducedByMerging p a b → s ∈ getSets p;
  merge_fewer m p : (∀ s, s ∈ m → s ∈ getSets p) → (2 ≤ size m)%nat →
    (length (getSets (mergeSetsAndCollapseResultingCycles m p)) < length (getSets p))%nat;
  merge_SCCs m p s scc : s ∈ getSets (mergeSetsAndCollapseResultingCycles m p) →
    scc ∈ sccs (mergeSetsAndCollapseResultingCycles m p) s → ∃ t, t ∈ getSets p ∧ scc ∈ sccs p t;
}.

Definition numNodes `{Partitioner P} (p : P) : Z := Z.of_nat (length (getSets p)).

(** The candidate of the search. *)
Record Candidate := MkCandidate {
  minSetsToMerge : gset Z;
  savedCostByMerging : Z;
  costOfMergedSet : Z;
  numInstructionsInSetsBeingMerged : Z;
}.

Definition UINT64_MAX : Z := 2 ^ 64 - 1.

Definition resetCandidateSubsetInfo : Candidate := MkCandidate ∅ 0 UINT64_MAX UINT64_MAX.

Section search.
Context `{Partitioner P} (profiles : Hot).
Context (canBeRematerialized : Z → bool) (getSCCAttrs : Z → Z).
Context (parentsViaClones : Z → list Z) (edgesViaClones : Z → list scc_edge).
Context (numCores : Z).                          (* an [int] *)
Context (sccToInstructionCountMap : gmap Z Z).

#[local] Abbreviation latency := (latencyPerInvocation profiles canBeRematerialized getSCCAttrs
                                          parentsViaClones edgesViaClones).

(** The sets of a merge, in the order of their addresses. *)
Definition merged_SCCs (p : P) (setsInMerge : gset Z) : list Z :=
  concat (sccs p <$> in_address_order setsInMerge).

(** [instCountOfMerge]; [at] throws on an unknown SCC. *)
Fixpoint count_merge (l : list Z) (instCountOfMerge : Z) : outcome Z :=
  match l with
  | [] => Ok instCountOfMerge
  | scc :: rest =>
      match sccToInstructionCountMap !! scc with
      | None => Fail Thrown
      | Some n => count_merge rest (u64 (instCountOfMerge + n))
      end
  end.

(** [MinMaxSizePartitionAnalysis::checkIfShouldMerge]. *)
Definition minmax_checkIfShouldMerge (p : P) (sA sB : Z) (acc : outcome (Candidate * InvocationLatency))
    : outcome (Candidate * InvocationLatency) :=
  acc ≫= λ '(cand, il),
  if s32 (numNodes p) <=? numCores then Ok (cand, il)
  else
    let setsInMerge := getCycleIntroducedByMerging p sA sB in
    let potentialMerge := merged_SCCs p setsInMerge in
    count_merge potentialMerge 0 ≫= λ instCountOfMerge : Z,
    let '(costOnceMerged, il) := latency [potentialMerge] il in
    Ok (if costOfMergedSet cand <? costOnceMerged then cand
        else if (costOnceMerged =? costOfMergedSet cand)
                && (numInstructionsInSetsBeingMerged cand <? instCountOfMerge) then cand
        else MkCandidate setsInMerge (savedCostByMerging cand) costOnceMerged instCountOfMerge, il).

(** [SmallestSizePartitionAnalysis::checkIfShouldMerge] does nothing. *)
Definition smallest_checkIfShouldMerge (p : P) (sA sB : Z)
    (acc : outcome (Candidate * InvocationLatency)) : outcome (Candidate * InvocationLatency) := acc.

Section strategy.
Context (checkIfShouldMerge : P → Z → Z → outcome (Candidate * InvocationLatency) →
                              outcome (Candidate * InvocationLatency)).

Definition traverseAllPartitionSubsets (fuel : nat) (p : P)
    (acc : outcome (Candidate * InvocationLatency)) : option (outcome (Candidate * InvocationLatency)) :=
  snd <$> Worklist.discover (getChildren p) (λ sub child _, checkIfShouldMerge p sub child) fuel
            (getRoots p) (list_to_set (getRoots p)) acc.

(** [mergeCandidateSubsets]: the new partition and whether it changed; the
    third component is [costIfAllSetsRunOnSeparateCores]. *)
Definition mergeCandidateSubsets (p : P) (cand : Candidate) (cost : Z) (il : InvocationLatency)
    : bool * P * Z * InvocationLatency :=
  if (size (minSetsToMerge cand) =? 0)%nat then (false, p, cost, il)
  else
    let p := mergeSetsAndCollapseResultingCycles (minSetsToMerge cand) p in
    let '(cost, il) := latency (sccs p <$> getSets p) il in
    (true, p, cost, il).

(** The loop of [minMaxMergePartition] and [smallestSizeMergePartition]; [rounds]
    bounds its rounds, the traversal of a round gets the fuel it needs. *)
Fixpoint merge_loop (rounds : nat) (p : P) (cost : Z) (il : InvocationLatency)
    : option (outcome (P * Z * InvocationLatency)) :=
  match rounds with
  | O => None
  | S rounds =>
      r ← traverseAllPartitionSubsets (length (getRoots p) + length (getSets p)) p
            (Ok (resetCandidateSubsetInfo, il));
      match r with
      | Fail e => Some (Fail e)
      | Ok (cand, il) =>
          let '(modified, p, cost, il) := mergeCandidateSubsets p cand cost il in
          if modified : bool then merge_loop rounds p cost il else Some (Ok (p, cost, il))
      end
  end.
End strategy.

(** ** The cheapest merge *)

#[local] Abbreviation check := minmax_checkIfShouldMerge.
#[local] Abbreviation valid_il := (valid profiles canBeRematerialized getSCCAttrs
                                         parentsViaClones edgesViaClones).

(** Every SCC of the partition has been counted. *)
Definition counted (p : P) : Prop :=
  ∀ s scc, s ∈ getSets p → scc ∈ sccs p s → is_Some (sccToInstructionCountMap !! scc).

(** The sets the traversal visits. *)
Definition reached (p : P) (s : Z) : Prop :=
  ∃ r, r ∈ getRoots p ∧ rtc (Worklist.edge (getChildren p)) r s.

(** The cost and the size of the set that merging [a] and [b] results in. *)
Definition merge_cost (p : P) (a b : Z) : Z :=
  pure_latency profiles canBeRematerialized getSCCAttrs parentsViaClones edgesViaClones
    [merged_SCCs p (getCycleIntroducedByMerging p a b)].

Definition merge_count (p : P) (a b : Z) : Z :=
  u64 (zsum ((λ scc, default 0 (sccToInstructionCountMap !! scc)) <$>
             merged_SCCs p (getCycleIntroducedByMerging p a b))).

Definition merge_candidate (p : P) (a b : Z) : Candidate :=
  MkCandidate (getCycleIntroducedByMerging p a b) 0 (merge_cost p a b) (merge_count p a b).

(** At most as costly, and at most as big among the equally costly. *)
Definition no_better (cand : Candidate) (cost count : Z) : Prop :=
  costOfMergedSet cand < cost ∨
  costOfMergedSet cand = cost ∧ numInstructionsInSetsBeingMerged cand ≤ count.

(** The best of the merges [es]. *)
Definition best_of (p : P) (es : list (Z * Z)) (cand : Candidate) : Prop :=
  (es = [] ∧ cand = resetCandidateSubsetInfo ∨
   ∃ a b, (a, b) ∈ es ∧ cand = merge_candidate p a b) ∧
  ∀ a b, (a, b) ∈ es → no_better cand (merge_cost p a b) (merge_count p a b).

Lemma count_merge_spec l n :
  (∀ scc, scc ∈ l → is_Some (sccToInstructionCountMap !! scc)) →
  count_merge l (u64 n)
  = Ok (u64 (n + zsum ((λ scc, default 0 (sccToInstructionCountMap !! scc)) <$> l))).
Proof.
  revert n. induction l as [| scc l IH]; intros n Hall; cbn.
  { do 2 f_equal. lia. }
  destruct (Hall scc) as [k Hk]; [by left |]. rewrite Hk, wrapped_sum_step, IH.
  - do 2 f_equal. cbn. lia.
  - intros x Hx. apply Hall. by right.
Qed.

Lemma merged_counted p a b scc :
  counted p → a ∈ getSets p → b ∈ getChildren p a →
  scc ∈ merged_SCCs p (getCycleIntroducedByMerging p a b) →
  is_Some (sccToInstructionCountMap !! scc).
Proof.
  intros Hc Ha Hb (l & (s & -> & Hs%elem_of_in_address_order)%list_elem_of_fmap & Hscc)
    %Loops.elem_of_concat.
  apply (Hc s); [| done]. by apply (cycle_sets p a b).
Qed.

Lemma merge_cost_range p a b : 0 ≤ merge_cost p a b ≤ UINT64_MAX.
Proof.
  unfold merge_cost, pure_latency. pose proof (u64_range
    (foldr Z.max 0 (internal_cost profiles canBeRematerialized getSCCAttrs parentsViaClones <$>
                    [merged_SCCs p (getCycleIntroducedByMerging p a b)])
     + queueLatency * Z.of_nat (size (queue_values canBeRematerialized getSCCAttrs parentsViaClones
         edgesViaClones [merged_SCCs p (getCycleIntroducedByMerging p a b)])))).
  change UINT64_MAX with 18446744073709551615. lia.
Qed.

Lemma merge_count_range p a b : 0 ≤ merge_count p a b ≤ UINT64_MAX.
Proof.
  unfold merge_count.
  pose proof (u64_range (zsum ((λ scc, default 0 (sccToInstructionCountMap !! scc)) <$>
             merged_SCCs p (getCycleIntroducedByMerging p a b)))).
  change UINT64_MAX with 18446744073709551615. lia.
Qed.

(** Comparing one more merge with the best one so far. *)
Definition better (p : P) (a b : Z) (cand : Candidate) : Candidate :=
  if costOfMergedSet cand <? merge_cost p a b then cand
  else if (merge_cost p a b =? costOfMergedSet cand)
          && (numInstructionsInSetsBeingMerged cand <? merge_count p a b) then cand
  else MkCandidate (getCycleIntroducedByMerging p a b) (savedCostByMerging cand)
                   (merge_cost p a b) (merge_count p a b).

Lemma check_eq p (cand : Candidate) il a b :
  valid_il il → counted p → a ∈ getSets p → b ∈ getChildren p a → numCores < s32 (numNodes p) →
  ∃ il', check p a b (Ok (cand, il)) = Ok (better p a b cand, il') ∧ valid_il il'.
Proof.
  intros Hv Hc Ha Hb Hn. unfold minmax_checkIfShouldMerge. cbn.
  rewrite (proj2 (Z.leb_gt _ _)) by done.
  pose proof (count_merge_spec (merged_SCCs p (getCycleIntroducedByMerging p a b)) 0) as Hcount.
  change (u64 0) with 0 in Hcount. rewrite Hcount by (intros scc; by apply merged_counted). cbn.
  destruct (latencyPerInvocation_spec profiles canBeRematerialized getSCCAttrs parentsViaClones
              edgesViaClones [merged_SCCs p (getCycleIntroducedByMerging p a b)] il Hv)
    as (il' & -> & Hv').
  by exists il'.
Qed.

Lemma better_best p es (cand : Candidate) a b :
  best_of p es cand → best_of p (es ++ [(a, b)]) (better p a b cand).
Proof.
  intros [Hcand Hbest]. pose proof (merge_cost_range p a b) as Hr1.
  pose proof (merge_count_range p a b) as Hr2.
  assert (savedCostByMerging cand = 0) as Hsaved.
  { by destruct Hcand as [[_ ->] | (? & ? & _ & ->)]. }
  assert (∀ c : Candidate, no_better c (merge_cost p a b) (merge_count p a b) →
            (∀ x y, (x, y) ∈ es → no_better c (merge_cost p x y) (merge_count p x y)) →
            ∀ x y, (x, y) ∈ es ++ [(a, b)] → no_better c (merge_cost p x y) (merge_count p x y)) as Hall.
  { intros c Hc He x y [? | [= -> ->]%list_elem_of_singleton]%elem_of_app; auto. }
  assert (costOfMergedSet cand < UINT64_MAX ∨ numInstructionsInSetsBeingMerged cand < UINT64_MAX →
            ∃ x y, (x, y) ∈ es ++ [(a, b)] ∧ cand = merge_candidate p x y) as Hkeep.
  { intros Hlt. destruct Hcand as [[_ Hc] | (x & y & Hxy & Hc)]; [rewrite Hc in Hlt; cbn in Hlt; lia |].
    exists x, y. split; [by apply elem_of_app; left | done]. }
  unfold better. case_tests.
  - split; [right; apply Hkeep; lia | apply Hall; [left; lia | done]].
  - split; [right; apply Hkeep; lia | apply Hall; [right; lia | done]].
  - split.
    + right. exists a, b. rewrite Hsaved. split; [apply elem_of_app; right; by left | done].
    + assert (costOfMergedSet cand > merge_cost p a b ∨ costOfMergedSet cand = merge_cost p a b ∧
              merge_count p a b ≤ numInstructionsInSetsBeingMerged cand) as Hle.
      { apply andb_false_iff in Heqb1 as [?|?]; simplify_tests; lia. }
      apply Hall; [right; cbn; lia |]. intros x y Hxy. specialize (Hbest x y Hxy).
      unfold no_better in *. cbn. lia.
Qed.

Lemma check_fold p es il :
  valid_il il → counted p → numCores < s32 (numNodes p) →
  (∀ a b, (a, b) ∈ es → a ∈ getSets p ∧ b ∈ getChildren p a) →
  ∃ cand il', foldl (λ st e, check p e.1 e.2 st) (Ok (resetCandidateSubsetInfo, il)) es
                = Ok (cand, il') ∧ valid_il il' ∧ best_of p es cand.
Proof.
  intros Hv Hc Hn. induction es as [| [a b] es IH] using rev_ind; intros Hes.
  { exists resetCandidateSubsetInfo, il. split_and!; [done | done |].
    split; [by left | by intros ? ? ?%not_elem_of_nil]. }
  destruct IH as (cand & il1 & E & Hv1 & Hb1).
  { intros x y Hxy. apply Hes, elem_of_app. by left. }
  destruct (Hes a b) as [Ha Hb]; [apply elem_of_app; right; by left |].
  destruct (check_eq p cand il1 a b Hv1 Hc Ha Hb Hn) as (il2 & E2 & Hv2).
  exists (better p a b cand), il2. rewrite foldl_app, E. cbn [foldl fst snd]. rewrite E2.
  split_and!; [done | done | by apply better_best].
Qed.

(** Nothing is merged when there are no more sets than cores. *)
Lemma check_fold_stop p es acc :
  s32 (numNodes p) ≤ numCores →
  foldl (λ st e, check p e.1 e.2 st) (Ok acc) es = Ok acc.
Proof.
  intros Hn. induction es as [| e es IH]; cbn [foldl]; [done |].
  unfold minmax_checkIfShouldMerge at 2. destruct acc as [cand il]. cbn.
  by rewrite (proj2 (Z.leb_le _ _)) by done.
Qed.

Lemma partition_children_closed p (n m : Z) :
  n ∈ (list_to_set (getSets p) : gset Z) → Worklist.edge (getChildren p) n m →
  m ∈ (list_to_set (getSets p) : gset Z).
Proof.
  intros Hn Hm. apply elem_of_list_to_set in Hn. apply elem_of_list_to_set.
  by apply (children_sets p n m).
Qed.

(** The traversal ends, and looks at every edge out of every set it reaches. *)
Lemma traverse_spec p (acc : outcome (Candidate * InvocationLatency)) :
  ∃ es, traverseAllPartitionSubsets check (length (getRoots p) + length (getSets p)) p acc
          = Some (foldl (λ st e, check p e.1 e.2 st) acc es) ∧
    (∀ a b, (a, b) ∈ es ↔ reached p a ∧ b ∈ getChildren p a) ∧
    (∀ a, reached p a → a ∈ getSets p).
Proof.
  unfold traverseAllPartitionSubsets.
  set (seeds := list_to_set (getRoots p) : gset Z).
  destruct (Worklist.discover_total (getChildren p) (list_to_set (getSets p)) (partition_children_closed p)
              (λ sub child (_ : bool), check p sub child) (length (getRoots p) + length (getSets p))
              (getRoots p) seeds acc) as (visited & st & E).
  - intros r Hr%elem_of_list_to_set. apply elem_of_list_to_set. by apply roots_sets.
  - assert (size (list_to_set (getSets p) ∖ seeds : gset Z) ≤ size (list_to_set (getSets p) : gset Z))%nat
      as Hle by (apply subseteq_size; set_solver).
    rewrite (size_list_to_set (C := gset Z)) in Hle by apply sets_NoDup. lia.
  - rewrite E. cbn.
    destruct (Worklist.discover_trace (getChildren p) (check p) _ _ _ _ [] _ _ E)
      as (es & _ & -> & Hes).
    exists es. split; [done |].
    assert (Worklist.closed (getChildren p) (getRoots p) seeds) as Hcl by (intros ? ?; set_solver).
    pose proof (Worklist.discover_visited _ _ _ _ _ _ _ _ Hcl E) as Hv.
    assert (∀ a, reached p a ↔ a ∈ getRoots p ++ elements (visited ∖ seeds)) as Hreach.
    { intros a. rewrite elem_of_app, elem_of_elements, elem_of_difference, Hv. unfold reached.
      split.
      - intros (r & Hr & [-> | Ht]%rtc_tc); [by left |].
        destruct (decide (a ∈ getRoots p)); [by left | right]. split; [eauto | set_solver].
      - intros [Ha | [[Ha | (r & Hr & Ht)] Hna]]; [| done |].
        + exists a. split; [done | constructor].
        + exists r. split; [done | by apply tc_rtc]. }
    split.
    + intros a b. rewrite Hes, Hreach. done.
    + intros a (r & Hr & Ht). apply roots_sets in Hr. induction Ht as [| x y z Hxy _ IH]; [done |].
      apply IH. by apply (children_sets p x y).
Qed.

(** ** Rounds of merges *)

(** The partition [p'] was made from [p] by merging. *)
Definition merged_from (p p' : P) : Prop :=
  (length (getSets p') ≤ length (getSets p))%nat ∧
  ∀ s scc, s ∈ getSets p' → scc ∈ sccs p' s → ∃ t, t ∈ getSets p ∧ scc ∈ sccs p t.

Lemma merged_counted_after p p' : merged_from p p' → counted p → counted p'.
Proof. intros [_ Hm] Hc s scc Hs Hscc. destruct (Hm s scc Hs Hscc) as (t & ? & ?). by eapply Hc. Qed.

(** A round either stops, with at most as many sets as cores or with nothing to
    merge, or makes the partition smaller. *)
Lemma round_spec p cost il :
  valid_il il → counted p →
  ∃ cand il1, traverseAllPartitionSubsets check (length (getRoots p) + length (getSets p)) p
                (Ok (resetCandidateSubsetInfo, il)) = Some (Ok (cand, il1)) ∧
  ∃ modified p' cost' il2,
    mergeCandidateSubsets p cand cost il1 = (modified, p', cost', il2) ∧ valid_il il2 ∧
    if modified then (length (getSets p') < length (getSets p))%nat ∧ merged_from p p'
    else p' = p ∧ (s32 (numNodes p) ≤ numCores ∨ ∀ a b, reached p a → b ∉ getChildren p a).
Proof.
  intros Hv Hc. destruct (traverse_spec p (Ok (resetCandidateSubsetInfo, il))) as (es & -> & Hes & Hin).
  destruct (Z.le_gt_cases (s32 (numNodes p)) numCores) as [Hstop | Hgo].
  { rewrite check_fold_stop by done. do 2 eexists. split; [done |]. do 4 eexists.
    split; [done |]. split; [done |]. split; [done | by left]. }
  destruct (check_fold p es il Hv Hc Hgo) as (cand & il1 & -> & Hv1 & [Hcand _]).
  { intros a b [Ha Hb]%Hes. split; [by apply Hin | done]. }
  exists cand, il1. split; [done |]. unfold mergeCandidateSubsets.
  destruct Hcand as [[-> ->] | (a & b & [Ha Hb]%Hes & ->)].
  { do 4 eexists. split; [done |]. split; [done |]. split; [done |]. right.
    intros a b Ha Hb. assert ((a, b) ∈ ([] : list (Z * Z))) as []%not_elem_of_nil by by apply Hes. }
  cbn [minSetsToMerge merge_candidate].
  destruct (cycle_sets p a b (Hin a Ha) Hb) as (Hca & Hcb & Hsub).
  destruct (children_sets p a b (Hin a Ha) Hb) as [_ Hne].
  assert (2 ≤ size (getCycleIntroducedByMerging p a b))%nat as Hsize.
  { assert (size ({[a]} ∪ {[b]} : gset Z) = 2%nat) as <-.
    { rewrite size_union by set_solver. by rewrite !size_singleton. }
    apply subseteq_size. set_solver. }
  destruct (size _ =? 0)%nat eqn:E0; [apply Nat.eqb_eq in E0; lia |].
  pose proof (merge_fewer _ p Hsub Hsize) as Hfewer.
  set (p' := mergeSetsAndCollapseResultingCycles _ p) in *.
  destruct (latencyPerInvocation_spec profiles canBeRematerialized getSCCAttrs parentsViaClones
              edgesViaClones (sccs p' <$> getSets p') il1 Hv1) as (il2 & -> & Hv2).
  do 4 eexists. split; [done |]. split; [done |]. split; [done |]. split; [lia |].
  intros s scc. apply merge_SCCs.
Qed.

Lemma merge_loop_spec rounds p cost il :
  valid_il il → counted p → (length (getSets p) < rounds)%nat →
  ∃ p' cost' il', merge_loop check rounds p cost il = Some (Ok (p', cost', il')) ∧ valid_il il' ∧ merged_from p p' ∧
    (s32 (numNodes p') ≤ numCores ∨ ∀ a b, reached p' a → b ∉ getChildren p' a).
Proof.
  revert p cost il. induction rounds as [| rounds IH]; intros p cost il Hv Hc Hr; [lia |].
  cbn [merge_loop].
  destruct (round_spec p cost il Hv Hc) as (cand & il1 & -> & [] & p1 & cost1 & il2 & E & Hv2 & Hcase);
    cbn; rewrite E.
  - destruct Hcase as [Hlt Hm].
    destruct (IH p1 cost1 il2 Hv2) as (p' & cost' & il' & E' & Hv' & [Hle Hm'] & Hstop).
    + by eapply merged_counted_after.
    + lia.
    + exists p', cost', il'. split_and!; [done | done | | done].
      split; [lia |]. intros s scc Hs Hscc. destruct (Hm' s scc Hs Hscc) as (t & Ht & Hscc').
      by apply (proj2 Hm t).
  - destruct Hcase as [-> Hstop]. exists p, cost1, il2. split_and!; [done | done | | done].
    split; [done |]. eauto.
Qed.
End search.

(** The constructor of [PartitionCostAnalysis]: the number of instructions of
    every SCC and their total, which nothing reads afterwards. *)
Record PartitionCostAnalysis := PCA {
  sccToInstructionCountMap : gmap Z Z;
  totalInstructionCount : Z;
}.

Definition count_scc (g : SCCDAG) (a : PartitionCostAnalysis) (scc : Z) : PartitionCostAnalysis :=
  let instCount := numInternalNodes g scc in
  PCA (match a.(sccToInstructionCountMap) !! scc with
       | Some _ => a.(sccToInstructionCountMap)
       | None => <[scc := instCount]> a.(sccToInstructionCountMap)
       end)
      (u64 (a.(totalInstructionCount) + instCount)).

Definition count_all_sccs `{Partitioner P} (g : SCCDAG) (p : P) : PartitionCostAnalysis :=
  foldl (count_scc g) (PCA ∅ 0) (concat (sccs p <$> getSets p)).

Definition instruction_count_map `{Partitioner P} (g : SCCDAG) (p : P) : gmap Z Z :=
  (count_all_sccs g p).(sccToInstructionCountMap).

(** [Heuristics::adjustParallelizationPartitionForDSWP]. *)
Definition adjustParallelizationPartitionForDSWP `{Partitioner P} (profiles : Hot) (g : SCCDAG)
    (viaClones : (Z → list Z) * (Z → list scc_edge)) (canBeRematerialized : Z → bool)
    (numThreads : Z) (rounds : nat) (p : P) (il : InvocationLatency)
    : option (outcome (P * Z * InvocationLatency)) :=
  let numCores := s32 numThreads in
  let '(cost, il) := latencyPerInvocation profiles canBeRematerialized (getSCCAttrs g)
                       viaClones.1 viaClones.2 (sccs p <$> getSets p) il in
  merge_loop profiles canBeRematerialized (getSCCAttrs g) viaClones.1 viaClones.2
    (minmax_checkIfShouldMerge profiles canBeRematerialized (getSCCAttrs g) viaClones.1 viaClones.2
       numCores (instruction_count_map g p))
    rounds p cost il.

Lemma instruction_counts_grow g l a :
  let m' := sccToInstructionCountMap (foldl (count_scc g) a l) in
  (∀ scc, is_Some (sccToInstructionCountMap a !! scc) → is_Some (m' !! scc)) ∧
  (∀ scc, scc ∈ l → is_Some (m' !! scc)).
Proof.
  revert a. induction l as [| x l IH]; intros a; cbn [foldl].
  { split; [done | by intros ? ?%not_elem_of_nil]. }
  assert (is_Some (sccToInstructionCountMap (count_scc g a x) !! x) ∧
          ∀ y, is_Some (sccToInstructionCountMap a !! y) →
               is_Some (sccToInstructionCountMap (count_scc g a x) !! y)) as [Hx Hm].
  { unfold count_scc. cbn. destruct (sccToInstructionCountMap a !! x) eqn:E; [by rewrite E; eauto |].
    split; [by rewrite lookup_insert_eq; eauto |]. intros y Hy.
    destruct (decide (x = y)) as [-> | Hne]; [by rewrite lookup_insert_eq; eauto |].
    by rewrite lookup_insert_ne. }
  destruct (IH (count_scc g a x)) as [H1 H2]. split; [by intros y Hy; apply H1, Hm |].
  intros y [-> | Hy]%elem_of_cons; [by apply H1 | by apply H2].
Qed.

Lemma instruction_count_map_counted `{Partitioner P} g (p : P) : counted (instruction_count_map g p) p.
Proof.
  intros s scc Hs Hscc. apply instruction_counts_grow. apply Loops.elem_of_concat.
  exists (sccs p s). split; [| done]. apply list_elem_of_fmap. eauto.
Qed.

(** ** The properties *)

(** C25. The memo tables do not change what is computed: with any valid tables
    the cost of a list of sets is the largest number of instructions a set
    executes, plus 100 for every value that has to come through a queue, and the
    tables stay valid.  A set executes its SCCs and their clonable parents; a
    value comes through a queue when it is the end of a dependence of such an SCC
    on one that is not cloned, and counts once. *)
Theorem latency_memo_transparent profiles canBeRematerialized attrs parentsVia edgesVia sets il :
  valid profiles canBeRematerialized attrs parentsVia edgesVia il →
  (latencyPerInvocation profiles canBeRematerialized attrs parentsVia edgesVia sets il).1 =
    pure_latency profiles canBeRematerialized attrs parentsVia edgesVia sets ∧
  valid profiles canBeRematerialized attrs parentsVia edgesVia
    (latencyPerInvocation profiles canBeRematerialized attrs parentsVia edgesVia sets il).2 ∧
  (∀ scc sccs, scc ∈ members canBeRematerialized attrs parentsVia sccs ↔
     scc ∈ sccs ∨ ∃ s, s ∈ sccs ∧ scc ∈ parentsVia s ∧ canBeRematerialized (attrs scc) = true) ∧
  (∀ v, v ∈ queue_values canBeRematerialized attrs parentsVia edgesVia sets ↔
     ∃ sccs scc e dep, sccs ∈ sets ∧ scc ∈ members canBeRematerialized attrs parentsVia sccs ∧
       e ∈ edgesVia scc ∧ canBeRematerialized (attrs (toSCC e)) = false ∧
       dep ∈ getSubEdges e ∧ v = getDst dep).
Proof.
  intros Hv.
  destruct (latencyPerInvocation_spec profiles canBeRematerialized attrs parentsVia edgesVia sets il Hv)
    as (il' & -> & Hv').
  split; [done |]. split; [done |].
  split; intros; [apply elem_of_members | apply elem_of_queue_values].
Qed.

(** C23. While there are more sets than cores a round of the heuristic picks
    the cheapest merge: of all the dependences between sets it reaches from the
    roots, the candidate costs the least once merged, and has the fewest
    instructions among those; there is no candidate only when there is nothing
    to merge. *)
Theorem cheapest_merge_chosen `{Partitioner P} profiles canBeRematerialized attrs parentsVia edgesVia
    numCores counts (p : P) il :
  valid profiles canBeRematerialized attrs parentsVia edgesVia il →
  counted counts p → numCores < s32 (numNodes p) →
  ∃ cand il',
    traverseAllPartitionSubsets
      (minmax_checkIfShouldMerge profiles canBeRematerialized attrs parentsVia edgesVia numCores counts)
      (length (getRoots p) + length (getSets p)) p (Ok (resetCandidateSubsetInfo, il))
      = Some (Ok (cand, il')) ∧
    ((minSetsToMerge cand = ∅ ∧ ∀ a b, reached p a → b ∉ getChildren p a) ∨
     ∃ a b, reached p a ∧ b ∈ getChildren p a ∧
       cand = merge_candidate profiles canBeRematerialized attrs parentsVia edgesVia counts p a b ∧
       ∀ c d, reached p c → d ∈ getChildren p c →
         no_better cand
           (merge_cost profiles canBeRematerialized attrs parentsVia edgesVia p c d)
           (merge_count counts p c d)).
Proof.
  intros Hv Hc Hn.
  destruct (traverse_spec profiles canBeRematerialized attrs parentsVia edgesVia numCores counts p
              (Ok (resetCandidateSubsetInfo, il))) as (es & -> & Hes & Hin).
  destruct (check_fold profiles canBeRematerialized attrs parentsVia edgesVia numCores counts p es il
              Hv Hc Hn) as (cand & il1 & -> & _ & [Hcand Hbest]).
  { intros a b [Ha Hb]%Hes. split; [by apply Hin | done]. }
  exists cand, il1. split; [done |]. destruct Hcand as [[-> ->] | (a & b & [Ha Hb]%Hes & E)].
  - left. split; [done |]. intros a b Ha Hb.
    assert ((a, b) ∈ ([] : list (Z * Z))) as []%not_elem_of_nil by by apply Hes.
  - right. exists a, b. split_and!; [done | done | done |].
    intros c d' Hc' Hd. apply Hbest. by apply Hes.
Qed.

(** C22. The merging terminates: one round more than there are sets is enough,
    and the partition it ends with has at most as many sets as cores, or no
    dependence between sets left to merge along; it never has more sets than at
    the start, nor an SCC that was not there. *)
Theorem merging_terminates `{Partitioner P} profiles g viaClones canBeRematerialized numThreads
    rounds (p : P) il :
  valid profiles canBeRematerialized (getSCCAttrs g) viaClones.1 viaClones.2 il →
  (length (getSets p) < rounds)%nat →
  ∃ p' cost' il',
    adjustParallelizationPartitionForDSWP profiles g viaClones canBeRematerialized numThreads rounds
      p il = Some (Ok (p', cost', il')) ∧
    merged_from p p' ∧
    (s32 (numNodes p') ≤ s32 numThreads ∨ ∀ a b, reached p' a → b ∉ getChildren p' a).
Proof.
  intros Hv Hr. unfold adjustParallelizationPartitionForDSWP.
  destruct (latencyPerInvocation_spec profiles canBeRematerialized (getSCCAttrs g) viaClones.1
              viaClones.2 (sccs p <$> getSets p) il Hv) as (il1 & -> & Hv1).
  destruct (merge_loop_spec profiles canBeRematerialized (getSCCAttrs g) viaClones.1 viaClones.2
    (s32 numThreads) (instruction_count_map g p) rounds p
    (pure_latency profiles canBeRematerialized (getSCCAttrs g) viaClones.1 viaClones.2
       (sccs p <$> getSets p)) il1 Hv1 (instruction_count_map_counted g p) Hr)
    as (p' & cost' & il' & E & _ & Hm & Hs).
  exists p', cost', il'. done.
Qed.

(** ** A concrete partition: a chain of sets *)

(** The sets are the positions of a list; each set feeds the next one. *)
Definition chain := list (list Z).

Definition chain_sets (p : chain) : list Z := seqZ 0 (Z.of_nat (length p)).
Definition chain_sccs (p : chain) (s : Z) : list Z := default [] (p !! Z.to_nat s).
Definition chain_children (p : chain) (s : Z) : list Z :=
  filter (λ c, c = s + 1) (chain_sets p).

(** The merged sets become the first one. *)
Definition chain_merge (m : gset Z) (p : chain) : chain :=
  concat (chain_sccs p <$> filter (λ s, s ∈ m) (chain_sets p))
    :: (chain_sccs p <$> filter (λ s, s ∉ m) (chain_sets p)).

Lemma length_filter_split (Q : Z → Prop) `{∀ x, Decision (Q x)} (l : list Z) :
  (length (filter Q l) + length (filter (λ x, ¬ Q x) l) = length l)%nat.
Proof.
  induction l as [| x l IH]; [done |]. rewrite !filter_cons.
  destruct (decide (Q x)), (decide (¬ Q x)); try tauto; cbn; lia.
Qed.

Lemma chain_merge_fewer m p :
  (∀ s, s ∈ m → s ∈ chain_sets p) → (2 ≤ size m)%nat →
  (length (chain_sets (chain_merge m p)) < length (chain_sets p))%nat.
Proof.
  intros Hm Hs. unfold chain_sets at 1. unfold chain_merge. rewrite length_seqZ. cbn [length].
  rewrite length_fmap, Nat2Z.id.
  pose proof (length_filter_split (λ s, s ∈ m) (chain_sets p)) as Hsplit.
  assert (size m = length (filter (λ s, s ∈ m) (chain_sets p))) as Hsize; [| lia].
  rewrite <- (size_list_to_set (C := gset Z)) by apply NoDup_filter, NoDup_seqZ.
  f_equal. apply leibniz_equiv. intros s. rewrite elem_of_list_to_set, list_elem_of_filter.
  split; [auto | tauto].
Qed.

Lemma chain_merge_SCCs m p s scc :
  s ∈ chain_sets (chain_merge m p) → scc ∈ chain_sccs (chain_merge m p) s →
  ∃ t, t ∈ chain_sets p ∧ scc ∈ chain_sccs p t.
Proof.
  intros _. unfold chain_sccs at 1, chain_merge. destruct (Z.to_nat s) as [| k].
  - intros (l & (t & -> & [_ Ht]%list_elem_of_filter)%list_elem_of_fmap & Hscc)%Loops.elem_of_concat.
    by exists t.
  - change (scc ∈ default [] ((chain_sccs p <$> filter (λ s, s ∉ m) (chain_sets p)) !! k) →
            ∃ t, t ∈ chain_sets p ∧ scc ∈ chain_sccs p t).
    rewrite list_lookup_fmap. destruct (filter _ _ !! k) as [t |] eqn:E; cbn; [| by intros ?%not_elem_of_nil].
    intros Hscc. exists t. split; [| done]. apply list_elem_of_lookup_2 in E.
    by apply list_elem_of_filter in E as [_ ?].
Qed.

#[export] Instance chain_partitioner : Partitioner chain.
Proof.
  refine {|
    getSets := chain_sets;
    sccs := chain_sccs;
    getRoots p := filter (λ s, s = 0) (chain_sets p);
    getChildren := chain_children;
    getCycleIntroducedByMerging _ a b := {[a; b]};
    mergeSetsAndCollapseResultingCycles := chain_merge;
    merge_fewer := chain_merge_fewer;
    merge_SCCs := chain_merge_SCCs;
  |}.
  - intros p. apply NoDup_seqZ.
  - intros p. apply NoDup_filter, NoDup_seqZ.
  - by intros p r [_ ?]%list_elem_of_filter.
  - intros p s c Hs [-> ?]%list_elem_of_filter. split; [done | lia].
  - intros p a b Ha [Hb Hb']%list_elem_of_filter. set_solver.
Defined.

(** Three sets of one SCC each, of 5, 1 and 2 instructions; two cores. *)
Definition demo_hot : Hot := {|
  isAvailable := true;
  hasBeenExecuted := λ _, true;
  getIterations := λ _, 1;
  getAverageTotalInstructionsPerInvocation := λ _, F64.of_Z 1;
  getAverageLoopIterationsPerInvocation := λ _, F64.of_Z 1;
  getAverageTotalInstructionsPerIteration := λ _, F64.of_Z 1;
  getDynamicTotalInstructionCoverage := λ _, F64.of_Z 1;
  getTotalInstructionsOfSCC := λ scc, if scc =? 10 then 5 else if scc =? 11 then 1 else 2;
  getTotalInstructions := 8;
|}.

Definition demo_chain : chain := [[10]; [11]; [12]].

Definition demo_graph : SCCDAG :=
  MkSCCDAG [10; 11; 12] (λ n, [n]) (λ _, []) [] (λ v, v) (λ n, n).

(** SCC 12 depends twice on SCC 10, on the values 100 and 101, and once on SCC
    11, which can be cloned: two values are queued, and the stage of 12 executes
    11 as well. *)
Definition demo_edges (scc : Z) : list scc_edge :=
  if scc =? 12 then
    [SccEdge 12 10 [Dep 5 100 VariableDependence; Dep 6 101 VariableDependence; Dep 7 100 VariableDependence];
     SccEdge 12 11 [Dep 5 110 VariableDependence]]
  else [].
Definition demo_parents (scc : Z) : list Z := if scc =? 12 then [10; 11] else [].

Lemma latency_memo_transparent_witness :
  (latencyPerInvocation demo_hot (λ n, n =? 11) (λ n, n) demo_parents demo_edges demo_chain
     (MkIL ∅ ∅ ∅)).1 = 205.
Proof.
  rewrite (proj1 (latency_memo_transparent demo_hot (λ n, n =? 11) (λ n, n) demo_parents demo_edges demo_chain
    (MkIL ∅ ∅ ∅) (valid_empty _ _ _ _ _))).
  by vm_compute.
Defined.

Lemma cheapest_merge_chosen_witness :
  ∃ cand il', traverseAllPartitionSubsets
      (minmax_checkIfShouldMerge demo_hot (λ _, false) (λ n, n) (λ _, []) (λ _, []) 2
         (instruction_count_map demo_graph demo_chain)) 4 demo_chain
      (Ok (resetCandidateSubsetInfo, MkIL ∅ ∅ ∅)) = Some (Ok (cand, il')) ∧
    minSetsToMerge cand = {[1; 2]} ∧ costOfMergedSet cand = 3.
Proof.
  destruct (cheapest_merge_chosen demo_hot (λ _, false) (λ n, n) (λ _, []) (λ _, []) 2
    (instruction_count_map demo_graph demo_chain) demo_chain (MkIL ∅ ∅ ∅) (valid_empty _ _ _ _ _)
    (instruction_count_map_counted _ _)) as (cand & il' & E & _); [done |].
  exists cand, il'. split; [exact E |]. vm_compute in E. injection E as <- _. by vm_compute.
Defined.

(** The two cheap sets are merged, and then there are no more sets than cores. *)
Lemma merging_terminates_witness :
  ∃ p' cost' il', adjustParallelizationPartitionForDSWP demo_hot demo_graph (λ _, [], λ _, [])
      (λ _, false) 2 4 demo_chain (MkIL ∅ ∅ ∅) = Some (Ok (p', cost', il')) ∧
    p' = [[11; 12]; [10]] ∧ cost' = 5.
Proof.
  destruct (merging_terminates demo_hot demo_graph (λ _, [], λ _, []) (λ _, false) 2 4 demo_chain
    (MkIL ∅ ∅ ∅) (valid_empty _ _ _ _ _)) as (p' & cost' & il' & E & _); [vm_compute; lia |].
  exists p', cost', il'. split; [exact E |]. vm_compute in E. injection E as <- <- _. done.
Defined.
End Heuristics.
