(* ===== verification/DoallGuard.v ===== *)
(** * When DOALL applies

    [DOALL::getSCCsThatBlockDOALLToBeApplicable]
    ([src/src/core/doall/src/DOALL_analysis.cpp]) and
    [DOALL::canBeAppliedToLoop] ([DOALL_applicabilityGuard.cpp]): which
    dependences block the parallelization, and the conditions on the exits, the
    live-out variables and the induction variables of the loop. *)

From S2P Require Import Prelude CppStd Noelle.

Module DoallGuard.
Import Metadata.

(** ** DOALL_analysis.cpp *)

Inductive dependence_kind := ControlDep | MemoryDep | VariableDep.

(** A loop-carried dependence; [disjoint]: both ends are instructions and the
    iteration space analysis finds their accesses disjoint between iterations. *)
Record dependence := Dep { dep_kind : dependence_kind; disjoint : bool }.

Inductive SCC_kind :=
| LoopCarriedUnknownSCC | UnknownClosedFormSCC | InductionVariableSCC | ReductionSCC | OtherSCC.

#[export] Instance SCC_kind_eq_dec : EqDecision SCC_kind.
Proof. solve_decision. Defined.

Record SCC := MkSCC { scc_id : Z; scc_kind : SCC_kind; scc_loop_carried : list dependence }.

(** The scan of the dependences of one SCC, with its early exits. *)
Fixpoint areAllDataLCDsFromDisjointMemoryAccesses (deps : list dependence) : bool :=
  match deps with
  | [] => true
  | d :: rest =>
      match d.(dep_kind) with
      | ControlDep => areAllDataLCDsFromDisjointMemoryAccesses rest
      | VariableDep => false
      | MemoryDep => if d.(disjoint) then areAllDataLCDsFromDisjointMemoryAccesses rest else false
      end
  end.

(** [nonDOALLSCCs]: the SCCs with loop-carried data dependences. *)
Definition getSCCsThatBlockDOALLToBeApplicable (nonDOALLSCCs : list SCC) : list SCC :=
  filter (λ s, Is_true (match s.(scc_kind) with
                        | LoopCarriedUnknownSCC | UnknownClosedFormSCC =>
                            negb (areAllDataLCDsFromDisjointMemoryAccesses s.(scc_loop_carried))
                        | _ => false
                        end)) nonDOALLSCCs.

(** ** DOALL_applicabilityGuard.cpp *)

(** The instruction before the terminator of an exit block. *)
Inductive previous_instruction :=
| NoInstruction
| CallTo (callee : option Dec.text)
| OtherInstruction.

Definition exit_name : Dec.text := String.list_ascii_of_string "exit".
#[global] Arguments exit_name : simpl never.

(** Is the exit block counted as an exit of the loop? *)
Definition counts_as_exit (prevInst : previous_instruction) : bool :=
  match prevInst with
  | NoInstruction => true
  | CallTo (Some callee) => negb (bool_decide (callee = exit_name))
  | CallTo None => true
  | OtherInstruction => true
  end.

Fixpoint numOfExits (blocks : list previous_instruction) : Z :=
  match blocks with
  | [] => 0
  | b :: rest => (if counts_as_exit b then 1 else 0) + numOfExits rest
  end.

Record loop_content := LoopContent {
  loopStructure : Z;
  loopExitBasicBlocks : list previous_instruction;
  nonReducibleLiveOuts : list SCC;        (* the SCC of the producer of each *)
  sccsWithLoopCarriedData : list SCC;
  hasLoopGoverningIV : bool;
  stepsAreLoopInvariant : list bool;      (* of every induction variable *)
  derivationIsLoopInvariant : list bool;  (* of the exit condition value *)
}.

Definition canBeAppliedToLoop `{MetadataManager M} (mm : M) (LDI : loop_content) : bool :=
  let isDOALL := getMetadata mm LDI.(loopStructure) gino_doall in
  if bool_decide (isDOALL = Some yes) then true
  else if bool_decide (isDOALL = Some no) then false
  else if negb (numOfExits LDI.(loopExitBasicBlocks) =? 1) then false
  else
    let liveOutThatRequireSynchronizations :=
      filter (λ s, s.(scc_kind) ≠ InductionVariableSCC) LDI.(nonReducibleLiveOuts) in
    if negb (length liveOutThatRequireSynchronizations =? 0)%nat then false
    else if negb (length (getSCCsThatBlockDOALLToBeApplicable LDI.(sccsWithLoopCarriedData)) =? 0)%nat
    then false
    else if negb LDI.(hasLoopGoverningIV) then false
    else if negb (forallb id LDI.(stepsAreLoopInvariant)) then false
    else forallb id LDI.(derivationIsLoopInvariant).

(** ** What the guard accepts *)

(** A dependence DOALL can ignore. *)
Definition harmless (d : dependence) : Prop :=
  dep_kind d = ControlDep ∨ (dep_kind d = MemoryDep ∧ disjoint d = true).

Lemma all_disjoint_spec deps :
  areAllDataLCDsFromDisjointMemoryAccesses deps = true ↔ Forall harmless deps.
Proof.
  induction deps as [| d deps IH]; cbn; [split; [constructor | done] |].
  rewrite Forall_cons, <- IH. unfold harmless.
  destruct d as [[] []]; cbn; split; try done; try tauto; intros [[? | [? ?]] ?]; done.
Qed.

Lemma blocking_spec sccs :
  getSCCsThatBlockDOALLToBeApplicable sccs = [] ↔
  ∀ s, s ∈ sccs → scc_kind s = LoopCarriedUnknownSCC ∨ scc_kind s = UnknownClosedFormSCC →
       Forall harmless (scc_loop_carried s).
Proof.
  unfold getSCCsThatBlockDOALLToBeApplicable. split.
  - intros Hnil s Hs Hk. apply all_disjoint_spec.
    destruct (areAllDataLCDsFromDisjointMemoryAccesses (scc_loop_carried s)) eqn:E; [done |].
    assert (s ∈ filter (λ s, Is_true (match scc_kind s with
      | LoopCarriedUnknownSCC | UnknownClosedFormSCC =>
          negb (areAllDataLCDsFromDisjointMemoryAccesses (scc_loop_carried s))
      | _ => false end)) sccs) as Hin.
    { apply list_elem_of_filter. split; [| done]. rewrite E. by destruct Hk as [-> | ->]. }
    rewrite Hnil in Hin. by apply not_elem_of_nil in Hin.
  - intros H. apply elem_of_nil_inv. intros s [Hp Hs]%list_elem_of_filter. specialize (H s Hs).
    assert (scc_kind s = LoopCarriedUnknownSCC ∨ scc_kind s = UnknownClosedFormSCC) as Hk
      by (destruct (scc_kind s); auto; done).
    apply H, all_disjoint_spec in Hk as E. rewrite E in Hp. by destruct (scc_kind s).
Qed.

(** Exactly one exit block that is not left by a call to [exit]. *)
Lemma numOfExits_filter blocks :
  numOfExits blocks = Z.of_nat (length (filter (λ b, counts_as_exit b = true) blocks)).
Proof.
  induction blocks as [| b blocks IH]; [done |]. cbn [numOfExits]. rewrite IH, filter_cons.
  destruct (counts_as_exit b) eqn:E; [rewrite decide_True by done | rewrite decide_False by done]; cbn; lia.
Qed.

Lemma length_filter_nil {A} (P : A → Prop) `{∀ x, Decision (P x)} (l : list A) :
  negb (length (filter P l) =? 0)%nat = false ↔ ∀ x, x ∈ l → ¬ P x.
Proof.
  rewrite negb_false_iff, Nat.eqb_eq, length_zero_iff_nil. split.
  - intros E x Hx HP. assert (x ∈ filter P l) as Hin by (by apply list_elem_of_filter).
    rewrite E in Hin. by apply not_elem_of_nil in Hin.
  - intros Hno. apply elem_of_nil_inv. intros x [HP Hx]%list_elem_of_filter. by apply (Hno x).
Qed.

Lemma forallb_id_spec bs : forallb id bs = true ↔ Forall (λ b, b = true) bs.
Proof.
  induction bs as [| b bs IH]; cbn; [split; [constructor | done] |].
  by rewrite andb_true_iff, Forall_cons, IH.
Qed.

(** ** Properties *)

(** C28. The guard of DOALL: a loop already marked by the planner is accepted or
    refused as marked; any other loop is accepted exactly when a single exit
    block is not left by a call to [exit], every live-out variable that is not
    reducible is an induction variable, every loop-carried dependence of an SCC
    of unknown form is a control dependence or a memory dependence between
    accesses that are disjoint across iterations, and the loop is governed by
    an induction variable whose exit value is loop invariant, all steps being
    invariant too. *)
Theorem canBeAppliedToLoop_iff `{MetadataManager M} (mm : M) LDI :
  canBeAppliedToLoop mm LDI = true ↔
  getMetadata mm (loopStructure LDI) gino_doall = Some yes ∨
  (getMetadata mm (loopStructure LDI) gino_doall ≠ Some no ∧
   length (filter (λ b, counts_as_exit b = true) (loopExitBasicBlocks LDI)) = 1%nat ∧
   (∀ s, s ∈ nonReducibleLiveOuts LDI → scc_kind s = InductionVariableSCC) ∧
   (∀ s, s ∈ sccsWithLoopCarriedData LDI →
      scc_kind s = LoopCarriedUnknownSCC ∨ scc_kind s = UnknownClosedFormSCC →
      Forall harmless (scc_loop_carried s)) ∧
   hasLoopGoverningIV LDI = true ∧
   Forall (λ b, b = true) (stepsAreLoopInvariant LDI) ∧
   Forall (λ b, b = true) (derivationIsLoopInvariant LDI)).
Proof.
  unfold canBeAppliedToLoop. rewrite <- !forallb_id_spec, <- blocking_spec.
  case_bool_decide as Hy; [by split; [left |] |].
  case_bool_decide as Hno; [split; [done | intros [? | (? & _)]; done] |].
  rewrite numOfExits_filter.
  destruct (Z.eqb_spec (Z.of_nat (length (filter (λ b, counts_as_exit b = true)
              (loopExitBasicBlocks LDI)))) 1) as [E1 | N1]; cbn [negb].
  2: { split; [done | intros [? | (_ & ? & _)]; [done | lia]]. }
  destruct (negb (length (filter _ (nonReducibleLiveOuts LDI)) =? 0)%nat) eqn:E2.
  { split; [done |]. intros [? | (_ & _ & Hl & _)]; [done |]. apply not_false_iff_true in E2.
    exfalso. apply E2, length_filter_nil. intros s Hs Hk. by apply Hk, Hl. }
  assert (∀ s, s ∈ nonReducibleLiveOuts LDI → scc_kind s = InductionVariableSCC) as Hl.
  { intros s Hs. destruct (decide (scc_kind s = InductionVariableSCC)); [done |].
    by destruct (proj1 (length_filter_nil _ _) E2 s Hs). }
  destruct (getSCCsThatBlockDOALLToBeApplicable _) as [| s l]; cbn.
  2: { split; [done | intros [? | (_ & _ & _ & ? & _)]; done]. }
  destruct (hasLoopGoverningIV LDI); cbn; [| split; [done | intros [? | (_ & _ & _ & _ & ? & _)]; done]].
  destruct (forallb id (stepsAreLoopInvariant LDI)); cbn;
    [| split; [done | intros [? | (_ & _ & _ & _ & _ & ? & _)]; done]].
  split; [| intros [? | (_ & _ & _ & _ & _ & _ & ?)]; done].
  intros Hd. right. split_and!; try done. lia.
Qed.

Definition abort_name : Dec.text := String.list_ascii_of_string "abort".

(** C40. Only calls to [exit] are recognized as not returning: an unmarked loop
    with a regular exit and an exit block that ends in [abort] is refused. *)
Theorem abort_counts_as_exit `{MetadataManager M} (mm : M) LDI before after :
  getMetadata mm (loopStructure LDI) gino_doall = None →
  loopExitBasicBlocks LDI = before ++ CallTo (Some abort_name) :: after →
  OtherInstruction ∈ before ++ after →
  canBeAppliedToLoop mm LDI = false.
Proof.
  intros Hmm Hblocks Hother. unfold canBeAppliedToLoop. rewrite Hmm. cbn.
  assert (2 ≤ numOfExits (loopExitBasicBlocks LDI)) as Hge.
  { rewrite numOfExits_filter, Hblocks.
    apply list_elem_of_split in Hother as (l1 & l2 & E).
    assert (length (filter (λ b, counts_as_exit b = true) (before ++ CallTo (Some abort_name) :: after)) =
            length (filter (λ b, counts_as_exit b = true) (CallTo (Some abort_name) :: before ++ after))) as ->.
    { apply Permutation_length, filter_Permutation. by rewrite Permutation_middle. }
    rewrite filter_cons, decide_True by done. rewrite E, filter_app, (filter_cons _ OtherInstruction).
    rewrite decide_True by done. cbn. rewrite length_app. cbn. lia. }
  destruct (Z.eqb_spec (numOfExits (loopExitBasicBlocks LDI)) 1); [lia | done].
Qed.

Definition demo_loop (exits : list previous_instruction) : loop_content := {|
  loopStructure := 1;
  loopExitBasicBlocks := exits;
  nonReducibleLiveOuts := [MkSCC 1 InductionVariableSCC []];
  sccsWithLoopCarriedData := [MkSCC 2 LoopCarriedUnknownSCC [Dep ControlDep false; Dep MemoryDep true]];
  hasLoopGoverningIV := true;
  stepsAreLoopInvariant := [true];
  derivationIsLoopInvariant := [];
|}.

Definition no_metadata : Z → key → option Dec.text := λ _ _, None.

Lemma abort_counts_as_exit_witness :
  canBeAppliedToLoop no_metadata (demo_loop [OtherInstruction; CallTo (Some exit_name)]) = true ∧
  canBeAppliedToLoop no_metadata (demo_loop [OtherInstruction; CallTo (Some abort_name)]) = false.
Proof.
  split; [by vm_compute |].
  apply (abort_counts_as_exit no_metadata (demo_loop [OtherInstruction; CallTo (Some abort_name)])
           [OtherInstruction] []); [done | done | left].
Defined.
End DoallGuard.
