(* ===== verification/DoallChunking.v ===== *)
(** * The iteration chunks of a DOALL task

    [DOALL::rewireLoopToIterateChunks] of
    [src/src/core/doall/src/DOALL_chunking.cpp]: the code it generates, as
    functions of the values the generated instructions read, and the execution
    of a task.  Task instance [t] of [n], with chunk size [c], is to run the
    iterations [i] with [(i / c) mod n = t]. *)

From S2P Require Import Prelude Noelle RuntimeCores RuntimePool RuntimeDoall.

Module Chunking.
Import IVs.

(** A periodic variable: it takes the values [initial], [initial + step], ... and
    is back at [initial] after [period] iterations. *)
Record PeriodicVariable := MkPV { pv_width : Z; pv_initial : Z; pv_step : Z; pv_period : Z }.

(** The values a task carries from one iteration to the next: the chunk PHI,
    the induction variables and the absolute iteration counter. *)
Record tstate := TState { chunkPHI : Z; ivPHIs : list Z; iterCounter : Z }.

Section generated.
Context `{IVUtility} (taskInstanceID numTaskInstances chunkSizeArg : Z).

(** The values computed in the entry block of the task. *)
Definition coreIdx_X_chunkSize : Z := s64 (taskInstanceID * chunkSizeArg).
Definition numCoresMinus1 : Z := s64 (numTaskInstances - 1).
Definition numCoresMinus1_X_chunkSize : Z := s64 (numCoresMinus1 * chunkSizeArg).

(** The start value of an induction variable in the task. *)
Definition offsetStartValue (iv : IV) : Z :=
  let nthCoreOffset :=
    scaleInductionVariableStep iv.(iv_width) iv.(iv_step) coreIdx_X_chunkSize in
  offsetIVPHI iv.(iv_width) iv.(iv_start) nthCoreOffset.

(** Its value for the next iteration: at the end of a chunk it jumps over the
    chunks of the other tasks. *)
Definition chunkedIVValue (iv : IV) (completed : bool) (v : Z) : Z :=
  let next := swrap iv.(iv_width) (v + iv.(iv_step)) in
  let chunkStepSize :=
    scaleInductionVariableStep iv.(iv_width) iv.(iv_step) numCoresMinus1_X_chunkSize in
  chunkInductionVariablePHI iv.(iv_width) next completed chunkStepSize.

(** The absolute iteration counter. *)
Definition iterSelect (completed : bool) (counter : Z) : Z :=
  let iterIncrement := s64 (counter + 1) in
  let iterChunkStep := s64 (iterIncrement + numCoresMinus1_X_chunkSize) in
  if completed then iterChunkStep else iterIncrement.

(** The value of a periodic variable, recomputed in the header. *)
Definition pvCurr (pv : PeriodicVariable) (counter : Z) : Z :=
  let pvIter := Z.rem counter pv.(pv_period) in
  let pvStepXpvIter := s64 (pv.(pv_step) * pvIter) in
  let pvSITrunc := swrap pv.(pv_width) pvStepXpvIter in
  swrap pv.(pv_width) (pvSITrunc + pv.(pv_initial)).

Definition entry_state (ivs : list IV) : tstate :=
  TState chunkPHI_start (offsetStartValue <$> ivs) coreIdx_X_chunkSize.

Definition latch_state (ivs : list IV) (s : tstate) : tstate :=
  let completed := isChunkCompleted s.(chunkPHI) chunkSizeArg in
  TState (chunkPHI_next s.(chunkPHI) chunkSizeArg)
         (zip_with (λ iv v, chunkedIVValue iv completed v) ivs s.(ivPHIs))
         (iterSelect completed s.(iterCounter)).

(** ** The guards

    Instructions of the header that may run more often than in the sequential
    loop; any other one requires a check before entering the header. *)
Record header_info := HeaderInfo {
  headerInstructions : list Z;
  ivInstructions : list Z;          (* of all induction variables *)
  cmpInst : Z;
  brInst : Z;
  chunkPHIInst : Z;
  reductionInstructions : list (list Z);  (* per reduction SCC *)
  invariantIterationInstructions : list Z;  (* loop invariant, in a LoopIterationSCC *)
}.

Definition repeatableInstructions (h : header_info) : gset Z :=
  list_to_set h.(ivInstructions) ∪ {[h.(cmpInst); h.(brInst); h.(chunkPHIInst)]} ∪
  list_to_set (filter (λ I, I ∈ h.(headerInstructions)) (concat h.(reductionInstructions))) ∪
  list_to_set (filter (λ I, I ∈ h.(headerInstructions)) h.(invariantIterationInstructions)).

Definition requiresConditionBeforeEnteringHeader (h : header_info) : bool :=
  existsb (λ I, negb (bool_decide (I ∈ repeatableInstructions h))) h.(headerInstructions).

(** ** The execution of a task

    [governing] is the loop-governing induction variable, [others] the rest;
    [exits] the exit condition of the header, made non-strict. *)
Context (governing : IV) (others : list IV) (exits : Z → bool) (guarded : bool).

Inductive event := HeaderOf (s : tstate) | BodyOf (s : tstate).

Definition governing_value (s : tstate) : Z := default 0 (head s.(ivPHIs)).

(** Did the iteration before the one with this value of the governing variable
    leave the loop?  In a latch, the value the compare of that iteration read;
    in the preheader, the value to use for it. *)
Definition latch_clonedCmpInst (v : Z) : bool :=
  let prevIterationValue := previousValueUsedToCompare governing.(iv_width) v governing.(iv_step) in
  exits prevIterationValue.

Definition preheader_clonedExitCmpInst (v : Z) : bool :=
  let prevIterationValue := valueForAnIterationAgo governing.(iv_width) v governing.(iv_step) in
  exits prevIterationValue.

Fixpoint task_loop (fuel : nat) (s : tstate) : option (list event) :=
  match fuel with
  | O => None
  | S f =>
      if exits (governing_value s) then Some [HeaderOf s]
      else
        let s' := latch_state (governing :: others) s in
        if guarded && latch_clonedCmpInst (governing_value s')
        then Some [HeaderOf s; BodyOf s]
        else evs ← task_loop f s'; Some (HeaderOf s :: BodyOf s :: evs)
  end.

(** The preheader lets a task in if it starts at the first iteration or the
    previous iteration did not leave the loop. *)
Definition run_task (fuel : nat) : option (list event) :=
  let s := entry_state (governing :: others) in
  let isNotFirstIteration := negb (governing_value s =? governing.(iv_start)) in
  if guarded && (isNotFirstIteration && preheader_clonedExitCmpInst (governing_value s))
  then Some []
  else task_loop fuel s.
End generated.

(** ** Which iterations a task runs *)

Section owner.
Context (n c : Z) (Hn : 1 ≤ n) (Hc : 1 ≤ c).

(** The task instance iteration [i] belongs to. *)
Definition owner (i : Z) : Z := (i / c) mod n.

(** The iteration a task runs after [i]. *)
Definition next_index (i : Z) : Z :=
  if i mod c + 1 =? c then i + 1 + (n - 1) * c else i + 1.

Definition owned (t i j : Z) : list Z := filter (λ k, owner k = t) (seqZ i (j - i)).

Lemma owner_range i : 0 ≤ owner i < n.
Proof. apply Z.mod_pos_bound. lia. Qed.

Lemma owned_empty t i j : j ≤ i → owned t i j = [].
Proof. intros. unfold owned. by rewrite seqZ_nil by lia. Qed.

Lemma owned_cons t i j : i < j →
  owned t i j = (if decide (owner i = t) then [i] else []) ++ owned t (i + 1) j.
Proof.
  intros Hij. unfold owned. rewrite seqZ_cons by lia. rewrite filter_cons.
  replace (Z.succ i) with (i + 1) by lia. replace (Z.pred (j - i)) with (j - (i + 1)) by lia.
  by destruct (decide (owner i = t)).
Qed.

(** A range without iterations of [t] can be skipped. *)
Lemma owned_skip t (k : nat) : ∀ i j,
  (∀ x, i ≤ x < i + Z.of_nat k → owner x ≠ t) → owned t i j = owned t (i + Z.of_nat k) j.
Proof.
  induction k as [| k IH]; intros i j Hno; [by rewrite Z.add_0_r |].
  destruct (Z.ltb_spec i j).
  - rewrite owned_cons by done. rewrite decide_False by (apply Hno; lia). cbn.
    rewrite IH by (intros; apply Hno; lia). f_equal. lia.
  - rewrite (owned_empty t i), (owned_empty t (i + _)) by lia. done.
Qed.

Lemma div_chunk q r : 0 ≤ r < c → (q * c + r) / c = q.
Proof. intros. rewrite Z.div_add_l by lia. rewrite Z.div_small by lia. lia. Qed.

Lemma next_index_owner i : 0 ≤ i → owner (next_index i) = owner i ∧ i < next_index i ≤ i + n * c.
Proof.
  intros Hi. unfold next_index, owner.
  pose proof (Z.div_mod i c ltac:(lia)) as E. pose proof (Z.mod_pos_bound i c ltac:(lia)) as Hr.
  set (q := i / c) in *. set (r := i mod c) in *.
  destruct (Z.eqb_spec (r + 1) c) as [Er | Hne].
  - split; [| nia]. replace (i + 1 + (n - 1) * c) with ((q + n) * c + 0) by lia.
    rewrite div_chunk by lia. rewrite <- (Z.mul_1_l n) at 1. by rewrite Z_mod_plus_full.
  - split; [| nia]. replace (i + 1) with (q * c + (r + 1)) by lia. by rewrite div_chunk by lia.
Qed.

(** Between an iteration of a task and its next one there is none of it. *)
Lemma owned_step t i j : 0 ≤ i → i < j → owner i = t →
  owned t i j = i :: owned t (next_index i) j.
Proof.
  intros Hi Hij Ho. rewrite owned_cons by done. rewrite decide_True by done. cbn. f_equal.
  unfold next_index. destruct (Z.eqb_spec (i mod c + 1) c) as [Er | Hne]; [| done].
  rewrite (owned_skip t (Z.to_nat ((n - 1) * c))); [f_equal; nia |].
  intros x Hx Hox. rewrite Z2Nat.id in Hx by nia. unfold owner in *.
  pose proof (Z.div_mod i c ltac:(lia)) as E. set (q := i / c) in *.
  pose proof (Z.div_mod x c ltac:(lia)) as Ex. pose proof (Z.mod_pos_bound x c ltac:(lia)).
  set (y := x / c) in *.
  assert (q + 1 ≤ y ≤ q + n - 1) as Hy by nia.
  pose proof (Z.div_mod q n ltac:(lia)). pose proof (Z.div_mod y n ltac:(lia)).
  destruct (Z.le_gt_cases (y / n) (q / n)); nia.
Qed.

Lemma entry_owner t : 0 ≤ t < n → owner (t * c) = t.
Proof.
  intros Ht. unfold owner. rewrite Z.div_mul by lia. by apply Z.mod_small.
Qed.

(** Before its first chunk a task has no iteration. *)
Lemma owned_entry t j : 0 ≤ t < n → owned t 0 j = owned t (t * c) j.
Proof.
  intros Ht. rewrite (owned_skip t (Z.to_nat (t * c))); [by rewrite Z2Nat.id by nia |].
  intros x Hx. rewrite Z2Nat.id in Hx by nia. unfold owner.
  assert (x / c < t) by (apply Z.div_lt_upper_bound; nia).
  assert (0 ≤ x / c) by (apply Z.div_pos; lia). rewrite Z.mod_small by lia. lia.
Qed.

(** The iterations of all the tasks together. *)
Lemma owned_partition j :
  concat (map (λ t, owned (Z.of_nat t) 0 j) (seq 0 (Z.to_nat n))) ≡ₚ seqZ 0 j.
Proof.
  unfold owned. rewrite Z.sub_0_r. induction (seqZ 0 j) as [| i l IH]; cbn.
  - generalize (seq 0 (Z.to_nat n)). intros ts. by induction ts.
  - rewrite <- IH. clear IH.
    assert (∀ ts : list nat, NoDup ts →
      concat (map (λ t : nat, filter (λ k, owner k = Z.of_nat t) (i :: l)) ts) ≡ₚ
      (if decide (Z.to_nat (owner i) ∈ ts) then [i] else []) ++
      concat (map (λ t : nat, filter (λ k, owner k = Z.of_nat t) l) ts)) as Hts.
    { pose proof (owner_range i). induction ts as [| t ts IH]; intros Hnd; [done |].
      apply NoDup_cons in Hnd as [Hnt Hnd]. cbn [map concat]. rewrite IH by done.
      rewrite filter_cons. destruct (decide (owner i = Z.of_nat t)) as [E | Hne].
      - rewrite E, Nat2Z.id. rewrite decide_False by done. rewrite decide_True by left. done.
      - destruct (decide (Z.to_nat (owner i) ∈ ts)) as [Hin | Hnin].
        + rewrite decide_True by by right. cbn. by rewrite Permutation_middle.
        + rewrite decide_False; [done |]. intros [E | ?]%elem_of_cons; [lia | done]. }
    rewrite Hts by apply NoDup_seq. rewrite decide_True; [done |].
    pose proof (owner_range i). apply elem_of_seq. lia.
Qed.
End owner.

(** ** The execution of a task *)

Definition headers (evs : list event) : list tstate :=
  omap (λ e, match e with HeaderOf s => Some s | _ => None end) evs.
Definition bodies (evs : list event) : list tstate :=
  omap (λ e, match e with BodyOf s => Some s | _ => None end) evs.

Lemma bodies_iteration s evs : bodies (HeaderOf s :: BodyOf s :: evs) = s :: bodies evs.
Proof. done. Qed.
Lemma headers_iteration s evs : headers (HeaderOf s :: BodyOf s :: evs) = s :: headers evs.
Proof. done. Qed.

(** The state of the sequential loop at the header of iteration [i]. *)
Definition state_of (c : Z) (ivs : list IV) (i : Z) : tstate :=
  TState (i mod c) ((λ v, iv_value v i) <$> ivs) i.

Section execution.
Context `{IVUtility} (n c N : Z) (governing : IV) (others : list IV) (exits : Z → bool).
Let ivs := governing :: others.
Context (Hn : 1 ≤ n) (Hc : 1 ≤ c) (HN : 0 ≤ N) (Hsmall : N + n * c < 2 ^ 63).
Context (Hwidth : Forall (λ v, 1 ≤ iv_width v) ivs).

(** The loop has [N] iterations, and the non-strict exit condition also catches
    the values of the governing variable in the chunks past the end. *)
Context (Hexits : ∀ i, 0 ≤ i ≤ N + n * c → exits (iv_value governing i) = (N <=? i)).

Lemma s64_small z : 0 ≤ z < 2 ^ 63 → s64 z = z.
Proof. intros [H1 H2]. apply swrap_small; [done |]. apply is_s64_iff.
  change (2 ^ 63) with 9223372036854775808 in H2. lia.
Qed.

Lemma governing_width : 1 ≤ iv_width governing.
Proof. by apply Forall_cons in Hwidth as [? _]. Qed.

Lemma entry_state_of t : 0 ≤ t < n → entry_state t c ivs = state_of c ivs (t * c).
Proof.
  intros Ht. unfold entry_state, state_of, coreIdx_X_chunkSize.
  rewrite s64_small by nia. f_equal.
  - rewrite chunk_start. symmetry. apply Z.mod_mul. lia.
  - apply list_fmap_ext. intros j v Hv. pose proof (Forall_lookup_1 _ _ _ _ Hwidth Hv) as Hw. cbn in Hw.
    unfold offsetStartValue, coreIdx_X_chunkSize. rewrite s64_small by nia.
    rewrite offset_phi, scale_step. unfold iv_value. apply swrap_eqm_eq; [done |].
    rewrite swrap_eqm. by replace (t * c * iv_step v) with (iv_step v * (t * c)) by lia.
Qed.

Lemma latch_state_of i : 0 ≤ i → i < N →
  latch_state n c ivs (state_of c ivs i) = state_of c ivs (next_index n c i).
Proof.
  intros Hi HiN. unfold latch_state, state_of. cbn [chunkPHI ivPHIs iterCounter].
  pose proof (Z.mod_pos_bound i c ltac:(lia)) as Hr. pose proof (Z.div_mod i c ltac:(lia)) as E.
  rewrite chunk_completed, chunk_next by lia. unfold next_index.
  assert (numCoresMinus1_X_chunkSize n c = (n - 1) * c) as Ecs.
  { unfold numCoresMinus1_X_chunkSize, numCoresMinus1.
    assert (n ≤ n * c) by nia. rewrite (s64_small (n - 1)) by lia. apply s64_small. nia. }
  assert (∀ k, zip_with (λ iv v, chunkedIVValue n c iv k v) ivs ((λ v, iv_value v i) <$> ivs) =
    (λ v, iv_value v (if k : bool then i + 1 + (n - 1) * c else i + 1)) <$> ivs) as Hivs.
  { intros k. rewrite zip_with_fmap_r, zip_with_diag. apply list_fmap_ext. intros j v Hv.
    pose proof (Forall_lookup_1 _ _ _ _ Hwidth Hv) as Hw. cbn in Hw.
    unfold chunkedIVValue. rewrite chunk_phi, iv_value_next, Ecs by done.
    destruct k; [by apply iv_value_skip | done]. }
  rewrite Hivs. unfold iterSelect. rewrite Ecs.
  destruct (Z.eqb_spec (i mod c + 1) c) as [Ec | Hne]; f_equal.
  - replace (i + 1 + (n - 1) * c) with ((i / c + n) * c) by lia. symmetry. apply Z.mod_mul. lia.
  - rewrite (s64_small (i + 1)) by nia. apply s64_small. nia.
  - apply (Z.mod_unique_pos _ _ (i / c)); lia.
  - apply s64_small. nia.
Qed.

Lemma governing_state i : governing_value (state_of c ivs i) = iv_value governing i.
Proof. done. Qed.

Lemma task_loop_spec guarded t fuel : ∀ i,
  0 ≤ i ≤ N + n * c → owner n c i = t → (Z.to_nat (N - i) < fuel)%nat →
  ∃ evs, task_loop n c governing others exits guarded fuel (state_of c ivs i) = Some evs ∧
    bodies evs = state_of c ivs <$> owned n c t i N ∧
    (guarded = true → i ≤ N → headers evs = state_of c ivs <$> owned n c t i (N + 1)).
Proof.
  induction fuel as [| f IH]; intros i Hi Ho Hf; [lia |]. cbn [task_loop].
  rewrite governing_state, Hexits by done. destruct (Z.leb_spec N i) as [Hle | Hlt].
  - eexists. split; [done |]. cbn. rewrite (owned_empty n c t i N) by done. split; [done |].
    intros _ HiN. assert (i = N) as -> by lia. rewrite owned_cons by lia.
    rewrite decide_True by done. by rewrite (owned_empty n c t (N + 1)) by lia.
  - rewrite latch_state_of by lia.
    destruct (next_index_owner n c Hn Hc i ltac:(lia)) as [Hno Hni].
    set (j := next_index n c i) in *.
    rewrite (owned_step n c Hn Hc t i N), (owned_step n c Hn Hc t i (N + 1)) by lia. fold j.
    rewrite governing_state. unfold latch_clonedCmpInst.
    rewrite previous_value, iv_value_pred by apply governing_width. rewrite Hexits by lia.
    destruct guarded; cbn [andb].
    + destruct (Z.leb_spec N (j - 1)) as [Hend | Hgo].
      * eexists. split; [done |]. cbn.
        rewrite (owned_empty n c t j N), (owned_empty n c t j (N + 1)) by lia. done.
      * destruct (IH j) as (evs & -> & Hb & Hh); [lia | congruence | lia |]. cbn.
        eexists. split; [done |]. rewrite bodies_iteration, headers_iteration, Hb. split; [done |].
        intros _ _. by rewrite (Hh eq_refl) by lia.
    + destruct (IH j) as (evs & -> & Hb & _); [lia | congruence | lia |]. cbn.
      eexists. split; [done |]. rewrite bodies_iteration, Hb. done.
Qed.

(** The start of the governing variable does not come back in the first chunks
    of the tasks. *)
Context (Hstart : iv_value governing 0 = iv_start governing).
Context (Hfirst : ∀ i, 1 ≤ i ≤ (n - 1) * c → iv_value governing i ≠ iv_start governing).

Lemma run_task_spec guarded t : 0 ≤ t < n →
  ∃ evs, run_task t n c governing others exits guarded (S (Z.to_nat N)) = Some evs ∧
    bodies evs = state_of c ivs <$> owned n c t 0 N ∧
    (guarded = true → headers evs = state_of c ivs <$> owned n c t 0 (N + 1)).
Proof.
  intros Ht. unfold run_task. fold ivs. rewrite entry_state_of, governing_state by done.
  assert (0 ≤ t * c ≤ N + n * c) as Htc by nia.
  pose proof (entry_owner n c Hc t Ht) as Ho.
  destruct (task_loop_spec guarded t (S (Z.to_nat N)) (t * c) Htc Ho ltac:(lia)) as (evs & Hev & Hb & Hh).
  rewrite !(owned_entry n c Hc t) by done.
  destruct guarded; cbn [andb]; [| by exists evs].
  unfold preheader_clonedExitCmpInst. rewrite iteration_ago, iv_value_pred by apply governing_width.
  destruct (Z.eqb_spec (iv_value governing (t * c)) (iv_start governing)) as [Es | Hne]; cbn.
  - exists evs. split; [done |]. split; [done |]. intros _. apply Hh; [done |].
    assert (t * c = 0) as ->; [| lia]. destruct (Z.eq_dec (t * c) 0); [done |].
    exfalso. apply (Hfirst (t * c)); [nia | done].
  - assert (t * c ≠ 0) by (intros E0; rewrite E0, Hstart in Hne; done).
    rewrite Hexits by nia. destruct (Z.leb_spec N (t * c - 1)) as [Hend | Hgo].
    + exists []. split; [done |]. rewrite !(owned_empty n c t (t * c)) by lia. done.
    + exists evs. split; [done |]. split; [done |]. intros _. apply Hh; [done | lia].
Qed.
End execution.

(** ** Periodic variables *)

(** One iteration of the sequential loop on a periodic variable: its value and
    how many iterations ago it was at its initial value. *)
Definition periodic_next (pv : PeriodicVariable) (s : Z * Z) : Z * Z :=
  if s.2 + 1 =? pv_period pv then (swrap (pv_width pv) (pv_initial pv), 0)
  else (swrap (pv_width pv) (s.1 + pv_step pv), s.2 + 1).

(** Its value in iteration [i] of the sequential loop. *)
Definition periodic_value (pv : PeriodicVariable) (i : nat) : Z * Z :=
  Nat.iter i (periodic_next pv) (swrap (pv_width pv) (pv_initial pv), 0).

Lemma periodic_value_spec pv i : 1 ≤ pv_width pv → 1 ≤ pv_period pv →
  periodic_value pv i =
  (swrap (pv_width pv) (pv_initial pv + pv_step pv * (Z.of_nat i mod pv_period pv)),
   Z.of_nat i mod pv_period pv).
Proof.
  intros Hw Hp. unfold periodic_value. induction i as [| i IH].
  - cbn [Nat.iter nat_rect Z.of_nat]. rewrite Z.mod_0_l by lia. f_equal. f_equal. lia.
  - rewrite Nat.iter_succ, IH. unfold periodic_next. cbn [fst snd].
    pose proof (Z.mod_pos_bound (Z.of_nat i) (pv_period pv) ltac:(lia)) as Hr.
    pose proof (Z.div_mod (Z.of_nat i) (pv_period pv) ltac:(lia)) as E.
    set (r := Z.of_nat i mod pv_period pv) in *. set (q := Z.of_nat i / pv_period pv) in *.
    destruct (Z.eqb_spec (r + 1) (pv_period pv)) as [Er | Hne].
    + assert (Z.of_nat (S i) mod pv_period pv = 0) as ->.
      { symmetry. apply (Z.mod_unique_pos _ _ (q + 1)); lia. }
      f_equal. f_equal. lia.
    + assert (Z.of_nat (S i) mod pv_period pv = r + 1) as ->.
      { symmetry. apply (Z.mod_unique_pos _ _ q); lia. }
      f_equal. apply swrap_eqm_eq; [done |]. rewrite swrap_eqm.
      by replace (pv_initial pv + pv_step pv * (r + 1)) with
        (pv_initial pv + pv_step pv * r + pv_step pv) by lia.
Qed.

(** Arithmetic modulo [2 ^ 64] is arithmetic modulo every smaller power. *)
Lemma eqm_weaken w v a b : 0 ≤ w ≤ v → eqm v a b → eqm w a b.
Proof.
  unfold eqm, wrap. intros Hw H.
  rewrite <- (Z.mod_mod_divide a (2 ^ v) (2 ^ w)), <- (Z.mod_mod_divide b (2 ^ v) (2 ^ w)).
  - by rewrite H.
  - exists (2 ^ (v - w)). rewrite <- Z.pow_add_r by lia. f_equal. lia.
  - exists (2 ^ (v - w)). rewrite <- Z.pow_add_r by lia. f_equal. lia.
Qed.

(** ** Properties *)

(** C4. A task instance of a DOALL loop of [N] iterations terminates and
    executes the body of exactly the iterations it owns, in increasing order,
    each with every induction variable, the chunk counter and the iteration
    counter at their sequential values; if the header is guarded, its header is
    executed for exactly the iterations it owns among the [N + 1] for which the
    sequential loop executes its header. *)
Theorem doall_task_iterations `{IVUtility} n c N governing others exits guarded t :
  1 ≤ n → 1 ≤ c → 0 ≤ N → N + n * c < 2 ^ 63 → 0 ≤ t < n →
  Forall (λ v, 1 ≤ iv_width v) (governing :: others) →
  (∀ i, 0 ≤ i ≤ N + n * c → exits (iv_value governing i) = (N <=? i)) →
  iv_value governing 0 = iv_start governing →
  (∀ i, 1 ≤ i ≤ (n - 1) * c → iv_value governing i ≠ iv_start governing) →
  ∃ evs, run_task t n c governing others exits guarded (S (Z.to_nat N)) = Some evs ∧
    bodies evs = state_of c (governing :: others) <$> filter (λ i, (i / c) mod n = t) (seqZ 0 N) ∧
    (guarded = true →
     headers evs = state_of c (governing :: others) <$> filter (λ i, (i / c) mod n = t) (seqZ 0 (N + 1))).
Proof.
  intros Hn Hc HN Hs Ht Hw Hex H0 Hf.
  destruct (run_task_spec n c N governing others exits Hn Hc HN Hs Hw Hex H0 Hf guarded t Ht)
    as (evs & He & Hb & Hh).
  exists evs. split; [done |]. unfold owned in *. rewrite !Z.sub_0_r in *. done.
Qed.

(** An 8-bit governing variable 3, 5, 7, ... compared with 13 (5 iterations), on
    3 tasks with chunks of 2. *)
Definition demo_iv : IV := MkIV 8 3 2.
Definition demo_exits (v : Z) : bool := 13 <=? v.

Lemma demo_exits_ok i : 0 ≤ i ≤ 5 + 3 * 2 → demo_exits (iv_value demo_iv i) = (5 <=? i).
Proof.
  intros Hi. unfold iv_value, demo_exits, demo_iv. cbn [iv_width iv_start iv_step].
  rewrite swrap_small by (unfold is_s; cbn; lia).
  destruct (Z.leb_spec 13 (3 + i * 2)), (Z.leb_spec 5 i); lia.
Qed.

Lemma demo_first i : 1 ≤ i ≤ (3 - 1) * 2 → iv_value demo_iv i ≠ iv_start demo_iv.
Proof.
  intros Hi. unfold iv_value, demo_iv. cbn [iv_width iv_start iv_step].
  rewrite swrap_small by (unfold is_s; cbn; lia). lia.
Qed.

Lemma demo_widths : Forall (λ v, 1 ≤ iv_width v) [demo_iv; MkIV 64 100 (-1)].
Proof. by repeat constructor. Qed.

Lemma doall_task_iterations_witness :
  ∃ evs, run_task 1 3 2 demo_iv [MkIV 64 100 (-1)] demo_exits true 6 = Some evs ∧
         bodies evs = [TState 0 [7; 98] 2; TState 1 [9; 97] 3].
Proof.
  destruct (doall_task_iterations 3 2 5 demo_iv [MkIV 64 100 (-1)] demo_exits true 1 ltac:(lia)
    ltac:(lia) ltac:(lia) ltac:(lia) ltac:(lia) demo_widths demo_exits_ok eq_refl demo_first)
    as (evs & He & Hb & _).
  exists evs. split; [exact He |]. rewrite Hb. by vm_compute.
Defined.

(** C3. The parallelized loop runs every iteration once: when the dispatcher of
    the runtime returns, in any schedule, the bodies executed by all the
    invocations it made are those of the iterations 0 to [N - 1] of the
    sequential loop, each once, with the same values of the induction
    variables; and if the header is guarded, the headers executed are those of
    the iterations 0 to [N]. *)
Theorem doall_loop_iterations `{IVUtility} uninit rq c0 p0 s r N governing others exits guarded :
  Pool.pool_wf p0 → steps (Doall.step uninit rq) (Doall.init c0 p0) s → Doall.at_ s = Doall.Returned r →
  let c := Doall.rq_chunkSize rq in
  let cores := Z.max 1 (u32 (Doall.rq_maxNumberOfCores rq)) in
  1 ≤ c → 0 ≤ N → N + cores * c < 2 ^ 63 →
  Forall (λ v, 1 ≤ iv_width v) (governing :: others) →
  (∀ i, 0 ≤ i ≤ N + cores * c → exits (iv_value governing i) = (N <=? i)) →
  iv_value governing 0 = iv_start governing →
  (∀ i, 1 ≤ i ≤ (cores - 1) * c → iv_value governing i ≠ iv_start governing) →
  let task_of k := default [] (run_task (Doall.c_coreID k) (Doall.c_numCores k) (Doall.c_chunkSize k)
                                        governing others exits guarded (S (Z.to_nat N))) in
  concat (map (λ k, bodies (task_of k)) (Doall.calls s)) ≡ₚ
    state_of c (governing :: others) <$> seqZ 0 N ∧
  (guarded = true →
   concat (map (λ k, headers (task_of k)) (Doall.calls s)) ≡ₚ
     state_of c (governing :: others) <$> seqZ 0 (N + 1)).
Proof.
  intros Hwf Hst Hret c cores Hc HN Hs Hw Hex H0 Hf task_of.
  destruct (Doall.returned_calls uninit rq c0 p0 Hwf s r Hst Hret) as (n & Hn & Hcalls). fold cores in Hn.
  assert (n * c ≤ cores * c) as Hle by nia. assert ((n - 1) * c ≤ (cores - 1) * c) by nia.
  assert (∀ t : nat, t ∈ seq 0 (Z.to_nat n) →
    bodies (task_of (Doall.mk rq n t)) =
      state_of c (governing :: others) <$> owned n c (Z.of_nat t) 0 N ∧
    (guarded = true → headers (task_of (Doall.mk rq n t)) =
      state_of c (governing :: others) <$> owned n c (Z.of_nat t) 0 (N + 1))) as Ht.
  { intros t Ht%elem_of_seq. unfold task_of, Doall.mk. cbn.
    destruct (run_task_spec n c N governing others exits ltac:(lia) Hc HN ltac:(lia) Hw
      ltac:(intros i Hi; apply Hex; lia) H0 ltac:(intros i Hi; apply Hf; lia) guarded
      (Z.of_nat t) ltac:(lia)) as (evs & He & Hb & Hh).
    change (Pos.to_nat 1 + Z.to_nat N)%nat with (S (Z.to_nat N)). fold c. rewrite He. done. }
  assert (∀ (f : list event → list tstate) j,
    (∀ t : nat, t ∈ seq 0 (Z.to_nat n) → f (task_of (Doall.mk rq n t)) =
       state_of c (governing :: others) <$> owned n c (Z.of_nat t) 0 j) →
    concat (map (λ k, f (task_of k)) (Doall.calls s)) ≡ₚ
      state_of c (governing :: others) <$> seqZ 0 j) as Hall.
  { intros f j Hfj. rewrite <- (owned_partition n c ltac:(lia) j).
    rewrite <- flat_map_concat_map. etrans; [apply Permutation_flat_map, Hcalls |].
    rewrite flat_map_concat_map. clear Hcalls Ht.
    induction (seq 0 (Z.to_nat n)) as [| t ts IH]; cbn; [done |].
    rewrite fmap_app, Hfj by left. rewrite IH; [done |]. intros t' ?. apply Hfj. by right. }
  split; [apply (Hall bodies); intros; by apply Ht | intros Hg; apply (Hall headers); intros; by apply Ht].
Qed.

Definition demo_wide : IV := MkIV 64 3 2.

Lemma demo_wide_value i : 0 ≤ i ≤ 100 → iv_value demo_wide i = 3 + i * 2.
Proof.
  intros Hi. unfold iv_value, demo_wide. cbn [iv_width iv_start iv_step].
  apply swrap_small; [done |]. apply is_s64_iff. lia.
Qed.

Lemma doall_loop_iterations_witness :
  concat (map (λ k, bodies (default [] (run_task (Doall.c_coreID k) (Doall.c_numCores k)
            (Doall.c_chunkSize k) demo_wide [] demo_exits true 6))) (Doall.calls Doall.demo_final)) ≡ₚ
  [TState 0 [3] 0; TState 1 [5] 1; TState 2 [7] 2; TState 3 [9] 3; TState 0 [11] 4].
Proof.
  exact (proj1 (doall_loop_iterations (Some Pool.zero_args) Doall.demo_request Doall.demo_cores Pool.empty_pool
    Doall.demo_final 3 5 demo_wide [] demo_exits true Pool.empty_pool_wf Doall.doall_demo_steps
    ltac:(by vm_compute) ltac:(done) ltac:(lia) ltac:(by vm_compute) ltac:(by repeat constructor)
    ltac:(change (Z.max 1 (u32 (Doall.rq_maxNumberOfCores Doall.demo_request))) with 16;
          change (Doall.rq_chunkSize Doall.demo_request) with 4;
          intros i Hi; rewrite demo_wide_value by lia; unfold demo_exits;
          destruct (Z.leb_spec 13 (3 + i * 2)), (Z.leb_spec 5 i); lia)
    eq_refl
    ltac:(change (Z.max 1 (u32 (Doall.rq_maxNumberOfCores Doall.demo_request))) with 16;
          change (Doall.rq_chunkSize Doall.demo_request) with 4;
          intros i Hi; rewrite demo_wide_value by lia; cbn; lia))).
Defined.

(** C19. The value a task recomputes for a periodic variable from the absolute
    iteration counter is, in every iteration, the one the sequential loop would
    have accumulated. *)
Theorem periodic_variable_correct pv c ivs i :
  1 ≤ pv_width pv ≤ 64 → 1 ≤ pv_period pv → 0 ≤ i →
  pvCurr pv (iterCounter (state_of c ivs i)) = (periodic_value pv (Z.to_nat i)).1.
Proof.
  intros Hw Hp Hi. rewrite periodic_value_spec by lia. rewrite Z2Nat.id by done. cbn [fst].
  unfold pvCurr, state_of. cbn [iterCounter]. rewrite Z.rem_mod_nonneg by lia.
  apply swrap_eqm_eq; [lia |]. rewrite swrap_eqm.
  rewrite (eqm_weaken (pv_width pv) 64 (s64 (pv_step pv * (i mod pv_period pv)))
             (pv_step pv * (i mod pv_period pv)) ltac:(lia) (swrap_eqm 64 _)).
  by replace (pv_initial pv + pv_step pv * (i mod pv_period pv)) with
    (pv_step pv * (i mod pv_period pv) + pv_initial pv) by lia.
Qed.

(** An 8-bit variable 100, 120, -116, 100, ...: in iteration 5 it is back at its
    third value. *)
Lemma periodic_variable_correct_witness :
  pvCurr (MkPV 8 100 20 3) 5 = -116 ∧
  pvCurr (MkPV 8 100 20 3) (iterCounter (state_of 2 [] 5)) =
    (periodic_value (MkPV 8 100 20 3) (Z.to_nat 5)).1.
Proof.
  split; [by vm_compute |].
  apply (periodic_variable_correct (MkPV 8 100 20 3) 2 [] 5); cbn; lia.
Defined.
End Chunking.
